(** * Strict tree-rule generator (rulegen.cpp): a shallow embedding

    The development follows the layout of [rulegen.cpp]: the tile arena with
    its union-find walkers, the vertex-loop check, unification, the parent
    oracle, code classification, the rule builder, the possible-parent
    computation, the driver loop and the consumer map [hrmap_rulegen].
    Part I holds the embedding, Part II the statements about it.

    Conventions.
    - C++ [int]/[short] values are [Z]; pointers to tiles are addresses
      ([nat]) into an arena modelled as a [gmap]; a null pointer is [None].
    - Exceptions are values of [exn]; a computation returns [result A].
      Loops and recursive calls that the C++ code does not bound carry a
      fuel argument; running out of fuel is the outcome [Diverge].
    - Callees that are not the subject of any statement (distance
      relaxation, shortcut learning, queue draining, ...) are the fields of
      the class [Callees]: the statements hold whatever those callees do,
      or say which frame property of a callee they rely on. *)

From Stdlib Require Import ZArith Lia Bool String List.
From stdpp Require Import base option list gmap.

Local Open Scope Z_scope.

(** * Part I: the embedding *)

(** ** Exceptions and results *)

(** The exception classes of rulegen.cpp.  In C++ [rulegen_retry] and
    [rulegen_surrender] derive from [rulegen_failure], which derives from
    [hr_exception]; [hr_solid_error] derives from [rulegen_retry]. *)
Inductive exn : Type :=
  | hr_exception (what : string)
  | rulegen_failure (what : string)
  | rulegen_retry (what : string)
  | rulegen_surrender (what : string)
  | hr_solid_error
  | verify_advance_failed.

(** What [catch(rulegen_retry&)] catches. *)
Definition is_retry (e : exn) : bool :=
  match e with
  | rulegen_retry _ | hr_solid_error => true
  | _ => false
  end.

Inductive result (A : Type) : Type :=
  | Ok (a : A)
  | Throw (e : exn)
  | Diverge.

Arguments Ok {A} a.
Arguments Throw {A} e.
Arguments Diverge {A}.

#[global] Instance result_ret : MRet result := fun A a => Ok a.

#[global] Instance result_bind : MBind result := fun A B k m =>
  match m with
  | Ok a => k a
  | Throw e => Throw e
  | Diverge => Diverge
  end.

(** ** Constants of rulegen.cpp *)

Definition MYSTERY : Z := 31999.

Definition Flag (n : Z) : Z := Z.shiftl 1 n.
Definition w_numerical : Z := Flag 1.
Definition w_near_solid : Z := Flag 2.
Definition w_no_shortcut : Z := Flag 3.
Definition w_no_restart : Z := Flag 4.
Definition w_no_sidecache : Z := Flag 5.
Definition w_no_relative_distance : Z := Flag 6.
Definition w_examine_once : Z := Flag 7.
Definition w_conflict_all : Z := Flag 9.
Definition w_parent_always : Z := Flag 10.
Definition w_parent_never : Z := Flag 13.
Definition w_always_clean : Z := Flag 14.
Definition w_known_distances : Z := Flag 20.

(** [flags & w] as a C condition. *)
Definition has_flag (flags w : Z) : bool := negb (Z.land flags w =? 0).

Definition C_IGNORE : Z := 0.
Definition C_CHILD : Z := 1.
Definition C_UNCLE : Z := 2.
Definition C_EQUAL : Z := 4.
Definition C_NEPHEW : Z := 6.
Definition C_PARENT : Z := 8.

Definition DIR_UNKNOWN : Z := -1.
Definition DIR_LEFT : Z := -4.
Definition DIR_RIGHT : Z := -5.
Definition DIR_PARENT : Z := -6.

(** ** The tessellation descriptor *)

(** Modelled from the spec: a shape of [arb::current.shapes] (declared
    outside rulegen.cpp): per edge a connection record
    [(target_shape, target_edge, mirror)], the rotational symmetry divisor
    [cycle_length], and per edge the valence of the vertex to its right.
    [size()] is the number of edges. *)
Record connection : Type := mk_connection { sid : Z; eid : Z; mirror : bool }.

Record shape : Type := mk_shape {
  connections : list connection;
  cycle_length : Z;
  vertex_valence : list Z
}.

Definition shape_size (sh : shape) : Z := Z.of_nat (length (connections sh)).

#[global] Instance shape_inhabited : Inhabited shape := populate (mk_shape [] 0 []).

(** [v[i]] for a C++ vector and an [int] index. *)
Definition vget {A : Type} `{Inhabited A} (v : list A) (i : Z) : A :=
  v !!! Z.to_nat i.

(** ** Tiles and walkers *)

Abbreviation ptr := nat.

(** [walker<tcell>]: a tile and a direction.  Every connection of the
    generator is made with [mirror = false], so the [mirrored] bit of the
    C++ walker is constantly false and is left out.  The constructor keeps
    the spin it is given. *)
Record walker : Type := twalker { at' : ptr; spin : Z }.

Definition walker_eqb (a b : walker) : bool :=
  (at' a =? at' b)%nat && (spin a =? spin b).

(** [struct tcell].  [c] is the connection table: per direction, the
    neighbour and the direction under which the neighbour sees us. *)
Record tcell : Type := mk_tcell {
  next : option ptr;
  id : Z;
  type : Z;
  dist : Z;
  code : Z;
  parent_dir : Z;
  old_parent_dir : Z;
  any_nearer : Z;
  is_solid : bool;
  distance_fixed : bool;
  unified_to : walker;
  c : list (option (ptr * Z))
}.

Definition set_unified_to (t : tcell) (w : walker) : tcell :=
  mk_tcell (next t) (id t) (type t) (dist t) (code t) (parent_dir t)
    (old_parent_dir t) (any_nearer t) (is_solid t) (distance_fixed t) w (c t).

Definition set_is_solid (t : tcell) (b : bool) : tcell :=
  mk_tcell (next t) (id t) (type t) (dist t) (code t) (parent_dir t)
    (old_parent_dir t) (any_nearer t) b (distance_fixed t) (unified_to t) (c t).

Definition set_parent_dir (t : tcell) (d : Z) : tcell :=
  mk_tcell (next t) (id t) (type t) (dist t) (code t) d
    (old_parent_dir t) (any_nearer t) (is_solid t) (distance_fixed t)
    (unified_to t) (c t).

Definition set_any_nearer (t : tcell) (d : Z) : tcell :=
  mk_tcell (next t) (id t) (type t) (dist t) (code t) (parent_dir t)
    (old_parent_dir t) d (is_solid t) (distance_fixed t) (unified_to t) (c t).

Definition set_dist (t : tcell) (d : Z) : tcell :=
  mk_tcell (next t) (id t) (type t) d (code t) (parent_dir t)
    (old_parent_dir t) (any_nearer t) (is_solid t) (distance_fixed t)
    (unified_to t) (c t).

Definition set_code (t : tcell) (d : Z) : tcell :=
  mk_tcell (next t) (id t) (type t) (dist t) d (parent_dir t)
    (old_parent_dir t) (any_nearer t) (is_solid t) (distance_fixed t)
    (unified_to t) (c t).

Definition set_c (t : tcell) (l : list (option (ptr * Z))) : tcell :=
  mk_tcell (next t) (id t) (type t) (dist t) (code t) (parent_dir t)
    (old_parent_dir t) (any_nearer t) (is_solid t) (distance_fixed t)
    (unified_to t) l.

#[global] Instance tcell_inhabited : Inhabited tcell :=
  populate (mk_tcell None 0 0 MYSTERY MYSTERY MYSTERY MYSTERY 0 false false
              (twalker 0%nat 0) []).

(** The tile [gen_tcell] builds at address [a] for shape [sid] with [d]
    edges: every edge open, every cache unset, unified to itself. *)
Definition new_tcell (a : ptr) (sid d : Z) (nxt : option ptr) : tcell :=
  mk_tcell nxt sid d MYSTERY MYSTERY MYSTERY MYSTERY 0 false false
    (twalker a 0) (replicate (Z.to_nat d) None).

(** The arena.  Tiles are never freed during a run, so every pointer held by
    a walker is the address of a tile; [h !!! p] reads it. *)
Abbreviation heap := (gmap ptr tcell).

Definition upd (h : heap) (p : ptr) (f : tcell -> tcell) : heap :=
  <[p := f (h !!! p)]> h.

(** Modelled from the spec: the walker operations of the engine's generic
    [walker<T>] (declared outside rulegen.cpp): [+k] rotates the spin modulo
    the tile's [type], [to_spin(s)] is [s - spin] modulo [type], [peek] is the
    neighbour across the current edge if that edge is materialized. *)
Definition wplus (h : heap) (w : walker) (k : Z) : walker :=
  twalker (at' w) ((spin w + k) mod type (h !!! at' w)).

Definition wminus (h : heap) (w : walker) (k : Z) : walker :=
  twalker (at' w) ((spin w - k) mod type (h !!! at' w)).

Definition to_spin (h : heap) (w : walker) (s : Z) : Z :=
  (s - spin w) mod type (h !!! at' w).

(** [c.move(d)] together with [c.spin(d)]. *)
Definition move (t : tcell) (d : Z) : option (ptr * Z) :=
  if d <? 0 then None else mjoin (c t !! Z.to_nat d).

Definition peek (h : heap) (w : walker) : option (ptr * Z) :=
  move (h !!! at' w) (spin w).

(** Modelled from the spec: [c.connect(d0, t1, d1, false)] of the engine's
    connection table installs the edge in both directions. *)
Definition set_edge (d : Z) (e : option (ptr * Z)) (t : tcell) : tcell :=
  set_c t (<[Z.to_nat d := e]> (c t)).

Definition connect (h : heap) (p1 p2 : walker) : heap :=
  let h1 := upd h (at' p1) (set_edge (spin p1) (Some (at' p2, spin p2))) in
  upd h1 (at' p2) (set_edge (spin p2) (Some (at' p1, spin p1))).

(** ** Union-find: [ufind] *)

(** [ufind(p)]: follow [unified_to] to the representative, compressing the
    path and accumulating the rotation into the walker. *)
Fixpoint ufind (fuel : nat) (h : heap) (p : walker) : result (heap * walker) :=
  match fuel with
  | O => Diverge
  | S fuel' =>
      if (at' (unified_to (h !!! at' p)) =? at' p)%nat then Ok (h, p)
      else
        let p1 := unified_to (h !!! at' p) in
        '(h1, p1') ← ufind fuel' h p1;
        let h2 := upd h1 (at' p) (fun t => set_unified_to t p1') in
        Ok (h2, wplus h2 p1' (spin p))
  end.

(** The cell of the universal cover a walker stands for: the representative
    walker obtained by following the [unified_to] links without changing
    them.  The index is the number of links followed. *)
Inductive denotes (h : heap) : walker -> walker -> nat -> Prop :=
  | denotes_rep p :
      at' (unified_to (h !!! at' p)) = at' p ->
      denotes h p p O
  | denotes_link p r n :
      at' (unified_to (h !!! at' p)) <> at' p ->
      denotes h (unified_to (h !!! at' p)) r n ->
      denotes h p (wplus h r (spin p)) (S n).

(** The rotation accumulated along the chain of [n] links from tile [t]. *)
Fixpoint rotation (h : heap) (t : ptr) (n : nat) : Z :=
  match n with
  | O => 0
  | S n' =>
      let u := unified_to (h !!! t) in
      spin u + rotation h (at' u) n'
  end.

(** The tile reached after [n] links. *)
Fixpoint link_end (h : heap) (t : ptr) (n : nat) : ptr :=
  match n with
  | O => t
  | S n' => link_end h (at' (unified_to (h !!! t))) n'
  end.

(** A tile is a representative when its [unified_to] points at itself. *)
Definition is_rep (h : heap) (t : ptr) : Prop :=
  at' (unified_to (h !!! t)) = t.

(** The [unified_to] chain of [t] reaches the self-looping tile [rep] after
    exactly [n] links. *)
Definition reaches (h : heap) (t rep : ptr) (n : nat) : Prop :=
  link_end h t n = rep /\ is_rep h rep /\
  forall k, (k < n)%nat -> ~ is_rep h (link_end h t k).

(** [h'] is [h] with some links replaced by what they stand for: the two
    arenas differ in [unified_to] fields only, and every changed link is the
    representative walker of the old link. *)
Definition compressed (h h' : heap) : Prop :=
  forall t,
    set_unified_to (h' !!! t) (unified_to (h !!! t)) = h !!! t /\
    (unified_to (h' !!! t) = unified_to (h !!! t) \/
     (~ is_rep h t /\
      exists k, denotes h (unified_to (h !!! t)) (unified_to (h' !!! t)) k)).

(** ** Tree states and the generator's global state *)

(** [aid_t] and [code_t]. *)
Definition aid_t : Type := Z * Z.
Definition code_t : Type := aid_t * list Z.

(** [struct treestate].  A default-constructed [giver] has a null [at];
    it is [None] here. *)
Record treestate : Type := mk_treestate {
  ts_id : Z;
  known : bool;
  rules : list Z;
  giver : option walker;
  ts_sid : Z;
  ts_parent_dir : Z;
  where_seen : option walker;
  ts_code : code_t;
  is_live : bool;
  is_possible_parent : bool;
  is_root : bool;
  possible_parents : list (Z * Z)
}.

#[global] Instance treestate_inhabited : Inhabited treestate :=
  populate (mk_treestate 0 false [] None 0 0 None ((0, 0), []) false false false []).

(** A deferred closure of [fix_queue]. *)
Inductive reaction : Type :=
  | do_unify (a b : walker)
  | do_check_loops (p : walker).

(** The globals of rulegen.cpp that the embedded functions read or write. *)
Record gstate : Type := mk_gstate {
  tiles : heap;
  tcellcount : Z;
  tunified : Z;
  hard_parents : Z;
  parent_updates : Z;
  solid_errors : Z;
  no_errors : bool;
  fix_queue : list reaction;
  in_fixing : bool;
  treestates : list treestate;
  code_to_id : gmap code_t Z;
  try_count : Z
}.

Definition with_tiles (g : gstate) (h : heap) : gstate :=
  mk_gstate h (tcellcount g) (tunified g) (hard_parents g) (parent_updates g)
    (solid_errors g) (no_errors g) (fix_queue g) (in_fixing g) (treestates g)
    (code_to_id g) (try_count g).

Definition with_tunified (g : gstate) (n : Z) : gstate :=
  mk_gstate (tiles g) (tcellcount g) n (hard_parents g) (parent_updates g)
    (solid_errors g) (no_errors g) (fix_queue g) (in_fixing g) (treestates g)
    (code_to_id g) (try_count g).

Definition with_hard_parents (g : gstate) (n : Z) : gstate :=
  mk_gstate (tiles g) (tcellcount g) (tunified g) n (parent_updates g)
    (solid_errors g) (no_errors g) (fix_queue g) (in_fixing g) (treestates g)
    (code_to_id g) (try_count g).

Definition with_parent_updates (g : gstate) (n : Z) : gstate :=
  mk_gstate (tiles g) (tcellcount g) (tunified g) (hard_parents g) n
    (solid_errors g) (no_errors g) (fix_queue g) (in_fixing g) (treestates g)
    (code_to_id g) (try_count g).

Definition with_solid_errors (g : gstate) (n : Z) : gstate :=
  mk_gstate (tiles g) (tcellcount g) (tunified g) (hard_parents g)
    (parent_updates g) n (no_errors g) (fix_queue g) (in_fixing g)
    (treestates g) (code_to_id g) (try_count g).

Definition with_fix_queue (g : gstate) (q : list reaction) : gstate :=
  mk_gstate (tiles g) (tcellcount g) (tunified g) (hard_parents g)
    (parent_updates g) (solid_errors g) (no_errors g) q (in_fixing g)
    (treestates g) (code_to_id g) (try_count g).

Definition with_treestates (g : gstate) (l : list treestate) : gstate :=
  mk_gstate (tiles g) (tcellcount g) (tunified g) (hard_parents g)
    (parent_updates g) (solid_errors g) (no_errors g) (fix_queue g)
    (in_fixing g) l (code_to_id g) (try_count g).

Definition with_code_to_id (g : gstate) (m : gmap code_t Z) : gstate :=
  mk_gstate (tiles g) (tcellcount g) (tunified g) (hard_parents g)
    (parent_updates g) (solid_errors g) (no_errors g) (fix_queue g)
    (in_fixing g) (treestates g) m (try_count g).

Definition with_try_count (g : gstate) (n : Z) : gstate :=
  mk_gstate (tiles g) (tcellcount g) (tunified g) (hard_parents g)
    (parent_updates g) (solid_errors g) (no_errors g) (fix_queue g)
    (in_fixing g) (treestates g) (code_to_id g) n.

(** Write one tile of the arena. *)
Definition upd_tile (g : gstate) (p : ptr) (f : tcell -> tcell) : gstate :=
  with_tiles g (upd (tiles g) p f).

(** How one rules-iteration ends: it returns, or an exception escapes it.
    Either way the globals keep what the iteration wrote. *)
Inductive outcome : Type :=
  | finished
  | raised (e : exn).

(** ** The environment of the embedded functions *)

(** The tessellation and the limits and flags of a run. *)
Class Setup : Type := {
  shapes : list shape;
  flags : Z;
  max_retries : Z;
  max_tcellcount : Z
}.

(** The functions of rulegen.cpp (and of the engine) that are called by the
    embedded ones but are not embedded themselves.
    - [process_fix_queue]: drain [fix_queue];
    - [unify_distances c1 c2 delta], [fix_distances c]: the distance engine;
    - [look_for_shortcuts_in c]: the loop of [look_for_shortcuts(c)] over the
      shortcuts of [c]'s shape;
    - [find_new_shortcuts c d alt newdir delta];
    - [tmove_new c d]: the part of [tmove] that materializes a missing edge;
    - [ensure_shorter_known cw]: the body of [ensure_shorter] under
      [w_known_distances];
    - [analyze cw]: [get_analyzer(cw)] and [spread(a, cw)], returning the
      analyzer's [parent_id] vector and the spread;
    - [get_side];
    - [check_timeout], [setup_run] (the part of [generate_rules] before its
      loop) and [rules_iteration_body] (the part of [rules_iteration] after
      [try_count++]). *)
Class Callees : Type := {
  process_fix_queue : gstate -> result gstate;
  unify_distances : gstate -> ptr -> ptr -> Z -> result gstate;
  fix_distances : gstate -> ptr -> result gstate;
  look_for_shortcuts_in : gstate -> ptr -> result gstate;
  find_new_shortcuts : gstate -> ptr -> Z -> ptr -> Z -> Z -> result gstate;
  tmove_new : gstate -> ptr -> Z -> result (gstate * ptr);
  ensure_shorter_known : gstate -> walker -> result gstate;
  analyze : gstate -> walker -> result (gstate * list Z * list walker);
  get_side : gstate -> walker -> result (gstate * Z);
  check_timeout : gstate -> result gstate;
  setup_run : gstate -> result gstate;
  rules_iteration_body : gstate -> gstate * outcome
}.

(** Reading through a null pointer is undefined behaviour in C++; where a
    function would do so the embedding stops with this exception. *)
Definition null_deref : exn := hr_exception "null pointer".

(** ** The tile graph *)

Section TileGraph.

Context {su : Setup} {ca : Callees}.

(** [ufind] on the arena of the global state. *)
Definition ufind_s (fuel : nat) (g : gstate) (p : walker) : result (gstate * walker) :=
  '(h, p') ← ufind fuel (tiles g) p;
  Ok (with_tiles g h, p').

(** [ufindc(c)]: [twalker cw = c; ufind(cw); c = cw.at]. *)
Definition ufindc (fuel : nat) (g : gstate) (c : ptr) : result (gstate * ptr) :=
  '(g', cw) ← ufind_s fuel g (twalker c 0);
  Ok (g', at' cw).

(** [push_unify(a, b)]. *)
Definition push_unify (g : gstate) (a b : walker) : result gstate :=
  if negb (id (tiles g !!! at' a) =? id (tiles g !!! at' b)) then
    Throw (hr_exception "queued bad unify")
  else Ok (with_fix_queue g (fix_queue g ++ [do_unify a b])).

(** [connect_and_check(p1, p2)]. *)
Definition connect_and_check (fuel : nat) (g : gstate) (p1 p2 : walker) : result gstate :=
  '(g, p1) ← ufind_s fuel g p1;
  '(g, p2) ← ufind_s fuel g p2;
  let g := with_tiles g (connect (tiles g) p1 p2) in
  let g := with_fix_queue g (fix_queue g ++ [do_check_loops p1]) in
  let g := with_fix_queue g (fix_queue g ++ [do_check_loops p2]) in
  process_fix_queue g.

(** *** [check_loops] *)

(** How one of the two [while(true)] loops of [check_loops] is left. *)
Inductive loop_exit : Type :=
  | known_loop
  | unify_ends (pwf pwb : walker)
  | open_end (pw : walker) (steps : Z).

(** The first loop: walk backwards, [pwb = pwb + wstep - 1]. *)
Fixpoint check_loops_back (fuel : nat) (h : heap) (valence : Z)
    (pwf pwb : walker) (steps : Z) : result loop_exit :=
  match fuel with
  | O => Diverge
  | S fuel' =>
      match peek h pwb with
      | None => Ok (open_end pwb steps)
      | Some (t, s) =>
          let pwb := wminus h (twalker t s) 1 in
          let steps := steps + 1 in
          if walker_eqb pwb pwf then
            if steps =? valence then Ok known_loop
            else Throw (hr_exception "vertex valence too small")
          else if steps =? valence then Ok (unify_ends pwf pwb)
          else check_loops_back fuel' h valence pwf pwb steps
      end
  end.

(** The second loop: walk forwards, [pwf++; pwf += wstep]. *)
Fixpoint check_loops_fwd (fuel : nat) (h : heap) (valence : Z)
    (pwf pwb : walker) (steps : Z) : result loop_exit :=
  match fuel with
  | O => Diverge
  | S fuel' =>
      let pwf := wplus h pwf 1 in
      match peek h pwf with
      | None => Ok (open_end pwf steps)
      | Some (t, s) =>
          let pwf := twalker t s in
          let steps := steps + 1 in
          if walker_eqb pwb pwf then
            if steps =? valence then Ok known_loop
            else Throw (hr_exception "vertex valence too small")
          else if steps =? valence then Ok (unify_ends pwf pwb)
          else check_loops_fwd fuel' h valence pwf pwb steps
      end
  end.

(** [shs[id].vertex_valence[pw.spin]]. *)
Definition valence_at (h : heap) (pw : walker) : Z :=
  vget (vertex_valence (vget shapes (id (h !!! at' pw)))) (spin pw).

(** [check_loops(pw)]. *)
Definition check_loops (fuel : nat) (g : gstate) (pw : walker) : result gstate :=
  '(g, pw) ← ufind_s fuel g pw;
  let valence := valence_at (tiles g) pw in
  e ← check_loops_back fuel (tiles g) valence pw pw 0;
  match e with
  | known_loop => Ok g
  | unify_ends pwf pwb => push_unify g pwf pwb
  | open_end pwb steps =>
      e ← check_loops_fwd fuel (tiles g) valence pw pwb steps;
      match e with
      | known_loop => Ok g
      | unify_ends pwf pwb => push_unify g pwf pwb
      | open_end pwf steps =>
          if steps =? valence - 1 then
            g ← connect_and_check fuel g pwb pwf;
            fix_distances g (at' pwb)
          else Ok g
      end
  end.

(** *** [unify] *)

(** The [for] loop of [unify] that moves the edges of [pw2]'s tile over to
    [pw1]'s tile; [n] is the number of iterations left. *)
Fixpoint unify_edges (n fuel : nat) (g : gstate) (pw1 pw2 : walker)
    : result (gstate * walker * walker) :=
  match n with
  | O => Ok (g, pw1, pw2)
  | S n' =>
      g ← match peek (tiles g) pw2 with
          | None => Ok g
          | Some (t2, s2) =>
              match peek (tiles g) pw1 with
              | None => connect_and_check fuel g pw1 (twalker t2 s2)
              | Some (t1, s1) =>
                  g ← push_unify g (twalker t1 s1) (twalker t2 s2);
                  let ss := twalker t1 s1 in
                  g ← connect_and_check fuel g pw1 (twalker t2 s2);
                  connect_and_check fuel g pw1 ss
              end
          end;
      unify_edges n' fuel g (wplus (tiles g) pw1 1) (wplus (tiles g) pw2 1)
  end.

(** [unify(pw1, pw2)].  C's [%] is [Z.rem]. *)
Definition unify (fuel : nat) (g : gstate) (pw1 pw2 : walker) : result gstate :=
  '(g, pw1) ← ufind_s fuel g pw1;
  '(g, pw2) ← ufind_s fuel g pw2;
  if walker_eqb pw1 pw2 then Ok g
  else if negb (at' (unified_to (tiles g !!! at' pw1)) =? at' pw1)%nat then
    Throw (hr_exception "not unified to itself")
  else if negb (at' (unified_to (tiles g !!! at' pw2)) =? at' pw2)%nat then
    Throw (hr_exception "not unified to itself")
  else if (at' pw1 =? at' pw2)%nat then
    if negb (spin pw1 =? spin pw2) then
      Throw (hr_exception "called unify with self and wrong direction")
    else Ok g
  else if negb (id (tiles g !!! at' pw1) =? id (tiles g !!! at' pw2)) then
    Throw (hr_exception "unifying two cells of different id's")
  else
    let sh := vget shapes (id (tiles g !!! at' pw1)) in
    if negb (Z.rem (spin pw1 - spin pw2) (cycle_length sh) =? 0) then
      Throw (hr_exception "unification spin disagrees with cycle_length")
    else
      g ← unify_distances g (at' pw1) (at' pw2) (spin pw2 - spin pw1);
      '(g, pw1, pw2) ← unify_edges (Z.to_nat (shape_size sh)) fuel g pw1 pw2;
      let g := upd_tile g (at' pw2)
                 (fun t => set_unified_to t (wminus (tiles g) pw1 (spin pw2))) in
      let g := with_tunified g (tunified g + 1) in
      fix_distances g (at' pw1).

End TileGraph.

(** ** Solid tiles and the parent-direction oracle *)

Section ParentDir.

Context {su : Setup} {ca : Callees}.

(** [calc_distances(c)]. *)
Definition calc_distances (g : gstate) (c : ptr) : result gstate :=
  if negb (dist (tiles g !!! c) =? MYSTERY) then Ok g
  else fix_distances g c.

(** [look_for_shortcuts(c)]. *)
Definition look_for_shortcuts (g : gstate) (c : ptr) : result gstate :=
  if dist (tiles g !!! c) >? 0 then look_for_shortcuts_in g c
  else Ok g.

(** [handle_distance_errors()].  What the function clears before it throws
    ([sidecache], and the data cleaned under [w_always_clean]) is not part
    of the state an exception leaves behind here. *)
Definition handle_distance_errors (g : gstate) : result gstate :=
  let b := negb (solid_errors g =? 0) in
  let g := with_solid_errors g 0 in
  if b && negb (no_errors g) then Throw hr_solid_error
  else Ok g.

(** [be_solid(c)]. *)
Fixpoint be_solid (fuel : nat) (g : gstate) (c : ptr) : result gstate :=
  match fuel with
  | O => Diverge
  | S fuel' =>
      if is_solid (tiles g !!! c) then Ok g
      else if tcellcount g >=? max_tcellcount then
        Throw (rulegen_surrender "max_tcellcount exceeded")
      else
        '(g, c) ← ufindc fuel g c;
        g ← calc_distances g c;
        '(g, c) ← ufindc fuel g c;
        g ← look_for_shortcuts g c;
        '(g, c) ← ufindc fuel g c;
        if dist (tiles g !!! c) =? MYSTERY then
          Throw (rulegen_failure "set solid but no dist")
        else
          let g := upd_tile g c (fun t => set_is_solid t true) in
          let t := tiles g !!! c in
          if (dist t >? 0) && negb (has_flag flags w_near_solid)
             && (any_nearer t >=? 0) && (any_nearer t <? type t) then
            match move t (any_nearer t) with
            | Some (c1, _) => be_solid fuel' g c1
            | None => Ok g
            end
          else Ok g
  end.

(** [tmove(c, d)], which is also [c->cmove(d)]. *)
Definition tmove (g : gstate) (c : ptr) (d : Z) : result (gstate * ptr) :=
  if (d <? 0) || (d >=? type (tiles g !!! c)) then
    Throw (hr_exception "wrong d")
  else
    match move (tiles g !!! c) d with
    | Some (c1, _) => Ok (g, c1)
    | None => tmove_new g c d
    end.

(** [w + wstep] on a [twalker]: the engine's step first materializes the
    edge through [cmove], then crosses it. *)
Definition wstep (g : gstate) (w : walker) : result (gstate * walker) :=
  '(g, _) ← tmove g (at' w) (spin w);
  match peek (tiles g) w with
  | Some (t, s) => Ok (g, twalker t s)
  | None => Throw null_deref
  end.

(** [ensure_shorter(cw)]. *)
Definition ensure_shorter (g : gstate) (cw : walker) : result gstate :=
  if has_flag flags w_known_distances then ensure_shorter_known g cw
  else Ok g.

(** The lambda [beats] of [get_parent_dir]; [k] is the cycle length. *)
Definition beats (k i old : Z) : bool :=
  if old =? -1 then true
  else if negb (Z.rem i k =? Z.rem old k) then Z.rem i k <? Z.rem old k
  else true.

(** [for(auto ne: nearer) if(beats(ne, bestd)) bestd = ne;] *)
Definition scan_best (k : Z) (nearer : list Z) (bestd : Z) : Z :=
  fold_left (fun bestd ne => if beats k ne bestd then ne else bestd) nearer bestd.

(** [for(auto ne: nearer) if(ne != bestd && beats(ne, bestd)) failed = true;] *)
Definition scan_failed (k : Z) (nearer : list Z) (bestd : Z) : bool :=
  existsb (fun ne => negb (ne =? bestd) && beats k ne bestd) nearer.

(** The result type of [get_parent_dir]: the globals, the argument [cw]
    (passed by reference) and the returned walker. *)
Definition gpd_result : Type := result (gstate * walker * walker).

(** [beats_exhaustive(w1, w2)], over the function used for its calls of
    [get_parent_dir]. *)
Fixpoint beats_exhaustive_with (gpd : gstate -> walker -> gpd_result)
    (fuel : nat) (g : gstate) (w1 w2 : walker) : result (gstate * bool) :=
  match fuel with
  | O => Diverge
  | S fuel' =>
      '(g, w1) ← wstep g w1;
      '(g, w2) ← wstep g w2;
      if dist (tiles g !!! at' w1) =? 0 then Ok (g, spin w2 <? spin w1)
      else
        g ← be_solid (S fuel') g (at' w1);
        g ← be_solid (S fuel') g (at' w2);
        g ← handle_distance_errors g;
        '(g, w1, sw1) ← gpd g w1;
        '(g, w2, sw2) ← gpd g w2;
        let d1 := to_spin (tiles g) w1 (spin sw1) in
        let d2 := to_spin (tiles g) w2 (spin sw2) in
        if negb (d1 =? d2) then Ok (g, d1 <? d2)
        else beats_exhaustive_with gpd fuel' g sw1 sw2
  end.

(** The first loop of [get_parent_dir]: collect the directions of the
    strictly nearer neighbours.  [None] stands for the early
    [return get_parent_dir(cw)] taken when the tile changed under us. *)
Fixpoint collect_nearer (todo fuel : nat) (i : Z) (g : gstate) (cw : walker)
    (oc : ptr) (d : Z) (nearer : list Z)
    : result (gstate * walker * option (list Z)) :=
  match todo with
  | O => Ok (g, cw, Some nearer)
  | S todo' =>
      g ← ensure_shorter g (wplus (tiles g) cw i);
      '(g, c1) ← tmove g (at' cw) i;
      g ← be_solid fuel g c1;
      let nearer := if dist (tiles g !!! c1) <? d then nearer ++ [i] else nearer in
      '(g, cw) ← ufind_s fuel g cw;
      if negb (d =? dist (tiles g !!! at' cw)) || negb (oc =? at' cw)%nat then
        Ok (g, cw, None)
      else collect_nearer todo' fuel (i + 1) g cw oc d nearer
  end.

(** The loop after the label [resolve]. *)
Fixpoint resolve_loop (be : gstate -> walker -> walker -> result (gstate * bool))
    (c : ptr) (l : list Z) (g : gstate) (bestd : Z) : result (gstate * Z) :=
  match l with
  | [] => Ok (g, bestd)
  | ne1 :: l' =>
      if negb (ne1 =? bestd) then
        '(g, b) ← be g (twalker c ne1) (twalker c bestd);
        resolve_loop be c l' g (if (b : bool) then ne1 else bestd)
      else resolve_loop be c l' g bestd
  end.

(** The end of [get_parent_dir], from [c->parent_dir = bestd] on. *)
Definition set_parent (g : gstate) (cw : walker) (oc : ptr) (bestd : Z) : gpd_result :=
  let c := at' cw in
  let g := upd_tile g c (fun t => set_parent_dir t bestd) in
  let t := tiles g !!! c in
  g ← (if negb (old_parent_dir t =? MYSTERY) && negb (old_parent_dir t =? bestd)
          && (c =? oc)%nat then
         let g := upd_tile g c (fun t => set_any_nearer t (old_parent_dir t)) in
         find_new_shortcuts g c (dist (tiles g !!! c)) c bestd 0
       else Ok g);
  let g := with_parent_updates g (parent_updates g + 1) in
  Ok (g, cw, twalker c bestd).

(** [get_parent_dir(cw)]. *)
Fixpoint get_parent_dir (fuel : nat) (g : gstate) (cw : walker) : gpd_result :=
  match fuel with
  | O => Diverge
  | S fuel' =>
      let c := at' cw in
      if negb (parent_dir (tiles g !!! c) =? MYSTERY) then
        Ok (g, cw, twalker c (parent_dir (tiles g !!! c)))
      else
        let bestd := -1 in
        g ← be_solid fuel g c;
        let oc := c in
        if dist (tiles g !!! c) >? 0 then
          let sh := vget shapes (id (tiles g !!! c)) in
          let n := shape_size sh in
          let k := cycle_length sh in
          let d := dist (tiles g !!! c) in
          '(g, cw, collected) ← collect_nearer (Z.to_nat n) fuel 0 g cw oc d [];
          match collected with
          | None => get_parent_dir fuel' g cw
          | Some nearer =>
              let resolve (g : gstate) :=
                let g := with_hard_parents g (hard_parents g + 1) in
                resolve_loop (beats_exhaustive_with (get_parent_dir fuel') fuel')
                  (at' cw) nearer g (vget nearer 0) in
              '(g, bestd) ←
                (if has_flag flags w_parent_always then resolve g
                 else
                   let bestd := scan_best k nearer bestd in
                   if scan_failed k nearer bestd then
                     if has_flag flags w_parent_never then
                       Throw (rulegen_failure "still confused")
                     else resolve g
                   else Ok (g, bestd));
              if bestd =? -1 then Throw (rulegen_failure "should not happen")
              else set_parent g cw oc bestd
          end
        else set_parent g cw oc bestd
  end.

(** [beats_exhaustive(w1, w2)]. *)
Definition beats_exhaustive (fuel : nat) : gstate -> walker -> walker -> result (gstate * bool) :=
  beats_exhaustive_with (get_parent_dir fuel) fuel.

End ParentDir.

(** ** Codes and rules *)

Section Codes.

Context {su : Setup} {ca : Callees}.

(** Modelled from the spec: [gmod], the engine's non-negative remainder
    (declared outside rulegen.cpp). *)
Definition gmod (i j : Z) : Z := i mod j.

(** [get_aid(cw)]. *)
Definition get_aid (fuel : nat) (g : gstate) (cw : walker) : result (gstate * aid_t) :=
  '(g, cw) ← ufind_s fuel g cw;
  let ide := id (tiles g !!! at' cw) in
  Ok (g, (ide, gmod (to_spin (tiles g) cw 0) (cycle_length (vget shapes ide)))).

(** The classification by relative distance in [id_at_spin]:
    [y] is [cs.at->dist - cs.peek()->dist].  The message of the failure,
    which in the source goes on with the values involved, is cut after its
    fixed part. *)
Definition distance_class (y : Z) : result Z :=
  if negb (has_flag flags w_no_relative_distance) then Ok C_EQUAL
  else if y =? 1 then Ok C_NEPHEW
  else if y =? 0 then Ok C_EQUAL
  else if y =? -1 then Ok C_UNCLE
  else Throw (rulegen_failure "distance problem").

(** [if(gs == 0 && x == C_UNCLE) x = C_PARENT; if(gs > 0) x++;] *)
Definition side_class (x gs : Z) : Z :=
  let x := if (gs =? 0) && (x =? C_UNCLE) then C_PARENT else x in
  if gs >? 0 then x + 1 else x.

(** The classification of a spread entry that is neither ignored nor the
    root: the [else] branch of the loop body of [id_at_spin]. *)
Definition classify_entry (fuel : nat) (g : gstate) (cs : walker) : result (gstate * Z) :=
  '(g, cs, child) ←
    (if negb (dist (tiles g !!! at' cs) =? 0) then
       '(g, cs, csd) ← get_parent_dir fuel g cs;
       Ok (g, cs, walker_eqb cs csd)
     else Ok (g, cs, false));
  if (child : bool) then Ok (g, C_CHILD)
  else
    '(g, cs2) ← wstep g cs;
    '(g, cs) ← ufind_s fuel g cs;
    '(g, cs2) ← ufind_s fuel g cs2;
    g ← be_solid fuel g (at' cs2);
    g ← fix_distances g (at' cs);
    match peek (tiles g) cs with
    | None => Throw null_deref
    | Some (pk, _) =>
        let y := dist (tiles g !!! at' cs) - dist (tiles g !!! pk) in
        x ← distance_class y;
        '(g, gs) ← get_side g cs;
        Ok (g, side_class x gs)
    end.

(** The loop of [id_at_spin] over the spread; [i] is the variable [id] of
    the source and [res] is [res.second]. *)
Fixpoint id_at_spin_loop (fuel : nat) (parent_id : list Z) (sprawl : list walker)
    (i : Z) (g : gstate) (cw : walker) (res : list Z) : result (gstate * list Z) :=
  match sprawl with
  | [] => Ok (g, res)
  | cs :: sprawl' =>
      g ← be_solid fuel g (at' cs);
      g ← be_solid fuel g (at' cw);
      '(g, cw) ← ufind_s fuel g cw;
      '(g, cs) ← ufind_s fuel g cs;
      let pid := vget parent_id i in
      '(g, x) ←
        (if (pid >? -1) && negb (vget res pid =? C_CHILD) then Ok (g, C_IGNORE)
         else if i =? 0 then Ok (g, C_CHILD)
         else classify_entry fuel g cs);
      id_at_spin_loop fuel parent_id sprawl' (i + 1) g cw (res ++ [x])
  end.

(** [id_at_spin(cw)]. *)
Definition id_at_spin (fuel : nat) (g : gstate) (cw : walker) : result (gstate * code_t) :=
  '(g, cw) ← ufind_s fuel g cw;
  '(g, aid) ← get_aid fuel g cw;
  '(g, parent_id, sprawl) ← analyze g cw;
  '(g, second) ← id_at_spin_loop fuel parent_id sprawl 0 g cw [];
  Ok (g, (aid, second)).

(** [get_code(cw)]: the globals, the argument [cw] (passed by reference)
    and the returned pair. *)
Definition get_code (fuel : nat) (g : gstate) (cw : walker)
    : result (gstate * walker * (Z * Z)) :=
  let c := at' cw in
  let t := tiles g !!! c in
  if negb (code t =? MYSTERY) && negb (parent_dir t =? MYSTERY) then
    let bestd := parent_dir t in
    let bestd := if bestd =? -1 then 0 else bestd in
    Ok (g, cw, (bestd, code t))
  else
    g ← be_solid fuel g c;
    '(g, cw, cd) ←
      (if dist (tiles g !!! c) =? 0 then Ok (g, cw, twalker c 0)
       else get_parent_dir fuel g cw);
    '(g, cw) ← (if negb (at' cd =? c)%nat then ufind_s fuel g cw else Ok (g, cw));
    '(g, v) ← id_at_spin fuel g cd;
    match code_to_id g !! v with
    | Some n =>
        let g := upd_tile g (at' cd) (fun t => set_code t n) in
        Ok (g, cw, (spin cd, n))
    | None =>
        let n := Z.of_nat (length (treestates g)) in
        let g := with_code_to_id g (<[v := n]> (code_to_id g)) in
        let t := tiles g !!! at' cd in
        if negb (code t =? MYSTERY)
           && (negb (code t =? n) || negb (parent_dir t =? spin cd)) then
          Throw (rulegen_retry "exit from get_code")
        else
          let g := upd_tile g (at' cd) (fun t => set_code t n) in
          let nts := mk_treestate n false [] None 0 0 (Some cw) v true false false [] in
          let g := with_treestates g (treestates g ++ [nts]) in
          Ok (g, cw, (spin cd, n))
    end.

(** The first loop of [gen_rule]: one entry per edge [a] of the tile;
    [todo] is the number of edges left. *)
Fixpoint gen_rule_edges (todo fuel : nat) (a : Z) (g : gstate) (cwmain : walker)
    (cids : list Z) : result (gstate * list Z) :=
  match todo with
  | O => Ok (g, cids)
  | S todo' =>
      let front := wplus (tiles g) cwmain a in
      '(g, c1) ← wstep g front;
      g ← be_solid fuel g (at' c1);
      if (a =? 0) && negb (dist (tiles g !!! at' cwmain) =? 0) then
        gen_rule_edges todo' fuel (a + 1) g cwmain (cids ++ [DIR_PARENT])
      else if dist (tiles g !!! at' c1) <=? dist (tiles g !!! at' cwmain) then
        gen_rule_edges todo' fuel (a + 1) g cwmain (cids ++ [DIR_UNKNOWN])
      else
        '(g, c1, co) ← get_code fuel g c1;
        let d1 := co.1 in
        let id1 := co.2 in
        '(g, back) ← tmove g (at' c1) d1;
        if negb (back =? at' cwmain)%nat
           || negb (from_option snd 0 (move (tiles g !!! at' c1) d1) =? spin front) then
          gen_rule_edges todo' fuel (a + 1) g cwmain (cids ++ [DIR_UNKNOWN])
        else gen_rule_edges todo' fuel (a + 1) g cwmain (cids ++ [id1])
  end.

(** The second loop of [gen_rule]: every [DIR_UNKNOWN] entry is resolved
    from [treestates[id].code.second[i+1]] ([code2] here). *)
Fixpoint resolve_unknown (code2 : list Z) (i : Z) (cids : list Z) : result (list Z) :=
  match cids with
  | [] => Ok []
  | r :: cids' =>
      if r =? DIR_UNKNOWN then
        let val := vget code2 (i + 1) in
        if (val <? 2) || (val >=? 8) then
          Throw (rulegen_retry "wrong code in gen_rule")
        else
          rest ← resolve_unknown code2 (i + 1) cids';
          Ok ((if negb (Z.land val 1 =? 0) then DIR_RIGHT else DIR_LEFT) :: rest)
      else
        rest ← resolve_unknown code2 (i + 1) cids';
        Ok (r :: rest)
  end.

(** [gen_rule(cwmain, id)]. *)
Definition gen_rule (fuel : nat) (g : gstate) (cwmain : walker) (n : Z)
    : result (gstate * list Z) :=
  '(g, cids) ← gen_rule_edges (Z.to_nat (type (tiles g !!! at' cwmain))) fuel 0 g cwmain [];
  cids ← resolve_unknown (vget (treestates g) n).(ts_code).2 0 cids;
  Ok (g, cids).

End Codes.

(** ** Possible parents *)

Definition set_is_possible_parent (ts : treestate) (b : bool) : treestate :=
  mk_treestate (ts_id ts) (known ts) (rules ts) (giver ts) (ts_sid ts)
    (ts_parent_dir ts) (where_seen ts) (ts_code ts) (is_live ts) b
    (is_root ts) (possible_parents ts).

Definition set_possible_parents (ts : treestate) (l : list (Z * Z)) : treestate :=
  mk_treestate (ts_id ts) (known ts) (rules ts) (giver ts) (ts_sid ts)
    (ts_parent_dir ts) (where_seen ts) (ts_code ts) (is_live ts)
    (is_possible_parent ts) (is_root ts) l.

(** The first loop of [find_possible_parents]: a state is marked iff one of
    its rules is [DIR_PARENT]. *)
Definition mark_parents (tss : list treestate) : list treestate :=
  map (fun ts => set_is_possible_parent ts (existsb (fun r => r =? DIR_PARENT) (rules ts))) tss.

(** [for(auto& ts: treestates) ts.possible_parents.clear();] *)
Definition clear_parents (tss : list treestate) : list treestate :=
  map (fun ts => set_possible_parents ts []) tss.

(** [treestates[r].possible_parents.emplace_back(p)].  An index outside the
    vector is undefined behaviour in C++; the list is left as it is. *)
Definition add_parent (tss : list treestate) (r : Z) (p : Z * Z) : list treestate :=
  alter (fun ts => set_possible_parents ts (possible_parents ts ++ [p])) (Z.to_nat r) tss.

(** The inner loop over the rules of one marked state [ts]; [rid] counts
    the edges. *)
Fixpoint record_children (tid : Z) (rs : list Z) (rid : Z) (tss : list treestate)
    : list treestate :=
  match rs with
  | [] => tss
  | r :: rs' =>
      let tss := if r >=? 0 then add_parent tss r (tid, rid) else tss in
      record_children tid rs' (rid + 1) tss
  end.

(** The loop over all states that records, for every marked state, itself
    as a possible parent of each of its children; [todo] are the indices
    still to visit. *)
Fixpoint record_parents (todo : list nat) (tss : list treestate) : list treestate :=
  match todo with
  | [] => tss
  | i :: todo' =>
      let ts := tss !!! i in
      let tss := if is_possible_parent ts
                 then record_children (ts_id ts) (rules ts) 0 tss
                 else tss in
      record_parents todo' tss
  end.

(** The last loop of a round unmarks the marked states without possible
    parents and counts them in [changes]. *)
Definition orphan (ts : treestate) : bool :=
  is_possible_parent ts && bool_decide (possible_parents ts = []).

Definition sweep_parents (tss : list treestate) : list treestate * Z :=
  (map (fun ts => if orphan ts then set_is_possible_parent ts false else ts) tss,
   Z.of_nat (length (filter (fun ts => orphan ts = true) tss))).

(** One pass through the body of the [while(true)] loop. *)
Definition parents_round (tss : list treestate) : list treestate * Z :=
  let tss := clear_parents tss in
  let tss := record_parents (seq 0 (length tss)) tss in
  sweep_parents tss.

Fixpoint parents_loop (fuel : nat) (tss : list treestate) : result (list treestate) :=
  match fuel with
  | O => Diverge
  | S fuel' =>
      let '(tss, changes) := parents_round tss in
      if changes =? 0 then Ok tss else parents_loop fuel' tss
  end.

(** [find_possible_parents()], on the vector [treestates]. *)
Definition find_possible_parents (fuel : nat) (tss : list treestate) : result (list treestate) :=
  parents_loop fuel (mark_parents tss).

(** ** The driver *)

Section Driver.

Context {su : Setup} {ca : Callees}.

(** [rules_iteration()]: [try_count++], then the rest of the iteration. *)
Definition rules_iteration (g : gstate) : gstate * outcome :=
  let g := with_try_count g (try_count g + 1) in
  rules_iteration_body g.

(** The [while(true)] loop of [generate_rules]. *)
Fixpoint generate_rules_loop (fuel : nat) (g : gstate) : result gstate :=
  match fuel with
  | O => Diverge
  | S fuel' =>
      g ← check_timeout g;
      match rules_iteration g with
      | (g, finished) => Ok g
      | (g, raised e) =>
          if is_retry e then
            if try_count g >=? max_retries then Throw e
            else generate_rules_loop fuel' g
          else Throw e
      end
  end.

(** [generate_rules()]. *)
Definition generate_rules (fuel : nat) (g : gstate) : result gstate :=
  g ← setup_run g;
  let g := with_try_count g 0 in
  generate_rules_loop fuel g.

End Driver.

(** ** The consumer map [hrmap_rulegen] *)

Inductive hstate : Type := hsOrigin | hsA.

(** The fields of the engine's [heptagon] that [hrmap_rulegen] uses; [c7]
    records whether the heptagon carries a cell, [hc] is its connection
    table. *)
Record heptagon : Type := mk_heptagon {
  distance : Z;
  fieldval : Z;
  zebraval : Z;
  s : hstate;
  c7 : bool;
  hc : list (option (ptr * Z))
}.

#[global] Instance heptagon_inhabited : Inhabited heptagon :=
  populate (mk_heptagon 0 0 0 hsA false []).

Definition set_hc (h : heptagon) (l : list (option (ptr * Z))) : heptagon :=
  mk_heptagon (distance h) (fieldval h) (zebraval h) (s h) (c7 h) l.

(** Modelled from the spec: [hrand_elt] (declared outside rulegen.cpp) picks
    one element of a vector uniformly at random.  A draw among [n] elements
    has [draws n] equally likely outcomes; [drawn k n] is the outcome of
    the [k]-th draw the generator makes, [hrand n u] is the index that the
    outcome [u] selects, and every index is selected by the same share of
    the outcomes, one in [n]. *)
Class Rng : Type := {
  draws : nat -> nat;
  drawn : nat -> nat -> nat;
  hrand : nat -> nat -> nat;
  drawn_lt : forall k n : nat, (0 < n)%nat -> (drawn k n < draws n)%nat;
  hrand_lt : forall n u : nat, (u < draws n)%nat -> (hrand n u < n)%nat;
  hrand_uniform : forall n i : nat, (i < n)%nat ->
    (length (filter (fun u => hrand n u = i) (seq 0 (draws n))) * n = draws n)%nat
}.

Section Consumer.

Context {su : Setup} {rng : Rng}.

(** The finished automaton, which the consumer only reads. *)
Variable tss : list treestate.

(** The heptagons made so far, an arena that only grows: the address of a
    heptagon is its index. *)
Implicit Type m : list heptagon.

(** [hrmap_rulegen::gen(s, d, c7)]. *)
Definition gen m (st d : Z) (cell : bool) : list heptagon * ptr :=
  let t := shape_size (vget shapes (ts_sid (vget tss st))) in
  let h := mk_heptagon d st (ts_sid (vget tss st)) hsA cell
             (replicate (Z.to_nat t) None) in
  (m ++ [h], length m).

(** [hrmap_rulegen::get_rule(hs)]. *)
Definition get_rule m (hs : walker) : Z :=
  vget (rules (vget tss (fieldval (m !!! at' hs)))) (spin hs).

(** [hrmap_rulegen::hsconnect(a, b)]. *)
Definition hsconnect m (a b : walker) : list heptagon :=
  let m := alter (fun h => set_hc h (<[Z.to_nat (spin a) := Some (at' b, spin b)]> (hc h)))
             (at' a) m in
  alter (fun h => set_hc h (<[Z.to_nat (spin b) := Some (at' a, spin a)]> (hc h)))
    (at' b) m.

Definition hmove (h : heptagon) (d : Z) : option (ptr * Z) :=
  if d <? 0 then None else mjoin (hc h !! Z.to_nat d).

(** [hs + k]: rotate the spin modulo the number of edges. *)
Definition hplus m (hs : walker) (k : Z) : walker :=
  twalker (at' hs) ((spin hs + k) mod Z.of_nat (length (hc (m !!! at' hs)))).

(** [hs + wstep] for a heptagon walker: [cmove] calls [create_step] (here
    [cs]) when the edge is not there yet.  [k] counts the draws the
    generator has made. *)
Definition hwstep
    (cs : nat -> list heptagon -> ptr -> Z -> result (nat * list heptagon * ptr))
    (k : nat) m (hs : walker) : result (nat * list heptagon * walker) :=
  '(k, m, _) ← match hmove (m !!! at' hs) (spin hs) with
               | Some (t, _) => Ok (k, m, t)
               | None => cs k m (at' hs) (spin hs)
               end;
  match hmove (m !!! at' hs) (spin hs) with
  | Some (t, sp) => Ok (k, m, twalker t sp)
  | None => Throw null_deref
  end.

(** The [while(true)] loop of the [DIR_LEFT]/[DIR_RIGHT] case. *)
Fixpoint sideways
    (cs : nat -> list heptagon -> ptr -> Z -> result (nat * list heptagon * ptr))
    (fuel : nat) (k : nat) m (hs : walker) (r rev delta : Z) (hs1 : walker)
    : result (nat * list heptagon * ptr) :=
  match fuel with
  | O => Diverge
  | S fuel' =>
      let r1 := get_rule m hs1 in
      if r1 =? rev then Ok (k, hsconnect m hs hs1, at' hs1)
      else if (r1 =? r) || (r1 =? DIR_PARENT) || (r1 >=? 0) then
        '(k, m, hs1) ← hwstep cs k m hs1;
        sideways cs fuel' k m hs r rev delta (hplus m hs1 delta)
      else Throw (rulegen_failure "bad R1")
  end.

(** [hrmap_rulegen::create_step(h, d)].  [ind] is [hlog.indentation] on
    entry; the [indenter] raises it by 2 for the calls made from here.
    [k] counts the draws made so far. *)
Fixpoint create_step (fuel : nat) (ind : Z) (k : nat) m (h : ptr) (d : Z)
    : result (nat * list heptagon * ptr) :=
  match fuel with
  | O => Diverge
  | S fuel' =>
      let hs := twalker h d in
      let r := get_rule m hs in
      let ind := ind + 2 in
      if ind >=? 6000 then Throw (rulegen_failure "failed to create_step")
      else if r >=? 0 then
        let '(m, h1) := gen m r (distance (m !!! h) + 1) (c7 (m !!! h)) in
        let hs1 := twalker h1 0 in
        Ok (k, hsconnect m hs hs1, h1)
      else if r =? DIR_PARENT then
        let hts := vget tss (fieldval (m !!! h)) in
        let choices := possible_parents hts in
        match choices with
        | [] => Throw (rulegen_failure "no possible parents")
        | _ =>
            let u := drawn k (length choices) in
            let selected := choices !!! hrand (length choices) u in
            let '(m, h1) := gen m selected.1 (distance (m !!! h) - 1) (c7 (m !!! h)) in
            let hs1 := twalker h1 selected.2 in
            Ok (S k, hsconnect m hs hs1, h1)
        end
      else if (r =? DIR_LEFT) || (r =? DIR_RIGHT) then
        let delta := if r =? DIR_LEFT then -1 else 1 in
        let rev := Z.lxor (Z.lxor DIR_LEFT DIR_RIGHT) r in
        sideways (create_step fuel' ind) fuel' k m hs r rev delta (hplus m hs delta)
      else Throw (rulegen_failure "bad R")
  end.

End Consumer.

(** ** Walking around a vertex *)

(** One step of each loop of [check_loops], as a partial function on
    walkers: backwards [w + wstep - 1], forwards [w + 1 + wstep]; there is no
    step across an open edge. *)
Definition back_step (h : heap) (w : walker) : option walker :=
  match peek h w with
  | Some (t, s) => Some (wminus h (twalker t s) 1)
  | None => None
  end.

Definition fwd_step (h : heap) (w : walker) : option walker :=
  match peek h (wplus h w 1) with
  | Some (t, s) => Some (twalker t s)
  | None => None
  end.

(** The walker reached after [n] steps, if all of them exist. *)
Fixpoint walk (step : walker -> option walker) (n : nat) (w : walker) : option walker :=
  match n with
  | O => Some w
  | S n' => walk step n' w ≫= step
  end.

(** No walk of [1..n] steps from [w] ends at [target]. *)
Definition no_meeting (step : walker -> option walker) (w target : walker) (n : nat) : Prop :=
  forall j, (0 < j <= n)%nat -> walk step j w <> Some target.

(** The walks of [check_loops] put together: how the function leaves its two
    loops when no exception is thrown. *)
Inductive walk_end : Type :=
  | closed
  | complete (pwf pwb : walker)
  | both_open (pwb pwf : walker) (steps : Z).

Definition check_loops_walk (fuel : nat) (h : heap) (valence : Z) (pw : walker)
    : result walk_end :=
  e ← check_loops_back fuel h valence pw pw 0;
  match e with
  | known_loop => Ok closed
  | unify_ends pwf pwb => Ok (complete pwf pwb)
  | open_end pwb steps =>
      e ← check_loops_fwd fuel h valence pw pwb steps;
      match e with
      | known_loop => Ok closed
      | unify_ends pwf pwb => Ok (complete pwf pwb)
      | open_end pwf steps => Ok (both_open pwb pwf steps)
      end
  end.

(** ** Frame properties of callees *)

(** The field [type] of tile [t] is the same in [g'] as in [g]: the code never
    writes it after [gen_tcell]. *)
Definition keeps_type (t : ptr) (g g' : gstate) : Prop :=
  type (tiles g' !!! t) = type (tiles g !!! t).

(** ** Sets of classifications *)

(** The classifications a code can hold when relative distances are not
    built into it. *)
Definition default_classes : list Z := [C_IGNORE; C_CHILD; C_EQUAL; C_EQUAL + 1].

(** The classifications the second loop of [gen_rule] resolves to a side:
    the condition [val < 2 || val >= 8] is false. *)
Definition resolvable (val : Z) : Prop := 2 <= val < 8.

(** The side a resolvable classification stands for. *)
Definition side_of (val : Z) : Z := if Z.odd val then DIR_RIGHT else DIR_LEFT.

(** ** Reading the tree-state table *)

(** Every state's [id] is its index, and every child rule is the index of a
    state of the table. *)
Definition well_formed (tss : list treestate) : Prop :=
  forall i, (i < length tss)%nat ->
    ts_id (tss !!! i) = Z.of_nat i /\
    forall r, r ∈ rules (tss !!! i) -> 0 <= r -> r < Z.of_nat (length tss).

(** State [j] is a child of some state that is marked possible-parent. *)
Definition has_marked_parent (tss : list treestate) (j : nat) : Prop :=
  exists p e : nat,
    (p < length tss)%nat /\
    is_possible_parent (tss !!! p) = true /\
    rules (tss !!! p) !! e = Some (Z.of_nat j).

(** The number of states marked possible-parent. *)
Definition count_marked (tss : list treestate) : nat :=
  length (filter (fun ts => is_possible_parent ts = true) tss).

(** [tss'] differs from [tss] in marks and parent lists only. *)
Definition same_rules (tss tss' : list treestate) : Prop :=
  length tss' = length tss /\
  forall i, ts_id (tss' !!! i) = ts_id (tss !!! i) /\
            rules (tss' !!! i) = rules (tss !!! i).

(** ** Stepping sideways in the consumer map *)

Section RingWalk.

Context {su : Setup} {rng : Rng}.

Variable tss : list treestate.

(** The rules the sideways walk goes past: the rule it started from,
    [DIR_PARENT], or a child. *)
Definition passable (r r1 : Z) : Prop := r1 = r \/ r1 = DIR_PARENT \/ 0 <= r1.

(** The walk around the ring of children, as the specification words it
    and in terms of the connection tables only.  [ring_walk cs r rev delta k m w n k' m' w']:
    from the position [w] (a heptagon and one of its edges) in the arena [m],
    after [k] draws, the walk makes [n] moves and then stands at [w'] in the
    arena [m'], after [k'] draws, where the rule is the mirror [rev].  A move
    leaves a position whose rule is passable and not [rev]: it goes to the
    heptagon connected across the edge, entering it by the edge [sp1] it is
    connected with, and turns by [delta] there, modulo the number of edges
    of that heptagon.  When the edge is not connected yet, the consumer
    step [cs] is run on it first and the move uses the connection that it
    makes. *)
Inductive ring_walk
    (cs : nat -> list heptagon -> ptr -> Z -> result (nat * list heptagon * ptr))
    (r rev delta : Z)
    : nat -> list heptagon -> walker -> nat -> nat -> list heptagon -> walker -> Prop :=
  | walk_found k m w :
      get_rule tss m w = rev ->
      ring_walk cs r rev delta k m w O k m w
  | walk_over k m w t1 sp1 n k' m' w' :
      get_rule tss m w <> rev ->
      passable r (get_rule tss m w) ->
      hmove (m !!! at' w) (spin w) = Some (t1, sp1) ->
      ring_walk cs r rev delta k m
        (twalker t1 ((sp1 + delta) mod Z.of_nat (length (hc (m !!! t1))))) n k' m' w' ->
      ring_walk cs r rev delta k m w (S n) k' m' w'
  | walk_new k m w k1 m1 x t1 sp1 n k' m' w' :
      get_rule tss m w <> rev ->
      passable r (get_rule tss m w) ->
      hmove (m !!! at' w) (spin w) = None ->
      cs k m (at' w) (spin w) = Ok (k1, m1, x) ->
      hmove (m1 !!! at' w) (spin w) = Some (t1, sp1) ->
      ring_walk cs r rev delta k1 m1
        (twalker t1 ((sp1 + delta) mod Z.of_nat (length (hc (m1 !!! t1))))) n k' m' w' ->
      ring_walk cs r rev delta k m w (S n) k' m' w'.

End RingWalk.

(** ** Tiles at distance 0 *)


(** ** Dead ends: the live states of [rules_iteration] *)

Definition set_is_live (ts : treestate) (b : bool) : treestate :=
  mk_treestate (ts_id ts) (known ts) (rules ts) (giver ts) (ts_sid ts)
    (ts_parent_dir ts) (where_seen ts) (ts_code ts) b
    (is_possible_parent ts) (is_root ts) (possible_parents ts).

(** [for(int i: ts.rules) if(i >= 0 && treestates[i].is_live) children++;] *)
Definition live_children (tss : list treestate) (rs : list Z) : Z :=
  fold_left
    (fun children i =>
       if (i >=? 0) && is_live (vget tss i) then children + 1 else children)
    rs 0.

(** One pass of the [for] loop over the states, in place: a state examined
    later sees the marks already taken from earlier ones.  [todo] are the
    indices still to visit. *)
Fixpoint deadend_pass (todo : list nat) (tss : list treestate) (new_deadends : Z)
    : list treestate * Z :=
  match todo with
  | [] => (tss, new_deadends)
  | i :: todo' =>
      let ts := tss !!! i in
      if negb (known ts) then deadend_pass todo' tss new_deadends
      else if negb (is_live ts) then deadend_pass todo' tss new_deadends
      else if live_children tss (rules ts) =? 0 then
        deadend_pass todo' (<[i := set_is_live ts false]> tss) (new_deadends + 1)
      else deadend_pass todo' tss new_deadends
  end.

(** [int new_deadends = -1; while(new_deadends) { new_deadends = 0; ... }] *)
Fixpoint deadend_loop (fuel : nat) (tss : list treestate) : result (list treestate) :=
  match fuel with
  | O => Diverge
  | S fuel' =>
      let '(tss, new_deadends) := deadend_pass (seq 0 (length tss)) tss 0 in
      if new_deadends =? 0 then Ok tss else deadend_loop fuel' tss
  end.

(** The number of live states. *)
Definition count_live (tss : list treestate) : nat :=
  length (filter (fun ts => is_live ts = true) tss).

(** [tss'] differs from [tss] in the marks [is_live] only. *)
Definition same_but_live (tss tss' : list treestate) : Prop :=
  length tss' = length tss /\
  forall i, set_is_live (tss' !!! i) (is_live (tss !!! i)) = tss !!! i.

(** State [j] has a child that is live in [tss]. *)
Definition has_live_child (tss : list treestate) (j : nat) : Prop :=
  exists (e r : nat),
    rules (tss !!! j) !! e = Some (Z.of_nat r) /\ is_live (tss !!! r) = true.
(** A set of states is self-supporting in [tss] when every known state of
    it has a child in the set. *)
Definition self_supporting (tss : list treestate) (S : nat -> Prop) : Prop :=
  forall j, S j ->
    known (tss !!! j) = true ->
    exists e r : nat, rules (tss !!! j) !! e = Some (Z.of_nat r) /\ S r.


(** ** Minimization: [minimize_rules] *)

Definition set_ts_id (ts : treestate) (n : Z) : treestate :=
  mk_treestate n (known ts) (rules ts) (giver ts) (ts_sid ts)
    (ts_parent_dir ts) (where_seen ts) (ts_code ts) (is_live ts)
    (is_possible_parent ts) (is_root ts) (possible_parents ts).

Definition set_rules (ts : treestate) (rs : list Z) : treestate :=
  mk_treestate (ts_id ts) (known ts) rs (giver ts) (ts_sid ts)
    (ts_parent_dir ts) (where_seen ts) (ts_code ts) (is_live ts)
    (is_possible_parent ts) (is_root ts) (possible_parents ts).

(** [if(!m.count(key)) m[key] = new_ids++; new_id[id] = m[key];]
    The result is the map, the counter and the id given to [key]. *)
Definition assign_id {K : Type} `{Countable K} (key : K) (m : gmap K Z) (new_ids : Z)
    : gmap K Z * Z * Z :=
  match m !! key with
  | Some i => (m, new_ids, i)
  | None => (<[key := new_ids]> m, new_ids + 1, new_ids)
  end.

(** The vector that is hashed for state [id] in a refinement round: its
    last class, then its rules with every child replaced by its last
    class. *)
Definition state_hash (last_new_id : list Z) (id : Z) (ts : treestate) : list Z :=
  vget last_new_id id
    :: map (fun r => if r >=? 0 then vget last_new_id r else r) (rules ts).

(** The [for] loop of a refinement round; [todo] are the states from [id]
    on, [new_id] the entries written so far. *)
Fixpoint refine_ids (last_new_id : list Z) (todo : list treestate) (id : Z)
    (hashes : gmap (list Z) Z) (new_ids : Z) (new_id : list Z) : list Z * Z :=
  match todo with
  | [] => (new_id, new_ids)
  | ts :: todo' =>
      let '(hashes, new_ids, i) := assign_id (state_hash last_new_id id ts) hashes new_ids in
      refine_ids last_new_id todo' (id + 1) hashes new_ids (new_id ++ [i])
  end.

(** [while(new_ids > last_new_ids && new_ids < next_id)]. *)
Fixpoint refine_loop (fuel : nat) (tss : list treestate) (next_id : Z)
    (new_id : list Z) (new_ids last_new_ids : Z) : result (list Z * Z) :=
  match fuel with
  | O => Diverge
  | S fuel' =>
      if (new_ids >? last_new_ids) && (new_ids <? next_id) then
        let last_new_ids := new_ids in
        let '(new_id, new_ids) := refine_ids new_id tss 0 ∅ 0 [] in
        refine_loop fuel' tss next_id new_id new_ids last_new_ids
      else Ok (new_id, new_ids)
  end.

(** [vector<int> old_id(new_ids, -1);
     for(int i=0; i<next_id; i++)
       if(old_id[new_id[i]] == -1) old_id[new_id[i]] = i;] *)
Definition first_of_class (new_ids : Z) (new_id : list Z) : list Z :=
  fold_left
    (fun old_id i =>
       let c := vget new_id (Z.of_nat i) in
       if vget old_id c =? -1 then <[Z.to_nat c := Z.of_nat i]> old_id else old_id)
    (seq 0 (length new_id)) (replicate (Z.to_nat new_ids) (-1)).

(** [for(int i=0; i<new_ids; i++) treestates[i] = treestates[old_id[i]];]
    in place. *)
Definition move_states (new_ids : Z) (old_id : list Z) (tss : list treestate)
    : list treestate :=
  fold_left (fun tss i => <[i := vget tss (vget old_id (Z.of_nat i))]> tss)
    (seq 0 (Z.to_nat new_ids)) tss.

(** [for(int i=0; i<new_ids; i++) treestates[i].id = i;] *)
Definition renumber_states (new_ids : Z) (tss : list treestate) : list treestate :=
  fold_left (fun tss i => <[i := set_ts_id (tss !!! i) (Z.of_nat i)]> tss)
    (seq 0 (Z.to_nat new_ids)) tss.

(** [for(auto& r: ts.rules) if(r >= 0) r = new_id[r];] *)
Definition rename_rules (new_id : list Z) (ts : treestate) : treestate :=
  set_rules ts (map (fun r => if r >=? 0 then vget new_id r else r) (rules ts)).

Section Minimize.

Context {su : Setup}.

(** The first loop of [minimize_rules]: states are classed by the analyzer
    id of their giver.  A state without a giver has a null [giver.at]. *)
Fixpoint initial_ids (fuel : nat) (todo : list treestate) (g : gstate)
    (new_id_of : gmap aid_t Z) (new_ids : Z) (new_id : list Z)
    : result (gstate * list Z * Z) :=
  match todo with
  | [] => Ok (g, new_id, new_ids)
  | ts :: todo' =>
      match giver ts with
      | None => Throw null_deref
      | Some w =>
          '(g, aid) ← get_aid fuel g w;
          let '(new_id_of, new_ids, i) := assign_id aid new_id_of new_ids in
          initial_ids fuel todo' g new_id_of new_ids (new_id ++ [i])
      end
  end.

(** [minimize_rules()].  The result holds the globals and the value left in
    [states_premini].  The vector shrinks to [new_ids] states
    ([resize]). *)
Definition minimize_rules (fuel : nat) (g : gstate) : result (gstate * Z) :=
  let states_premini := Z.of_nat (length (treestates g)) in
  let next_id := Z.of_nat (length (treestates g)) in
  '(g, new_id, new_ids) ← initial_ids fuel (treestates g) g ∅ 0 [];
  '(new_id, new_ids) ← refine_loop fuel (treestates g) next_id new_id new_ids 0;
  let old_id := first_of_class new_ids new_id in
  let tss := move_states new_ids old_id (treestates g) in
  let tss := renumber_states new_ids tss in
  let tss := take (Z.to_nat new_ids) tss in
  let tss := map (rename_rules new_id) tss in
  let g := with_treestates g tss in
  let g := with_code_to_id g ((fun v => vget new_id v) <$> code_to_id g) in
  Ok (g, states_premini).

(** The analyzer ids of the givers, in the order of the states. *)
Fixpoint aids_of (fuel : nat) (todo : list treestate) (g : gstate)
    : result (gstate * list aid_t) :=
  match todo with
  | [] => Ok (g, [])
  | ts :: todo' =>
      match giver ts with
      | None => Throw null_deref
      | Some w =>
          '(g, aid) ← get_aid fuel g w;
          '(g, aids) ← aids_of fuel todo' g;
          Ok (g, aid :: aids)
      end
  end.

End Minimize.

(** *** Numbering by first occurrence *)

(** The loop shared by the two numbering passes of [minimize_rules], over
    the keys of the states in order. *)
Fixpoint number_keys {K : Type} `{Countable K} (keys : list K) (m : gmap K Z)
    (new_ids : Z) (new_id : list Z) : list Z * Z :=
  match keys with
  | [] => (new_id, new_ids)
  | key :: keys' =>
      let '(m, new_ids, i) := assign_id key m new_ids in
      number_keys keys' m new_ids (new_id ++ [i])
  end.

(** The keys hashed in a refinement round, for the states from [id] on. *)
Fixpoint state_hashes (last_new_id : list Z) (todo : list treestate) (id : Z)
    : list (list Z) :=
  match todo with
  | [] => []
  | ts :: todo' => state_hash last_new_id id ts :: state_hashes last_new_id todo' (id + 1)
  end.

(** What the numbering loop has established after the keys [P]: [acc]
    holds their ids, [m] maps every key seen to its id, [n] ids are in use.
    [cls] is any coarser classification of the keys. *)
Record numbered {K : Type} `{Countable K} (cls : K -> nat)
    (P : list K) (m : gmap K Z) (n : Z) (acc : list Z) : Prop := mk_numbered {
  nb_length : length acc = length P;
  nb_range : forall a i, acc !! a = Some i -> 0 <= i < n;
  nb_onto : forall c, 0 <= c < n -> exists a, acc !! a = Some c;
  nb_map : forall key i,
      m !! key = Some i <-> exists a, P !! a = Some key /\ acc !! a = Some i;
  nb_same : forall a b i j ka kb,
      acc !! a = Some i -> acc !! b = Some j ->
      P !! a = Some ka -> P !! b = Some kb -> (i = j <-> ka = kb);
  nb_first : forall a i c,
      acc !! a = Some i -> 0 <= c < i -> exists b, (b < a)%nat /\ acc !! b = Some c;
  nb_count : n <= Z.of_nat (length P);
  nb_all : n = Z.of_nat (length P) -> forall a i, acc !! a = Some i -> i = Z.of_nat a;
  nb_coarse : Z.of_nat (size (list_to_set (cls <$> P) : gset nat)) <= n;
  nb_stable :
      n = Z.of_nat (size (list_to_set (cls <$> P) : gset nat)) ->
      forall a b ka kb, P !! a = Some ka -> P !! b = Some kb ->
                        cls ka = cls kb -> ka = kb
}.

(** [ids] numbers [n] states with the classes [0 .. k-1], every class in
    use, a class first used only after all smaller ones. *)
Record numbering (n : nat) (ids : list Z) (k : Z) : Prop := mk_numbering {
  ng_nonneg : 0 <= k;
  ng_length : length ids = n;
  ng_range : forall a i, ids !! a = Some i -> 0 <= i < k;
  ng_onto : forall c, 0 <= c < k -> exists a, ids !! a = Some c;
  ng_first : forall a i c,
      ids !! a = Some i -> 0 <= c < i -> exists b, (b < a)%nat /\ ids !! b = Some c;
  ng_count : k <= Z.of_nat n;
  ng_all : k = Z.of_nat n -> forall a i, ids !! a = Some i -> i = Z.of_nat a
}.

(** A rule under the renaming [ids]: a child becomes its class. *)
Definition rename (ids : list Z) (r : Z) : Z := if r >=? 0 then vget ids r else r.

(** States of one class have the same rules up to the classes of the
    children. *)
Definition congruent (tss : list treestate) (ids : list Z) : Prop :=
  forall a b i,
    ids !! a = Some i -> ids !! b = Some i ->
    map (rename ids) (rules (tss !!! a)) = map (rename ids) (rules (tss !!! b)).

(** Every child rule of the table is the index of a state of the table. *)
Definition child_range (tss : list treestate) : Prop :=
  forall (a : nat) (r : Z),
    r ∈ rules (tss !!! a) -> 0 <= r -> r < Z.of_nat (length tss).

(** The head of a hash, as a class. *)
Definition hash_class (hash : list Z) : nat := Z.to_nat (hd 0 hash).

(** The first index below [p] at which [ids] holds the class [c], or [-1]. *)
Fixpoint first_occ (ids : list Z) (c : Z) (p : nat) : Z :=
  match p with
  | O => -1
  | S p' =>
      if first_occ ids c p' =? -1
      then (if vget ids (Z.of_nat p') =? c then Z.of_nat p' else -1)
      else first_occ ids c p'
  end.

(** ** Forgetting parent directions: [remove_parentdir] *)

Definition set_old_parent_dir (t : tcell) (d : Z) : tcell :=
  mk_tcell (next t) (id t) (type t) (dist t) (code t) (parent_dir t)
    d (any_nearer t) (is_solid t) (distance_fixed t) (unified_to t) (c t).

Definition set_distance_fixed (t : tcell) (b : bool) : tcell :=
  mk_tcell (next t) (id t) (type t) (dist t) (code t) (parent_dir t)
    (old_parent_dir t) (any_nearer t) (is_solid t) b (unified_to t) (c t).

(** [if(c->parent_dir) c->old_parent_dir = c->parent_dir;
     c->parent_dir = MYSTERY; c->code = MYSTERY;] *)
Definition forget_parent (t : tcell) : tcell :=
  let t := if negb (parent_dir t =? 0) then set_old_parent_dir t (parent_dir t) else t in
  set_code (set_parent_dir t MYSTERY) MYSTERY.

(** [remove_parentdir(c)] on the arena.  ([sidecache], which the function
    clears first, belongs to [get_side].) *)
Definition remove_parentdir (h : heap) (c0 : ptr) : heap :=
  let h := upd h c0 forget_parent in
  fold_left
    (fun h i =>
       match move (h !!! c0) (Z.of_nat i) with
       | Some (c1, _) => upd h c1 forget_parent
       | None => h
       end)
    (seq 0 (Z.to_nat (type (h !!! c0)))) h.

(** How often [remove_parentdir(c0)] writes tile [t]: once if it is [c0],
    and once for every edge [i] in [l] of [c0] that leads to it. *)
Definition edge_touches (h : heap) (c0 : ptr) (l : list nat) (t : ptr) : nat :=
  length (filter (fun i => fst <$> move (h !!! c0) (Z.of_nat i) = Some t) l).

Definition touch_count (h : heap) (c0 t : ptr) : nat :=
  ((if decide (t = c0) then 1 else 0)
   + edge_touches h c0 (seq 0 (Z.to_nat (type (h !!! c0)))) t)%nat.

(** ** Merging distances: [unify_distances] *)

Module Distances.

Section UnifyDistances.

Context {ca : Callees}.

(** [unify_distances(c1, c2, delta)], over the callees [find_new_shortcuts]
    and [fix_distances]. *)
Definition unify_distances (g : gstate) (c1 c2 : ptr) (delta : Z) : result gstate :=
  let d1 := dist (tiles g !!! c1) in
  let d2 := dist (tiles g !!! c2) in
  let d := Z.min d1 d2 in
  g ← (if is_solid (tiles g !!! c1) && negb (d =? d1) then
         let g := with_solid_errors g (solid_errors g + 1) in
         g ← find_new_shortcuts g c1 d c2 (any_nearer (tiles g !!! c2) - delta) delta;
         Ok (with_tiles g (remove_parentdir (tiles g) c1))
       else Ok g);
  g ← (if negb (d =? d1) then fix_distances g c1 else Ok g);
  let g := upd_tile g c1 (fun t => set_dist t d) in
  g ← (if is_solid (tiles g !!! c2) && negb (d =? d2) then
         let g := with_solid_errors g (solid_errors g + 1) in
         g ← find_new_shortcuts g c2 d c1 (any_nearer (tiles g !!! c1) + delta) (- delta);
         Ok (with_tiles g (remove_parentdir (tiles g) c2))
       else Ok g);
  g ← (if negb (d =? d2) then fix_distances g c2 else Ok g);
  let g := upd_tile g c2 (fun t => set_dist t d) in
  let fixed := distance_fixed (tiles g !!! c1) || distance_fixed (tiles g !!! c2) in
  let g := upd_tile g c2 (fun t => set_distance_fixed t fixed) in
  let g := upd_tile g c1 (fun t => set_distance_fixed t fixed) in
  let solid := is_solid (tiles g !!! c1) || is_solid (tiles g !!! c2) in
  let g := upd_tile g c2 (fun t => set_is_solid t solid) in
  let g := upd_tile g c1 (fun t => set_is_solid t solid) in
  Ok g.

End UnifyDistances.

End Distances.

(** Two tiles that agree in all fields but [code], [parent_dir] and
    [old_parent_dir]. *)
Definition same_but_parent (t t' : tcell) : Prop :=
  next t' = next t /\ id t' = id t /\ type t' = type t /\ dist t' = dist t /\
  any_nearer t' = any_nearer t /\ is_solid t' = is_solid t /\
  distance_fixed t' = distance_fixed t /\ unified_to t' = unified_to t /\
  c t' = c t.

(** ** The queue of deferred checks: [process_fix_queue] *)

Definition with_in_fixing (g : gstate) (b : bool) : gstate :=
  mk_gstate (tiles g) (tcellcount g) (tunified g) (hard_parents g)
    (parent_updates g) (solid_errors g) (no_errors g) (fix_queue g) b
    (treestates g) (code_to_id g) (try_count g).

(** The callees [ca] with [pfq] standing for [process_fix_queue]. *)
Definition with_process_fix_queue (ca : Callees) (pfq : gstate -> result gstate)
    : Callees :=
  {| process_fix_queue := pfq;
     unify_distances := unify_distances (Callees := ca);
     fix_distances := fix_distances (Callees := ca);
     look_for_shortcuts_in := look_for_shortcuts_in (Callees := ca);
     find_new_shortcuts := find_new_shortcuts (Callees := ca);
     tmove_new := tmove_new (Callees := ca);
     ensure_shorter_known := ensure_shorter_known (Callees := ca);
     analyze := analyze (Callees := ca);
     get_side := get_side (Callees := ca);
     check_timeout := check_timeout (Callees := ca);
     setup_run := setup_run (Callees := ca);
     rules_iteration_body := rules_iteration_body (Callees := ca) |}.

Module FixQueue.

Section ProcessFixQueue.

Context {su : Setup} {ca : Callees}.

(** Running one closure of the queue; [pfq] is what the closure reaches
    when it calls [process_fix_queue]. *)
Definition run_reaction (pfq : gstate -> result gstate) (fuel : nat) (g : gstate)
    (r : reaction) : result gstate :=
  match r with
  | do_unify a b => unify (ca := with_process_fix_queue ca pfq) fuel g a b
  | do_check_loops p => check_loops (ca := with_process_fix_queue ca pfq) fuel g p
  end.

(** [while(!fix_queue.empty()) { fix_queue.front()(); fix_queue.pop(); }]
    The closure runs while it is still at the front; what it pushes goes to
    the back. *)
Fixpoint drain_queue (pfq : gstate -> result gstate) (steps fuel : nat) (g : gstate)
    : result gstate :=
  match steps with
  | O => Diverge
  | S steps' =>
      match fix_queue g with
      | [] => Ok g
      | r :: _ =>
          g ← run_reaction pfq fuel g r;
          drain_queue pfq steps' fuel (with_fix_queue g (tail (fix_queue g)))
      end
  end.

(** [process_fix_queue()]. *)
Fixpoint process_fix_queue (fuel : nat) (g : gstate) : result gstate :=
  match fuel with
  | O => Diverge
  | S fuel' =>
      if in_fixing g then Ok g
      else
        g ← drain_queue (process_fix_queue fuel') fuel' fuel' (with_in_fixing g true);
        Ok (with_in_fixing g false)
  end.

End ProcessFixQueue.

End FixQueue.

(** ** Reading a table back: [parse_treestate], [verify_parsed_treestates] *)

(** Modelled from the spec: [hr_parse_exception], the exception of the
    engine's expression parser (declared outside rulegen.cpp).  The text
    the source appends to a message ([ep.where()]) is left out. *)
Inductive parse_error : Type :=
  | hr_parse_exception (what : string).

(** Modelled from the spec: what the parser reads for one rule of the
    persisted format [state(sid, r0, ..., r{N-1})]: one of the literals
    [PARENT], [LEFT], [RIGHT], or a number ([ep.iparse()]). *)
Inductive rule_token : Type :=
  | tok_parent
  | tok_left
  | tok_right
  | tok_number (i : Z).

Definition token_rule (t : rule_token) : Z :=
  match t with
  | tok_parent => DIR_PARENT
  | tok_left => DIR_LEFT
  | tok_right => DIR_RIGHT
  | tok_number i => i
  end.

Definition set_is_root (ts : treestate) (b : bool) : treestate :=
  mk_treestate (ts_id ts) (known ts) (rules ts) (giver ts) (ts_sid ts)
    (ts_parent_dir ts) (where_seen ts) (ts_code ts) (is_live ts)
    (is_possible_parent ts) b (possible_parents ts).

Definition set_ts_parent_dir (ts : treestate) (d : Z) : treestate :=
  mk_treestate (ts_id ts) (known ts) (rules ts) (giver ts) (ts_sid ts)
    d (where_seen ts) (ts_code ts) (is_live ts)
    (is_possible_parent ts) (is_root ts) (possible_parents ts).

(** [for(int i=0; i<N; i++)
      if(ts.rules[i] == DIR_PARENT) qparent++, sumparent += i;] *)
Definition count_parents (N : Z) (rs : list Z) : Z * Z :=
  fold_left
    (fun acc i =>
       if vget rs (Z.of_nat i) =? DIR_PARENT
       then (acc.1 + 1, acc.2 + Z.of_nat i) else acc)
    (seq 0 (Z.to_nat N)) (0, 0).

(** [std::rotate(v.begin(), v.begin() + k, v.end())]: the element at
    position [k] becomes the first one. *)
Definition rotate_left {A : Type} (k : Z) (l : list A) : list A :=
  drop (Z.to_nat k) l ++ take (Z.to_nat k) l.

(** Modelled from the spec: [arb::correct_index(i, n)] (declared outside
    rulegen.cpp): [i] is an index of a vector of [n] elements. *)
Definition correct_index (i n : Z) : bool := (0 <=? i) && (i <? n).

(** [parse_treestate(c, ep)], over what the parser reads: the shape id
    [sid] and, for each of the [N] edges of that shape, a token.  The
    state is the vector [treestates] with [rule_root] and the flag
    [have_tree] of the tessellation. *)
Definition parse_treestate (shapes : list shape) (have_tree : bool)
    (tss : list treestate) (rule_root : Z) (sid : Z) (toks : list rule_token)
    : parse_error + (bool * list treestate * Z) :=
  let '(tss, rule_root) := if negb have_tree then ([], 0) else (tss, rule_root) in
  let ts := mk_treestate (Z.of_nat (length tss)) false [] None sid 0 None
              ((0, 0), []) false false false [] in
  if negb (correct_index sid (Z.of_nat (length shapes))) then
    inl (hr_parse_exception "incorrect treestate index")
  else
    let N := shape_size (vget shapes sid) in
    let ts := set_rules ts (map token_rule toks) in
    let '(qparent, sumparent) := count_parents N (rules ts) in
    let ts := set_is_root ts (qparent =? 0) in
    if qparent >? 1 then inl (hr_parse_exception "multiple parent")
    else
      let ts := if qparent =? 1
                then set_rules (set_ts_parent_dir ts sumparent)
                       (rotate_left sumparent (rules ts))
                else ts in
      inr (true, tss ++ [ts], rule_root).

(** [hrmap_rulegen::get_arb_dir(s, dir)]. *)
Definition get_arb_dir (shapes : list shape) (tss : list treestate) (s dir : Z) : Z :=
  let sid := ts_sid (vget tss s) in
  let N := shape_size (vget shapes sid) in
  gmod (dir + ts_parent_dir (vget tss s)) N.

(** The first offending rule of [verify_parsed_treestates], in the order
    of the two nested loops. *)
Fixpoint verify_rules (n : Z) (rs : list Z) : option parse_error :=
  match rs with
  | [] => None
  | r :: rs' =>
      if (r <? 0) && negb ((r =? DIR_PARENT) || (r =? DIR_LEFT) || (r =? DIR_RIGHT)) then
        Some (hr_parse_exception "negative number in treestates")
      else if r >? n then Some (hr_parse_exception "undefined treestate")
      else verify_rules n rs'
  end.

Fixpoint verify_states (n : Z) (todo : list treestate) : option parse_error :=
  match todo with
  | [] => None
  | ts :: todo' =>
      match verify_rules n (rules ts) with
      | Some e => Some e
      | None => verify_states n todo'
      end
  end.

Definition set_cycle_length (sh : shape) (k : Z) : shape :=
  mk_shape (connections sh) k (vertex_valence sh).

(** [verify_parsed_treestates()]: the shapes and the table it leaves. *)
Definition verify_parsed_treestates (fuel : nat) (shapes : list shape)
    (tss : list treestate) (rule_root : Z)
    : parse_error + result (list shape * list treestate) :=
  if (rule_root <? 0) || (rule_root >=? Z.of_nat (length tss)) then
    inl (hr_parse_exception "undefined treestate as root")
  else
    match verify_states (Z.of_nat (length tss)) tss with
    | Some e => inl e
    | None =>
        let shapes := map (fun sh => set_cycle_length sh (shape_size sh)) shapes in
        inr (tss ← find_possible_parents fuel tss; Ok (shapes, tss))
    end.

(** The positions below [N] at which [rs] holds [DIR_PARENT]. *)
Definition parent_positions (N : Z) (rs : list Z) : list nat :=
  filter (fun i => vget rs (Z.of_nat i) = DIR_PARENT) (seq 0 (Z.to_nat N)).

(** A rule that the two tests of [verify_parsed_treestates] let through, in
    a table of [n] states. *)
Definition rule_accepted (n r : Z) : Prop :=
  r = DIR_PARENT \/ r = DIR_LEFT \/ r = DIR_RIGHT \/ 0 <= r <= n.

(** ** Relaxing distances: [fix_distances] *)

Definition w_bfs : Z := Flag 17.

Module Relaxation.

Section FixDistances.

Context {su : Setup} {ca : Callees}.

(** The lambda [process_edge(tgtw, srcw)] of [fix_distances].  Its two
    walkers are passed by value.  [tgt_d] is a reference to the distance of
    the tile [tgtw] stands on when the lambda is entered; [any_nearer] is
    written to the tile [ufind] moves [tgtw] to.  ([sidecache], cleared
    here, belongs to [get_side].) *)
Definition process_edge (fuel : nat) (g : gstate) (tgtw srcw : walker)
    : result (gstate * bool) :=
  let tgt := at' tgtw in
  let src := at' srcw in
  let new_d := dist (tiles g !!! src) + 1 in
  if dist (tiles g !!! tgt) >? new_d then
    g ← (if is_solid (tiles g !!! tgt)
         then find_new_shortcuts g tgt new_d tgt (spin tgtw) 0
         else Ok g);
    '(g, tgtw') ← ufind_s fuel g tgtw;
    let g := upd_tile g tgt (fun t => set_dist t new_d) in
    let g := upd_tile g (at' tgtw') (fun t => set_any_nearer t (spin tgtw')) in
    let g := with_tiles g (remove_parentdir (tiles g) (at' tgtw')) in
    Ok (g, true)
  else Ok (g, false).

(** The loop [for(int qi=0; qi<isize(q); qi++)] of [fix_distances] with its
    inner loop over the edges [i] of [c = q[qi]] and the jump to [restart].
    [c->c.spin(i)] is read from the edge that [cmove] has materialized. *)
Fixpoint relax_loop (fuel : nat) (g : gstate) (q : list ptr) (qi : nat) (c0 : ptr)
    (i : Z) : result gstate :=
  match fuel with
  | O => Diverge
  | S fuel' =>
      if i <? type (tiles g !!! c0) then
        match move (tiles g !!! c0) i with
        | None => relax_loop fuel' g q qi c0 (i + 1)
        | Some _ =>
            '(g, c0) ← ufindc fuel g c0;
            '(g, c1) ← tmove g c0 i;
            match move (tiles g !!! c0) i with
            | None => Throw null_deref
            | Some (_, s) =>
                let ci1 := twalker c1 s in
                let ci := twalker c0 i in
                '(g, lowered) ← process_edge fuel g ci ci1;
                if (lowered : bool) then relax_loop fuel' g q qi c0 0
                else
                  '(g, lowered) ← process_edge fuel g ci1 ci;
                  let q := if (lowered : bool) then q ++ [c1] else q in
                  relax_loop fuel' g q qi c0 (i + 1)
            end
        end
      else
        match q !! S qi with
        | Some c1 => relax_loop fuel' g q (S qi) c1 0
        | None => Ok g
        end
  end.

(** The loop over the edges of [c1] in the breadth-first branch. *)
Fixpoint bfs_edges (fuel : nat) (g : gstate) (bfs_queue : list ptr) (c1 : ptr) (i : Z)
    : result (gstate * list ptr) :=
  match fuel with
  | O => Diverge
  | S fuel' =>
      if i <? type (tiles g !!! c1) then
        '(g, c2) ← tmove g c1 i;
        if dist (tiles g !!! c2) =? MYSTERY then
          let g := upd_tile g c2 (fun t => set_dist t (dist (tiles g !!! c1) + 1)) in
          bfs_edges fuel' g (bfs_queue ++ [c2]) c1 (i + 1)
        else bfs_edges fuel' g bfs_queue c1 (i + 1)
      else Ok (g, bfs_queue)
  end.

(** The [while(true)] of the breadth-first branch: it is left by [return]
    or by an exception only. *)
Fixpoint bfs_loop (fuel : nat) (g : gstate) (bfs_queue : list ptr) (c0 : ptr)
    : result (gstate * list ptr) :=
  match fuel with
  | O => Diverge
  | S fuel' =>
      if in_fixing g then Ok (g, bfs_queue)
      else
        '(g, c0) ← ufindc fuel g c0;
        if negb (dist (tiles g !!! c0) =? MYSTERY) then Ok (g, bfs_queue)
        else if tcellcount g >=? max_tcellcount then
          Throw (rulegen_surrender "max_tcellcount exceeded")
        else
          match bfs_queue with
          | [] => Throw (rulegen_failure "empty bfs queue")
          | c1 :: rest =>
              '(g, c1) ← ufindc fuel g c1;
              '(g, rest) ← bfs_edges fuel g rest c1 0;
              bfs_loop fuel' g rest c0
          end
  end.

(** [fix_distances(c)], with the global [bfs_queue] beside the state. *)
Definition fix_distances (fuel : nat) (g : gstate) (bfs_queue : list ptr) (c0 : ptr)
    : result (gstate * list ptr) :=
  if has_flag flags w_bfs then bfs_loop fuel g bfs_queue c0
  else
    let g := upd_tile g c0 (fun t => set_distance_fixed t true) in
    if has_flag flags w_known_distances then Ok (g, bfs_queue)
    else
      g ← relax_loop fuel g [c0] 0 c0 0;
      Ok (g, bfs_queue).

End FixDistances.

End Relaxation.

(** Edge [i] of tile [t] is materialized and its two ends know each other:
    the tile across it has the edge back to [(t, i)]. *)
Definition edge_linked (h : heap) (t : ptr) (i : nat) : bool :=
  match move (h !!! t) (Z.of_nat i) with
  | None => true
  | Some (n, s) =>
      (0 <=? s) && (s <? type (h !!! n))
      && bool_decide (move (h !!! n) s = Some (t, Z.of_nat i))
  end.

(** A tile that is not solid, stands for itself, and whose edges are
    linked. *)
Definition plain_tile (h : heap) (t : ptr) : bool :=
  forallb (edge_linked h t) (seq 0 (Z.to_nat (type (h !!! t))))
  && negb (is_solid (h !!! t))
  && (at' (unified_to (h !!! t)) =? t)%nat.

(** An arena of such tiles. *)
Definition plain_heap (h : heap) : bool :=
  forallb (plain_tile h) (map fst (map_to_list h)).

(** Tile [t] is more than one step farther from the root than its
    neighbour across edge [i]. *)
Definition too_far (h : heap) (t : ptr) (i : nat) : bool :=
  match move (h !!! t) (Z.of_nat i) with
  | None => false
  | Some (n, _) => dist (h !!! n) + 1 <? dist (h !!! t)
  end.

(** The edges on which the distances jump by more than one all touch
    [c0]. *)
Definition jumps_at (h : heap) (c0 : ptr) : bool :=
  forallb
    (fun t =>
       forallb
         (fun i =>
            negb (too_far h t i) || bool_decide (t = c0)
            || bool_decide (fst <$> move (h !!! t) (Z.of_nat i) = Some c0))
         (seq 0 (Z.to_nat (type (h !!! t)))))
    (map fst (map_to_list h)).

(** The sum over the tiles [ks] of their distances above [m]. *)
Definition weight (m : Z) (ks : list ptr) (h : heap) : nat :=
  sum_list ((fun k => Z.to_nat (dist (h !!! k) - m)) <$> ks).

(** A lower bound of the distances of an arena. *)
Definition least_dist (h : heap) : Z :=
  foldr (fun (kt : ptr * tcell) m => Z.min (dist kt.2) m) MYSTERY (map_to_list h).

(** Every materialized edge leads to a tile that has the edge back. *)
Definition linked (h : heap) : Prop :=
  forall t i n s,
    0 <= i < type (h !!! t) -> move (h !!! t) i = Some (n, s) ->
    0 <= s < type (h !!! n) /\ move (h !!! n) s = Some (t, i).

(** Two tiles with the same shape, marks and links. *)
Definition same_links (t t' : tcell) : Prop :=
  next t' = next t /\ id t' = id t /\ type t' = type t /\
  is_solid t' = is_solid t /\ unified_to t' = unified_to t /\ c t' = c t.

(** What a successful [process_edge(tgtw, srcw)] leaves of the arena when
    [tgtw] stands on a representative that is not solid. *)
Definition lower (h : heap) (w : walker) (d : Z) : heap :=
  remove_parentdir
    (upd (upd h (at' w) (fun t => set_dist t d)) (at' w)
       (fun t => set_any_nearer t (spin w)))
    (at' w).

(** The arena [h] while [fix_distances(cinit)] works on the arena [hb]:
    [q] is the queue, [qi] the index of the tile [c0] being scanned and
    [i] the next edge of it to look at. *)
Record relaxing (hb : heap) (m : Z) (cinit : ptr) (h : heap) (q : list ptr)
    (qi : nat) (c0 : ptr) (i : Z) : Prop := mk_relaxing {
  rx_links : forall t, same_links (hb !!! t) (h !!! t);
  rx_fixed : distance_fixed (h !!! cinit) = true;
  rx_floor : forall t, m <= dist (h !!! t) <= dist (hb !!! t);
  rx_kept : forall t, dist (h !!! t) = dist (hb !!! t) ->
                      any_nearer (h !!! t) = any_nearer (hb !!! t);
  rx_nearer : forall t, dist (h !!! t) < dist (hb !!! t) ->
      0 <= any_nearer (h !!! t) < type (h !!! t) /\
      exists n s, move (h !!! t) (any_nearer (h !!! t)) = Some (n, s) /\
                  dist (h !!! n) + 1 <= dist (h !!! t);
  rx_index : (qi < length q)%nat;
  rx_cover : forall t j n s,
      0 <= j < type (h !!! t) -> move (h !!! t) j = Some (n, s) ->
      dist (h !!! n) + 1 < dist (h !!! t) ->
      t ∈ drop (S qi) q \/ n ∈ drop (S qi) q \/ (t = c0 /\ i <= j) \/ (n = c0 /\ i <= s)
}.

(** The arena [h] that [fix_distances(cinit)] leaves of [hb]. *)
Record relaxed (hb : heap) (cinit : ptr) (h : heap) : Prop := mk_relaxed {
  rd_links : forall t, same_links (hb !!! t) (h !!! t);
  rd_fixed : distance_fixed (h !!! cinit) = true;
  rd_floor : forall t, dist (h !!! t) <= dist (hb !!! t);
  rd_kept : forall t, dist (h !!! t) = dist (hb !!! t) ->
                      any_nearer (h !!! t) = any_nearer (hb !!! t);
  rd_nearer : forall t, dist (h !!! t) < dist (hb !!! t) ->
      0 <= any_nearer (h !!! t) < type (h !!! t) /\
      exists n s, move (h !!! t) (any_nearer (h !!! t)) = Some (n, s) /\
                  dist (h !!! n) + 1 <= dist (h !!! t);
  rd_smooth : forall t j n s,
      0 <= j < type (h !!! t) -> move (h !!! t) j = Some (n, s) ->
      dist (h !!! t) <= dist (h !!! n) + 1
}.

(** A run that returns [a] whenever it is given enough fuel. *)
Definition ends_with {A : Type} (run : nat -> result A) (a : A) : Prop :=
  exists n : nat, forall fuel : nat, (n <= fuel)%nat -> run fuel = Ok a.

(** ** Analyzers: [add_step], [get_analyzer], [spread], [extend_analyzer] *)

(** [struct analyzer]: a tree of walks from a tile.  Entry 0 is the tile
    itself; entry [i] is reached from entry [parent_id[i]] by turning
    [spin[i]] and stepping. *)
Record analyzer : Type := mk_analyzer {
  a_spread : list walker;
  a_parent_id : list Z;
  a_spin : list Z
}.

(** A default-constructed analyzer, as [analyzers[aid]] inserts it. *)
Definition no_analyzer : analyzer := mk_analyzer [] [] [].

#[global] Instance analyzer_inhabited : Inhabited analyzer := populate no_analyzer.

(** Reading a vector outside its bounds is undefined behaviour in C++;
    where a function would do so the embedding stops with this exception. *)
Definition bad_index : exn := hr_exception "index out of range".

Definition at_index {A : Type} (v : list A) (i : Z) : result A :=
  if i <? 0 then Throw bad_index
  else match v !! Z.to_nat i with
       | Some x => Ok x
       | None => Throw bad_index
       end.

Module Analyzers.

Section Analyzers.

Context {su : Setup} {ca : Callees}.

(** [analyzer::add_step(pid, s)].  [cw.peek()] only reads. *)
Definition add_step (fuel : nat) (g : gstate) (a : analyzer) (pid s : Z)
    : result (gstate * analyzer) :=
  cw ← at_index (a_spread a) pid;
  let cw := wplus (tiles g) cw s in
  '(g, cw) ← ufind_s fuel g cw;
  '(g, cw) ← wstep g cw;
  Ok (g, mk_analyzer (a_spread a ++ [cw]) (a_parent_id a ++ [pid]) (a_spin a ++ [s])).

(** [for(int i=0; i<cw.at->type; i++) a.add_step(0, i);] *)
Fixpoint first_steps (fuel : nat) (g : gstate) (a : analyzer) (cw : walker) (i : Z)
    : result (gstate * analyzer) :=
  match fuel with
  | O => Diverge
  | S fuel' =>
      if i <? type (tiles g !!! at' cw) then
        '(g, a) ← add_step fuel g a 0 i;
        first_steps fuel' g a cw (i + 1)
      else Ok (g, a)
  end.

(** [get_analyzer(cw)] over the map [analyzers]; the reference it returns
    is the key of the analyzer in the map that is returned. *)
Definition get_analyzer (fuel : nat) (g : gstate) (analyzers : gmap aid_t analyzer)
    (cw : walker) : result (gstate * gmap aid_t analyzer * aid_t) :=
  '(g, aid) ← get_aid fuel g cw;
  let a := analyzers !!! aid in
  match a_spread a with
  | [] =>
      let a := mk_analyzer (a_spread a ++ [cw]) (a_parent_id a ++ [-1])
                 (a_spin a ++ [-1]) in
      '(g, a) ← first_steps fuel g a cw 0;
      Ok (g, <[aid := a]> analyzers, aid)
  | _ :: _ => Ok (g, analyzers, aid)
  end.

(** The loop of [spread(a, cw)].  [r] is a reference into [res]: what
    [ufind(r)] finds is written back. *)
Fixpoint spread_loop (todo : list nat) (fuel : nat) (g : gstate) (a : analyzer)
    (res : list walker) : result (gstate * list walker) :=
  match todo with
  | [] => Ok (g, res)
  | i :: todo' =>
      pid ← at_index (a_parent_id a) (Z.of_nat i);
      r ← at_index res pid;
      '(g, r) ← ufind_s fuel g r;
      let res := <[Z.to_nat pid := r]> res in
      s ← at_index (a_spin a) (Z.of_nat i);
      let r1 := wplus (tiles g) r s in
      '(g, r1) ← ufind_s fuel g r1;
      '(g, r1) ← wstep g r1;
      spread_loop todo' fuel g a (res ++ [r1])
  end.

(** [spread(a, cw)]. *)
Definition spread (fuel : nat) (g : gstate) (a : analyzer) (cw : walker)
    : result (gstate * list walker) :=
  let N := length (a_spread a) in
  spread_loop (seq 1 (N - 1)) fuel g a [cw].

(** [while(k) { ids_to_add.emplace_back(a_conflict.spin[k]);
                k = a_conflict.parent_id[k]; }] *)
Fixpoint ids_to_root (fuel : nat) (a : analyzer) (k : Z) (ids : list Z)
    : result (list Z) :=
  match fuel with
  | O => Diverge
  | S fuel' =>
      if k =? 0 then Ok ids
      else
        s ← at_index (a_spin a) k;
        p ← at_index (a_parent_id a) k;
        ids_to_root fuel' a p (ids ++ [s])
  end.

(** The scan of [extend_analyzer] for an entry with parent [gid] and spin
    [s]: the last one found is kept. *)
Fixpoint find_step (todo : list nat) (a : analyzer) (gid s : Z) (next_gid : Z)
    : result Z :=
  match todo with
  | [] => Ok next_gid
  | i :: todo' =>
      if vget (a_parent_id a) (Z.of_nat i) =? gid then
        si ← at_index (a_spin a) (Z.of_nat i);
        find_step todo' a gid s (if si =? s then Z.of_nat i else next_gid)
      else find_step todo' a gid s next_gid
  end.

(** [while(!ids_to_add.empty())] of [extend_analyzer]; [ids] is
    [ids_to_add] from its back. *)
Fixpoint extend_path (ids : list Z) (fuel : nat) (g : gstate) (a : analyzer)
    (gid : Z) (added : bool) : result (gstate * analyzer * bool) :=
  match ids with
  | [] => Ok (g, a, added)
  | s :: ids' =>
      next_gid ← find_step (seq 0 (length (a_parent_id a))) a gid s (-1);
      if next_gid =? -1 then
        let next_gid := Z.of_nat (length (a_parent_id a)) in
        '(g, a) ← add_step fuel g a gid s;
        extend_path ids' fuel g a next_gid true
      else extend_path ids' fuel g a next_gid added
  end.

(** [extend_analyzer(cw_target, dir, id, mism, rg)].  [a_target] and
    [a_conflict] are references into the map. *)
Definition extend_analyzer (fuel : nat) (g : gstate) (analyzers : gmap aid_t analyzer)
    (cw_target : walker) (dir id0 mism : Z) (rg : walker)
    : result (gstate * gmap aid_t analyzer) :=
  '(g, cw_target) ← ufind_s fuel g cw_target;
  '(g, rg) ← ufind_s fuel g rg;
  '(g, cw_conflict) ← wstep g (wplus (tiles g) cw_target dir);
  '(g, analyzers, target) ← get_analyzer fuel g analyzers cw_target;
  '(g, analyzers, conflict) ← get_analyzer fuel g analyzers cw_conflict;
  ids_to_add ← ids_to_root fuel (analyzers !!! conflict) id0 [];
  '(g, a, added) ← extend_path (rev ids_to_add) fuel g (analyzers !!! target)
                     (1 + dir) false;
  let analyzers := <[target := a]> analyzers in
  if (mism =? 0) && negb added then Throw (rulegen_retry "no extension")
  else Ok (g, analyzers).

End Analyzers.

End Analyzers.

(** An analyzer is a rooted tree: its three vectors have the same length,
    entry 0 has no parent, and the parent of every other entry comes
    before it. *)
Definition rooted (a : analyzer) : Prop :=
  length (a_parent_id a) = length (a_spread a) /\
  length (a_spin a) = length (a_spread a) /\
  forall (i : nat) (pid : Z),
    a_parent_id a !! i = Some pid ->
    if decide (i = 0%nat) then pid = -1 else 0 <= pid < Z.of_nat i.

(** [a'] is [a] with entries added behind. *)
Definition grown (a a' : analyzer) : Prop :=
  a_spread a `prefix_of` a_spread a' /\
  a_parent_id a `prefix_of` a_parent_id a' /\
  a_spin a `prefix_of` a_spin a'.

(** The walker one step across the edge that [w] looks along. *)
Definition across (h : heap) (w : walker) : walker :=
  match peek h w with
  | Some (t, s) => twalker t s
  | None => w
  end.

(** The walker [cw] with the walkers across the edges of its tile, taken
    from the edge [cw] looks along onwards. *)
Definition star (h : heap) (cw : walker) : analyzer :=
  let n := Z.to_nat (type (h !!! at' cw)) in
  mk_analyzer
    (cw :: ((fun i => across h (wplus h cw (Z.of_nat i))) <$> seq 0 n))
    (-1 :: replicate n 0)
    (-1 :: (Z.of_nat <$> seq 0 n)).

(** All edges of tile [t] are materialized. *)
Definition edges_known (h : heap) (t : ptr) : bool :=
  forallb (fun i => bool_decide (is_Some (move (h !!! t) (Z.of_nat i))))
    (seq 0 (Z.to_nat (type (h !!! t)))).

(** The analyzer id of a walker on a representative tile. *)
Definition aid_of (h : heap) (shs : list shape) (cw : walker) : aid_t :=
  (id (h !!! at' cw),
   gmod (to_spin h cw 0) (cycle_length (vget shs (id (h !!! at' cw))))).

(** ** The table of codes: [get_code], [rules_iteration_for] *)

(** Two states of the globals with the same [treestates] and
    [code_to_id]. *)
Definition same_codes (g g' : gstate) : Prop :=
  treestates g' = treestates g /\ code_to_id g' = code_to_id g.

(** The callees leave [treestates] and [code_to_id] alone. *)
Record codes_kept (ca : Callees) : Prop := mk_codes_kept {
  ck_fix_distances : forall g c0 g',
      fix_distances g c0 = Ok g' -> same_codes g g';
  ck_look_for_shortcuts_in : forall g c0 g',
      look_for_shortcuts_in g c0 = Ok g' -> same_codes g g';
  ck_find_new_shortcuts : forall g c0 d alt newdir delta g',
      find_new_shortcuts g c0 d alt newdir delta = Ok g' -> same_codes g g';
  ck_tmove_new : forall g c0 d g' c1,
      tmove_new g c0 d = Ok (g', c1) -> same_codes g g';
  ck_ensure_shorter_known : forall g cw g',
      ensure_shorter_known g cw = Ok g' -> same_codes g g';
  ck_analyze : forall g cw g' parent_id sprawl,
      analyze g cw = Ok (g', parent_id, sprawl) -> same_codes g g';
  ck_get_side : forall g cw g' side,
      get_side g cw = Ok (g', side) -> same_codes g g'
}.

(** [code_to_id] and [treestates] agree: a code that has an id has the id
    of a state of the table, which carries that id and that code. *)
Definition code_table (g : gstate) : Prop :=
  forall (v : code_t) (n : Z),
    code_to_id g !! v = Some n ->
    0 <= n /\
    exists ts, treestates g !! Z.to_nat n = Some ts /\ ts_id ts = n /\ ts_code ts = v.

(** [g'] has the states and coded ids of [g], and possibly more. *)
Definition codes_grown (g g' : gstate) : Prop :=
  treestates g `prefix_of` treestates g' /\
  code_to_id g ⊆ code_to_id g' /\
  (code_table g -> code_table g').

Definition set_known (ts : treestate) (b : bool) : treestate :=
  mk_treestate (ts_id ts) b (rules ts) (giver ts) (ts_sid ts) (ts_parent_dir ts)
    (where_seen ts) (ts_code ts) (is_live ts) (is_possible_parent ts) (is_root ts)
    (possible_parents ts).

Definition set_giver (ts : treestate) (w : option walker) : treestate :=
  mk_treestate (ts_id ts) (known ts) (rules ts) w (ts_sid ts) (ts_parent_dir ts)
    (where_seen ts) (ts_code ts) (is_live ts) (is_possible_parent ts) (is_root ts)
    (possible_parents ts).

Definition set_ts_sid (ts : treestate) (n : Z) : treestate :=
  mk_treestate (ts_id ts) (known ts) (rules ts) (giver ts) n (ts_parent_dir ts)
    (where_seen ts) (ts_code ts) (is_live ts) (is_possible_parent ts) (is_root ts)
    (possible_parents ts).

Module RulesFor.

Section RulesIterationFor.

Context {su : Setup} {ca : Callees}.

(** The loop over [k] in [rules_iteration_for]: the codes [c1] and [c2] of
    the two children are compared entry by entry.  [az] is the map
    [analyzers]. *)
Fixpoint compare_codes (ks : list nat) (fuel : nat) (g : gstate)
    (az : gmap aid_t analyzer) (cwmain : walker) (n z : Z) (c1 c2 : list Z)
    (mismatches : Z) : result (gstate * gmap aid_t analyzer * Z) :=
  match ks with
  | [] => Ok (g, az, mismatches)
  | k :: ks' =>
      let a := vget c1 (Z.of_nat k) in
      let b := vget c2 (Z.of_nat k) in
      if (a =? C_IGNORE) || (b =? C_IGNORE) then
        compare_codes ks' fuel g az cwmain n z c1 c2 mismatches
      else if negb (a =? b) then
        ts ← at_index (treestates g) n;
        match giver ts with
        | None => Throw null_deref
        | Some rg =>
            '(g, az) ← Analyzers.extend_analyzer fuel g az cwmain z (Z.of_nat k)
                         mismatches rg;
            let mismatches := mismatches + 1 in
            if negb (has_flag flags w_conflict_all) then
              Throw (rulegen_retry "mismatch error")
            else compare_codes ks' fuel g az cwmain n z c1 c2 mismatches
        end
      else compare_codes ks' fuel g az cwmain n z c1 c2 mismatches
  end.

(** The loop over [z]: the rules [r] the state has are compared with the
    rules [cids] just computed. *)
Fixpoint compare_rules (zs : list nat) (fuel : nat) (g : gstate)
    (az : gmap aid_t analyzer) (cwmain : walker) (n : Z) (r cids : list Z)
    (mismatches : Z) : result (gstate * gmap aid_t analyzer * Z) :=
  match zs with
  | [] => Ok (g, az, mismatches)
  | z :: zs' =>
      rz ← at_index r (Z.of_nat z);
      let cz := vget cids (Z.of_nat z) in
      if rz =? cz then compare_rules zs' fuel g az cwmain n r cids mismatches
      else if (rz <? 0) || (cz <? 0) then Throw (rulegen_failure "neg rule mismatch")
      else
        ts1 ← at_index (treestates g) rz;
        ts2 ← at_index (treestates g) cz;
        let c1 := (ts_code ts1).2 in
        let c2 := (ts_code ts2).2 in
        if negb (length c1 =? length c2)%nat then
          Throw (rulegen_failure "length mismatch")
        else
          '(g, az, mismatches) ← compare_codes (seq 0 (length c1)) fuel g az cwmain n
                                   (Z.of_nat z) c1 c2 mismatches;
          compare_rules zs' fuel g az cwmain n r cids mismatches
  end.

(** [rules_iteration_for(cw)]: the globals and the argument [cw], which is
    passed by reference.  The branch for a known state whose rules differ
    from the ones computed ends in an exception in every case. *)
Definition rules_iteration_for (fuel : nat) (g : gstate) (az : gmap aid_t analyzer)
    (cw : walker) : result (gstate * walker) :=
  '(g, cw) ← ufind_s fuel g cw;
  '(g, cw, co) ← get_code fuel g cw;
  let d := co.1 in
  let n := co.2 in
  let cwmain := twalker (at' cw) d in
  '(g, cwmain) ← ufind_s fuel g cwmain;
  '(g, cids) ← gen_rule fuel g cwmain n;
  ts ← at_index (treestates g) n;
  if negb (known ts) then
    let ts := set_known ts true in
    let ts := set_rules ts cids in
    let ts := set_giver ts (Some cwmain) in
    let ts := set_ts_sid ts (id (tiles g !!! at' cwmain)) in
    let ts := set_ts_parent_dir ts (spin cwmain) in
    let ts := set_is_root ts (dist (tiles g !!! at' cw) =? 0) in
    Ok (with_treestates g (<[Z.to_nat n := ts]> (treestates g)), cw)
  else if negb (bool_decide (rules ts = cids)) then
    g ← handle_distance_errors g;
    '(g, az, mismatches) ← compare_rules (seq 0 (length cids)) fuel g az cwmain n
                             (rules ts) cids 0;
    if negb (mismatches =? 0) then Throw (rulegen_retry "mismatch error")
    else Throw (rulegen_failure "no mismatches?!")
  else Ok (g, cw).

End RulesIterationFor.

End RulesFor.

(** ** The list of tiles: [gen_tcell] and the loops over [first_tcell] *)

Definition with_tcellcount (g : gstate) (n : Z) : gstate :=
  mk_gstate (tiles g) n (tunified g) (hard_parents g) (parent_updates g)
    (solid_errors g) (no_errors g) (fix_queue g) (in_fixing g) (treestates g)
    (code_to_id g) (try_count g).

Module Arena.

Section Arena.

Context {su : Setup}.

(** [gen_tcell(id)]: the globals, the head [first_tcell] of the list of
    tiles and the new tile.  [a] is the address the allocator returns. *)
Definition gen_tcell (a : ptr) (g : gstate) (first_tcell : option ptr) (sid : Z)
    : gstate * option ptr * ptr :=
  let d := Z.of_nat (length (connections (vget shapes sid))) in
  let g := with_tiles g (<[a := new_tcell a sid d first_tcell]> (tiles g)) in
  (with_tcellcount g (tcellcount g + 1), Some a, a).

End Arena.

(** [auto c = first_tcell; while(c) { ...; c = c->next; }] with the body
    [f]. *)
Fixpoint each_tcell (fuel : nat) (f : tcell -> tcell) (h : heap) (c0 : option ptr)
    : result heap :=
  match c0 with
  | None => Ok h
  | Some p =>
      match fuel with
      | O => Diverge
      | S fuel' =>
          let h := upd h p f in
          each_tcell fuel' f h (next (h !!! p))
      end
  end.

(** [clear_codes()]. *)
Definition clear_codes (fuel : nat) (g : gstate) (first_tcell : option ptr)
    : result gstate :=
  let g := with_treestates g [] in
  let g := with_code_to_id g ∅ in
  h ← each_tcell fuel (fun t => set_code t MYSTERY) (tiles g) first_tcell;
  Ok (with_tiles g h).

(** The body of the loop of [clear_tcell_data()]. *)
Definition clear_tcell (t : tcell) : tcell :=
  let t := set_is_solid t false in
  let t := set_parent_dir t MYSTERY in
  let t := set_code t MYSTERY in
  set_distance_fixed t false.

(** [clear_tcell_data()]. *)
Definition clear_tcell_data (fuel : nat) (g : gstate) (first_tcell : option ptr)
    : result gstate :=
  h ← each_tcell fuel clear_tcell (tiles g) first_tcell;
  let g := with_tiles g h in
  let g := with_in_fixing g false in
  Ok (with_fix_queue g []).

(** The loop of [delete_tmap()]. *)
Fixpoint delete_tcells (fuel : nat) (h : heap) (first_tcell : option ptr)
    : result heap :=
  match first_tcell with
  | None => Ok h
  | Some p =>
      match fuel with
      | O => Diverge
      | S fuel' =>
          let second := next (h !!! p) in
          delete_tcells fuel' (delete p h) second
      end
  end.

(** [delete_tmap()]: the globals and [first_tcell].  ([t_origin], which is
    cleared as well, is not among the globals kept here.) *)
Definition delete_tmap (fuel : nat) (g : gstate) (first_tcell : option ptr)
    : result (gstate * option ptr) :=
  h ← delete_tcells fuel (tiles g) first_tcell;
  let g := with_tiles g h in
  let g := with_tcellcount g 0 in
  Ok (with_tunified g 0, None).

End Arena.

(** The list headed by [c0] runs through the tiles [l], in this order, and
    ends. *)
Fixpoint chain (h : heap) (c0 : option ptr) (l : list ptr) : Prop :=
  match l with
  | [] => c0 = None
  | p :: l' => c0 = Some p /\ is_Some (h !! p) /\ chain h (next (h !!! p)) l'
  end.

(** ** Sample configurations *)

(** Three squares: tile 2 was unified into tile 1 with rotation 2, and tile 1
    into tile 0 with rotation 1. *)
Definition uf_sample : heap :=
  <[2%nat := set_unified_to (new_tcell 2%nat 0 4 (Some 1%nat)) (twalker 1%nat 2)]>
  (<[1%nat := set_unified_to (new_tcell 1%nat 0 4 (Some 0%nat)) (twalker 0%nat 1)]>
  (<[0%nat := new_tcell 0%nat 0 4 None]> ∅)).

(** One shape, a square with rotational symmetry of order two (cycle length
    2) whose vertices have valence 5; default flags and limits. *)
Definition square : shape :=
  mk_shape (replicate 4 (mk_connection 0 0 false)) 2 [5; 5; 5; 5].

Definition sample_setup : Setup :=
  {| shapes := [square]; flags := 0; max_retries := 999; max_tcellcount := 1000000 |}.

(** Callees that are never reached: each one throws. *)
Definition unreached : Callees :=
  {| process_fix_queue := fun _ => Throw (hr_exception "callee");
     unify_distances := fun _ _ _ _ => Throw (hr_exception "callee");
     fix_distances := fun _ _ => Throw (hr_exception "callee");
     look_for_shortcuts_in := fun _ _ => Throw (hr_exception "callee");
     find_new_shortcuts := fun _ _ _ _ _ _ => Throw (hr_exception "callee");
     tmove_new := fun _ _ _ => Throw (hr_exception "callee");
     ensure_shorter_known := fun _ _ => Throw (hr_exception "callee");
     analyze := fun _ _ => Throw (hr_exception "callee");
     get_side := fun _ _ => Throw (hr_exception "callee");
     check_timeout := fun _ => Throw (hr_exception "callee");
     setup_run := fun _ => Throw (hr_exception "callee");
     rules_iteration_body := fun g => (g, raised (hr_exception "callee")) |}.

(** Callees that find nothing to do: the queue is being drained by an outer
    call ([in_fixing] is set), and no distance needs fixing. *)
Definition idle : Callees :=
  {| process_fix_queue := fun g => Ok g;
     unify_distances := fun g _ _ _ => Ok g;
     fix_distances := fun g _ => Ok g;
     look_for_shortcuts_in := fun g _ => Ok g;
     find_new_shortcuts := fun g _ _ _ _ _ => Ok g;
     tmove_new := fun _ _ _ => Throw (hr_exception "callee");
     ensure_shorter_known := fun g _ => Ok g;
     analyze := fun _ _ => Throw (hr_exception "callee");
     get_side := fun g _ => Ok (g, 0);
     check_timeout := fun g => Ok g;
     setup_run := fun g => Ok g;
     rules_iteration_body := fun g => (g, finished) |}.

Definition gstate_of (h : heap) (n : Z) : gstate :=
  mk_gstate h n 0 0 0 0 false [] true [] ∅ 0.

(** A root square, as [generate_rules] seeds it. *)
Definition root_tile : tcell := set_dist (new_tcell 0%nat 0 4 None) 0.

Definition one_root : gstate := gstate_of (<[0%nat := root_tile]> ∅) 1.

(** The root and the neighbour across its edge 0, as [tmove] leaves them
    right after connecting the two. *)
Definition two_tiles : gstate :=
  gstate_of
    (connect (<[1%nat := new_tcell 1%nat 0 4 (Some 0%nat)]> (<[0%nat := root_tile]> ∅))
       (twalker 0%nat 0) (twalker 1%nat 0))
    2.

(** Three squares of the same shape: the root without neighbours, and tiles
    1 and 2 connected across their edges 0. *)
Definition three_tiles : gstate :=
  gstate_of
    (connect
       (<[2%nat := new_tcell 2%nat 0 4 (Some 1%nat)]>
          (<[1%nat := new_tcell 1%nat 0 4 (Some 0%nat)]> (<[0%nat := root_tile]> ∅)))
       (twalker 1%nat 0) (twalker 2%nat 0))
    3.

(** Callees of a run whose first two rules-iterations ask for a retry and
    whose third one succeeds. *)
Definition retrying : Callees :=
  {| process_fix_queue := fun g => Ok g;
     unify_distances := fun g _ _ _ => Ok g;
     fix_distances := fun g _ => Ok g;
     look_for_shortcuts_in := fun g _ => Ok g;
     find_new_shortcuts := fun g _ _ _ _ _ => Ok g;
     tmove_new := fun _ _ _ => Throw (hr_exception "callee");
     ensure_shorter_known := fun g _ => Ok g;
     analyze := fun _ _ => Throw (hr_exception "callee");
     get_side := fun g _ => Ok (g, 0);
     check_timeout := fun g => Ok g;
     setup_run := fun g => Ok g;
     rules_iteration_body := fun g =>
       if try_count g <? 3 then (g, raised (rulegen_retry "mismatch error"))
       else (g, finished) |}.

(** A table of four states over triangles: the root 0 with children 1, 2
    and 3; state 1 with child 2; state 2 with child 1; state 3 with child 1.
    Every state has a live child, and every state is live. *)
Definition state_of (n : Z) (rs : list Z) (root : bool) : treestate :=
  mk_treestate n true rs None 0 0 None ((0, 0), []) true false root [].

Definition sample_states : list treestate :=
  [ state_of 0 [1; 2; 3] true;
    state_of 1 [DIR_PARENT; 2; DIR_LEFT] false;
    state_of 2 [DIR_PARENT; DIR_RIGHT; 1] false;
    state_of 3 [DIR_PARENT; 1; DIR_RIGHT] false ].

(** A tessellation of triangles for the sample tables, and a generator
    whose draw among [n] elements has [n] outcomes, one per index; its
    [k]-th draw has the outcome [k mod n]. *)
Definition triangle : shape :=
  mk_shape (replicate 3 (mk_connection 0 0 false)) 1 [3; 3; 3].

Definition consumer_setup : Setup :=
  {| shapes := [triangle]; flags := 0; max_retries := 999; max_tcellcount := 1000000 |}.

Definition round_robin : Rng.
Proof.
  refine {| draws := fun n => n;
            drawn := fun k n => (k mod n)%nat;
            hrand := fun n u => u |}.
  - intros k n Hn. apply Nat.mod_upper_bound. lia.
  - intros n u Hu. exact Hu.
  - intros n i Hi.
    assert (G : forall (len from : nat),
              length (filter (fun u : nat => u = i) (seq from len))
              = if decide (from <= i < from + len)%nat then 1%nat else 0%nat).
    { induction len as [| len IH]; intros from.
      - simpl. destruct (decide (from <= i < from + 0)%nat); [lia | reflexivity].
      - cbn [seq]. rewrite filter_cons.
        destruct (decide (from = i)); cbn [length]; rewrite (IH (S from));
          destruct (decide (S from <= i < S from + len)%nat);
          destruct (decide (from <= i < from + S len)%nat); lia. }
    rewrite G. destruct (decide (0 <= i < 0 + n)%nat); lia.
Defined.

(** [sample_states] after [find_possible_parents]. *)
Definition finished_states : list treestate :=
  match find_possible_parents 5 sample_states with
  | Ok out => out
  | _ => []
  end.

(** A table in which the root's edge 2 is found by stepping sideways. *)
Definition walk_states : list treestate :=
  [ state_of 0 [1; 1; DIR_LEFT] true;
    state_of 1 [DIR_PARENT; DIR_LEFT; 2] false;
    state_of 2 [DIR_PARENT; DIR_LEFT; DIR_RIGHT] false ].

(** The arena of [hrmap_rulegen()] right after construction: the origin, in
    state [rule_root = 0] at distance 0. *)
Definition origin_only : list heptagon :=
  [mk_heptagon 0 0 0 hsOrigin true [None; None; None]].

(** The arena after the walk from the origin's edge 2 in [walk_states] has
    made the children in states 1 and 2, before the connection is made;
    and the mirror image of [walk_states]. *)
Definition walked_arena : list heptagon :=
  [ mk_heptagon 0 0 0 hsOrigin true [None; Some (1%nat, 0); None];
    mk_heptagon 1 1 0 hsA true [Some (0%nat, 1); None; Some (2%nat, 0)];
    mk_heptagon 2 2 0 hsA true [Some (1%nat, 2); None; None] ].

Definition mirror_states : list treestate :=
  [ state_of 0 [DIR_RIGHT; 1; 1] true;
    state_of 1 [DIR_PARENT; 2; DIR_RIGHT] false;
    state_of 2 [DIR_PARENT; DIR_LEFT; DIR_RIGHT] false ].

(** An arena whose heptagon 0 is in state 1, at distance 5. *)
Definition lone_child : list heptagon :=
  [mk_heptagon 5 1 0 hsA true [None; None; None]].

(** The same tessellation with the flag [w_no_relative_distance] set. *)
Definition relative_setup : Setup :=
  {| shapes := [square]; flags := w_no_relative_distance;
     max_retries := 999; max_tcellcount := 1000000 |}.

(** Two solid squares that meet across their edges 1: tile 1 at distance 2,
    whose parent direction 0 is cached, and tile 2 at distance 1. *)
Definition solid_tile (a : ptr) (d : Z) : tcell :=
  set_parent_dir (set_is_solid (set_dist (new_tcell a 0 4 None) d) true) 0.

Definition near_pair : gstate :=
  gstate_of
    (connect (<[2%nat := solid_tile 2%nat 1]> (<[1%nat := solid_tile 1%nat 2]> ∅))
       (twalker 1%nat 1) (twalker 2%nat 1))
    2.

(** A table of four known states, all marked live: the only child of state
    1 is state 2, which has no child; state 3 is its own child. *)
Definition live_sample : list treestate :=
  [ state_of 0 [1; 2; 3] true;
    state_of 1 [DIR_PARENT; 2; DIR_LEFT] false;
    state_of 2 [DIR_PARENT; DIR_LEFT; DIR_RIGHT] false;
    state_of 3 [DIR_PARENT; 3; DIR_RIGHT] false ].

(** A known state with a giver. *)
Definition given_state (n : Z) (rs : list Z) (root : bool) (w : walker) : treestate :=
  mk_treestate n true rs (Some w) 0 0 None ((0, 0), []) true false root [].

(** Four states over the root square, whose givers stand on it: states 1
    and 2 differ in the names of their children only; state 3 has the
    analyzer id of states 1 and 2 but another rule. *)
Definition mini_sample : gstate :=
  with_code_to_id
    (with_treestates one_root
       [ given_state 0 [1; 2; 1; 2] true (twalker 0%nat 1);
         given_state 1 [DIR_PARENT; 1; 2; DIR_LEFT] false (twalker 0%nat 0);
         given_state 2 [DIR_PARENT; 2; 1; DIR_LEFT] false (twalker 0%nat 2);
         given_state 3 [DIR_PARENT; 3; 3; DIR_RIGHT] false (twalker 0%nat 0) ])
    (<[((0, 0), [C_CHILD; C_EQUAL]) := 3]> (<[((0, 0), [C_CHILD]) := 2]> ∅)).

(** Three squares in a row, joined across edges 0 and 2: tile 1 is the
    root, the distances of tiles 2 and 3 are not known yet. *)
Definition row_of_three : gstate :=
  gstate_of
    (connect
       (connect
          (<[3%nat := new_tcell 3%nat 0 4 None]>
             (<[2%nat := new_tcell 2%nat 0 4 None]>
                (<[1%nat := set_dist (new_tcell 1%nat 0 4 None) 0]> ∅)))
          (twalker 1%nat 0) (twalker 2%nat 2))
       (twalker 2%nat 0) (twalker 3%nat 2))
    3.

(** A single root square glued to itself: edge 0 to edge 2 and edge 1 to
    edge 3. *)
Definition torus_tile : gstate :=
  gstate_of
    (connect
       (connect (<[0%nat := root_tile]> ∅) (twalker 0%nat 0) (twalker 0%nat 2))
       (twalker 0%nat 1) (twalker 0%nat 3))
    1.

(** Callees for an arena that is complete: nothing needs fixing, every
    side question is answered by 0, and the analyzer of a walker is its
    star. *)
Definition settled : Callees :=
  {| process_fix_queue := fun g => Ok g;
     unify_distances := fun g _ _ _ => Ok g;
     fix_distances := fun g _ => Ok g;
     look_for_shortcuts_in := fun g _ => Ok g;
     find_new_shortcuts := fun g _ _ _ _ _ => Ok g;
     tmove_new := fun _ _ _ => Throw (hr_exception "callee");
     ensure_shorter_known := fun g _ => Ok g;
     analyze := fun g cw =>
       Ok (g, a_parent_id (star (tiles g) cw), a_spread (star (tiles g) cw));
     get_side := fun g _ => Ok (g, 0);
     check_timeout := fun g => Ok g;
     setup_run := fun g => Ok g;
     rules_iteration_body := fun g => (g, finished) |}.

(** The map of analyzers after [get_analyzer] on the walker [(0, 0)] of
    [torus_tile]: the star of that walker under the key [(0, 0)]. *)
Definition torus_analyzers : gmap aid_t analyzer :=
  {[ (0, 0) :=
       mk_analyzer
         [twalker 0%nat 0; twalker 0%nat 2; twalker 0%nat 3; twalker 0%nat 0;
          twalker 0%nat 1]
         [-1; 0; 0; 0; 0] [-1; 0; 1; 2; 3] ]}.

(** Callees whose rules-iteration ends in the exception [e] every time. *)
Definition raising (e : exn) : Callees :=
  {| process_fix_queue := fun g => Ok g;
     unify_distances := fun g _ _ _ => Ok g;
     fix_distances := fun g _ => Ok g;
     look_for_shortcuts_in := fun g _ => Ok g;
     find_new_shortcuts := fun g _ _ _ _ _ => Ok g;
     tmove_new := fun _ _ _ => Throw (hr_exception "callee");
     ensure_shorter_known := fun g _ => Ok g;
     analyze := fun _ _ => Throw (hr_exception "callee");
     get_side := fun g _ => Ok (g, 0);
     check_timeout := fun g => Ok g;
     setup_run := fun g => Ok g;
     rules_iteration_body := fun g => (g, raised e) |}.

(** A root whose parent direction was 1 before it was reset (as
    [remove_parentdir] leaves it), and a setup whose tile budget is used
    up by one tile. *)
Definition demoted_root : gstate :=
  gstate_of (<[0%nat := set_old_parent_dir root_tile 1]> ∅) 1.

Definition tight_setup : Setup :=
  {| shapes := [square]; flags := 0; max_retries := 999; max_tcellcount := 1 |}.

(** * Part II: statements *)

(** ** Basic facts *)

Lemma bind_Ok_inv {A B : Type} (m : result A) (k : A -> result B) (b : B) :
  m ≫= k = Ok b -> exists a, m = Ok a /\ k a = Ok b.
Proof. destruct m; simpl; intros Hm; try discriminate. eauto. Qed.

Lemma walker_eqb_eq (a b : walker) : walker_eqb a b = true <-> a = b.
Proof.
  destruct a as [a1 s1], b as [a2 s2]; unfold walker_eqb; simpl.
  rewrite andb_true_iff, Nat.eqb_eq, Z.eqb_eq.
  split; [intros [-> ->]; reflexivity | intros E; inversion E; auto].
Qed.

Lemma walker_eqb_refl (a : walker) : walker_eqb a a = true.
Proof. apply walker_eqb_eq; reflexivity. Qed.

Lemma walker_eqb_neq (a b : walker) : walker_eqb a b = false <-> a <> b.
Proof.
  rewrite <- walker_eqb_eq. destruct (walker_eqb a b); split; congruence.
Qed.

Lemma upd_same (h : heap) p f : upd h p f !!! p = f (h !!! p).
Proof. unfold upd. apply lookup_total_insert_eq. Qed.

Lemma upd_other (h : heap) p q f : p <> q -> upd h p f !!! q = h !!! q.
Proof. intros. unfold upd. apply lookup_total_insert_ne; assumption. Qed.

(** ** Union-find *)

Lemma set_unified_to_id (t : tcell) : set_unified_to t (unified_to t) = t.
Proof. destruct t; reflexivity. Qed.

Lemma compressed_refl (h : heap) : compressed h h.
Proof. intros t. split; [apply set_unified_to_id | left; reflexivity]. Qed.

Lemma compressed_type (h h' : heap) t :
  compressed h h' -> type (h' !!! t) = type (h !!! t).
Proof. intros Hc. destruct (Hc t) as [E _]. rewrite <- E. reflexivity. Qed.

Lemma compressed_wplus (h h' : heap) r k :
  compressed h h' -> wplus h' r k = wplus h r k.
Proof. intros Hc. unfold wplus. rewrite (compressed_type _ _ _ Hc). reflexivity. Qed.

Lemma denotes_at_rep (h : heap) p r n : denotes h p r n -> is_rep h (at' r).
Proof. induction 1; simpl; assumption. Qed.

Lemma denotes_fun (h : heap) p r n :
  denotes h p r n -> forall r' n', denotes h p r' n' -> r = r' /\ n = n'.
Proof.
  induction 1 as [p Hp | p r n Hp Hd IH]; intros r' n' H'; inversion H'; subst.
  - split; reflexivity.
  - contradiction.
  - contradiction.
  - match goal with Hx : denotes h (unified_to _) _ _ |- _ =>
      destruct (IH _ _ Hx) as [-> ->] end.
    split; reflexivity.
Qed.

Lemma denotes_link_end (h : heap) p r n :
  denotes h p r n -> at' r = link_end h (at' p) n.
Proof. induction 1; simpl; auto. Qed.

Lemma denotes_not_rep_before (h : heap) p r n :
  denotes h p r n -> forall k, (k < n)%nat -> ~ is_rep h (link_end h (at' p) k).
Proof.
  induction 1 as [p Hp | p r n Hp Hd IH]; intros k Hk; [lia |].
  destruct k as [|k]; simpl; [exact Hp | apply IH; lia].
Qed.

(** A chain that reaches a representative gives every walker on its first
    tile a denotation. *)
Lemma reaches_denotes (h : heap) n : forall p rep,
  reaches h (at' p) rep n -> exists r, denotes h p r n /\ at' r = rep.
Proof.
  induction n as [|n IH]; intros p rep (Hend & Hrep & Hbefore); simpl in Hend.
  - exists p. subst rep. split; [constructor; exact Hrep | reflexivity].
  - destruct (IH (unified_to (h !!! at' p)) rep) as (r1 & Hd & Hat).
    { split; [exact Hend | split; [exact Hrep |]].
      intros k Hk. apply (Hbefore (S k)). lia. }
    exists (wplus h r1 (spin p)). split; [| exact Hat].
    constructor; [| exact Hd]. apply (Hbefore O). lia.
Qed.

Lemma denotes_spin (h : heap) p r n :
  denotes h p r n ->
  spin r = match n with
           | O => spin p
           | S _ => (spin p + rotation h (at' p) n) mod type (h !!! at' r)
           end.
Proof.
  induction 1 as [p Hp | p r n Hp Hd IH]; [reflexivity |].
  simpl. rewrite IH. destruct n as [|n]; simpl.
  - f_equal. lia.
  - rewrite Zplus_mod_idemp_l. f_equal. lia.
Qed.

(** Compression keeps the denotation of every walker. *)
Lemma compressed_denotes (h h' : heap) :
  compressed h h' ->
  forall q rq m, denotes h q rq m -> exists m', denotes h' q rq m'.
Proof.
  intros Hc.
  assert (Hrep : forall t, is_rep h t -> is_rep h' t).
  { intros t Ht. destruct (Hc t) as [_ [E | [Hn _]]]; [| contradiction].
    unfold is_rep. rewrite E. exact Ht. }
  induction 1 as [q Hq | q r n Hq Hd [m' IH]].
  - exists O. constructor. apply Hrep. exact Hq.
  - destruct (Hc (at' q)) as [_ [E | [_ [k Hk]]]].
    + exists (S m'). rewrite <- (compressed_wplus h h' r (spin q) Hc).
      constructor; rewrite E; assumption.
    + destruct (denotes_fun _ _ _ _ Hd _ _ Hk) as [Er _].
      exists 1%nat. rewrite <- (compressed_wplus h h' r (spin q) Hc).
      assert (Hrr : is_rep h (at' r)) by (eapply denotes_at_rep; eassumption).
      constructor; rewrite <- Er.
      * intros Heq. apply Hq. unfold is_rep in Hrr.
        change (is_rep h (at' q)). rewrite <- Heq. exact Hrr.
      * constructor. apply Hrep. exact Hrr.
Qed.

Lemma ufind_denotes (h : heap) p r n :
  denotes h p r n ->
  forall fuel, (n < fuel)%nat ->
  exists h', ufind fuel h p = Ok (h', r) /\ compressed h h'.
Proof.
  induction 1 as [p Hp | p r n Hp Hd IH]; intros fuel Hfuel;
    (destruct fuel as [|fuel]; [lia |]); simpl.
  - exists h. apply Nat.eqb_eq in Hp. rewrite Hp.
    split; [reflexivity | apply compressed_refl].
  - apply Nat.eqb_neq in Hp. rewrite Hp.
    destruct (IH fuel) as (h1 & E1 & Hc1); [lia |].
    rewrite E1. simpl.
    set (h2 := upd h1 (at' p) (fun t => set_unified_to t r)).
    assert (Hc2 : compressed h h2).
    { intros t. destruct (decide (at' p = t)) as [<- | Hne].
      - unfold h2. rewrite upd_same. split.
        + destruct (Hc1 (at' p)) as [E _]. rewrite <- E.
          destruct (h1 !!! at' p); reflexivity.
        + right. split; [apply Nat.eqb_neq; exact Hp |].
          exists n. destruct (h1 !!! at' p); exact Hd.
      - unfold h2. rewrite upd_other by assumption. apply Hc1. }
    exists h2. split; [| exact Hc2].
    rewrite (compressed_wplus h h2 r (spin p) Hc2). reflexivity.
Qed.

(** On a representative [ufind] does nothing. *)
Lemma ufind_rep (h : heap) p fuel :
  is_rep h (at' p) -> ufind (S fuel) h p = Ok (h, p).
Proof. intros Hp. simpl. unfold is_rep in Hp. rewrite Hp, Nat.eqb_refl. reflexivity. Qed.

(** C10.  If the [unified_to] chain of [p]'s tile reaches a self-looping
    representative [rep] after [n] links, then [ufind] (given more than [n]
    units of recursion depth) returns a walker [r] standing on [rep]; [rep]
    still points at itself; the spin of [r] is the spin of [p] plus the
    rotation accumulated along the chain, modulo the tile's [type]; every
    walker (in particular [p] and [r]) denotes the same cell in the new arena
    as it did in the old one; and a second [ufind] on the result changes
    neither the arena nor the walker. *)
Theorem ufind_reaches_representative :
  forall (h : heap) (p : walker) (rep : ptr) (n fuel : nat),
    reaches h (at' p) rep n ->
    (n < fuel)%nat ->
    exists h' r,
      ufind fuel h p = Ok (h', r) /\
      at' r = rep /\
      is_rep h' rep /\
      spin r = match n with
               | O => spin p
               | S _ => (spin p + rotation h (at' p) n) mod type (h !!! rep)
               end /\
      denotes h p r n /\
      (forall q rq m, denotes h q rq m -> exists m', denotes h' q rq m') /\
      denotes h' r r O /\
      ufind fuel h' r = Ok (h', r).
Proof.
  intros h p rep n fuel Hreach Hfuel.
  destruct (reaches_denotes h n p rep Hreach) as (r & Hd & Hat).
  destruct (ufind_denotes h p r n Hd fuel Hfuel) as (h' & Hu & Hc).
  assert (Hrep' : is_rep h' rep).
  { subst rep.
    destruct (Hc (at' r)) as [_ [E | [Hn _]]].
    + unfold is_rep. rewrite E. eapply denotes_at_rep; eassumption.
    + exfalso. apply Hn. eapply denotes_at_rep; eassumption. }
  exists h', r. repeat split.
  - exact Hu.
  - exact Hat.
  - exact Hrep'.
  - rewrite <- Hat. apply denotes_spin. exact Hd.
  - exact Hd.
  - apply compressed_denotes. exact Hc.
  - constructor. rewrite Hat. exact Hrep'.
  - destruct fuel as [|fuel]; [lia |]. apply ufind_rep. rewrite Hat. exact Hrep'.
Qed.

Lemma ufind_reaches_representative_witness :
  exists h' r,
    ufind 3%nat uf_sample (twalker 2%nat 3) = Ok (h', r) /\
    at' r = 0%nat /\
    is_rep h' 0%nat /\
    spin r = (3 + rotation uf_sample 2%nat 2) mod type (uf_sample !!! 0%nat) /\
    denotes uf_sample (twalker 2%nat 3) r 2%nat /\
    (forall q rq m, denotes uf_sample q rq m -> exists m', denotes h' q rq m') /\
    denotes h' r r O /\
    ufind 3%nat h' r = Ok (h', r).
Proof.
  apply (ufind_reaches_representative uf_sample (twalker 2%nat 3) 0%nat 2%nat 3%nat).
  - split; [vm_compute; reflexivity |].
    split; [vm_compute; reflexivity |].
    intros k Hk.
    destruct k as [|[|k]]; [| | lia]; intros Hr; vm_compute in Hr; discriminate.
  - lia.
Defined.

(** On the sample, the walker [(2, 3)] is resolved to [(0, 2)]:
    [3 + 2 + 1 = 6 = 2 (mod 4)]. *)
Example ufind_sample_result :
  (fun x => match x with Ok (_, r) => Some r | _ => None end)
    (ufind 3%nat uf_sample (twalker 2%nat 3)) = Some (twalker 0%nat 2).
Proof. vm_compute. reflexivity. Qed.

(** ** The vertex-loop check *)

Lemma walk_succ step n w : walk step (S n) w = walk step n w ≫= step.
Proof. reflexivity. Qed.

Lemma no_meeting_succ step w target n w' :
  no_meeting step w target n ->
  walk step (S n) w = Some w' -> w' <> target ->
  no_meeting step w target (S n).
Proof.
  intros Hn Hw Hne j Hj.
  destruct (decide (j = S n)) as [-> | Hjn].
  - rewrite Hw. congruence.
  - apply Hn. lia.
Qed.

(** The backward loop, started after [nb] steps that met nothing. *)
Lemma check_loops_back_spec (h : heap) (V : Z) (pw : walker) :
  forall (fuel nb : nat) (pwb : walker),
    walk (back_step h) nb pw = Some pwb ->
    Z.of_nat nb < V ->
    (Z.to_nat V - nb <= fuel)%nat ->
    no_meeting (back_step h) pw pw nb ->
    match check_loops_back fuel h V pw pwb (Z.of_nat nb) with
    | Ok known_loop =>
        walk (back_step h) (Z.to_nat V) pw = Some pw /\
        no_meeting (back_step h) pw pw (Z.to_nat V - 1)
    | Ok (unify_ends a b) =>
        a = pw /\ walk (back_step h) (Z.to_nat V) pw = Some b /\
        no_meeting (back_step h) pw pw (Z.to_nat V)
    | Ok (open_end w st) =>
        exists nb', st = Z.of_nat nb' /\ Z.of_nat nb' < V /\
          walk (back_step h) nb' pw = Some w /\ peek h w = None /\
          no_meeting (back_step h) pw pw nb'
    | Throw e =>
        e = hr_exception "vertex valence too small" /\
        exists j, (0 < j)%nat /\ Z.of_nat j < V /\
          walk (back_step h) j pw = Some pw /\
          no_meeting (back_step h) pw pw (j - 1)
    | Diverge => False
    end.
Proof.
  induction fuel as [|fuel IH]; intros nb pwb Hw Hlt Hfuel Hnm; [lia |].
  simpl. destruct (peek h pwb) as [[t sp]|] eqn:Hpeek.
  - set (pwb' := wminus h (twalker t sp) 1).
    assert (Hw' : walk (back_step h) (S nb) pw = Some pwb').
    { rewrite walk_succ, Hw. simpl. unfold back_step. rewrite Hpeek. reflexivity. }
    replace (Z.of_nat nb + 1) with (Z.of_nat (S nb)) by lia.
    destruct (walker_eqb pwb' pw) eqn:Heq.
    + apply walker_eqb_eq in Heq.
      destruct (Z.of_nat (S nb) =? V) eqn:HV.
      * apply Z.eqb_eq in HV.
        replace (Z.to_nat V) with (S nb) by lia.
        split; [rewrite Hw', Heq; reflexivity |].
        replace (S nb - 1)%nat with nb by lia. exact Hnm.
      * apply Z.eqb_neq in HV. split; [reflexivity |].
        exists (S nb). repeat split; try lia.
        -- rewrite Hw', Heq. reflexivity.
        -- replace (S nb - 1)%nat with nb by lia. exact Hnm.
    + apply walker_eqb_neq in Heq.
      assert (Hnm' : no_meeting (back_step h) pw pw (S nb))
        by (eapply no_meeting_succ; eassumption).
      destruct (Z.of_nat (S nb) =? V) eqn:HV.
      * apply Z.eqb_eq in HV.
        replace (Z.to_nat V) with (S nb) by lia.
        repeat split; assumption.
      * apply Z.eqb_neq in HV.
        apply IH; try assumption; lia.
  - exists nb. repeat split; assumption.
Qed.

(** The forward loop, started after [nb] backward and [nf] forward steps. *)
Lemma check_loops_fwd_spec (h : heap) (V : Z) (pw pwb : walker) (nb : nat) :
  forall (fuel nf : nat) (pwf : walker),
    walk (fwd_step h) nf pw = Some pwf ->
    Z.of_nat (nb + nf) < V ->
    (Z.to_nat V - (nb + nf) <= fuel)%nat ->
    no_meeting (fwd_step h) pw pwb nf ->
    match check_loops_fwd fuel h V pwf pwb (Z.of_nat (nb + nf)) with
    | Ok known_loop =>
        exists nf', Z.of_nat (nb + nf') = V /\
          walk (fwd_step h) nf' pw = Some pwb /\
          no_meeting (fwd_step h) pw pwb (nf' - 1)
    | Ok (unify_ends a b) =>
        b = pwb /\
        exists nf', Z.of_nat (nb + nf') = V /\
          walk (fwd_step h) nf' pw = Some a /\
          no_meeting (fwd_step h) pw pwb nf'
    | Ok (open_end w st) =>
        exists nf' wf, st = Z.of_nat (nb + nf') /\ Z.of_nat (nb + nf') < V /\
          walk (fwd_step h) nf' pw = Some wf /\ w = wplus h wf 1 /\
          peek h w = None /\
          no_meeting (fwd_step h) pw pwb nf'
    | Throw e =>
        e = hr_exception "vertex valence too small" /\
        exists nf', (0 < nf')%nat /\ Z.of_nat (nb + nf') < V /\
          walk (fwd_step h) nf' pw = Some pwb /\
          no_meeting (fwd_step h) pw pwb (nf' - 1)
    | Diverge => False
    end.
Proof.
  induction fuel as [|fuel IH]; intros nf pwf Hw Hlt Hfuel Hnm; [lia |].
  simpl. destruct (peek h (wplus h pwf 1)) as [[t sp]|] eqn:Hpeek.
  - set (pwf' := twalker t sp).
    assert (Hw' : walk (fwd_step h) (S nf) pw = Some pwf').
    { rewrite walk_succ, Hw. simpl. unfold fwd_step. rewrite Hpeek. reflexivity. }
    replace (Z.of_nat (nb + nf) + 1) with (Z.of_nat (nb + S nf)) by lia.
    destruct (walker_eqb pwb pwf') eqn:Heq.
    + apply walker_eqb_eq in Heq.
      destruct (Z.of_nat (nb + S nf) =? V) eqn:HV.
      * apply Z.eqb_eq in HV. exists (S nf).
        split; [exact HV |]. split; [rewrite Hw', Heq; reflexivity |].
        replace (S nf - 1)%nat with nf by lia. exact Hnm.
      * apply Z.eqb_neq in HV. split; [reflexivity |].
        exists (S nf). repeat split; try lia.
        -- rewrite Hw', Heq. reflexivity.
        -- replace (S nf - 1)%nat with nf by lia. exact Hnm.
    + apply walker_eqb_neq in Heq.
      assert (Hnm' : no_meeting (fwd_step h) pw pwb (S nf)).
      { eapply no_meeting_succ; try eassumption. congruence. }
      destruct (Z.of_nat (nb + S nf) =? V) eqn:HV.
      * apply Z.eqb_eq in HV. split; [reflexivity |].
        exists (S nf). repeat split; assumption.
      * apply Z.eqb_neq in HV.
        apply IH; try assumption; lia.
  - exists nf, pwf. repeat split; assumption.
Qed.

Section CheckLoops.

Context {su : Setup} {ca : Callees}.

(** C5.  After path compression, [check_loops] walks [nb] steps backwards
    to [wb] and [nf] steps forwards to [wf], [nb + nf <= valence], never
    meeting the other end before the last step, and ends in exactly one of
    five ways:
    - the two ends meet after exactly [valence] steps: nothing more is done;
    - [valence] steps are made without meeting: [unify] of the two ends is
      pushed on [fix_queue];
    - both ends are open after exactly [valence - 1] steps: the two open
      ends are connected and distances are fixed;
    - both ends are open after fewer steps: nothing is done and no
      exception is thrown;
    - the two ends meet before [valence] steps: the exception "vertex
      valence too small" is thrown. *)
Theorem check_loops_endings :
  forall (fuel : nat) (g : gstate) (pw : walker) (g1 : gstate) (pw1 : walker),
    ufind_s fuel g pw = Ok (g1, pw1) ->
    1 <= valence_at (tiles g1) pw1 ->
    (Z.to_nat (valence_at (tiles g1) pw1) <= fuel)%nat ->
    exists (nb nf : nat) (wb wf : walker),
      walk (back_step (tiles g1)) nb pw1 = Some wb /\
      walk (fwd_step (tiles g1)) nf pw1 = Some wf /\
      no_meeting (back_step (tiles g1)) pw1 pw1 (nb - 1) /\
      no_meeting (fwd_step (tiles g1)) pw1 wb (nf - 1) /\
      ((wb = wf /\ Z.of_nat (nb + nf) = valence_at (tiles g1) pw1 /\
        check_loops fuel g pw = Ok g1)
       \/
       (wb <> wf /\ Z.of_nat (nb + nf) = valence_at (tiles g1) pw1 /\
        check_loops fuel g pw = push_unify g1 wf wb)
       \/
       (peek (tiles g1) wb = None /\ peek (tiles g1) (wplus (tiles g1) wf 1) = None /\
        Z.of_nat (nb + nf) = valence_at (tiles g1) pw1 - 1 /\
        check_loops fuel g pw =
          (connect_and_check fuel g1 wb (wplus (tiles g1) wf 1) ≫=
             fun g2 => fix_distances g2 (at' wb)))
       \/
       (peek (tiles g1) wb = None /\ peek (tiles g1) (wplus (tiles g1) wf 1) = None /\
        Z.of_nat (nb + nf) < valence_at (tiles g1) pw1 - 1 /\
        check_loops fuel g pw = Ok g1)
       \/
       (wb = wf /\ (0 < nb + nf)%nat /\
        Z.of_nat (nb + nf) < valence_at (tiles g1) pw1 /\
        check_loops fuel g pw = Throw (hr_exception "vertex valence too small"))).
Proof.
  intros fuel g pw g1 pw1 Hu HV Hfuel.
  set (h := tiles g1) in *. set (V := valence_at h pw1) in *.
  assert (Hcl : check_loops fuel g pw =
    (check_loops_back fuel h V pw1 pw1 0 ≫= fun e =>
      match e with
      | known_loop => Ok g1
      | unify_ends pwf pwb => push_unify g1 pwf pwb
      | open_end pwb steps =>
          check_loops_fwd fuel h V pw1 pwb steps ≫= fun e =>
          match e with
          | known_loop => Ok g1
          | unify_ends pwf pwb => push_unify g1 pwf pwb
          | open_end pwf steps =>
              if steps =? V - 1 then
                connect_and_check fuel g1 pwb pwf ≫= fun g2 => fix_distances g2 (at' pwb)
              else Ok g1
          end
      end)).
  { unfold check_loops. rewrite Hu. reflexivity. }
  rewrite Hcl. clear Hcl.
  pose proof (check_loops_back_spec h V pw1 fuel O pw1 eq_refl) as Hb.
  specialize (Hb ltac:(simpl; lia) ltac:(lia) ltac:(intros j Hj; lia)).
  change (Z.of_nat 0) with 0 in Hb.
  destruct (check_loops_back fuel h V pw1 pw1 0) as [[| a b | wb st] | e |];
    simpl; [| | | | contradiction].
  - (* the backward walk closed the loop *)
    destruct Hb as [Hw Hnm].
    exists (Z.to_nat V), O, pw1, pw1. repeat split; try assumption.
    + intros j Hj; lia.
    + left. repeat split. lia.
  - (* the backward walk made all the steps *)
    destruct Hb as (-> & Hw & Hnm).
    exists (Z.to_nat V), O, b, pw1. repeat split; try assumption.
    + intros j Hj. apply Hnm. lia.
    + intros j Hj; lia.
    + right; left. repeat split; [| lia].
      intros ->. apply (Hnm (Z.to_nat V)); [lia | exact Hw].
  - (* the backward walk stopped at an open edge *)
    destruct Hb as (nb & -> & Hlt & Hw & Hopen & Hnm).
    pose proof (check_loops_fwd_spec h V pw1 wb nb fuel O pw1 eq_refl) as Hf.
    rewrite Nat.add_0_r in Hf.
    specialize (Hf ltac:(lia) ltac:(lia) ltac:(intros j Hj; lia)).
    destruct (check_loops_fwd fuel h V pw1 wb (Z.of_nat nb)) as [[| a b | wf' st] | e |];
      simpl; [| | | | contradiction].
    + destruct Hf as (nf & HnV & Hwf & Hnmf).
      exists nb, nf, wb, wb. repeat split; try assumption.
      * intros j Hj. apply Hnm. lia.
      * left. repeat split. exact HnV.
    + destruct Hf as (-> & nf & HnV & Hwf & Hnmf).
      exists nb, nf, wb, a. repeat split; try assumption.
      * intros j Hj. apply Hnm. lia.
      * intros j Hj. apply Hnmf. lia.
      * right; left. repeat split; [| exact HnV].
        intros ->. destruct nf as [|nf].
        -- simpl in Hwf. injection Hwf as <-. 
           destruct nb as [|nb]; [lia |]. apply (Hnm (S nb)); [lia | exact Hw].
        -- apply (Hnmf (S nf)); [lia | exact Hwf].
    + destruct Hf as (nf & wf & -> & Hlt' & Hwf & -> & Hopen' & Hnmf).
      exists nb, nf, wb, wf. repeat split; try assumption.
      * intros j Hj. apply Hnm. lia.
      * intros j Hj. apply Hnmf. lia.
      * destruct (Z.of_nat (nb + nf) =? V - 1) eqn:Hlast.
        -- apply Z.eqb_eq in Hlast. right; right; left. repeat split; assumption.
        -- apply Z.eqb_neq in Hlast. right; right; right; left.
           repeat split; try assumption. lia.
    + destruct Hf as (-> & nf & Hpos & Hlt' & Hwf & Hnmf).
      exists nb, nf, wb, wb. repeat split; try assumption.
      * intros j Hj. apply Hnm. lia.
      * right; right; right; right. repeat split; [lia | exact Hlt'].
  - (* the backward walk came back too early *)
    destruct Hb as (-> & j & Hpos & Hlt & Hw & Hnm).
    exists j, O, pw1, pw1. repeat split; try assumption.
    + intros k Hk; lia.
    + right; right; right; right. repeat split; lia.
Qed.

End CheckLoops.

Lemma check_loops_endings_witness :
  exists (nb nf : nat) (wb wf : walker),
    walk (back_step (tiles two_tiles)) nb (twalker 0%nat 0) = Some wb /\
    walk (fwd_step (tiles two_tiles)) nf (twalker 0%nat 0) = Some wf /\
    no_meeting (back_step (tiles two_tiles)) (twalker 0%nat 0) (twalker 0%nat 0) (nb - 1) /\
    no_meeting (fwd_step (tiles two_tiles)) (twalker 0%nat 0) wb (nf - 1) /\
    ((wb = wf /\ Z.of_nat (nb + nf) = 5 /\
      check_loops (su := sample_setup) (ca := idle) 5 two_tiles (twalker 0%nat 0) = Ok two_tiles)
     \/
     (wb <> wf /\ Z.of_nat (nb + nf) = 5 /\
      check_loops (su := sample_setup) (ca := idle) 5 two_tiles (twalker 0%nat 0)
        = push_unify two_tiles wf wb)
     \/
     (peek (tiles two_tiles) wb = None /\
      peek (tiles two_tiles) (wplus (tiles two_tiles) wf 1) = None /\
      Z.of_nat (nb + nf) = 5 - 1 /\
      check_loops (su := sample_setup) (ca := idle) 5 two_tiles (twalker 0%nat 0) =
        (connect_and_check (ca := idle) 5 two_tiles wb (wplus (tiles two_tiles) wf 1) ≫=
           fun g2 => fix_distances (Callees := idle) g2 (at' wb)))
     \/
     (peek (tiles two_tiles) wb = None /\
      peek (tiles two_tiles) (wplus (tiles two_tiles) wf 1) = None /\
      Z.of_nat (nb + nf) < 5 - 1 /\
      check_loops (su := sample_setup) (ca := idle) 5 two_tiles (twalker 0%nat 0) = Ok two_tiles)
     \/
     (wb = wf /\ (0 < nb + nf)%nat /\ Z.of_nat (nb + nf) < 5 /\
      check_loops (su := sample_setup) (ca := idle) 5 two_tiles (twalker 0%nat 0)
        = Throw (hr_exception "vertex valence too small"))).
Proof.
  apply (check_loops_endings (su := sample_setup) (ca := idle)
           5%nat two_tiles (twalker 0%nat 0) two_tiles (twalker 0%nat 0)).
  - vm_compute. reflexivity.
  - vm_compute. discriminate.
  - vm_compute. lia.
Defined.

(** On [two_tiles], whose vertices have valence 5, the walk around the
    vertex to the right of the root's edge 0 makes one step backwards, none
    forwards, and stops at open edges on both sides: after 1 step, not
    [valence - 1 = 4].  [check_loops] returns without an exception and
    without calling anything: the state is unchanged. *)
Lemma check_loops_open_vertex_returns :
  valence_at (su := sample_setup) (tiles two_tiles) (twalker 0%nat 0) = 5 /\
  walk (back_step (tiles two_tiles)) 1 (twalker 0%nat 0) = Some (twalker 1%nat 3) /\
  peek (tiles two_tiles) (twalker 1%nat 3) = None /\
  peek (tiles two_tiles) (wplus (tiles two_tiles) (twalker 0%nat 0) 1) = None /\
  check_loops (su := sample_setup) (ca := unreached) 5 two_tiles (twalker 0%nat 0)
    = Ok two_tiles.
Proof. vm_compute. repeat split; reflexivity. Qed.

(** ** Unification *)

Lemma ufind_Ok_denotes (fuel : nat) : forall (h : heap) p h' r,
  ufind fuel h p = Ok (h', r) -> exists n, denotes h p r n /\ (n < fuel)%nat.
Proof.
  induction fuel as [|fuel IH]; intros h p h' r Hu; [discriminate |].
  simpl in Hu.
  destruct (at' (unified_to (h !!! at' p)) =? at' p)%nat eqn:Hself.
  - injection Hu as <- <-. exists O. split; [| lia].
    constructor. apply Nat.eqb_eq. exact Hself.
  - apply bind_Ok_inv in Hu. destruct Hu as ([h1 p1'] & Hrec & Hres).
    destruct (IH _ _ _ _ Hrec) as (n & Hd & Hn).
    assert (Hd' : denotes h p (wplus h p1' (spin p)) (S n)).
    { constructor; [apply Nat.eqb_neq; exact Hself | exact Hd]. }
    destruct (ufind_denotes h p _ (S n) Hd' (S fuel)) as (h2 & Hu2 & _); [lia |].
    simpl in Hu2. rewrite Hself, Hrec in Hu2. simpl in Hu2, Hres.
    rewrite Hu2 in Hres. injection Hres as <- <-.
    exists (S n). split; [exact Hd' | lia].
Qed.

Lemma ufind_compressed (fuel : nat) (h : heap) p h' r :
  ufind fuel h p = Ok (h', r) -> compressed h h' /\ is_rep h (at' r).
Proof.
  intros Hu. destruct (ufind_Ok_denotes _ _ _ _ _ Hu) as (n & Hd & Hn).
  destruct (ufind_denotes h p r n Hd fuel Hn) as (h2 & Hu2 & Hc).
  rewrite Hu in Hu2. injection Hu2 as <-.
  split; [exact Hc | eapply denotes_at_rep; eassumption].
Qed.

Lemma compressed_rep (h h' : heap) t : compressed h h' -> is_rep h t -> is_rep h' t.
Proof.
  intros Hc Ht. destruct (Hc t) as [_ [E | [Hn _]]]; [| contradiction].
  unfold is_rep. rewrite E. exact Ht.
Qed.

Lemma compressed_id (h h' : heap) t : compressed h h' -> id (h' !!! t) = id (h !!! t).
Proof. intros Hc. destruct (Hc t) as [E _]. rewrite <- E. reflexivity. Qed.

Lemma ufind_s_Ok {su : Setup} {ca : Callees} (fuel : nat) g p g' r :
  ufind_s fuel g p = Ok (g', r) ->
  ufind fuel (tiles g) p = Ok (tiles g', r) /\ g' = with_tiles g (tiles g').
Proof.
  unfold ufind_s. intros Hu. apply bind_Ok_inv in Hu.
  destruct Hu as ([h r'] & Hu & Hres). injection Hres as <- <-.
  split; [exact Hu | reflexivity].
Qed.

Section Unify.

Context {su : Setup} {ca : Callees}.

Lemma ufind_s_keeps_type (fuel : nat) g p g' r t :
  ufind_s fuel g p = Ok (g', r) -> keeps_type t g g'.
Proof.
  intros Hu. apply ufind_s_Ok in Hu. destruct Hu as [Hu _].
  apply ufind_compressed in Hu. destruct Hu as [Hc _].
  unfold keeps_type. apply compressed_type. exact Hc.
Qed.

Lemma upd_type (h : heap) p f t :
  (forall x, type (f x) = type x) -> type (upd h p f !!! t) = type (h !!! t).
Proof.
  intros Hf. destruct (decide (p = t)) as [-> | Hne].
  - rewrite upd_same. apply Hf.
  - rewrite upd_other by assumption. reflexivity.
Qed.

Lemma connect_type (h : heap) a b t : type (connect h a b !!! t) = type (h !!! t).
Proof.
  unfold connect. rewrite upd_type by (intros []; reflexivity).
  apply upd_type. intros []; reflexivity.
Qed.

Lemma keeps_type_trans t g1 g2 g3 :
  keeps_type t g1 g2 -> keeps_type t g2 g3 -> keeps_type t g1 g3.
Proof. unfold keeps_type. congruence. Qed.

Lemma connect_and_check_keeps_type (fuel : nat) g a b g' t :
  (forall x x', process_fix_queue x = Ok x' -> keeps_type t x x') ->
  connect_and_check fuel g a b = Ok g' -> keeps_type t g g'.
Proof.
  intros Hq Hc. unfold connect_and_check in Hc.
  apply bind_Ok_inv in Hc. destruct Hc as ([g1 a1] & Hu1 & Hc).
  apply bind_Ok_inv in Hc. destruct Hc as ([g2 b1] & Hu2 & Hc).
  apply Hq in Hc.
  eapply keeps_type_trans; [eapply ufind_s_keeps_type; exact Hu1 |].
  eapply keeps_type_trans; [eapply ufind_s_keeps_type; exact Hu2 |].
  unfold keeps_type in *. rewrite Hc. simpl. apply connect_type.
Qed.

Lemma push_unify_tiles g a b g' : push_unify g a b = Ok g' -> tiles g' = tiles g.
Proof.
  unfold push_unify. destruct (negb _); [discriminate |].
  intros E. injection E as <-. reflexivity.
Qed.

(** The edge-moving loop of [unify] turns both walkers [n] times and stays on
    their tiles. *)
Lemma unify_edges_spec (fuel : nat) (t1 t2 : ptr) :
  (forall x x', process_fix_queue x = Ok x' -> keeps_type t1 x x') ->
  (forall x x', process_fix_queue x = Ok x' -> keeps_type t2 x x') ->
  forall (n : nat) g p1 p2 g' p1' p2',
    at' p1 = t1 -> at' p2 = t2 ->
    unify_edges n fuel g p1 p2 = Ok (g', p1', p2') ->
    at' p1' = t1 /\ at' p2' = t2 /\
    keeps_type t1 g g' /\ keeps_type t2 g g' /\
    spin p1' = match n with
               | O => spin p1
               | S _ => (spin p1 + Z.of_nat n) mod type (tiles g !!! t1)
               end /\
    spin p2' = match n with
               | O => spin p2
               | S _ => (spin p2 + Z.of_nat n) mod type (tiles g !!! t2)
               end.
Proof.
  intros Hq1 Hq2. induction n as [|n IH]; intros g p1 p2 g' p1' p2' H1 H2 Hu.
  - simpl in Hu. injection Hu as <- <- <-.
    repeat split; auto.
  - simpl in Hu. apply bind_Ok_inv in Hu. destruct Hu as (g1 & Hstep & Hrec).
    assert (Hk : keeps_type t1 g g1 /\ keeps_type t2 g g1).
    { destruct (peek (tiles g) p2) as [[c2 s2]|]; [| injection Hstep as <-; split; reflexivity].
      destruct (peek (tiles g) p1) as [[c1 s1]|].
      - apply bind_Ok_inv in Hstep. destruct Hstep as (ga & Hpu & Hstep).
        apply bind_Ok_inv in Hstep. destruct Hstep as (gb & Hc1 & Hc2).
        apply push_unify_tiles in Hpu.
        split.
        + eapply keeps_type_trans; [| eapply connect_and_check_keeps_type; [exact Hq1 | exact Hc2]].
          eapply keeps_type_trans; [| eapply connect_and_check_keeps_type; [exact Hq1 | exact Hc1]].
          unfold keeps_type. rewrite Hpu. reflexivity.
        + eapply keeps_type_trans; [| eapply connect_and_check_keeps_type; [exact Hq2 | exact Hc2]].
          eapply keeps_type_trans; [| eapply connect_and_check_keeps_type; [exact Hq2 | exact Hc1]].
          unfold keeps_type. rewrite Hpu. reflexivity.
      - split; eapply connect_and_check_keeps_type; eassumption. }
    destruct Hk as [Hk1 Hk2].
    apply IH in Hrec; [| simpl; assumption | simpl; assumption].
    destruct Hrec as (Ha1 & Ha2 & Hk1' & Hk2' & Hs1 & Hs2).
    repeat split; try assumption.
    + eapply keeps_type_trans; eassumption.
    + eapply keeps_type_trans; eassumption.
    + rewrite Hs1. unfold keeps_type in Hk1. simpl. rewrite H1, Hk1.
      destruct n as [|n]; [f_equal; lia |].
      rewrite Zplus_mod_idemp_l. f_equal. lia.
    + rewrite Hs2. unfold keeps_type in Hk2. simpl. rewrite H2, Hk2.
      destruct n as [|n]; [f_equal; lia |].
      rewrite Zplus_mod_idemp_l. f_equal. lia.
Qed.

(** [unify] after its two [ufind] calls and the tests that cannot fail. *)
Lemma unify_after_ufind (fuel : nat) g pw1 pw2 g1 r1 g2 r2 :
  ufind_s fuel g pw1 = Ok (g1, r1) ->
  ufind_s fuel g1 pw2 = Ok (g2, r2) ->
  r1 <> r2 ->
  unify fuel g pw1 pw2 =
    if (at' r1 =? at' r2)%nat then
      if negb (spin r1 =? spin r2) then
        Throw (hr_exception "called unify with self and wrong direction")
      else Ok g2
    else if negb (id (tiles g2 !!! at' r1) =? id (tiles g2 !!! at' r2)) then
      Throw (hr_exception "unifying two cells of different id's")
    else
      let sh := vget shapes (id (tiles g2 !!! at' r1)) in
      if negb (Z.rem (spin r1 - spin r2) (cycle_length sh) =? 0) then
        Throw (hr_exception "unification spin disagrees with cycle_length")
      else
        unify_distances g2 (at' r1) (at' r2) (spin r2 - spin r1) ≫= fun g3 =>
        unify_edges (Z.to_nat (shape_size sh)) fuel g3 r1 r2 ≫= fun '(g4, p1, p2) =>
        fix_distances
          (with_tunified
             (upd_tile g4 (at' p2)
                (fun t => set_unified_to t (wminus (tiles g4) p1 (spin p2))))
             (tunified g4 + 1))
          (at' p1).
Proof.
  intros Hu1 Hu2 Hne.
  assert (Hrep : is_rep (tiles g2) (at' r1) /\ is_rep (tiles g2) (at' r2)).
  { apply ufind_s_Ok in Hu1, Hu2. destruct Hu1 as [Hu1 _], Hu2 as [Hu2 _].
    pose proof (ufind_compressed _ _ _ _ _ Hu1) as [Hc1 Hr1].
    pose proof (ufind_compressed _ _ _ _ _ Hu2) as [Hc2 Hr2].
    split; (eapply compressed_rep; [exact Hc2 |]); [| exact Hr2].
    eapply compressed_rep; [exact Hc1 | exact Hr1]. }
  destruct Hrep as [Hrep1 Hrep2]. unfold is_rep in Hrep1, Hrep2.
  unfold unify. rewrite Hu1. simpl. rewrite Hu2. simpl.
  apply walker_eqb_neq in Hne. rewrite Hne.
  rewrite Hrep1, Hrep2, !Nat.eqb_refl. simpl.
  reflexivity.
Qed.

(** C6.  Let [r1] and [r2] be the walkers [unify] works on after path
    compression, and suppose they differ.
    - If they stand on the same tile (with different spins), [unify] throws
      the fatal exception "called unify with self and wrong direction",
      whatever the tile ids and the cycle length are.
    - If they stand on different tiles with different ids, it throws
      "unifying two cells of different id's".
    - If the ids agree but [r1.spin - r2.spin] is not divisible by the
      shape's [cycle_length], it throws "unification spin disagrees with
      cycle_length".
    - Otherwise, once the distances are merged and the edges of [r2]'s tile
      are moved over, it sets [unified_to] of [r2]'s tile to [r1 - r2.spin],
      counts the unification and ends with [fix_distances] on [r1]'s tile.
      (Callees keep the [type] of the two tiles, which have the same
      [type].) *)
Theorem unify_checks_then_links :
  forall (fuel : nat) (g : gstate) (pw1 pw2 : walker)
         (g1 : gstate) (r1 : walker) (g2 : gstate) (r2 : walker),
    ufind_s fuel g pw1 = Ok (g1, r1) ->
    ufind_s fuel g1 pw2 = Ok (g2, r2) ->
    r1 <> r2 ->
    (at' r1 = at' r2 ->
     unify fuel g pw1 pw2 =
       Throw (hr_exception "called unify with self and wrong direction"))
    /\
    (at' r1 <> at' r2 ->
     id (tiles g2 !!! at' r1) <> id (tiles g2 !!! at' r2) ->
     unify fuel g pw1 pw2 =
       Throw (hr_exception "unifying two cells of different id's"))
    /\
    (at' r1 <> at' r2 ->
     id (tiles g2 !!! at' r1) = id (tiles g2 !!! at' r2) ->
     Z.rem (spin r1 - spin r2)
       (cycle_length (vget shapes (id (tiles g2 !!! at' r1)))) <> 0 ->
     unify fuel g pw1 pw2 =
       Throw (hr_exception "unification spin disagrees with cycle_length"))
    /\
    (at' r1 <> at' r2 ->
     id (tiles g2 !!! at' r1) = id (tiles g2 !!! at' r2) ->
     Z.rem (spin r1 - spin r2)
       (cycle_length (vget shapes (id (tiles g2 !!! at' r1)))) = 0 ->
     type (tiles g2 !!! at' r1) = type (tiles g2 !!! at' r2) ->
     (forall t, t = at' r1 \/ t = at' r2 ->
        forall x x', process_fix_queue x = Ok x' -> keeps_type t x x') ->
     (forall t, t = at' r1 \/ t = at' r2 ->
        forall x a b d x', unify_distances x a b d = Ok x' -> keeps_type t x x') ->
     forall (g3 g4 : gstate) (p1 p2 : walker),
       unify_distances g2 (at' r1) (at' r2) (spin r2 - spin r1) = Ok g3 ->
       unify_edges
         (Z.to_nat (shape_size (vget shapes (id (tiles g2 !!! at' r1)))))
         fuel g3 r1 r2 = Ok (g4, p1, p2) ->
       unify fuel g pw1 pw2 =
         fix_distances
           (with_tunified
              (upd_tile g4 (at' r2)
                 (fun t => set_unified_to t (wminus (tiles g2) r1 (spin r2))))
              (tunified g4 + 1))
           (at' r1)).
Proof.
  intros fuel g pw1 pw2 g1 r1 g2 r2 Hu1 Hu2 Hne.
  rewrite (unify_after_ufind fuel g pw1 pw2 g1 r1 g2 r2 Hu1 Hu2 Hne).
  repeat split.
  - intros Hat. apply Nat.eqb_eq in Hat. rewrite Hat.
    destruct (spin r1 =? spin r2) eqn:Hs; [| reflexivity].
    exfalso. apply Hne. apply walker_eqb_eq. unfold walker_eqb.
    rewrite Hat, Hs. reflexivity.
  - intros Hat Hid. apply Nat.eqb_neq in Hat. rewrite Hat.
    apply Z.eqb_neq in Hid. rewrite Hid. reflexivity.
  - intros Hat Hid Hrem. apply Nat.eqb_neq in Hat. rewrite Hat.
    apply Z.eqb_eq in Hid. rewrite Hid. simpl.
    apply Z.eqb_neq in Hrem. rewrite Hrem. reflexivity.
  - intros Hat Hid Hrem Hty Hq Hd g3 g4 p1 p2 Hud Hue.
    apply Nat.eqb_neq in Hat. rewrite Hat.
    apply Z.eqb_eq in Hid. rewrite Hid. simpl.
    apply Z.eqb_eq in Hrem. rewrite Hrem. simpl.
    rewrite Hud. simpl. rewrite Hue. simpl.
    destruct (unify_edges_spec fuel (at' r1) (at' r2)
                (Hq _ (or_introl eq_refl)) (Hq _ (or_intror eq_refl))
                _ _ _ _ _ _ _ eq_refl eq_refl Hue)
      as (Ha1 & Ha2 & Hk1 & Hk2 & Hs1 & Hs2).
    pose proof (Hd _ (or_introl eq_refl) _ _ _ _ _ Hud) as Hd1.
    pose proof (Hd _ (or_intror eq_refl) _ _ _ _ _ Hud) as Hd2.
    unfold keeps_type in *.
    rewrite Ha1, Ha2. do 2 f_equal. f_equal.
    unfold wminus. rewrite Ha1, Hk1, Hd1. f_equal.
    rewrite Hs1, Hs2, Hd1, Hd2, <- Hty.
    destruct (Z.to_nat _) as [|n]; [reflexivity |].
    rewrite Zminus_mod_idemp_l, Zminus_mod_idemp_r.
    replace (spin r1 + Z.of_nat (S n) - (spin r2 + Z.of_nat (S n)))
      with (spin r1 - spin r2) by lia.
    reflexivity.
Qed.

End Unify.

Lemma unify_checks_then_links_witness :
  exists (g4 : gstate) (p1 p2 : walker),
    unify_edges (ca := idle) 4 5 three_tiles (twalker 0%nat 0) (twalker 1%nat 2)
      = Ok (g4, p1, p2) /\
    unify (su := sample_setup) (ca := idle) 5 three_tiles (twalker 0%nat 0) (twalker 1%nat 2) =
      fix_distances (Callees := idle)
        (with_tunified
           (upd_tile g4 1%nat
              (fun t => set_unified_to t
                          (wminus (tiles three_tiles) (twalker 0%nat 0) 2)))
           (tunified g4 + 1))
        0%nat.
Proof.
  destruct (unify_edges (ca := idle) 4 5 three_tiles (twalker 0%nat 0) (twalker 1%nat 2))
    as [[[g4 p1] p2] | e |] eqn:Hedges;
    [| vm_compute in Hedges; discriminate | vm_compute in Hedges; discriminate].
  exists g4, p1, p2. split; [reflexivity |].
  assert (Hu1 : ufind_s 5 three_tiles (twalker 0%nat 0)
                = Ok (three_tiles, twalker 0%nat 0)) by (vm_compute; reflexivity).
  assert (Hu2 : ufind_s 5 three_tiles (twalker 1%nat 2)
                = Ok (three_tiles, twalker 1%nat 2)) by (vm_compute; reflexivity).
  assert (Hne : twalker 0%nat 0 <> twalker 1%nat 2) by discriminate.
  apply (proj2 (proj2 (proj2
           (unify_checks_then_links (su := sample_setup) (ca := idle)
              5%nat three_tiles (twalker 0%nat 0) (twalker 1%nat 2)
              three_tiles (twalker 0%nat 0) three_tiles (twalker 1%nat 2)
              Hu1 Hu2 Hne)))) with (g3 := three_tiles) (p1 := p1) (p2 := p2).
  - simpl. lia.
  - vm_compute. reflexivity.
  - vm_compute. reflexivity.
  - vm_compute. reflexivity.
  - intros t _ x x' E. injection E as <-. reflexivity.
  - intros t _ x a b d x' E. injection E as <-. reflexivity.
  - reflexivity.
  - exact Hedges.
Defined.

(** On the root square (cycle length 2), the walkers [(0, 0)] and [(0, 2)]
    are different, stand on the same tile (so the ids agree), and their
    spins differ by a multiple of the cycle length; [unify] throws and sets
    no link. *)
Lemma unify_same_tile_throws :
  twalker 0%nat 0 <> twalker 0%nat 2 /\
  Z.rem (0 - 2) (cycle_length square) = 0 /\
  ufind_s 5 one_root (twalker 0%nat 0)
    = Ok (one_root, twalker 0%nat 0) /\
  ufind_s 5 one_root (twalker 0%nat 2)
    = Ok (one_root, twalker 0%nat 2) /\
  unify (su := sample_setup) (ca := unreached) 5 one_root (twalker 0%nat 0) (twalker 0%nat 2)
    = Throw (hr_exception "called unify with self and wrong direction").
Proof.
  split; [discriminate |]. vm_compute. repeat split; reflexivity.
Qed.

(** ** The parent-direction oracle: the cheap scan *)

Lemma beats_spec (k i old : Z) :
  0 < k -> 0 <= i -> 0 <= old ->
  (beats k i old = true <-> i mod k <= old mod k).
Proof.
  intros Hk Hi Hold. unfold beats.
  rewrite !Z.rem_mod_nonneg by lia.
  destruct (old =? -1) eqn:E; [apply Z.eqb_eq in E; lia |].
  destruct (i mod k =? old mod k) eqn:E2; simpl.
  - apply Z.eqb_eq in E2. split; [lia | reflexivity].
  - apply Z.eqb_neq in E2. rewrite Z.ltb_lt. lia.
Qed.

Lemma beats_unset (k i : Z) : beats k i (-1) = true.
Proof. reflexivity. Qed.

Lemma scan_best_cons (k x : Z) (l : list Z) (b : Z) :
  scan_best k (x :: l) b = scan_best k l (if beats k x b then x else b).
Proof. reflexivity. Qed.

(** What the first scan returns, started with incumbent [b]: either [b]
    itself, which then has a strictly smaller residue than every candidate,
    or the last candidate of least residue. *)
Lemma scan_best_spec (k : Z) :
  0 < k ->
  forall (l : list Z) (b : Z),
    (b = -1 \/ 0 <= b) ->
    (forall x, x ∈ l -> 0 <= x) ->
    (scan_best k l b = b /\ (b = -1 -> l = []) /\
     (b <> -1 -> forall x, x ∈ l -> b mod k < x mod k))
    \/
    (exists l1 l2, l = l1 ++ scan_best k l b :: l2 /\
       (forall x, x ∈ l1 -> scan_best k l b mod k <= x mod k) /\
       (forall x, x ∈ l2 -> scan_best k l b mod k < x mod k) /\
       (b <> -1 -> scan_best k l b mod k <= b mod k)).
Proof.
  intros Hk. induction l as [|x l IH]; intros b Hb Hl.
  - left. split; [reflexivity |].
    split; [intros _; reflexivity | intros _ y Hy; inversion Hy].
  - rewrite scan_best_cons.
    assert (Hx : 0 <= x) by (apply Hl; left).
    assert (Hl' : forall y, y ∈ l -> 0 <= y) by (intros y Hy; apply Hl; right; exact Hy).
    destruct (beats k x b) eqn:Hbeat.
    + assert (Hxb : b <> -1 -> x mod k <= b mod k).
      { intros Hne. apply beats_spec; [lia | lia | lia | exact Hbeat]. }
      right. destruct (IH x (or_intror Hx) Hl') as [(Er & _ & Hmin) | (l1 & l2 & El & H1 & H2 & H3)].
      * exists [], l. rewrite Er. repeat split.
        -- intros y Hy; inversion Hy.
        -- apply Hmin. lia.
        -- exact Hxb.
      * exists (x :: l1), l2. repeat split.
        -- simpl. f_equal. exact El.
        -- intros y Hy. apply elem_of_cons in Hy. destruct Hy as [-> | Hy];
             [apply H3; lia | apply H1; exact Hy].
        -- exact H2.
        -- intros Hne. specialize (H3 ltac:(lia)). specialize (Hxb Hne). lia.
    + assert (Hbne : b <> -1) by (intros ->; rewrite beats_unset in Hbeat; discriminate).
      assert (Hb0 : 0 <= b) by lia.
      assert (Hbx : b mod k < x mod k).
      { destruct (Z_lt_le_dec (b mod k) (x mod k)) as [Hlt | Hle]; [exact Hlt |].
        apply (beats_spec k x b Hk Hx Hb0) in Hle. congruence. }
      destruct (IH b Hb Hl') as [(Er & _ & Hmin) | (l1 & l2 & El & H1 & H2 & H3)].
      * left. repeat split; [exact Er | intros; contradiction |].
        intros _ y Hy. apply elem_of_cons in Hy. destruct Hy as [-> | Hy];
          [exact Hbx | apply Hmin; assumption].
      * right. exists (x :: l1), l2. repeat split.
        -- simpl. f_equal. exact El.
        -- intros y Hy. apply elem_of_cons in Hy. destruct Hy as [-> | Hy];
             [specialize (H3 Hbne); lia | apply H1; exact Hy].
        -- exact H2.
        -- exact H3.
Qed.

Lemma scan_failed_spec (k : Z) (l : list Z) (b : Z) :
  scan_failed k l b = true <->
  exists x, x ∈ l /\ x <> b /\ beats k x b = true.
Proof.
  unfold scan_failed. rewrite existsb_exists. split.
  - intros (x & Hin & Hx). apply andb_true_iff in Hx. destruct Hx as [Hne Hb].
    exists x. repeat split; [apply list_elem_of_In; exact Hin | | exact Hb].
    apply negb_true_iff, Z.eqb_neq in Hne. exact Hne.
  - intros (x & Hin & Hne & Hb). exists x. split; [apply list_elem_of_In; exact Hin |].
    apply andb_true_iff. split; [| exact Hb].
    apply negb_true_iff, Z.eqb_neq. exact Hne.
Qed.

(** C3.  In the cheap scan of [get_parent_dir] over non-negative candidate
    directions (cycle length [k > 0]):
    - candidate [i] beats the incumbent [old] iff [i mod k <= old mod k]:
      a smaller residue wins and, on a tie, the new candidate wins;
    - so the first scan returns the last candidate of least residue: a later
      candidate with the same residue does displace an earlier one;
    - the second scan reports failure (and hands over to the exhaustive
      tie-break) iff another candidate has the same residue as that winner;
    - in particular the cheap scan yields its winner without failure
      whenever no two candidates share a residue. *)
Theorem cheap_scan_last_least_residue :
  forall (k : Z) (nearer : list Z),
    0 < k ->
    (forall x, x ∈ nearer -> 0 <= x) ->
    nearer <> [] ->
    (forall i old, 0 <= i -> 0 <= old ->
       (beats k i old = true <-> i mod k <= old mod k)) /\
    (exists l1 l2,
       nearer = l1 ++ scan_best k nearer (-1) :: l2 /\
       (forall x, x ∈ l1 -> scan_best k nearer (-1) mod k <= x mod k) /\
       (forall x, x ∈ l2 -> scan_best k nearer (-1) mod k < x mod k)) /\
    (scan_failed k nearer (scan_best k nearer (-1)) = true <->
       exists x, x ∈ nearer /\ x <> scan_best k nearer (-1) /\
                 x mod k = scan_best k nearer (-1) mod k) /\
    (NoDup (map (fun x => x mod k) nearer) ->
       scan_failed k nearer (scan_best k nearer (-1)) = false).
Proof.
  intros k nearer Hk Hpos Hne.
  assert (Hscan : exists l1 l2,
       nearer = l1 ++ scan_best k nearer (-1) :: l2 /\
       (forall x, x ∈ l1 -> scan_best k nearer (-1) mod k <= x mod k) /\
       (forall x, x ∈ l2 -> scan_best k nearer (-1) mod k < x mod k)).
  { destruct (scan_best_spec k Hk nearer (-1) (or_introl eq_refl) Hpos)
      as [(_ & Hnil & _) | (l1 & l2 & El & H1 & H2 & _)].
    - exfalso. apply Hne. apply Hnil. reflexivity.
    - exists l1, l2. repeat split; assumption. }
  destruct Hscan as (l1 & l2 & El & H1 & H2).
  set (best := scan_best k nearer (-1)) in *.
  assert (Hbest : 0 <= best).
  { apply Hpos. rewrite El. apply elem_of_app. right. left. }
  assert (Hmin : forall x, x ∈ nearer -> best mod k <= x mod k).
  { intros x Hx. rewrite El in Hx. apply elem_of_app in Hx.
    destruct Hx as [Hx | Hx]; [apply H1; exact Hx |].
    apply elem_of_cons in Hx. destruct Hx as [-> | Hx]; [lia |].
    specialize (H2 x Hx). lia. }
  assert (Hfail : scan_failed k nearer best = true <->
       exists x, x ∈ nearer /\ x <> best /\ x mod k = best mod k).
  { rewrite scan_failed_spec. split; intros (x & Hin & Hx & Hb); exists x;
      (split; [exact Hin |]); (split; [exact Hx |]).
    - apply (beats_spec k x best Hk (Hpos x Hin) Hbest) in Hb.
      specialize (Hmin x Hin). lia.
    - apply (beats_spec k x best Hk (Hpos x Hin) Hbest). lia. }
  split; [intros i old Hi Hold; apply beats_spec; assumption |].
  split; [exists l1, l2; repeat split; assumption |].
  split; [exact Hfail |].
  intros Hnd. apply not_true_is_false. intros Hf.
  apply Hfail in Hf. destruct Hf as (x & Hin & Hx & Hres).
  rewrite El in Hnd, Hin. rewrite map_app in Hnd. simpl in Hnd.
  apply NoDup_app in Hnd. destruct Hnd as (_ & Hdisj & Hnd2).
  apply NoDup_cons in Hnd2. destruct Hnd2 as [Hnotin _].
  apply elem_of_app in Hin. destruct Hin as [Hin | Hin].
  - apply (Hdisj (x mod k)).
    + apply list_elem_of_fmap. exists x. split; [reflexivity | exact Hin].
    + rewrite Hres. left.
  - apply elem_of_cons in Hin. destruct Hin as [-> | Hin]; [congruence |].
    apply Hnotin. rewrite <- Hres.
    apply list_elem_of_fmap. exists x. split; [reflexivity | exact Hin].
Qed.

Lemma cheap_scan_last_least_residue_witness :
  (forall i old, 0 <= i -> 0 <= old ->
     (beats 3 i old = true <-> i mod 3 <= old mod 3)) /\
  (exists l1 l2,
     [1; 3; 4] = l1 ++ scan_best 3 [1; 3; 4] (-1) :: l2 /\
     (forall x, x ∈ l1 -> scan_best 3 [1; 3; 4] (-1) mod 3 <= x mod 3) /\
     (forall x, x ∈ l2 -> scan_best 3 [1; 3; 4] (-1) mod 3 < x mod 3)) /\
  (scan_failed 3 [1; 3; 4] (scan_best 3 [1; 3; 4] (-1)) = true <->
     exists x, x ∈ [1; 3; 4] /\ x <> scan_best 3 [1; 3; 4] (-1) /\
               x mod 3 = scan_best 3 [1; 3; 4] (-1) mod 3) /\
  (NoDup (map (fun x => x mod 3) [1; 3; 4]) ->
     scan_failed 3 [1; 3; 4] (scan_best 3 [1; 3; 4] (-1)) = false).
Proof.
  apply (cheap_scan_last_least_residue 3 [1; 3; 4]).
  - lia.
  - intros x Hx. repeat (apply elem_of_cons in Hx; destruct Hx as [-> | Hx]; [lia |]).
    inversion Hx.
  - discriminate.
Defined.

(** With cycle length 2 and the candidates 0 and 2 (same residue): candidate
    2 beats the incumbent 0 although [2 mod 2 < 0 mod 2] is false, and the
    scan in increasing order ends with the later index 2. *)
Lemma cheap_scan_tie_goes_to_later :
  beats 2 2 0 = true /\
  ~ (2 mod 2 < 0 mod 2) /\
  scan_best 2 [0; 2] (-1) = 2 /\
  scan_failed 2 [0; 2] (scan_best 2 [0; 2] (-1)) = true.
Proof. vm_compute. repeat split; try reflexivity. intros Hlt; discriminate Hlt. Qed.

(** ** The parent-direction oracle: the root *)

Lemma with_tiles_id (g : gstate) : with_tiles g (tiles g) = g.
Proof. destruct g; reflexivity. Qed.

Lemma ufind_s_rep (fuel : nat) (g : gstate) (p : walker) :
  is_rep (tiles g) (at' p) -> ufind_s (S fuel) g p = Ok (g, p).
Proof.
  intros Hp. unfold ufind_s. rewrite (ufind_rep _ _ _ Hp). simpl.
  rewrite with_tiles_id. reflexivity.
Qed.

Section Root.

Context {su : Setup} {ca : Callees}.








End Root.




(** A root that had the parent direction 1 before: [-1] is returned and
    cached, and [any_nearer] holds the old direction.  A root that is not
    solid when the tile budget is used up: the surrender. *)
Example get_parent_dir_root_other_inputs :
  (p ← get_parent_dir (su := sample_setup) (ca := idle) 1 demoted_root (twalker 0%nat 0);
   Ok (p.2, parent_dir (tiles p.1.1 !!! 0%nat), any_nearer (tiles p.1.1 !!! 0%nat)))
  = Ok (twalker 0%nat (-1), -1, 1) /\
  get_parent_dir (su := tight_setup) (ca := idle) 1 one_root (twalker 0%nat 0)
  = Throw (rulegen_surrender "max_tcellcount exceeded").
Proof. split; vm_compute; reflexivity. Qed.

(** ** Classification of spread entries *)

Section Classification.

Context {su : Setup} {ca : Callees}.

Lemma side_class_equal (gs : Z) :
  side_class C_EQUAL gs = C_EQUAL \/ side_class C_EQUAL gs = C_EQUAL + 1.
Proof.
  unfold side_class. rewrite andb_false_r.
  destruct (gs >? 0); [right | left]; reflexivity.
Qed.

Lemma classify_entry_default (fuel : nat) (g : gstate) (cs : walker) g' x :
  has_flag flags w_no_relative_distance = false ->
  classify_entry fuel g cs = Ok (g', x) ->
  x ∈ default_classes.
Proof.
  intros Hflag Hc. unfold classify_entry in Hc.
  apply bind_Ok_inv in Hc. destruct Hc as ([[g1 cs1] child] & _ & Hc).
  destruct child.
  - injection Hc as _ <-. unfold default_classes. set_solver.
  - apply bind_Ok_inv in Hc. destruct Hc as ([g2 cs2] & _ & Hc).
    apply bind_Ok_inv in Hc. destruct Hc as ([g3 cs3] & _ & Hc).
    apply bind_Ok_inv in Hc. destruct Hc as ([g4 cs4] & _ & Hc).
    apply bind_Ok_inv in Hc. destruct Hc as (g5 & _ & Hc).
    apply bind_Ok_inv in Hc. destruct Hc as (g6 & _ & Hc).
    destruct (peek (tiles g6) cs3) as [[pk sp]|]; [| discriminate].
    unfold distance_class in Hc. rewrite Hflag in Hc. simpl in Hc.
    apply bind_Ok_inv in Hc. destruct Hc as ([g7 gs] & _ & Hc).
    injection Hc as _ <-.
    unfold default_classes.
    destruct (side_class_equal gs) as [-> | ->]; set_solver.
Qed.

Lemma id_at_spin_loop_default (fuel : nat) (parent_id : list Z) :
  has_flag flags w_no_relative_distance = false ->
  forall (sprawl : list walker) (i : Z) (g : gstate) (cw : walker)
         (res : list Z) g' res',
    Forall (fun x => x ∈ default_classes) res ->
    id_at_spin_loop fuel parent_id sprawl i g cw res = Ok (g', res') ->
    Forall (fun x => x ∈ default_classes) res'.
Proof.
  intros Hflag. induction sprawl as [|cs sprawl IH]; intros i g cw res g' res' Hres Hl.
  - simpl in Hl. injection Hl as _ <-. exact Hres.
  - simpl in Hl.
    apply bind_Ok_inv in Hl. destruct Hl as (g1 & _ & Hl).
    apply bind_Ok_inv in Hl. destruct Hl as (g2 & _ & Hl).
    apply bind_Ok_inv in Hl. destruct Hl as ([g3 cw3] & _ & Hl).
    apply bind_Ok_inv in Hl. destruct Hl as ([g4 cs4] & _ & Hl).
    apply bind_Ok_inv in Hl. destruct Hl as ([g5 x] & Hx & Hl).
    apply IH in Hl; [exact Hl |].
    apply Forall_app. split; [exact Hres |].
    apply Forall_singleton.
    destruct ((vget parent_id i >? -1) && negb (vget res (vget parent_id i) =? C_CHILD)).
    + injection Hx as _ <-. unfold default_classes. set_solver.
    + destruct (i =? 0).
      * injection Hx as _ <-. unfold default_classes. set_solver.
      * eapply classify_entry_default; eassumption.
Qed.

(** C1.  Under the default configuration (the flag
    [w_no_relative_distance] not set) the distance delta is not looked at:
    every delta, also [+1] and [-1], gives [C_EQUAL]; with the side bit the
    entry is [C_EQUAL] or [C_EQUAL + 1], never [C_NEPHEW], [C_UNCLE] or
    [C_PARENT]; and every entry of a code computed by the loop of
    [id_at_spin] is one of [C_IGNORE], [C_CHILD], [C_EQUAL], [C_EQUAL + 1]. *)
Theorem default_flags_classify_equal :
  has_flag flags w_no_relative_distance = false ->
  (forall y, distance_class y = Ok C_EQUAL) /\
  (forall y gs x, distance_class y = Ok x ->
     side_class x gs = C_EQUAL \/ side_class x gs = C_EQUAL + 1) /\
  (forall (fuel : nat) (parent_id : list Z) (sprawl : list walker)
          (g : gstate) (cw : walker) g' second,
     id_at_spin_loop fuel parent_id sprawl 0 g cw [] = Ok (g', second) ->
     Forall (fun x => x ∈ default_classes) second).
Proof.
  intros Hflag.
  assert (Hd : forall y, distance_class y = Ok C_EQUAL).
  { intros y. unfold distance_class. rewrite Hflag. reflexivity. }
  split; [exact Hd |]. split.
  - intros y gs x Hx. rewrite Hd in Hx. injection Hx as <-. apply side_class_equal.
  - intros fuel parent_id sprawl g cw g' second Hl.
    eapply id_at_spin_loop_default; [exact Hflag | | exact Hl]. constructor.
Qed.

(** With the flag [w_no_relative_distance] set, the classification is the
    one by distance delta: [+1] gives [C_NEPHEW], [0] gives [C_EQUAL], [-1]
    gives [C_UNCLE], anything else is a failure; an uncle of side 0 becomes
    [C_PARENT]; a positive side adds 1. *)
Lemma flag_set_classify_by_distance :
  has_flag flags w_no_relative_distance = true ->
  distance_class 1 = Ok C_NEPHEW /\
  distance_class 0 = Ok C_EQUAL /\
  distance_class (-1) = Ok C_UNCLE /\
  (forall y, y < -1 \/ 1 < y ->
     distance_class y = Throw (rulegen_failure "distance problem")) /\
  side_class C_UNCLE 0 = C_PARENT /\
  (forall x gs, 0 < gs -> side_class x gs = x + 1) /\
  (forall x gs, gs < 0 -> side_class x gs = x).
Proof.
  intros Hflag. unfold distance_class. rewrite Hflag. simpl.
  repeat split.
  - intros y Hy.
    destruct (y =? 1) eqn:E1; [apply Z.eqb_eq in E1; lia |].
    destruct (y =? 0) eqn:E2; [apply Z.eqb_eq in E2; lia |].
    destruct (y =? -1) eqn:E3; [apply Z.eqb_eq in E3; lia |].
    reflexivity.
  - intros x gs Hgs. unfold side_class.
    destruct (gs =? 0) eqn:E; [apply Z.eqb_eq in E; lia |]. simpl.
    destruct (gs >? 0) eqn:E2; [reflexivity |].
    rewrite Z.gtb_ltb in E2. apply Z.ltb_ge in E2. lia.
  - intros x gs Hgs. unfold side_class.
    destruct (gs =? 0) eqn:E; [apply Z.eqb_eq in E; lia |]. simpl.
    destruct (gs >? 0) eqn:E2; [| reflexivity].
    rewrite Z.gtb_ltb in E2. apply Z.ltb_lt in E2. lia.
Qed.

End Classification.

Lemma default_flags_classify_equal_witness :
  (forall y, distance_class (su := sample_setup) y = Ok C_EQUAL) /\
  (forall y gs x, distance_class (su := sample_setup) y = Ok x ->
     side_class x gs = C_EQUAL \/ side_class x gs = C_EQUAL + 1) /\
  (forall (fuel : nat) (parent_id : list Z) (sprawl : list walker)
          (g : gstate) (cw : walker) g' second,
     id_at_spin_loop (su := sample_setup) (ca := idle) fuel parent_id sprawl 0 g cw []
       = Ok (g', second) ->
     Forall (fun x => x ∈ default_classes) second).
Proof.
  apply (default_flags_classify_equal (su := sample_setup) (ca := idle)).
  vm_compute. reflexivity.
Defined.

(** Default flags, distance delta [+1], side 0: the entry is [C_EQUAL]. *)
Example distance_class_default_delta_one :
  flags (Setup := sample_setup) = 0 /\
  distance_class (su := sample_setup) 1 = Ok C_EQUAL /\
  side_class C_EQUAL 0 = C_EQUAL /\
  C_EQUAL <> C_NEPHEW.
Proof. vm_compute. repeat split; discriminate. Qed.

(** The entry [(1, 1)] of [near_pair]: not the parent direction of tile 1,
    so not a child; the neighbour across it is nearer by one (delta [+1]);
    side 0.  With the default flags the entry is classified [C_EQUAL]; it is
    with the flag [w_no_relative_distance] set that it is [C_NEPHEW]. *)
Example classify_entry_near_pair :
  dist (tiles near_pair !!! 1%nat) - dist (tiles near_pair !!! 2%nat) = 1 /\
  match classify_entry (su := sample_setup) (ca := idle) 5 near_pair (twalker 1%nat 1) with
  | Ok (_, x) => x = C_EQUAL
  | _ => False
  end /\
  match classify_entry (su := relative_setup) (ca := idle) 5 near_pair (twalker 1%nat 1) with
  | Ok (_, x) => x = C_NEPHEW
  | _ => False
  end.
Proof. vm_compute. repeat split; reflexivity. Qed.

(** ** The rule builder: resolving [DIR_UNKNOWN] *)

Lemma resolvable_dec (val : Z) :
  ((val <? 2) || (val >=? 8)) = false <-> resolvable val.
Proof.
  unfold resolvable. rewrite orb_false_iff, Z.ltb_ge, Z.geb_leb, Z.leb_gt. lia.
Qed.

Lemma resolvable_side (val : Z) :
  resolvable val ->
  (if negb (Z.land val 1 =? 0) then DIR_RIGHT else DIR_LEFT) = side_of val.
Proof.
  unfold resolvable, side_of. intros Hv.
  assert (Hcases : val = 2 \/ val = 3 \/ val = 4 \/ val = 5 \/ val = 6 \/ val = 7) by lia.
  destruct Hcases as [-> | [-> | [-> | [-> | [-> | ->]]]]]; reflexivity.
Qed.

Lemma resolve_unknown_throws (code2 : list Z) :
  forall (cids : list Z) (i : Z) (j : nat),
    cids !! j = Some DIR_UNKNOWN ->
    ~ resolvable (vget code2 (i + Z.of_nat j + 1)) ->
    resolve_unknown code2 i cids = Throw (rulegen_retry "wrong code in gen_rule").
Proof.
  induction cids as [|r cids IH]; intros i j Hj Hbad; [discriminate |].
  simpl. destruct j as [|j]; simpl in Hj.
  - injection Hj as ->. simpl.
    replace (i + Z.of_nat 0 + 1) with (i + 1) in Hbad by lia.
    destruct ((vget code2 (i + 1) <? 2) || (vget code2 (i + 1) >=? 8)) eqn:E;
      [reflexivity |].
    apply resolvable_dec in E. contradiction.
  - assert (Hrest : resolve_unknown code2 (i + 1) cids
                    = Throw (rulegen_retry "wrong code in gen_rule")).
    { apply (IH (i + 1) j Hj).
      replace (i + 1 + Z.of_nat j + 1) with (i + Z.of_nat (S j) + 1) by lia.
      exact Hbad. }
    rewrite Hrest.
    destruct (r =? DIR_UNKNOWN); [| reflexivity].
    destruct ((vget code2 (i + 1) <? 2) || (vget code2 (i + 1) >=? 8)); reflexivity.
Qed.

Lemma resolve_unknown_resolves (code2 : list Z) :
  forall (cids : list Z) (i : Z),
    (forall j, cids !! j = Some DIR_UNKNOWN ->
       resolvable (vget code2 (i + Z.of_nat j + 1))) ->
    exists out,
      resolve_unknown code2 i cids = Ok out /\
      length out = length cids /\
      forall (j : nat) (r : Z), cids !! j = Some r ->
        out !! j = Some (if r =? DIR_UNKNOWN
                         then side_of (vget code2 (i + Z.of_nat j + 1))
                         else r).
Proof.
  induction cids as [|r cids IH]; intros i Hgood.
  - exists []. repeat split. intros j r Hj. discriminate.
  - destruct (IH (i + 1)) as (rest & Hrest & Hlen & Hout).
    { intros j Hj.
      replace (i + 1 + Z.of_nat j + 1) with (i + Z.of_nat (S j) + 1) by lia.
      apply Hgood. exact Hj. }
    simpl. rewrite Hrest. simpl.
    destruct (r =? DIR_UNKNOWN) eqn:Er.
    + apply Z.eqb_eq in Er. subst r.
      assert (Hv : resolvable (vget code2 (i + 1))).
      { replace (i + 1) with (i + Z.of_nat 0 + 1) by lia. apply Hgood. reflexivity. }
      pose proof Hv as Hv'. apply resolvable_dec in Hv'. rewrite Hv'.
      rewrite (resolvable_side _ Hv).
      eexists. split; [reflexivity |]. split; [simpl; lia |].
      intros [|j] r Hj.
      * injection Hj as <-. change (DIR_UNKNOWN =? DIR_UNKNOWN) with true.
        cbv iota. change (_ !! 0%nat) with (Some (side_of (vget code2 (i + 1)))).
        do 3 f_equal. lia.
      * change (_ !! S j) with (rest !! j). rewrite (Hout j r Hj).
        f_equal. destruct (r =? DIR_UNKNOWN); [| reflexivity].
        do 2 f_equal. lia.
    + eexists. split; [reflexivity |]. split; [simpl; lia |].
      intros [|j] r' Hj.
      * injection Hj as <-. rewrite Er. reflexivity.
      * change (_ !! S j) with (rest !! j). rewrite (Hout j r' Hj).
        f_equal. destruct (r' =? DIR_UNKNOWN); [| reflexivity].
        do 2 f_equal. lia.
Qed.

(** C2.  In the second loop of [gen_rule], the classification for rule
    position [j] is entry [j + 1] of the state's code.  It is resolvable iff
    it is [C_UNCLE], [C_EQUAL] or [C_NEPHEW] with either side bit (the values
    2 to 7); [C_PARENT] with either side bit (8 and 9) is not.  If some
    position left [DIR_UNKNOWN] has a classification that is not resolvable,
    the retry "wrong code in gen_rule" is thrown; otherwise every
    [DIR_UNKNOWN] becomes [DIR_RIGHT] when the side bit is 1 and [DIR_LEFT]
    when it is 0, and every other entry stays. *)
Theorem gen_rule_resolves_unknown :
  forall (code2 cids : list Z),
    (forall val, resolvable val <->
       val ∈ [C_UNCLE; C_UNCLE + 1; C_EQUAL; C_EQUAL + 1; C_NEPHEW; C_NEPHEW + 1]) /\
    ~ resolvable C_PARENT /\ ~ resolvable (C_PARENT + 1) /\
    side_of C_UNCLE = DIR_LEFT /\ side_of (C_UNCLE + 1) = DIR_RIGHT /\
    side_of C_EQUAL = DIR_LEFT /\ side_of (C_EQUAL + 1) = DIR_RIGHT /\
    side_of C_NEPHEW = DIR_LEFT /\ side_of (C_NEPHEW + 1) = DIR_RIGHT /\
    ((exists j : nat, cids !! j = Some DIR_UNKNOWN /\
                      ~ resolvable (vget code2 (Z.of_nat j + 1))) ->
     resolve_unknown code2 0 cids = Throw (rulegen_retry "wrong code in gen_rule")) /\
    ((forall j : nat, cids !! j = Some DIR_UNKNOWN ->
                      resolvable (vget code2 (Z.of_nat j + 1))) ->
     exists out,
       resolve_unknown code2 0 cids = Ok out /\
       length out = length cids /\
       forall (j : nat) (r : Z), cids !! j = Some r ->
         out !! j = Some (if r =? DIR_UNKNOWN
                          then side_of (vget code2 (Z.of_nat j + 1))
                          else r)).
Proof.
  intros code2 cids.
  split.
  { intros val. unfold resolvable, C_UNCLE, C_EQUAL, C_NEPHEW.
    rewrite !elem_of_cons, elem_of_nil. lia. }
  split; [unfold resolvable, C_PARENT; lia |].
  split; [unfold resolvable, C_PARENT; lia |].
  do 6 (split; [reflexivity |]).
  split.
  - intros (j & Hj & Hbad). apply (resolve_unknown_throws code2 cids 0 j Hj).
    rewrite Z.add_0_l. exact Hbad.
  - intros Hgood. apply (resolve_unknown_resolves code2 cids 0).
    intros j Hj. rewrite Z.add_0_l. apply Hgood. exact Hj.
Qed.

(** A position left [DIR_UNKNOWN] whose classification is [C_PARENT] (with
    side bit 0 or 1) is not resolved to a side: the retry is thrown. *)
Lemma gen_rule_rejects_parent_class :
  resolve_unknown [C_CHILD; C_PARENT] 0 [DIR_UNKNOWN]
    = Throw (rulegen_retry "wrong code in gen_rule") /\
  resolve_unknown [C_CHILD; C_PARENT + 1] 0 [DIR_UNKNOWN]
    = Throw (rulegen_retry "wrong code in gen_rule").
Proof. vm_compute. split; reflexivity. Qed.

(** ** The driver loop *)

Section DriverLoop.

Context {su : Setup} {ca : Callees}.

Lemma rules_iteration_try_count (g : gstate) :
  (forall x, try_count (rules_iteration_body x).1 = try_count x) ->
  try_count (rules_iteration g).1 = try_count g + 1.
Proof. intros Hbody. unfold rules_iteration. rewrite Hbody. reflexivity. Qed.

(** With [try_count] written by [rules_iteration] only, and a
    [check_timeout] that returns or throws, the loop ends within
    [max_retries - try_count] iterations (and at least one). *)
Lemma generate_rules_loop_total :
  (forall x, try_count (rules_iteration_body x).1 = try_count x) ->
  (forall x, (exists x', check_timeout x = Ok x' /\ try_count x' = try_count x) \/
             (exists e, check_timeout x = Throw e)) ->
  forall (fuel : nat) (g : gstate),
    (Z.to_nat (max_retries - try_count g) <= fuel)%nat -> (0 < fuel)%nat ->
    generate_rules_loop fuel g <> Diverge.
Proof.
  intros Hbody Hclock. induction fuel as [|fuel IH]; intros g Hfuel Hpos; [lia |].
  simpl. destruct (Hclock g) as [(g1 & Hct & Hsame) | (e & Hct)]; rewrite Hct; simpl;
    [| discriminate].
  pose proof (rules_iteration_try_count g1 Hbody) as Htc.
  rewrite Hsame in Htc.
  destruct (rules_iteration g1) as [g2 [| e]]; simpl in Htc; [discriminate |].
  destruct (is_retry e); [| discriminate].
  destruct (try_count g2 >=? max_retries) eqn:Hmax; [discriminate |].
  rewrite Z.geb_leb in Hmax. apply Z.leb_gt in Hmax.
  apply IH; lia.
Qed.

(** C7.  One pass through the loop of [generate_rules], after
    [check_timeout] has returned and the rules-iteration has ended in state
    [g2] ([try_count] already counts this attempt):
    - a [rulegen_retry], and likewise an [hr_solid_error] (its subclass),
      is caught and the loop starts over from [g2] as long as
      [try_count < max_retries];
    - once [try_count >= max_retries] the same exception propagates;
    - a [rulegen_surrender] is not caught, whatever [try_count] is; nor is
      any other exception that is neither of the two retries; nor is one
      thrown by [check_timeout];
    - an iteration that returns ends the loop.
    The loop needs at most [max_retries - try_count] passes (and one at
    least), provided [try_count] is written by [rules_iteration] only. *)
Theorem generate_rules_loop_retries :
  forall (fuel : nat) (g g1 g2 : gstate) (o : outcome),
    check_timeout g = Ok g1 ->
    rules_iteration g1 = (g2, o) ->
    (forall what, o = raised (rulegen_retry what) -> try_count g2 < max_retries ->
       generate_rules_loop (S fuel) g = generate_rules_loop fuel g2) /\
    (o = raised hr_solid_error -> try_count g2 < max_retries ->
       generate_rules_loop (S fuel) g = generate_rules_loop fuel g2) /\
    (forall what, o = raised (rulegen_retry what) -> max_retries <= try_count g2 ->
       generate_rules_loop (S fuel) g = Throw (rulegen_retry what)) /\
    (o = raised hr_solid_error -> max_retries <= try_count g2 ->
       generate_rules_loop (S fuel) g = Throw hr_solid_error) /\
    (forall what, o = raised (rulegen_surrender what) ->
       generate_rules_loop (S fuel) g = Throw (rulegen_surrender what)) /\
    (forall e, o = raised e ->
       (forall what, e <> rulegen_retry what) -> e <> hr_solid_error ->
       generate_rules_loop (S fuel) g = Throw e) /\
    (forall g0 e, check_timeout g0 = Throw e ->
       generate_rules_loop (S fuel) g0 = Throw e) /\
    (o = finished -> generate_rules_loop (S fuel) g = Ok g2) /\
    ((forall x, try_count (rules_iteration_body x).1 = try_count x) ->
     (forall x, (exists x', check_timeout x = Ok x' /\ try_count x' = try_count x) \/
                (exists e, check_timeout x = Throw e)) ->
     forall (n : nat) (g0 : gstate),
       (Z.to_nat (max_retries - try_count g0) <= n)%nat -> (0 < n)%nat ->
       generate_rules_loop n g0 <> Diverge).
Proof.
  intros fuel g g1 g2 o Hct Hit.
  assert (Hcaught : forall e, o = raised e -> is_retry e = true ->
            try_count g2 < max_retries ->
            generate_rules_loop (S fuel) g = generate_rules_loop fuel g2).
  { intros e -> Hre Hlt. simpl. rewrite Hct. simpl. rewrite Hit, Hre.
    assert (Hge : (try_count g2 >=? max_retries) = false)
      by (rewrite Z.geb_leb; apply Z.leb_gt; lia).
    rewrite Hge. reflexivity. }
  assert (Hlast : forall e, o = raised e -> is_retry e = true ->
            max_retries <= try_count g2 ->
            generate_rules_loop (S fuel) g = Throw e).
  { intros e -> Hre Hge. simpl. rewrite Hct. simpl. rewrite Hit, Hre.
    assert (Hge' : (try_count g2 >=? max_retries) = true)
      by (rewrite Z.geb_leb; apply Z.leb_le; lia).
    rewrite Hge'. reflexivity. }
  assert (Hother : forall e, o = raised e -> is_retry e = false ->
            generate_rules_loop (S fuel) g = Throw e).
  { intros e -> Hre. simpl. rewrite Hct. simpl. rewrite Hit, Hre. reflexivity. }
  split; [intros what Ho; exact (Hcaught _ Ho eq_refl) |].
  split; [intros Ho; exact (Hcaught _ Ho eq_refl) |].
  split; [intros what Ho; exact (Hlast _ Ho eq_refl) |].
  split; [intros Ho; exact (Hlast _ Ho eq_refl) |].
  split; [intros what Ho; exact (Hother _ Ho eq_refl) |].
  split.
  { intros e Ho Hnr Hns. apply (Hother e Ho).
    destruct e as [w | w | w | w | |]; try reflexivity.
    - exfalso. exact (Hnr w eq_refl).
    - exfalso. exact (Hns eq_refl). }
  split; [intros g0 e Hthrow; simpl; rewrite Hthrow; reflexivity |].
  split; [intros ->; simpl; rewrite Hct; simpl; rewrite Hit; reflexivity |].
  intros Hbody Hclock n g0. apply generate_rules_loop_total; assumption.
Qed.

End DriverLoop.

Lemma generate_rules_loop_retries_witness :
  generate_rules_loop (su := sample_setup) (ca := retrying) 5 one_root
    = generate_rules_loop (su := sample_setup) (ca := retrying) 4
        (with_try_count one_root 1) /\
  generate_rules_loop (su := sample_setup) (ca := raising hr_solid_error) 5 one_root
    = generate_rules_loop (su := sample_setup) (ca := raising hr_solid_error) 4
        (with_try_count one_root 1) /\
  generate_rules_loop (su := sample_setup) (ca := raising (rulegen_retry "mismatch error"))
    5 (with_try_count one_root 998)
    = Throw (rulegen_retry "mismatch error") /\
  generate_rules_loop (su := sample_setup) (ca := raising hr_solid_error)
    5 (with_try_count one_root 998)
    = Throw hr_solid_error /\
  generate_rules_loop (su := sample_setup)
    (ca := raising (rulegen_surrender "max_tcellcount exceeded")) 5 one_root
    = Throw (rulegen_surrender "max_tcellcount exceeded").
Proof.
  split; [| split; [| split; [| split]]].
  - apply (proj1 (generate_rules_loop_retries (su := sample_setup) (ca := retrying)
                    4%nat one_root one_root (with_try_count one_root 1)
                    (raised (rulegen_retry "mismatch error")) eq_refl eq_refl)
             "mismatch error"%string eq_refl).
    vm_compute. reflexivity.
  - apply (proj1 (proj2 (generate_rules_loop_retries (su := sample_setup)
                           (ca := raising hr_solid_error)
                           4%nat one_root one_root (with_try_count one_root 1)
                           (raised hr_solid_error) eq_refl eq_refl))
             eq_refl).
    vm_compute. reflexivity.
  - apply (proj1 (proj2 (proj2 (generate_rules_loop_retries (su := sample_setup)
                                  (ca := raising (rulegen_retry "mismatch error"))
                                  4%nat (with_try_count one_root 998)
                                  (with_try_count one_root 998)
                                  (with_try_count one_root 999)
                                  (raised (rulegen_retry "mismatch error"))
                                  eq_refl eq_refl)))
             "mismatch error"%string eq_refl).
    vm_compute. discriminate.
  - apply (proj1 (proj2 (proj2 (proj2 (generate_rules_loop_retries (su := sample_setup)
                                         (ca := raising hr_solid_error)
                                         4%nat (with_try_count one_root 998)
                                         (with_try_count one_root 998)
                                         (with_try_count one_root 999)
                                         (raised hr_solid_error) eq_refl eq_refl))))
             eq_refl).
    vm_compute. discriminate.
  - exact (proj1 (proj2 (proj2 (proj2 (proj2
             (generate_rules_loop_retries (su := sample_setup)
                (ca := raising (rulegen_surrender "max_tcellcount exceeded"))
                4%nat one_root one_root (with_try_count one_root 1)
                (raised (rulegen_surrender "max_tcellcount exceeded"))
                eq_refl eq_refl)))))
             "max_tcellcount exceeded"%string eq_refl).
Defined.

(** The sample run: two retries are caught, the third iteration returns. *)
Example generate_rules_sample_run :
  generate_rules (su := sample_setup) (ca := retrying) 5 one_root
    = Ok (with_try_count one_root 3).
Proof. vm_compute. reflexivity. Qed.

(** With [max_retries] at 2: a rules-iteration that always ends in a retry
    is restarted once and the retry of the second attempt leaves the loop;
    a surrender leaves it at the first attempt. *)
Example generate_rules_gives_up :
  let two_tries := {| shapes := [square]; flags := 0; max_retries := 2;
                      max_tcellcount := 1000000 |} in
  generate_rules (su := two_tries) (ca := raising (rulegen_retry "mismatch error"))
    5 one_root = Throw (rulegen_retry "mismatch error") /\
  generate_rules (su := two_tries) (ca := raising hr_solid_error) 5 one_root
    = Throw hr_solid_error /\
  generate_rules (su := two_tries)
    (ca := raising (rulegen_surrender "max_tcellcount exceeded")) 5 one_root
    = Throw (rulegen_surrender "max_tcellcount exceeded").
Proof. vm_compute. repeat split; reflexivity. Qed.

(** ** Possible parents *)

Lemma lookup_total_fmap_default {A B : Type} `{Inhabited A} `{Inhabited B}
    (f : A -> B) (l : list A) (i : nat) :
  f inhabitant = inhabitant -> (f <$> l) !!! i = f (l !!! i).
Proof.
  intros Hf. rewrite !list_lookup_total_alt, list_lookup_fmap.
  destruct (l !! i); simpl; [reflexivity | symmetry; exact Hf].
Qed.

Lemma lookup_total_ge {A : Type} `{Inhabited A} (l : list A) (i : nat) :
  (length l <= i)%nat -> l !!! i = inhabitant.
Proof.
  intros Hi. rewrite list_lookup_total_alt, lookup_ge_None_2 by exact Hi. reflexivity.
Qed.

Lemma marked_in_range (tss : list treestate) (i : nat) :
  is_possible_parent (tss !!! i) = true -> (i < length tss)%nat.
Proof.
  intros Hm. destruct (decide (i < length tss)%nat) as [Hlt | Hge]; [exact Hlt |].
  rewrite lookup_total_ge in Hm by lia. discriminate.
Qed.

(** *** Recording parents *)

Lemma add_parent_lookup (tss : list treestate) (r : Z) (p : Z * Z) (j : nat) :
  0 <= r ->
  add_parent tss r p !!! j =
    if decide (r = Z.of_nat j /\ (j < length tss)%nat)
    then set_possible_parents (tss !!! j) (possible_parents (tss !!! j) ++ [p])
    else tss !!! j.
Proof.
  intros Hr. unfold add_parent. rewrite list_lookup_total_alter.
  destruct (decide (Z.to_nat r = j /\ (Z.to_nat r < length tss)%nat)) as [[E Hl] | Hn];
    destruct (decide (r = Z.of_nat j /\ (j < length tss)%nat)) as [[E' Hl'] | Hn'];
    try reflexivity.
  - subst j. reflexivity.
  - exfalso. apply Hn'. split; lia.
  - exfalso. apply Hn. split; lia.
Qed.

Lemma record_children_spec (tid : Z) :
  forall (rs : list Z) (rid : Z) (tss : list treestate),
    length (record_children tid rs rid tss) = length tss /\
    forall j,
      ts_id (record_children tid rs rid tss !!! j) = ts_id (tss !!! j) /\
      rules (record_children tid rs rid tss !!! j) = rules (tss !!! j) /\
      is_possible_parent (record_children tid rs rid tss !!! j)
        = is_possible_parent (tss !!! j) /\
      forall q, q ∈ possible_parents (record_children tid rs rid tss !!! j) <->
        q ∈ possible_parents (tss !!! j) \/
        ((j < length tss)%nat /\
         exists k : nat, rs !! k = Some (Z.of_nat j) /\ q = (tid, rid + Z.of_nat k)).
Proof.
  induction rs as [|r rs IH]; intros rid tss.
  - split; [reflexivity |]. intros j. do 3 (split; [reflexivity |]).
    intros q. split.
    + intros Hq. left. exact Hq.
    + intros [Hq | (_ & k & Hk & _)]; [exact Hq | discriminate].
  - simpl. destruct (r >=? 0) eqn:Hr.
    + rewrite Z.geb_leb in Hr. apply Z.leb_le in Hr.
      destruct (IH (rid + 1) (add_parent tss r (tid, rid))) as [Hlen Hj].
      assert (Hlen' : length (add_parent tss r (tid, rid)) = length tss)
        by (unfold add_parent; apply length_alter).
      split; [rewrite Hlen; exact Hlen' |].
      intros j. destruct (Hj j) as (H1 & H2 & H3 & H4).
      rewrite H1, H2, H3. rewrite (add_parent_lookup tss r (tid, rid) j Hr).
      destruct (decide (r = Z.of_nat j /\ (j < length tss)%nat)) as [[E Hl] | Hn].
      * do 3 (split; [reflexivity |]).
        intros q. rewrite H4, Hlen'.
        rewrite (add_parent_lookup tss r (tid, rid) j Hr).
        rewrite decide_True by (split; assumption). simpl.
        rewrite elem_of_app, list_elem_of_singleton. split.
        -- intros [[Hq | ->] | (Hl2 & k & Hk & ->)].
           ++ left. exact Hq.
           ++ right. split; [exact Hl |]. exists O. split; [simpl; f_equal; exact E |].
              f_equal. lia.
           ++ right. split; [exact Hl |]. exists (S k). split; [exact Hk |].
              f_equal. lia.
        -- intros [Hq | (Hl2 & k & Hk & ->)]; [left; left; exact Hq |].
           destruct k as [|k].
           ++ left. right. f_equal. lia.
           ++ right. split; [exact Hl |]. exists k. split; [exact Hk |]. f_equal. lia.
      * do 3 (split; [reflexivity |]).
        intros q. rewrite H4, Hlen'.
        rewrite (add_parent_lookup tss r (tid, rid) j Hr).
        rewrite decide_False by exact Hn. split.
        -- intros [Hq | (Hl2 & k & Hk & ->)]; [left; exact Hq |].
           right. split; [exact Hl2 |]. exists (S k). split; [exact Hk |]. f_equal. lia.
        -- intros [Hq | (Hl2 & k & Hk & ->)]; [left; exact Hq |].
           destruct k as [|k].
           ++ exfalso. apply Hn. simpl in Hk. injection Hk as ->. split; [reflexivity | exact Hl2].
           ++ right. split; [exact Hl2 |]. exists k. split; [exact Hk |]. f_equal. lia.
    + rewrite Z.geb_leb in Hr. apply Z.leb_gt in Hr.
      destruct (IH (rid + 1) tss) as [Hlen Hj].
      split; [exact Hlen |].
      intros j. destruct (Hj j) as (H1 & H2 & H3 & H4).
      do 3 (split; [assumption |]).
      intros q. split.
      * intros Hq. apply H4 in Hq. destruct Hq as [Hq | (Hl2 & k & Hk & ->)]; [left; exact Hq |].
        right. split; [exact Hl2 |]. exists (S k). split; [exact Hk |]. f_equal. lia.
      * intros [Hq | (Hl2 & k & Hk & ->)]; apply H4; [left; exact Hq |].
        destruct k as [|k]; [simpl in Hk; injection Hk as ->; lia |].
        right. split; [exact Hl2 |]. exists k. split; [exact Hk |]. f_equal. lia.
Qed.

Lemma record_parents_spec :
  forall (todo : list nat) (tss : list treestate),
    length (record_parents todo tss) = length tss /\
    forall j,
      ts_id (record_parents todo tss !!! j) = ts_id (tss !!! j) /\
      rules (record_parents todo tss !!! j) = rules (tss !!! j) /\
      is_possible_parent (record_parents todo tss !!! j)
        = is_possible_parent (tss !!! j) /\
      forall q, q ∈ possible_parents (record_parents todo tss !!! j) <->
        q ∈ possible_parents (tss !!! j) \/
        ((j < length tss)%nat /\
         exists (i k : nat), i ∈ todo /\ is_possible_parent (tss !!! i) = true /\
           rules (tss !!! i) !! k = Some (Z.of_nat j) /\
           q = (ts_id (tss !!! i), Z.of_nat k)).
Proof.
  induction todo as [|i todo IH]; intros tss.
  - split; [reflexivity |]. intros j. do 3 (split; [reflexivity |]).
    intros q. split; [intros Hq; left; exact Hq |].
    intros [Hq | (_ & i & k & Hi & _)]; [exact Hq | inversion Hi].
  - simpl. destruct (is_possible_parent (tss !!! i)) eqn:Hm.
    + destruct (record_children_spec (ts_id (tss !!! i)) (rules (tss !!! i)) 0 tss)
        as [Hlen1 Hj1].
      set (tss1 := record_children (ts_id (tss !!! i)) (rules (tss !!! i)) 0 tss) in *.
      destruct (IH tss1) as [Hlen Hj].
      split; [rewrite Hlen; exact Hlen1 |].
      intros j. destruct (Hj j) as (H1 & H2 & H3 & H4).
      destruct (Hj1 j) as (G1 & G2 & G3 & G4).
      split; [rewrite H1; exact G1 |].
      split; [rewrite H2; exact G2 |].
      split; [rewrite H3; exact G3 |].
      intros q. rewrite H4, G4, Hlen1. split.
      * intros [[Hq | (Hl & k & Hk & ->)] | (Hl & i' & k & Hi' & Hm' & Hk & ->)].
        -- left. exact Hq.
        -- right. split; [exact Hl |]. exists i, k.
           split; [left |]. split; [exact Hm |]. split; [exact Hk |].
           f_equal; lia.
        -- right. split; [exact Hl |]. exists i', k.
           destruct (Hj1 i') as (F1 & F2 & F3 & _).
           split; [right; exact Hi' |].
           split; [rewrite <- F3; exact Hm' |].
           split; [rewrite <- F2; exact Hk |].
           rewrite F1. reflexivity.
      * intros [Hq | (Hl & i' & k & Hi' & Hm' & Hk & ->)]; [left; left; exact Hq |].
        apply elem_of_cons in Hi'. destruct Hi' as [-> | Hi'].
        -- left. right. split; [exact Hl |]. exists k. split; [exact Hk |]. f_equal; lia.
        -- right. split; [exact Hl |]. exists i', k.
           destruct (Hj1 i') as (F1 & F2 & F3 & _).
           split; [exact Hi' |].
           split; [rewrite F3; exact Hm' |].
           split; [rewrite F2; exact Hk |].
           rewrite F1. reflexivity.
    + destruct (IH tss) as [Hlen Hj].
      split; [exact Hlen |].
      intros j. destruct (Hj j) as (H1 & H2 & H3 & H4).
      do 3 (split; [assumption |]).
      intros q. rewrite H4. split.
      * intros [Hq | (Hl & i' & k & Hi' & Hm' & Hk & ->)]; [left; exact Hq |].
        right. split; [exact Hl |]. exists i', k.
        split; [right; exact Hi' |]. repeat split; assumption.
      * intros [Hq | (Hl & i' & k & Hi' & Hm' & Hk & ->)]; [left; exact Hq |].
        apply elem_of_cons in Hi'. destruct Hi' as [-> | Hi']; [congruence |].
        right. split; [exact Hl |]. exists i', k. repeat split; assumption.
Qed.

(** *** Sweeping *)

Lemma sweep_count (l : list treestate) :
  (count_marked (sweep_parents l).1 + length (filter (fun ts => orphan ts = true) l)
   = count_marked l)%nat.
Proof.
  unfold count_marked, sweep_parents.
  change ((?a, ?b).1) with a.
  induction l as [|ts l IH]; [reflexivity |].
  rewrite fmap_cons. destruct (orphan ts) eqn:Ho.
  - assert (Hm : is_possible_parent ts = true).
    { unfold orphan in Ho. apply andb_true_iff in Ho. apply Ho. }
    rewrite (filter_cons_True (fun ts => orphan ts = true)) by exact Ho.
    rewrite (filter_cons_True (fun ts => is_possible_parent ts = true) ts) by exact Hm.
    rewrite filter_cons_False by (simpl; discriminate).
    cbn [length]. rewrite Nat.add_succ_r. f_equal. exact IH.
  - rewrite (filter_cons_False (fun ts => orphan ts = true)) by (rewrite Ho; discriminate).
    destruct (is_possible_parent ts) eqn:Hm.
    + rewrite !filter_cons_True by assumption. cbn [length].
      rewrite Nat.add_succ_l. f_equal. exact IH.
    + rewrite !filter_cons_False by (rewrite Hm; discriminate). exact IH.
Qed.

Lemma sweep_no_orphan (l : list treestate) :
  length (filter (fun ts => orphan ts = true) l) = O ->
  (sweep_parents l).1 = l.
Proof.
  unfold sweep_parents. change ((?a, ?b).1) with a.
  induction l as [|ts l IH]; [reflexivity |].
  destruct (orphan ts) eqn:Ho.
  - rewrite filter_cons_True by exact Ho. discriminate.
  - rewrite filter_cons_False by (rewrite Ho; discriminate).
    intros Hl. rewrite fmap_cons, Ho. f_equal. apply IH. exact Hl.
Qed.

Lemma sweep_lookup (l : list treestate) (j : nat) :
  (sweep_parents l).1 !!! j =
    if orphan (l !!! j) then set_is_possible_parent (l !!! j) false else l !!! j.
Proof.
  unfold sweep_parents. change ((?a, ?b).1) with a.
  rewrite (lookup_total_fmap_default
             (fun ts => if orphan ts then set_is_possible_parent ts false else ts));
    reflexivity.
Qed.

Lemma count_marked_ext :
  forall (l l' : list treestate),
    length l' = length l ->
    (forall i, is_possible_parent (l' !!! i) = is_possible_parent (l !!! i)) ->
    count_marked l' = count_marked l.
Proof.
  unfold count_marked.
  induction l as [|ts l IH]; intros [|ts' l'] Hlen Hm; try discriminate; [reflexivity |].
  assert (Hhd : is_possible_parent ts' = is_possible_parent ts) by (apply (Hm O)).
  assert (Htl : length (filter (fun ts => is_possible_parent ts = true) l')
                = length (filter (fun ts => is_possible_parent ts = true) l)).
  { apply IH; [simpl in Hlen; lia |]. intros i. apply (Hm (S i)). }
  destruct (is_possible_parent ts) eqn:E.
  - rewrite !filter_cons_True by assumption. simpl. lia.
  - rewrite !filter_cons_False by (first [rewrite Hhd | rewrite E]; discriminate).
    exact Htl.
Qed.

Lemma count_marked_le (l : list treestate) : (count_marked l <= length l)%nat.
Proof. unfold count_marked. apply length_filter. Qed.

(** *** One round *)

Lemma clear_parents_lookup (l : list treestate) (j : nat) :
  clear_parents l !!! j = set_possible_parents (l !!! j) [].
Proof.
  unfold clear_parents.
  apply (lookup_total_fmap_default (fun ts => set_possible_parents ts [])).
  reflexivity.
Qed.

Lemma mark_parents_lookup (l : list treestate) (j : nat) :
  mark_parents l !!! j =
    set_is_possible_parent (l !!! j)
      (existsb (fun r => r =? DIR_PARENT) (rules (l !!! j))).
Proof.
  unfold mark_parents.
  apply (lookup_total_fmap_default
           (fun ts => set_is_possible_parent ts
                        (existsb (fun r => r =? DIR_PARENT) (rules ts)))).
  reflexivity.
Qed.

Lemma not_nil_elem {A : Type} (l : list A) : l <> [] <-> exists x, x ∈ l.
Proof.
  destruct l as [|x l]; split.
  - intros Hn. contradiction.
  - intros [x Hx]. inversion Hx.
  - intros _. exists x. left.
  - intros _. discriminate.
Qed.

Lemma parents_round_spec (l : list treestate) :
  well_formed l ->
  length (parents_round l).1 = length l /\
  (forall j, ts_id ((parents_round l).1 !!! j) = ts_id (l !!! j) /\
             rules ((parents_round l).1 !!! j) = rules (l !!! j)) /\
  (forall j, is_possible_parent ((parents_round l).1 !!! j) = true <->
             is_possible_parent (l !!! j) = true /\ has_marked_parent l j) /\
  (forall j q, q ∈ possible_parents ((parents_round l).1 !!! j) <->
     (j < length l)%nat /\
     exists i k : nat, (i < length l)%nat /\ is_possible_parent (l !!! i) = true /\
       rules (l !!! i) !! k = Some (Z.of_nat j) /\ q = (Z.of_nat i, Z.of_nat k)) /\
  ((parents_round l).2 = 0 ->
     forall j, is_possible_parent ((parents_round l).1 !!! j)
               = is_possible_parent (l !!! j)) /\
  ((parents_round l).2 <> 0 ->
     (count_marked (parents_round l).1 < count_marked l)%nat).
Proof.
  intros Hwf. unfold parents_round.
  set (l1 := clear_parents l).
  set (l2 := record_parents (seq 0 (length l1)) l1).
  assert (Hlen1 : length l1 = length l) by (unfold l1, clear_parents; apply length_fmap).
  destruct (record_parents_spec (seq 0 (length l1)) l1) as [Hlen2 Hj2].
  fold l2 in Hlen2, Hj2.
  assert (Hstat : forall j, ts_id (l2 !!! j) = ts_id (l !!! j) /\
                            rules (l2 !!! j) = rules (l !!! j) /\
                            is_possible_parent (l2 !!! j) = is_possible_parent (l !!! j)).
  { intros j. destruct (Hj2 j) as (H1 & H2 & H3 & _).
    rewrite H1, H2, H3. unfold l1. rewrite clear_parents_lookup. auto. }
  assert (Hpp : forall j q, q ∈ possible_parents (l2 !!! j) <->
     (j < length l)%nat /\
     exists i k : nat, (i < length l)%nat /\ is_possible_parent (l !!! i) = true /\
       rules (l !!! i) !! k = Some (Z.of_nat j) /\ q = (Z.of_nat i, Z.of_nat k)).
  { intros j q. destruct (Hj2 j) as (_ & _ & _ & H4). rewrite H4.
    unfold l1 at 1. rewrite clear_parents_lookup. simpl. rewrite Hlen1. split.
    - intros [Hq | (Hl & i & k & Hi & Hm & Hk & ->)]; [inversion Hq |].
      apply elem_of_seq in Hi.
      unfold l1 in Hm, Hk |- *. rewrite clear_parents_lookup in Hm, Hk |- *.
      simpl in Hm, Hk |- *.
      split; [exact Hl |]. exists i, k. repeat split; try assumption; try lia.
      f_equal. apply Hwf. lia.
    - intros (Hl & i & k & Hi & Hm & Hk & ->). right.
      split; [exact Hl |]. exists i, k.
      unfold l1. rewrite clear_parents_lookup. simpl.
      split; [apply elem_of_seq; lia |]. repeat split; try assumption.
      f_equal. symmetry. apply Hwf. exact Hi. }
  change ((sweep_parents l2).2) with
    (Z.of_nat (length (filter (fun ts => orphan ts = true) l2))).
  assert (Hlen' : length (sweep_parents l2).1 = length l).
  { unfold sweep_parents. change ((?a, ?b).1) with a.
    rewrite length_fmap, Hlen2. exact Hlen1. }
  split; [exact Hlen' |].
  split.
  { intros j. rewrite sweep_lookup. destruct (Hstat j) as (H1 & H2 & _).
    destruct (orphan (l2 !!! j)); simpl; auto. }
  split.
  { intros j. rewrite sweep_lookup. destruct (Hstat j) as (_ & _ & H3).
    unfold orphan. rewrite H3.
    destruct (is_possible_parent (l !!! j)) eqn:Hm; simpl.
    - destruct (bool_decide (possible_parents (l2 !!! j) = [])) eqn:Hempty; simpl.
      + apply bool_decide_eq_true in Hempty. split; [discriminate |].
        intros (_ & p & e & Hp & Hmp & He). exfalso.
        assert (Hin : (Z.of_nat p, Z.of_nat e) ∈ possible_parents (l2 !!! j)).
        { apply Hpp. split; [apply marked_in_range; exact Hm |].
          exists p, e. repeat split; assumption. }
        rewrite Hempty in Hin. inversion Hin.
      + apply bool_decide_eq_false in Hempty. rewrite H3.
        split; [| reflexivity]. intros _. split; [reflexivity |].
        apply not_nil_elem in Hempty. destruct Hempty as [q Hq].
        apply Hpp in Hq. destruct Hq as (_ & i & k & Hi & Hmi & Hk & _).
        exists i, k. repeat split; assumption.
    - rewrite H3. split; [discriminate | intros [Hf _]; discriminate]. }
  split.
  { intros j q. rewrite sweep_lookup.
    destruct (orphan (l2 !!! j)); simpl; apply Hpp. }
  split.
  - intros Hz j. rewrite sweep_no_orphan by lia. apply Hstat.
  - intros Hnz. pose proof (sweep_count l2) as Hc.
    assert (Hsame : count_marked l2 = count_marked l).
    { apply count_marked_ext; [rewrite Hlen2; exact Hlen1 |].
      intros i. apply Hstat. }
    lia.
Qed.

(** *** The loop *)

Lemma same_rules_well_formed (l l' : list treestate) :
  same_rules l l' -> well_formed l -> well_formed l'.
Proof.
  intros [Hlen Hs] Hwf i Hi. destruct (Hs i) as [H1 H2].
  rewrite H1, H2, Hlen. apply Hwf. lia.
Qed.

Lemma same_rules_trans (l1 l2 l3 : list treestate) :
  same_rules l1 l2 -> same_rules l2 l3 -> same_rules l1 l3.
Proof.
  intros [Hlen1 Hs1] [Hlen2 Hs2]. split; [congruence |].
  intros i. destruct (Hs1 i), (Hs2 i). split; congruence.
Qed.

Lemma parents_loop_spec :
  forall (fuel : nat) (l : list treestate),
    well_formed l ->
    (count_marked l < fuel)%nat ->
    exists out,
      parents_loop fuel l = Ok out /\
      same_rules l out /\
      (forall j, is_possible_parent (out !!! j) = true ->
                 is_possible_parent (l !!! j) = true) /\
      (forall j, is_possible_parent (out !!! j) = true -> has_marked_parent out j) /\
      (forall j q, q ∈ possible_parents (out !!! j) <->
         (j < length out)%nat /\
         exists i k : nat, (i < length out)%nat /\
           is_possible_parent (out !!! i) = true /\
           rules (out !!! i) !! k = Some (Z.of_nat j) /\
           q = (Z.of_nat i, Z.of_nat k)) /\
      (forall S : nat -> Prop,
         (forall j, S j -> is_possible_parent (l !!! j) = true /\
                    exists p e : nat, S p /\ rules (l !!! p) !! e = Some (Z.of_nat j)) ->
         forall j, S j -> is_possible_parent (out !!! j) = true).
Proof.
  induction fuel as [|fuel IH]; intros l Hwf Hcount; [lia |].
  cbn [parents_loop]. pose proof (parents_round_spec l Hwf) as Hr.
  destruct (parents_round l) as [l' ch]. simpl in Hr. cbv beta iota.
  destruct Hr as (Hlen & Hstat & Hmark & Hpp & Hzero & Hless).
  assert (Hsame : same_rules l l') by (split; assumption).
  destruct (ch =? 0) eqn:Hch.
  - apply Z.eqb_eq in Hch. specialize (Hzero Hch).
    exists l'. split; [reflexivity |]. split; [exact Hsame |].
    split; [intros j Hj; rewrite <- Hzero; exact Hj |].
    split.
    { intros j Hj. apply Hmark in Hj. destruct Hj as (_ & p & e & Hp & Hmp & He).
      exists p, e. rewrite Hlen, Hzero. destruct (Hstat p) as [_ ->].
      repeat split; assumption. }
    split.
    { intros j q. rewrite Hpp, Hlen. split.
      - intros (Hl & i & k & Hi & Hm & Hk & ->). split; [exact Hl |].
        exists i, k. rewrite Hzero. destruct (Hstat i) as [_ ->].
        repeat split; assumption.
      - intros (Hl & i & k & Hi & Hm & Hk & ->). split; [exact Hl |].
        exists i, k. rewrite Hzero in Hm. destruct (Hstat i) as [_ E]. rewrite E in Hk.
        repeat split; assumption. }
    intros S HS j Hj. rewrite Hzero. apply HS. exact Hj.
  - apply Z.eqb_neq in Hch. specialize (Hless Hch).
    destruct (IH l') as (out & Hout & Hsame' & Hsub & Hpar & Hpp' & Hmax).
    { eapply same_rules_well_formed; eassumption. }
    { lia. }
    exists out. split; [exact Hout |].
    split; [eapply same_rules_trans; eassumption |].
    split; [intros j Hj; apply Hsub in Hj; apply Hmark in Hj; apply Hj |].
    split; [exact Hpar |]. split; [exact Hpp' |].
    intros S HS j Hj. apply (Hmax S); [| exact Hj].
    intros j' Hj'. destruct (HS j' Hj') as (Hm' & p & e & Hp & He).
    split.
    + apply Hmark. split; [exact Hm' |].
      exists p, e. destruct (HS p Hp) as [Hmp _].
      split; [apply marked_in_range; exact Hmp |]. split; assumption.
    + exists p, e. destruct (Hstat p) as [_ ->]. split; assumption.
Qed.

Lemma mark_parents_marked (tss : list treestate) (j : nat) :
  is_possible_parent (mark_parents tss !!! j) = true <-> DIR_PARENT ∈ rules (tss !!! j).
Proof.
  rewrite mark_parents_lookup. simpl. rewrite existsb_exists. split.
  - intros (r & Hin & Hr). apply Z.eqb_eq in Hr. subst r.
    apply list_elem_of_In. exact Hin.
  - intros Hin. exists DIR_PARENT. split; [apply list_elem_of_In; exact Hin | reflexivity].
Qed.

Lemma mark_parents_same_rules (tss : list treestate) : same_rules tss (mark_parents tss).
Proof.
  split; [unfold mark_parents; apply length_fmap |].
  intros i. rewrite mark_parents_lookup. split; reflexivity.
Qed.

(** C8.  On a table whose ids are the indices and whose child rules point
    into the table, [find_possible_parents]
    - first marks a state iff one of its rules is [DIR_PARENT];
    - in every round keeps the mark of exactly those marked states that
      some state marked at that time lists as a child, the others having an
      empty [possible_parents] list (whether the listing state is live,
      [is_live], plays no part);
    - ends, within as many rounds as there are states plus one, with a table
      that differs from the given one in marks and parent lists only,
      in which every marked state was marked initially and has a non-empty
      [possible_parents]; every entry [(p, e)] of the list of state [j]
      names a marked state [p] with [rules[p][e] = j]; and the marked states
      are the largest set of initially marked states in which every state
      is listed as a child by a state of the set. *)
Theorem find_possible_parents_fixpoint :
  forall (tss : list treestate),
    well_formed tss ->
    (forall j, is_possible_parent (mark_parents tss !!! j) = true <->
               DIR_PARENT ∈ rules (tss !!! j)) /\
    (forall l, well_formed l ->
       forall j, is_possible_parent ((parents_round l).1 !!! j) = true <->
                 is_possible_parent (l !!! j) = true /\ has_marked_parent l j) /\
    exists out,
      find_possible_parents (S (length tss)) tss = Ok out /\
      same_rules tss out /\
      (forall j, is_possible_parent (out !!! j) = true ->
                 DIR_PARENT ∈ rules (tss !!! j)) /\
      (forall j, is_possible_parent (out !!! j) = true ->
                 possible_parents (out !!! j) <> []) /\
      (forall j p e, (p, e) ∈ possible_parents (out !!! j) ->
         exists i k : nat, p = Z.of_nat i /\ e = Z.of_nat k /\
           is_possible_parent (out !!! i) = true /\
           rules (out !!! i) !! k = Some (Z.of_nat j)) /\
      (forall S : nat -> Prop,
         (forall j, S j -> DIR_PARENT ∈ rules (tss !!! j) /\
                    exists p e : nat, S p /\ rules (tss !!! p) !! e = Some (Z.of_nat j)) ->
         forall j, S j -> is_possible_parent (out !!! j) = true).
Proof.
  intros tss Hwf.
  split; [apply mark_parents_marked |].
  split; [intros l Hl; apply (parents_round_spec l Hl) |].
  pose proof (mark_parents_same_rules tss) as Hsame0.
  destruct (parents_loop_spec (S (length tss)) (mark_parents tss))
    as (out & Hout & Hsame & Hsub & Hpar & Hpp & Hmax).
  { eapply same_rules_well_formed; eassumption. }
  { pose proof (count_marked_le (mark_parents tss)) as Hle.
    destruct Hsame0 as [Hlen _]. lia. }
  exists out. split; [exact Hout |].
  split; [eapply same_rules_trans; eassumption |].
  split; [intros j Hj; apply mark_parents_marked; apply Hsub; exact Hj |].
  split.
  { intros j Hj. destruct (Hpar j Hj) as (p & e & Hp & Hmp & He).
    apply not_nil_elem. exists (Z.of_nat p, Z.of_nat e).
    apply Hpp. split; [apply marked_in_range; exact Hj |].
    exists p, e. repeat split; assumption. }
  split.
  { intros j p e Hin. apply Hpp in Hin.
    destruct Hin as (_ & i & k & _ & Hm & Hk & Heq). injection Heq as -> ->.
    exists i, k. repeat split; assumption. }
  intros S HS j Hj. apply (Hmax S); [| exact Hj].
  intros j' Hj'. destruct (HS j' Hj') as (Hm' & p & e & Hp & He).
  split; [apply mark_parents_marked; exact Hm' |].
  exists p, e. destruct Hsame0 as [_ Hs]. destruct (Hs p) as [_ ->].
  split; assumption.
Qed.

Lemma sample_states_well_formed : well_formed sample_states.
Proof.
  intros i Hi. simpl in Hi.
  destruct i as [|[|[|[|i]]]]; [| | | | lia];
    (split; [reflexivity |]);
    intros r Hr Hpos;
    repeat (apply elem_of_cons in Hr;
            destruct Hr as [-> | Hr];
            [unfold DIR_PARENT, DIR_LEFT, DIR_RIGHT in *; simpl length; lia |]);
    inversion Hr.
Defined.

Lemma find_possible_parents_fixpoint_witness :
  exists out,
    find_possible_parents 5 sample_states = Ok out /\
    same_rules sample_states out /\
    (forall j, is_possible_parent (out !!! j) = true ->
               DIR_PARENT ∈ rules (sample_states !!! j)) /\
    (forall j, is_possible_parent (out !!! j) = true ->
               possible_parents (out !!! j) <> []) /\
    (forall j p e, (p, e) ∈ possible_parents (out !!! j) ->
       exists i k : nat, p = Z.of_nat i /\ e = Z.of_nat k /\
         is_possible_parent (out !!! i) = true /\
         rules (out !!! i) !! k = Some (Z.of_nat j)) /\
    (forall S : nat -> Prop,
       (forall j, S j -> DIR_PARENT ∈ rules (sample_states !!! j) /\
                  exists p e : nat, S p /\ rules (sample_states !!! p) !! e = Some (Z.of_nat j)) ->
       forall j, S j -> is_possible_parent (out !!! j) = true).
Proof.
  apply (proj2 (proj2 (find_possible_parents_fixpoint sample_states
                         sample_states_well_formed))).
Defined.

(** In the sample table the root state 0 is live and lists state 3 as its
    child on edge 2, and state 3 has a [DIR_PARENT] rule, so it is marked at
    first.  But state 0 has no [DIR_PARENT] rule and is never marked: the
    first round leaves state 3 with an empty list and unmarks it, and so it
    ends.  Being listed by a live state does not keep a mark; [is_live] is
    not read. *)
Lemma find_possible_parents_live_parent_unmarked :
  is_live (sample_states !!! 0%nat) = true /\
  rules (sample_states !!! 0%nat) !! 2%nat = Some 3 /\
  is_possible_parent (mark_parents sample_states !!! 3%nat) = true /\
  possible_parents ((parents_round (mark_parents sample_states)).1 !!! 3%nat) = [] /\
  is_possible_parent ((parents_round (mark_parents sample_states)).1 !!! 3%nat) = false /\
  match find_possible_parents 5 sample_states with
  | Ok out =>
      is_possible_parent (out !!! 3%nat) = false /\
      possible_parents (out !!! 3%nat) = []
  | _ => False
  end.
Proof. vm_compute. repeat split; reflexivity. Qed.

(** On the sample table: states 1 and 2 list each other as a child and stay
    marked; state 3 is listed by the root only, which is not marked, and
    loses its mark in the first round, and with it its entry in the list of
    state 1. *)
Example find_possible_parents_sample :
  (fun r => match r with
            | Ok out => Some (map (fun ts => (is_possible_parent ts, possible_parents ts)) out)
            | _ => None
            end) (find_possible_parents 5 sample_states)
  = Some [(false, []); (true, [(2, 2)]); (true, [(1, 1)]); (false, [])].
Proof. vm_compute. reflexivity. Qed.

(** ** The consumer step *)

Section ConsumerStep.

Context {su : Setup} {rng : Rng}.

Variable tss : list treestate.

Lemma hsconnect_length (m : list heptagon) (a b : walker) :
  length (hsconnect m a b) = length m.
Proof. unfold hsconnect. rewrite !length_alter. reflexivity. Qed.

Lemma hmove_insert (h : heptagon) (d : Z) (e : ptr * Z) :
  0 <= d < Z.of_nat (length (hc h)) ->
  hmove (set_hc h (<[Z.to_nat d := Some e]> (hc h))) d = Some e.
Proof.
  intros Hd. unfold hmove. destruct (d <? 0) eqn:E; [apply Z.ltb_lt in E; lia |].
  simpl. rewrite list_lookup_insert_eq by lia. reflexivity.
Qed.

(** After [gen] and [hsconnect] the new heptagon [h1 = length m] and the old
    one [h] are connected across the edges [e] and [d]. *)
Lemma gen_connect (m : list heptagon) (h : ptr) (d st dist' e : Z) (cell : bool) :
  (h < length m)%nat ->
  0 <= d < Z.of_nat (length (hc (m !!! h))) ->
  0 <= e < shape_size (vget shapes (ts_sid (vget tss st))) ->
  let m1 := (gen tss m st dist' cell).1 in
  let h1 := (gen tss m st dist' cell).2 in
  let m' := hsconnect m1 (twalker h d) (twalker h1 e) in
  h1 = length m /\
  length m' = S (length m) /\
  fieldval (m' !!! h1) = st /\
  distance (m' !!! h1) = dist' /\
  hmove (m' !!! h) d = Some (h1, e) /\
  hmove (m' !!! h1) e = Some (h, d).
Proof.
  intros Hh Hd He. unfold gen. simpl.
  set (new := mk_heptagon dist' st (ts_sid (vget tss st)) hsA cell
                (replicate (Z.to_nat (shape_size (vget shapes (ts_sid (vget tss st))))) None)).
  assert (Hnew : (m ++ [new]) !!! length m = new).
  { apply list_lookup_total_correct. rewrite lookup_app_r by lia.
    rewrite Nat.sub_diag. reflexivity. }
  assert (Hold : (m ++ [new]) !!! h = m !!! h).
  { rewrite !list_lookup_total_alt, lookup_app_l by lia. reflexivity. }
  split; [reflexivity |].
  split; [rewrite hsconnect_length, length_app; simpl; lia |].
  unfold hsconnect. simpl.
  rewrite (list_lookup_total_alter_eq _ _ (length m))
    by (rewrite length_alter, length_app; simpl; lia).
  rewrite (list_lookup_total_alter_ne _ _ h (length m)) by lia.
  rewrite (list_lookup_total_alter_ne _ _ (length m) h) by lia.
  rewrite (list_lookup_total_alter_eq _ _ h) by (rewrite length_app; simpl; lia).
  rewrite Hnew, Hold.
  split; [reflexivity |]. split; [reflexivity |].
  split.
  - apply hmove_insert. exact Hd.
  - apply hmove_insert. unfold new. simpl. rewrite length_replicate. lia.
Qed.

Lemma passable_test (r r1 : Z) :
  passable r r1 <-> (r1 =? r) || (r1 =? DIR_PARENT) || (r1 >=? 0) = true.
Proof.
  unfold passable. rewrite !orb_true_iff, !Z.eqb_eq, Z.geb_leb, Z.leb_le. tauto.
Qed.

(** Crossing an edge that is connected already; crossing one that is not,
    which runs the consumer step on it; and the two read backwards. *)
Lemma hwstep_over
    (cs : nat -> list heptagon -> ptr -> Z -> result (nat * list heptagon * ptr))
    (k : nat) (m : list heptagon) (w : walker) (t1 : ptr) (sp1 : Z) :
  hmove (m !!! at' w) (spin w) = Some (t1, sp1) ->
  hwstep cs k m w = Ok (k, m, twalker t1 sp1).
Proof. intros H. unfold hwstep. rewrite H. simpl. rewrite H. reflexivity. Qed.

Lemma hwstep_new
    (cs : nat -> list heptagon -> ptr -> Z -> result (nat * list heptagon * ptr))
    (k k1 : nat) (m m1 : list heptagon) (w : walker) (x t1 : ptr) (sp1 : Z) :
  hmove (m !!! at' w) (spin w) = None ->
  cs k m (at' w) (spin w) = Ok (k1, m1, x) ->
  hmove (m1 !!! at' w) (spin w) = Some (t1, sp1) ->
  hwstep cs k m w = Ok (k1, m1, twalker t1 sp1).
Proof.
  intros H0 Hcs H1. unfold hwstep. rewrite H0, Hcs. simpl. rewrite H1. reflexivity.
Qed.

Lemma hwstep_inv
    (cs : nat -> list heptagon -> ptr -> Z -> result (nat * list heptagon * ptr))
    (k k1 : nat) (m m1 : list heptagon) (w w1 : walker) :
  hwstep cs k m w = Ok (k1, m1, w1) ->
  (k1 = k /\ m1 = m /\ hmove (m !!! at' w) (spin w) = Some (at' w1, spin w1)) \/
  (hmove (m !!! at' w) (spin w) = None /\
   exists x, cs k m (at' w) (spin w) = Ok (k1, m1, x) /\
             hmove (m1 !!! at' w) (spin w) = Some (at' w1, spin w1)).
Proof.
  unfold hwstep. intros H.
  apply bind_Ok_inv in H. destruct H as ([[k2 m2] x] & Hfirst & H).
  destruct (hmove (m2 !!! at' w) (spin w)) as [[t sp] |] eqn:Hm2; [| discriminate].
  injection H as <- <- <-. simpl.
  destruct (hmove (m !!! at' w) (spin w)) as [[t0 sp0] |] eqn:Hm.
  - injection Hfirst as <- <- _. left.
    split; [reflexivity |]. split; [reflexivity |]. rewrite <- Hm2, Hm. reflexivity.
  - right. split; [reflexivity |]. exists x. split; [exact Hfirst | exact Hm2].
Qed.

(** The loop follows the walk around the ring: it ends where the walk
    ends, and connects there. *)
Lemma sideways_follows
    (cs : nat -> list heptagon -> ptr -> Z -> result (nat * list heptagon * ptr))
    (hs : walker) (r rev delta : Z) :
  forall k m w n k' m' w',
    ring_walk tss cs r rev delta k m w n k' m' w' ->
    forall fuel, (n < fuel)%nat ->
      sideways tss cs fuel k m hs r rev delta w
      = Ok (k', hsconnect m' hs w', at' w') /\
      get_rule tss m' w' = rev.
Proof.
  induction 1 as [k m w Hfound
                 | k m w t1 sp1 n k' m' w' Hnot Hpass Hmove Hwalk IH
                 | k m w k1 m1 x t1 sp1 n k' m' w' Hnot Hpass Hnone Hcs Hmove Hwalk IH];
    intros fuel Hfuel; (destruct fuel as [| fuel]; [lia |]); simpl.
  - rewrite Hfound, Z.eqb_refl. split; reflexivity.
  - apply Z.eqb_neq in Hnot. rewrite Hnot.
    rewrite (proj1 (passable_test _ _) Hpass).
    rewrite (hwstep_over cs k m w t1 sp1 Hmove). simpl. apply IH. lia.
  - apply Z.eqb_neq in Hnot. rewrite Hnot.
    rewrite (proj1 (passable_test _ _) Hpass).
    rewrite (hwstep_new cs k k1 m m1 w x t1 sp1 Hnone Hcs Hmove). simpl. apply IH. lia.
Qed.

(** And it returns only along such a walk. *)
Lemma sideways_walked
    (cs : nat -> list heptagon -> ptr -> Z -> result (nat * list heptagon * ptr))
    (hs : walker) (r rev delta : Z) :
  forall (fuel k : nat) (m : list heptagon) (w : walker)
         (res : nat * list heptagon * ptr),
    sideways tss cs fuel k m hs r rev delta w = Ok res ->
    exists n k' m' w',
      (n < fuel)%nat /\
      ring_walk tss cs r rev delta k m w n k' m' w' /\
      res = (k', hsconnect m' hs w', at' w').
Proof.
  induction fuel as [| fuel IH]; intros k m w res H; [discriminate |].
  simpl in H.
  destruct (get_rule tss m w =? rev) eqn:Hrev.
  - injection H as <-. exists 0%nat, k, m, w.
    split; [lia |]. split; [| reflexivity].
    apply walk_found. apply Z.eqb_eq. exact Hrev.
  - destruct ((get_rule tss m w =? r) || (get_rule tss m w =? DIR_PARENT)
              || (get_rule tss m w >=? 0)) eqn:Hpass; [| discriminate].
    apply passable_test in Hpass. apply Z.eqb_neq in Hrev.
    apply bind_Ok_inv in H. destruct H as ([[k1 m1] w1] & Hstep & H).
    apply IH in H. destruct H as (n & k' & m' & w' & Hn & Hwalk & ->).
    exists (S n), k', m', w'. split; [lia |]. split; [| reflexivity].
    apply hwstep_inv in Hstep.
    destruct Hstep as [(-> & -> & Hmove) | (Hnone & x & Hcs & Hmove)].
    + exact (walk_over tss cs r rev delta k m w _ _ n k' m' w' Hrev Hpass Hmove Hwalk).
    + exact (walk_new tss cs r rev delta k m w k1 m1 x _ _ n k' m' w'
               Hrev Hpass Hnone Hcs Hmove Hwalk).
Qed.

(** [hsconnect(a, b)] writes each end into the table of the other. *)
Lemma hsconnect_links (m : list heptagon) (a b : walker) :
  (at' a < length m)%nat -> (at' b < length m)%nat ->
  0 <= spin a < Z.of_nat (length (hc (m !!! at' a))) ->
  0 <= spin b < Z.of_nat (length (hc (m !!! at' b))) ->
  hmove (hsconnect m a b !!! at' a) (spin a) = Some (at' b, spin b) /\
  hmove (hsconnect m a b !!! at' b) (spin b) = Some (at' a, spin a).
Proof.
  intros Ha Hb Hsa Hsb. unfold hsconnect.
  destruct a as [ta sa], b as [tb sb]. simpl in *.
  assert (Hna : (sa <? 0) = false) by (apply Z.ltb_ge; lia).
  assert (Hnb : (sb <? 0) = false) by (apply Z.ltb_ge; lia).
  destruct (decide (ta = tb)) as [-> | Hne].
  - rewrite (list_lookup_total_alter_eq _ _ tb) by (rewrite length_alter; lia).
    rewrite (list_lookup_total_alter_eq _ _ tb) by lia.
    unfold hmove. simpl. rewrite Hna, Hnb.
    destruct (decide (sa = sb)) as [-> | Hs].
    + rewrite list_lookup_insert_eq by (rewrite length_insert; lia).
      split; reflexivity.
    + rewrite list_lookup_insert_ne by lia.
      rewrite list_lookup_insert_eq by lia.
      rewrite list_lookup_insert_eq by (rewrite length_insert; lia).
      split; reflexivity.
  - rewrite (list_lookup_total_alter_ne _ _ tb ta) by lia.
    rewrite (list_lookup_total_alter_eq _ _ ta) by lia.
    rewrite (list_lookup_total_alter_eq _ _ tb) by (rewrite length_alter; lia).
    rewrite (list_lookup_total_alter_ne _ _ ta tb) by lia.
    unfold hmove. simpl. rewrite Hna, Hnb.
    rewrite !list_lookup_insert_eq by lia.
    split; reflexivity.
Qed.

(** C9.  The consumer step on an allocated heptagon [h] and an edge [d] of
    it, below the nesting limit, after [k] draws of the generator:
    - a rule [r >= 0] allocates a heptagon in state [r] at distance
      [h->distance + 1] and connects it with its edge 0 to [(h, d)];
    - the rule [DIR_PARENT] throws when [possible_parents] is empty;
      otherwise the generator draws, the outcome is one of the equally
      likely ones, it selects a position of [possible_parents], every
      position is selected by one in [length] of the outcomes, and the
      step allocates a heptagon in the state recorded at the selected
      position, at distance [h->distance - 1], and connects it with the
      recorded edge to [(h, d)];
    - the rule [DIR_LEFT] ([DIR_RIGHT]) turns by [-1] ([+1]) on [h] and
      walks around the ring ([ring_walk]): as long as the rule read is not
      the mirror [DIR_RIGHT] ([DIR_LEFT]) it goes across the edge and turns
      by the same amount again; where it reads the mirror rule it connects
      [(h, d)] to that position and returns its heptagon.  The step returns
      exactly when there is such a walk, and with this result;
    - connecting writes each of the two positions into the connection
      table of the other. *)
Theorem create_step_cases :
  forall (fuel : nat) (ind : Z) (k : nat) (m : list heptagon) (h : ptr) (d : Z),
    ind + 2 < 6000 ->
    (h < length m)%nat ->
    0 <= d < Z.of_nat (length (hc (m !!! h))) ->
    (0 <= get_rule tss m (twalker h d) ->
     0 < shape_size (vget shapes (ts_sid (vget tss (get_rule tss m (twalker h d))))) ->
     exists m',
       create_step tss (S fuel) ind k m h d = Ok (k, m', length m) /\
       length m' = S (length m) /\
       fieldval (m' !!! length m) = get_rule tss m (twalker h d) /\
       distance (m' !!! length m) = distance (m !!! h) + 1 /\
       hmove (m' !!! h) d = Some (length m, 0) /\
       hmove (m' !!! length m) 0 = Some (h, d))
    /\
    (get_rule tss m (twalker h d) = DIR_PARENT ->
     forall choices,
       choices = possible_parents (vget tss (fieldval (m !!! h))) ->
       (choices = [] ->
        create_step tss (S fuel) ind k m h d
        = Throw (rulegen_failure "no possible parents")) /\
       (choices <> [] ->
        forall (u : nat) (selected : Z * Z),
          u = drawn k (length choices) ->
          selected = choices !!! hrand (length choices) u ->
          (u < draws (length choices))%nat /\
          choices !! hrand (length choices) u = Some selected /\
          (forall i : nat, (i < length choices)%nat ->
             (length (filter (fun v => hrand (length choices) v = i)
                        (seq 0 (draws (length choices))))
              * length choices = draws (length choices))%nat) /\
          (0 <= selected.2 < shape_size (vget shapes (ts_sid (vget tss selected.1))) ->
           exists m',
             create_step tss (S fuel) ind k m h d = Ok (S k, m', length m) /\
             length m' = S (length m) /\
             fieldval (m' !!! length m) = selected.1 /\
             distance (m' !!! length m) = distance (m !!! h) - 1 /\
             hmove (m' !!! h) d = Some (length m, selected.2) /\
             hmove (m' !!! length m) selected.2 = Some (h, d))))
    /\
    (get_rule tss m (twalker h d) = DIR_LEFT ->
     (forall (n k' : nat) (m' : list heptagon) (w' : walker),
        (n < fuel)%nat ->
        ring_walk tss (create_step tss fuel (ind + 2)) DIR_LEFT DIR_RIGHT (-1)
          k m (twalker h ((d - 1) mod Z.of_nat (length (hc (m !!! h))))) n k' m' w' ->
        create_step tss (S fuel) ind k m h d
        = Ok (k', hsconnect m' (twalker h d) w', at' w') /\
        get_rule tss m' w' = DIR_RIGHT) /\
     (forall res : nat * list heptagon * ptr,
        create_step tss (S fuel) ind k m h d = Ok res ->
        exists (n k' : nat) (m' : list heptagon) (w' : walker),
          (n < fuel)%nat /\
          ring_walk tss (create_step tss fuel (ind + 2)) DIR_LEFT DIR_RIGHT (-1)
            k m (twalker h ((d - 1) mod Z.of_nat (length (hc (m !!! h))))) n k' m' w' /\
          res = (k', hsconnect m' (twalker h d) w', at' w')))
    /\
    (get_rule tss m (twalker h d) = DIR_RIGHT ->
     (forall (n k' : nat) (m' : list heptagon) (w' : walker),
        (n < fuel)%nat ->
        ring_walk tss (create_step tss fuel (ind + 2)) DIR_RIGHT DIR_LEFT 1
          k m (twalker h ((d + 1) mod Z.of_nat (length (hc (m !!! h))))) n k' m' w' ->
        create_step tss (S fuel) ind k m h d
        = Ok (k', hsconnect m' (twalker h d) w', at' w') /\
        get_rule tss m' w' = DIR_LEFT) /\
     (forall res : nat * list heptagon * ptr,
        create_step tss (S fuel) ind k m h d = Ok res ->
        exists (n k' : nat) (m' : list heptagon) (w' : walker),
          (n < fuel)%nat /\
          ring_walk tss (create_step tss fuel (ind + 2)) DIR_RIGHT DIR_LEFT 1
            k m (twalker h ((d + 1) mod Z.of_nat (length (hc (m !!! h))))) n k' m' w' /\
          res = (k', hsconnect m' (twalker h d) w', at' w')))
    /\
    (forall (m' : list heptagon) (w' : walker),
       (h < length m')%nat -> (at' w' < length m')%nat ->
       0 <= d < Z.of_nat (length (hc (m' !!! h))) ->
       0 <= spin w' < Z.of_nat (length (hc (m' !!! at' w'))) ->
       hmove (hsconnect m' (twalker h d) w' !!! h) d = Some (at' w', spin w') /\
       hmove (hsconnect m' (twalker h d) w' !!! at' w') (spin w') = Some (h, d)).
Proof.
  intros fuel ind k m h d Hind Hh Hd.
  assert (Hlimit : (ind + 2 >=? 6000) = false)
    by (rewrite Z.geb_leb; apply Z.leb_gt; lia).
  split; [| split; [| split; [| split]]].
  - intros Hr Hsize. cbn [create_step]. rewrite Hlimit.
    assert (Hge : (get_rule tss m (twalker h d) >=? 0) = true)
      by (rewrite Z.geb_leb; apply Z.leb_le; exact Hr).
    rewrite Hge.
    destruct (gen_connect m h d (get_rule tss m (twalker h d))
                (distance (m !!! h) + 1) 0 (c7 (m !!! h)) Hh Hd ltac:(lia))
      as (Hh1 & Hlen & Hf & Hdist & Hm1 & Hm2).
    destruct (gen tss m (get_rule tss m (twalker h d)) (distance (m !!! h) + 1)
                (c7 (m !!! h))) as [m1 h1].
    simpl in Hh1, Hlen, Hf, Hdist, Hm1, Hm2. subst h1.
    eexists. split; [reflexivity |].
    split; [exact Hlen |]. split; [exact Hf |]. split; [exact Hdist |].
    split; [exact Hm1 | exact Hm2].
  - intros Hr choices ->. split.
    { intros Hnil. cbn [create_step]. rewrite Hlimit, Hr.
      change (DIR_PARENT >=? 0) with false. change (DIR_PARENT =? DIR_PARENT) with true.
      cbv iota. rewrite Hnil. reflexivity. }
    intros Hne u selected -> ->.
    assert (Hpos : (0 < length (possible_parents (vget tss (fieldval (m !!! h)))))%nat).
    { destruct (possible_parents (vget tss (fieldval (m !!! h)))); [contradiction |].
      simpl. lia. }
    pose proof (drawn_lt k _ Hpos) as Hout.
    pose proof (hrand_lt _ _ Hout) as Hrand.
    split; [exact Hout |].
    split; [apply list_lookup_lookup_total_lt; exact Hrand |].
    split; [intros i Hi; apply hrand_uniform; exact Hi |].
    intros Hedge.
    cbn [create_step]. rewrite Hlimit, Hr.
    change (DIR_PARENT >=? 0) with false. change (DIR_PARENT =? DIR_PARENT) with true.
    cbv iota.
    destruct (possible_parents (vget tss (fieldval (m !!! h)))) as [|c0 cs] eqn:Hch;
      [contradiction |].
    cbv zeta.
    set (selected := (c0 :: cs) !!! hrand (length (c0 :: cs))
                       (drawn k (length (c0 :: cs)))) in *.
    destruct (gen_connect m h d selected.1 (distance (m !!! h) - 1) selected.2
                (c7 (m !!! h)) Hh Hd Hedge)
      as (Hh1 & Hlen & Hf & Hdist & Hm1 & Hm2).
    destruct (gen tss m selected.1 (distance (m !!! h) - 1) (c7 (m !!! h))) as [m1 h1].
    simpl in Hh1, Hlen, Hf, Hdist, Hm1, Hm2. subst h1.
    eexists. split; [reflexivity |].
    split; [exact Hlen |]. split; [exact Hf |]. split; [exact Hdist |].
    split; [exact Hm1 | exact Hm2].
  - intros Hr.
    assert (Hstep : create_step tss (S fuel) ind k m h d
                    = sideways tss (create_step tss fuel (ind + 2)) fuel k m (twalker h d)
                        DIR_LEFT DIR_RIGHT (-1)
                        (twalker h ((d - 1) mod Z.of_nat (length (hc (m !!! h)))))).
    { cbn [create_step]. rewrite Hlimit, Hr.
      change (DIR_LEFT >=? 0) with false. change (DIR_LEFT =? DIR_PARENT) with false.
      change (DIR_LEFT =? DIR_LEFT) with true. cbv iota. simpl orb. cbv iota.
      change (Z.lxor (Z.lxor DIR_LEFT DIR_RIGHT) DIR_LEFT) with DIR_RIGHT.
      reflexivity. }
    split.
    + intros n k' m' w' Hn Hwalk. rewrite Hstep.
      exact (sideways_follows _ _ _ _ _ _ _ _ _ _ _ _ Hwalk fuel Hn).
    + intros res Hres. rewrite Hstep in Hres.
      exact (sideways_walked _ _ _ _ _ _ _ _ _ _ Hres).
  - intros Hr.
    assert (Hstep : create_step tss (S fuel) ind k m h d
                    = sideways tss (create_step tss fuel (ind + 2)) fuel k m (twalker h d)
                        DIR_RIGHT DIR_LEFT 1
                        (twalker h ((d + 1) mod Z.of_nat (length (hc (m !!! h)))))).
    { cbn [create_step]. rewrite Hlimit, Hr.
      change (DIR_RIGHT >=? 0) with false. change (DIR_RIGHT =? DIR_PARENT) with false.
      change (DIR_RIGHT =? DIR_LEFT) with false. change (DIR_RIGHT =? DIR_RIGHT) with true.
      cbv iota. simpl orb. cbv iota.
      change (Z.lxor (Z.lxor DIR_LEFT DIR_RIGHT) DIR_RIGHT) with DIR_LEFT.
      reflexivity. }
    split.
    + intros n k' m' w' Hn Hwalk. rewrite Hstep.
      exact (sideways_follows _ _ _ _ _ _ _ _ _ _ _ _ Hwalk fuel Hn).
    + intros res Hres. rewrite Hstep in Hres.
      exact (sideways_walked _ _ _ _ _ _ _ _ _ _ Hres).
  - intros m' w' Hh' Hw' Hd' Hs'.
    exact (hsconnect_links m' (twalker h d) w' Hh' Hw' Hd' Hs').
Qed.

End ConsumerStep.

(** The walk from the origin's edge 2 in [walk_states]: from edge 1 of the
    origin across to a new child in state 1, from its edge 2 across to a
    new child in state 2, whose edge 2 carries [DIR_RIGHT]. *)
Lemma ring_walk_sample :
  ring_walk walk_states
    (create_step (su := consumer_setup) (rng := round_robin) walk_states 4 2)
    DIR_LEFT DIR_RIGHT (-1)
    0%nat origin_only (twalker 0%nat 1) 2%nat 0%nat walked_arena (twalker 2%nat 2).
Proof.
  eapply (walk_new walk_states _ _ _ _ 0%nat origin_only (twalker 0%nat 1)).
  - vm_compute. discriminate.
  - right. right. vm_compute. discriminate.
  - vm_compute. reflexivity.
  - vm_compute. reflexivity.
  - vm_compute. reflexivity.
  - eapply walk_new.
    + vm_compute. discriminate.
    + right. right. vm_compute. discriminate.
    + vm_compute. reflexivity.
    + vm_compute. reflexivity.
    + vm_compute. reflexivity.
    + apply walk_found. vm_compute. reflexivity.
Qed.

Lemma create_step_cases_witness :
  (exists m',
     create_step (su := consumer_setup) (rng := round_robin) finished_states
       1 0 0%nat origin_only 0%nat 0 = Ok (0%nat, m', 1%nat) /\
     length m' = 2%nat /\
     fieldval (m' !!! 1%nat) = 1 /\
     distance (m' !!! 1%nat) = 0 + 1 /\
     hmove (m' !!! 0%nat) 0 = Some (1%nat, 0) /\
     hmove (m' !!! 1%nat) 0 = Some (0%nat, 0)) /\
  (exists m',
     create_step (su := consumer_setup) (rng := round_robin) finished_states
       1 0 0%nat lone_child 0%nat 0 = Ok (1%nat, m', 1%nat) /\
     fieldval (m' !!! 1%nat) = 2 /\
     distance (m' !!! 1%nat) = 5 - 1 /\
     hmove (m' !!! 0%nat) 0 = Some (1%nat, 2) /\
     hmove (m' !!! 1%nat) 2 = Some (0%nat, 0)) /\
  (create_step (su := consumer_setup) (rng := round_robin) walk_states
     5 0 0%nat origin_only 0%nat 2
   = Ok (0%nat, hsconnect walked_arena (twalker 0%nat 2) (twalker 2%nat 2), 2%nat) /\
   get_rule walk_states walked_arena (twalker 2%nat 2) = DIR_RIGHT /\
   hmove (hsconnect walked_arena (twalker 0%nat 2) (twalker 2%nat 2) !!! 0%nat) 2
   = Some (2%nat, 2) /\
   hmove (hsconnect walked_arena (twalker 0%nat 2) (twalker 2%nat 2) !!! 2%nat) 2
   = Some (0%nat, 2)).
Proof.
  split; [| split].
  - apply (proj1 (create_step_cases (su := consumer_setup) (rng := round_robin)
                    finished_states 0%nat 0 0%nat origin_only 0%nat 0
                    ltac:(lia) ltac:(simpl; lia) ltac:(simpl; lia))).
    + vm_compute. discriminate.
    + vm_compute. reflexivity.
  - destruct (proj1 (proj2 (create_step_cases (su := consumer_setup) (rng := round_robin)
                              finished_states 0%nat 0 0%nat lone_child 0%nat 0
                              ltac:(lia) ltac:(simpl; lia) ltac:(simpl; lia)))
                ltac:(vm_compute; reflexivity) _ eq_refl) as [_ Hdraw].
    destruct (Hdraw ltac:(vm_compute; discriminate)
                (drawn (Rng := round_robin) 0 1) (2, 2) eq_refl eq_refl)
      as (_ & _ & _ & Hrun).
    destruct Hrun as (m' & H1 & _ & H3 & H4 & H5 & H6).
    { vm_compute. split; [discriminate | reflexivity]. }
    exists m'. split; [exact H1 |]. split; [exact H3 |]. split; [exact H4 |].
    split; [exact H5 | exact H6].
  - pose proof (create_step_cases (su := consumer_setup) (rng := round_robin)
                  walk_states 4%nat 0 0%nat origin_only 0%nat 2
                  ltac:(lia) ltac:(simpl; lia) ltac:(simpl; lia))
      as (_ & _ & Hleft & _ & Hlinks).
    destruct (Hleft ltac:(vm_compute; reflexivity)) as [Hfollows _].
    destruct (Hfollows 2%nat 0%nat walked_arena (twalker 2%nat 2) ltac:(lia)
                ring_walk_sample) as [Hrun Hrule].
    split; [exact Hrun |]. split; [exact Hrule |].
    apply (Hlinks walked_arena (twalker 2%nat 2)).
    + simpl. lia.
    + simpl. lia.
    + simpl. lia.
    + simpl. lia.
Defined.

(** The rule [DIR_PARENT] on a heptagon in state 1 of the finished sample
    table, whose only possible parent is [(2, 2)]: a heptagon in state 2 is
    allocated one step nearer and connected with its edge 2, and one draw
    has been made. *)
Example create_step_parent_sample :
  possible_parents (finished_states !!! 1%nat) = [(2, 2)] /\
  match create_step (su := consumer_setup) (rng := round_robin) finished_states
          1 0 0%nat lone_child 0%nat 0 with
  | Ok (k', m', h1) =>
      k' = 1%nat /\
      h1 = 1%nat /\ fieldval (m' !!! h1) = 2 /\ distance (m' !!! h1) = 4 /\
      hmove (m' !!! 0%nat) 0 = Some (1%nat, 2) /\
      hmove (m' !!! 1%nat) 2 = Some (0%nat, 0)
  | _ => False
  end.
Proof. vm_compute. repeat split; reflexivity. Qed.

(** The rule [DIR_LEFT] on the origin's edge 2 in [walk_states]: the walk
    turns to edge 1, crosses it (making a child in state 1), turns, crosses
    (making a child in state 2), turns, reads [DIR_RIGHT] and connects.
    The rule [DIR_RIGHT] on the origin's edge 0 in [mirror_states] walks
    the other way round and stops at [DIR_LEFT]. *)
Example create_step_sideways_samples :
  match create_step (su := consumer_setup) (rng := round_robin) walk_states
          5 0 0%nat origin_only 0%nat 2 with
  | Ok (_, m', h1) =>
      h1 = 2%nat /\ length m' = 3%nat /\
      hmove (m' !!! 0%nat) 2 = Some (2%nat, 2) /\
      hmove (m' !!! 2%nat) 2 = Some (0%nat, 2) /\
      get_rule walk_states m' (twalker 2%nat 2) = DIR_RIGHT
  | _ => False
  end /\
  match create_step (su := consumer_setup) (rng := round_robin) mirror_states
          5 0 0%nat origin_only 0%nat 0 with
  | Ok (_, m', h1) =>
      h1 = 2%nat /\ length m' = 3%nat /\
      hmove (m' !!! 0%nat) 0 = Some (2%nat, 1) /\
      hmove (m' !!! 2%nat) 1 = Some (0%nat, 0) /\
      get_rule mirror_states m' (twalker 2%nat 1) = DIR_LEFT
  | _ => False
  end.
Proof. vm_compute. repeat split; reflexivity. Qed.

(** The ways the step refuses: no possible parent to pick, the nesting
    limit, and a walk that meets a rule it cannot pass. *)
Example create_step_refusals :
  create_step (su := consumer_setup) (rng := round_robin) walk_states
    1 0 0%nat [mk_heptagon 5 1 0 hsA true [None; None; None]] 0%nat 0
    = Throw (rulegen_failure "no possible parents") /\
  create_step (su := consumer_setup) (rng := round_robin) walk_states
    1 5998 0%nat origin_only 0%nat 0
    = Throw (rulegen_failure "failed to create_step") /\
  create_step (su := consumer_setup) (rng := round_robin)
    [state_of 0 [DIR_LEFT; 1; -11] true]
    2 0 0%nat origin_only 0%nat 0
    = Throw (rulegen_failure "bad R1").
Proof. vm_compute. repeat split; reflexivity. Qed.

(** The sample generator draws each position in turn: among three elements
    the draws 0, 1, 2 and 3 select the positions 0, 1, 2 and 0. *)
Example round_robin_draws :
  map (fun k => hrand (Rng := round_robin) 3 (drawn (Rng := round_robin) k 3))
    [0; 1; 2; 3]%nat
  = [0; 1; 2; 0]%nat.
Proof. vm_compute. reflexivity. Qed.

(** ** Dead ends *)

Lemma live_children_from (tss : list treestate) (rs : list Z) (a : Z) :
  fold_left
    (fun children i =>
       if (i >=? 0) && is_live (vget tss i) then children + 1 else children)
    rs a = a + live_children tss rs /\
  0 <= live_children tss rs.
Proof.
  unfold live_children. revert a. induction rs as [|r rs IH]; intros a; simpl.
  - lia.
  - destruct (IH (if (r >=? 0) && is_live (vget tss r) then a + 1 else a)) as [E1 Hpos].
    destruct (IH (if (r >=? 0) && is_live (vget tss r) then 0 + 1 else 0)) as [E2 _].
    rewrite E1, E2.
    destruct ((r >=? 0) && is_live (vget tss r)); lia.
Qed.

Lemma live_children_zero (tss : list treestate) (rs : list Z) :
  live_children tss rs = 0 <->
  forall r, r ∈ rs -> 0 <= r -> is_live (vget tss r) = false.
Proof.
  induction rs as [|r rs IH].
  - split; [intros _ r Hr; inversion Hr | reflexivity].
  - unfold live_children. simpl.
    destruct (live_children_from tss rs
                (if (r >=? 0) && is_live (vget tss r) then 0 + 1 else 0)) as [E _].
    rewrite E. destruct (live_children_from tss rs 0) as [_ Hpos].
    split.
    + intros Hz r' Hr' Hpos'.
      destruct ((r >=? 0) && is_live (vget tss r)) eqn:Hc; [lia |].
      apply elem_of_cons in Hr'. destruct Hr' as [-> | Hr'].
      * apply andb_false_iff in Hc. destruct Hc as [Hc | Hc]; [| exact Hc].
        rewrite Z.geb_leb in Hc. apply Z.leb_gt in Hc. lia.
      * apply IH; [lia | exact Hr' | exact Hpos'].
    + intros Hall.
      assert (Hc : (r >=? 0) && is_live (vget tss r) = false).
      { destruct (r >=? 0) eqn:Hr; [| reflexivity]. simpl.
        apply Hall; [left |]. rewrite Z.geb_leb in Hr. apply Z.leb_le in Hr. exact Hr. }
      rewrite Hc. simpl. apply IH. intros r' Hr'. apply Hall. right. exact Hr'.
Qed.

Lemma live_children_nonzero (tss : list treestate) (rs : list Z) :
  live_children tss rs <> 0 ->
  exists r, r ∈ rs /\ 0 <= r /\ is_live (vget tss r) = true.
Proof.
  induction rs as [|r rs IH]; intros Hn.
  - exfalso. apply Hn. reflexivity.
  - destruct ((r >=? 0) && is_live (vget tss r)) eqn:Hc.
    + apply andb_true_iff in Hc. destruct Hc as [Hr Hl].
      rewrite Z.geb_leb in Hr. apply Z.leb_le in Hr.
      exists r. split; [left | split; assumption].
    + destruct IH as (r' & Hr' & Hpos & Hl).
      * intros Hz. apply Hn. unfold live_children. simpl. rewrite Hc. exact Hz.
      * exists r'. split; [right; exact Hr' | split; assumption].
Qed.

Lemma live_in_range (tss : list treestate) (i : nat) :
  is_live (tss !!! i) = true -> (i < length tss)%nat.
Proof.
  intros Hm. destruct (decide (i < length tss)%nat) as [Hlt | Hge]; [exact Hlt |].
  rewrite lookup_total_ge in Hm by lia. discriminate.
Qed.

Lemma count_live_flip (tss : list treestate) (i : nat) :
  is_live (tss !!! i) = true ->
  S (count_live (<[i := set_is_live (tss !!! i) false]> tss)) = count_live tss.
Proof.
  intros Hl. pose proof (live_in_range tss i Hl) as Hi.
  rewrite insert_take_drop by exact Hi.
  assert (Hsplit : tss = take i tss ++ tss !!! i :: drop (S i) tss).
  { symmetry. apply take_drop_middle. apply list_lookup_lookup_total_lt. exact Hi. }
  rewrite Hsplit at 4. unfold count_live.
  rewrite !filter_app, !length_app.
  rewrite filter_cons_False by (simpl; discriminate).
  rewrite filter_cons_True by exact Hl.
  simpl. lia.
Qed.

Lemma same_but_live_refl (tss : list treestate) : same_but_live tss tss.
Proof. split; [reflexivity |]. intros i. destruct (tss !!! i). reflexivity. Qed.

Lemma same_but_live_flip (tss : list treestate) (i : nat) :
  same_but_live tss (<[i := set_is_live (tss !!! i) false]> tss).
Proof.
  split; [apply length_insert |]. intros j.
  rewrite list_lookup_total_insert.
  destruct (decide (i = j /\ (i < length tss)%nat)) as [[-> _] | _];
    destruct (tss !!! j); reflexivity.
Qed.

Lemma same_but_live_trans (a b c' : list treestate) :
  same_but_live a b -> same_but_live b c' -> same_but_live a c'.
Proof.
  intros [L1 H1] [L2 H2]. split; [lia |]. intros i.
  rewrite <- (H1 i). rewrite <- (H2 i) at 2.
  destruct (c' !!! i). reflexivity.
Qed.

Lemma same_but_live_rules (a b : list treestate) (i : nat) :
  same_but_live a b ->
  rules (b !!! i) = rules (a !!! i) /\ known (b !!! i) = known (a !!! i).
Proof.
  intros [_ H]. rewrite <- (H i). destruct (b !!! i). split; reflexivity.
Qed.

Lemma self_supporting_same (a b : list treestate) (S : nat -> Prop) :
  same_but_live a b -> self_supporting a S -> self_supporting b S.
Proof.
  intros Hs Ha j Hj Hk. destruct (same_but_live_rules a b j Hs) as [Hr Hkn].
  rewrite Hr. apply Ha; [exact Hj |]. rewrite <- Hkn. exact Hk.
Qed.

Lemma deadend_pass_spec :
  forall (todo : list nat) (tss : list treestate) (n : Z),
    same_but_live tss (deadend_pass todo tss n).1 /\
    (forall j, is_live ((deadend_pass todo tss n).1 !!! j) = true ->
               is_live (tss !!! j) = true) /\
    (forall j, known (tss !!! j) = false ->
               is_live ((deadend_pass todo tss n).1 !!! j) = is_live (tss !!! j)) /\
    (deadend_pass todo tss n).2 - n
      = Z.of_nat (count_live tss) - Z.of_nat (count_live (deadend_pass todo tss n).1) /\
    n <= (deadend_pass todo tss n).2 /\
    (forall S : nat -> Prop, self_supporting tss S ->
       (forall j, S j -> is_live (tss !!! j) = true) ->
       forall j, S j -> is_live ((deadend_pass todo tss n).1 !!! j) = true) /\
    ((deadend_pass todo tss n).2 = n ->
       (deadend_pass todo tss n).1 = tss /\
       forall i, i ∈ todo -> known (tss !!! i) = true -> is_live (tss !!! i) = true ->
                 live_children tss (rules (tss !!! i)) <> 0).
Proof.
  induction todo as [|i todo IH]; intros tss n.
  - simpl. split; [apply same_but_live_refl |].
    split; [intros j Hj; exact Hj |]. split; [reflexivity |].
    split; [lia |]. split; [lia |].
    split; [intros S _ Hl j Hj; apply Hl; exact Hj |].
    intros _. split; [reflexivity |]. intros i Hi. inversion Hi.
  - cbn [deadend_pass].
    destruct (known (tss !!! i)) eqn:Hk; cbn [negb];
      [destruct (is_live (tss !!! i)) eqn:Hl; cbn [negb];
       [destruct (live_children tss (rules (tss !!! i)) =? 0) eqn:Hc |] |].
    + (* the state loses its mark *)
      apply Z.eqb_eq in Hc.
      set (tss1 := <[i := set_is_live (tss !!! i) false]> tss).
      destruct (IH tss1 (n + 1)) as (Hs & Hmono & Hunk & Hcount & Hle & Hmax & _).
      pose proof (same_but_live_flip tss i) as Hs1. fold tss1 in Hs1.
      pose proof (count_live_flip tss i Hl) as Hfl. fold tss1 in Hfl.
      assert (Hmono1 : forall j, is_live (tss1 !!! j) = true -> is_live (tss !!! j) = true).
      { intros j. unfold tss1. rewrite list_lookup_total_insert.
        destruct (decide (i = j /\ (i < length tss)%nat)) as [[-> _] | _];
          [simpl; discriminate | intros H; exact H]. }
      split; [eapply same_but_live_trans; eassumption |].
      split; [intros j Hj; apply Hmono1, Hmono; exact Hj |].
      split.
      { intros j Hj. rewrite Hunk.
        - unfold tss1. rewrite list_lookup_total_insert.
          destruct (decide (i = j /\ (i < length tss)%nat)) as [[-> _] | _];
            [congruence | reflexivity].
        - destruct (same_but_live_rules tss tss1 j Hs1) as [_ ->]. exact Hj. }
      split; [lia |]. split; [lia |].
      split.
      { intros S HS Hlive j Hj. apply (Hmax S); [| | exact Hj].
        - eapply self_supporting_same; eassumption.
        - intros j' Hj'. unfold tss1. rewrite list_lookup_total_insert.
          destruct (decide (i = j' /\ (i < length tss)%nat)) as [[-> _] | _];
            [| apply Hlive; exact Hj'].
          exfalso. destruct (HS j' Hj' Hk) as (e & r & He & Hr).
          pose proof (proj1 (live_children_zero tss (rules (tss !!! j'))) Hc
                        (Z.of_nat r)) as Hz.
          unfold vget in Hz. rewrite Nat2Z.id in Hz.
          specialize (Hlive r Hr).
          rewrite Hz in Hlive; [discriminate | | lia].
          apply list_elem_of_lookup. exists e. exact He. }
      intros Heq. lia.
    + (* a live child: the mark stays *)
      destruct (IH tss n) as (Hs & Hmono & Hunk & Hcount & Hle & Hmax & Hsame).
      do 6 (split; [assumption |]).
      intros Heq. destruct (Hsame Heq) as [Hout Hall]. split; [exact Hout |].
      intros i' Hi' Hk' Hl'. apply elem_of_cons in Hi'. destruct Hi' as [-> | Hi'].
      * apply Z.eqb_neq in Hc. exact Hc.
      * apply Hall; assumption.
    + (* not live *)
      destruct (IH tss n) as (Hs & Hmono & Hunk & Hcount & Hle & Hmax & Hsame).
      do 6 (split; [assumption |]).
      intros Heq. destruct (Hsame Heq) as [Hout Hall]. split; [exact Hout |].
      intros i' Hi' Hk' Hl'. apply elem_of_cons in Hi'. destruct Hi' as [-> | Hi'].
      * congruence.
      * apply Hall; assumption.
    + (* not known *)
      destruct (IH tss n) as (Hs & Hmono & Hunk & Hcount & Hle & Hmax & Hsame).
      do 6 (split; [assumption |]).
      intros Heq. destruct (Hsame Heq) as [Hout Hall]. split; [exact Hout |].
      intros i' Hi' Hk' Hl'. apply elem_of_cons in Hi'. destruct Hi' as [-> | Hi'].
      * congruence.
      * apply Hall; assumption.
Qed.

Lemma count_live_le (tss : list treestate) : (count_live tss <= length tss)%nat.
Proof. unfold count_live. apply length_filter. Qed.

Lemma deadend_loop_spec :
  forall (fuel : nat) (tss : list treestate),
    (count_live tss < fuel)%nat ->
    exists out,
      deadend_loop fuel tss = Ok out /\
      same_but_live tss out /\
      (forall j, is_live (out !!! j) = true -> is_live (tss !!! j) = true) /\
      (forall j, known (tss !!! j) = false -> is_live (out !!! j) = is_live (tss !!! j)) /\
      (forall j, known (out !!! j) = true -> is_live (out !!! j) = true ->
                 has_live_child out j) /\
      (forall S : nat -> Prop, self_supporting tss S ->
         (forall j, S j -> is_live (tss !!! j) = true) ->
         forall j, S j -> is_live (out !!! j) = true).
Proof.
  induction fuel as [|fuel IH]; intros tss Hfuel; [lia |].
  cbn [deadend_loop].
  destruct (deadend_pass_spec (seq 0 (length tss)) tss 0)
    as (Hs & Hmono & Hunk & Hcount & Hle & Hmax & Hsame).
  destruct (deadend_pass (seq 0 (length tss)) tss 0) as [tss1 n] eqn:Hp.
  cbn [fst snd] in *.
  destruct (n =? 0) eqn:Hn.
  - apply Z.eqb_eq in Hn. destruct (Hsame Hn) as [-> Hall].
    exists tss. split; [reflexivity |]. split; [exact Hs |].
    split; [intros j Hj; exact Hj |]. split; [reflexivity |].
    split.
    { intros j Hk Hl. pose proof (live_in_range tss j Hl) as Hj.
      assert (Hin : j ∈ seq 0 (length tss)) by (apply elem_of_seq; lia).
      pose proof (Hall j Hin Hk Hl) as Hc.
      destruct (live_children_nonzero tss (rules (tss !!! j)) Hc)
        as (r & Hr & Hpos & Hlive).
      apply list_elem_of_lookup in Hr. destruct Hr as [e He].
      exists e, (Z.to_nat r). rewrite Z2Nat.id by exact Hpos.
      split; [exact He | exact Hlive]. }
    intros S _ Hl j Hj. apply Hl. exact Hj.
  - apply Z.eqb_neq in Hn.
    destruct (IH tss1) as (out & Hout & Hs2 & Hmono2 & Hunk2 & Hch & Hmax2); [lia |].
    exists out. split; [exact Hout |].
    split; [eapply same_but_live_trans; eassumption |].
    split; [intros j Hj; apply Hmono, Hmono2; exact Hj |].
    split.
    { intros j Hk. rewrite Hunk2, Hunk; [reflexivity | exact Hk |].
      destruct (same_but_live_rules tss tss1 j Hs) as [_ ->]. exact Hk. }
    split; [exact Hch |].
    intros S HS Hl j Hj. apply (Hmax2 S); [| | exact Hj].
    + eapply self_supporting_same; eassumption.
    + intros j' Hj'. apply (Hmax S); assumption.
Qed.

(** X1.  The dead-end loop of [rules_iteration] ends within as many passes
    as there are states plus one.  It changes nothing but marks [is_live],
    and only from live to not live, and only of known states.  When it
    ends, every known state still marked live has a child that is marked
    live; and the states left live are the largest such set: every set of
    states marked live at the start in which each known state has a child
    in the set stays live. *)
Theorem deadend_loop_live_states :
  forall tss : list treestate,
    exists out,
      deadend_loop (S (length tss)) tss = Ok out /\
      same_but_live tss out /\
      (forall j, is_live (out !!! j) = true -> is_live (tss !!! j) = true) /\
      (forall j, known (tss !!! j) = false -> is_live (out !!! j) = is_live (tss !!! j)) /\
      (forall j, known (out !!! j) = true -> is_live (out !!! j) = true ->
                 has_live_child out j) /\
      (forall S : nat -> Prop, self_supporting tss S ->
         (forall j, S j -> is_live (tss !!! j) = true) ->
         forall j, S j -> is_live (out !!! j) = true).
Proof.
  intros tss. apply deadend_loop_spec.
  pose proof (count_live_le tss). lia.
Qed.

(** In [live_sample] the first pass takes the mark of state 2, the second
    one that of state 1, whose only child state 2 was examined after it;
    the third pass finds nothing. *)
Example deadend_loop_sample :
  (deadend_pass (seq 0 4) live_sample 0).2 = 1 /\
  deadend_loop 2 live_sample = Diverge /\
  (fun r => match r with
            | Ok out => Some (map is_live out)
            | _ => None
            end) (deadend_loop 3 live_sample)
  = Some [true; false; false; true].
Proof. vm_compute. repeat split; reflexivity. Qed.

(** ** Minimization *)

Lemma size_add_seen (X : gset nat) (x : nat) : x ∈ X -> size (X ∪ {[x]}) = size X.
Proof.
  intros Hx. f_equal. apply leibniz_equiv. intros y.
  rewrite elem_of_union, elem_of_singleton.
  split; [intros [Hy | ->]; assumption | intros Hy; left; exact Hy].
Qed.

Lemma size_add_new (X : gset nat) (x : nat) : x ∉ X -> size (X ∪ {[x]}) = S (size X).
Proof.
  intros Hx. rewrite size_union.
  - rewrite size_singleton. lia.
  - intros y Hy Hy'. apply elem_of_singleton in Hy'. subst y. contradiction.
Qed.

Section Numbering.

Context {K : Type} `{Countable K}.

Variable cls : K -> nat.

Lemma numbered_empty : numbered cls [] ∅ 0 [].
Proof.
  constructor.
  - reflexivity.
  - intros a i Hi. discriminate.
  - intros c Hc. lia.
  - intros key i. rewrite lookup_empty. split; [discriminate |].
    intros (a & Ha & _). discriminate.
  - intros a b i j ka kb Ha. discriminate.
  - intros a i c Ha. discriminate.
  - lia.
  - intros _ a i Ha. discriminate.
  - change (cls <$> []) with (@nil nat). rewrite list_to_set_nil, size_empty. lia.
  - intros _ a b ka kb Ha. discriminate.
Qed.

Lemma numbered_seen (P : list K) (m : gmap K Z) (n : Z) (acc : list Z) (key : K) (i0 : Z) :
  numbered cls P m n acc ->
  m !! key = Some i0 ->
  numbered cls (P ++ [key]) m n (acc ++ [i0]).
Proof.
  intros Hn Hm.
  destruct (proj1 (nb_map _ _ _ _ _ Hn key i0) Hm) as (a0 & Hk0 & Hi0).
  pose proof (nb_length _ _ _ _ _ Hn) as Hlen.
  assert (Ha0 : (a0 < length P)%nat) by (apply lookup_lt_Some in Hk0; exact Hk0).
  assert (Hin : cls key ∈ (list_to_set (cls <$> P) : gset nat)).
  { apply elem_of_list_to_set, list_elem_of_fmap. exists key.
    split; [reflexivity |]. apply list_elem_of_lookup. exists a0. exact Hk0. }
  constructor.
  - rewrite !length_app. simpl. lia.
  - intros a i Ha. apply lookup_snoc_Some in Ha. destruct Ha as [[_ Ha] | [_ <-]].
    + eapply nb_range; eassumption.
    + eapply nb_range; eassumption.
  - intros c Hc. destruct (nb_onto _ _ _ _ _ Hn c Hc) as [a Ha].
    exists a. apply lookup_app_l_Some. exact Ha.
  - intros key' i. rewrite (nb_map _ _ _ _ _ Hn). split.
    + intros (a & Ha & Hi). exists a. split; apply lookup_app_l_Some; assumption.
    + intros (a & Ha & Hi).
      apply lookup_snoc_Some in Ha. apply lookup_snoc_Some in Hi.
      destruct Ha as [[La Ha] | [Ea <-]]; destruct Hi as [[Hlt Hi] | [Ei <-]]; try lia.
      * exists a. split; assumption.
      * exists a0. split; assumption.
  - intros a b i j ka kb Hi Hj Hka Hkb.
    apply lookup_snoc_Some in Hi, Hj, Hka, Hkb.
    destruct Hi as [[La Hi] | [Ea <-]]; destruct Hka as [[La' Hka] | [Ea' <-]]; try lia;
      destruct Hj as [[Lb Hj] | [Eb <-]]; destruct Hkb as [[Lb' Hkb] | [Eb' <-]]; try lia.
    + eapply nb_same; eassumption.
    + eapply (nb_same _ _ _ _ _ Hn a a0); eassumption.
    + eapply (nb_same _ _ _ _ _ Hn a0 b); eassumption.
    + split; reflexivity.
  - intros a i c Hi Hc. apply lookup_snoc_Some in Hi.
    destruct Hi as [[La Hi] | [Ea <-]].
    + destruct (nb_first _ _ _ _ _ Hn a i c Hi Hc) as (b & Hb & Hbc).
      exists b. split; [exact Hb | apply lookup_app_l_Some; exact Hbc].
    + destruct (nb_first _ _ _ _ _ Hn a0 i0 c Hi0 Hc) as (b & Hb & Hbc).
      exists b. split; [lia | apply lookup_app_l_Some; exact Hbc].
  - pose proof (nb_count _ _ _ _ _ Hn). rewrite length_app. simpl. lia.
  - pose proof (nb_count _ _ _ _ _ Hn). rewrite length_app. simpl. lia.
  - rewrite fmap_app, list_to_set_app_L.
    change (cls <$> [key]) with [cls key]. rewrite list_to_set_singleton_L.
    rewrite size_add_seen by exact Hin. eapply nb_coarse; eassumption.
  - rewrite fmap_app, list_to_set_app_L.
    change (cls <$> [key]) with [cls key]. rewrite list_to_set_singleton_L.
    rewrite size_add_seen by exact Hin. intros Hst a b ka kb Hka Hkb Hcl.
    apply lookup_snoc_Some in Hka, Hkb.
    destruct Hka as [[La Hka] | [Ea <-]]; destruct Hkb as [[Lb Hkb] | [Eb <-]].
    + eapply (nb_stable _ _ _ _ _ Hn Hst a b); eassumption.
    + eapply (nb_stable _ _ _ _ _ Hn Hst a a0); eassumption.
    + eapply (nb_stable _ _ _ _ _ Hn Hst a0 b); eassumption.
    + reflexivity.
Qed.

Lemma numbered_new (P : list K) (m : gmap K Z) (n : Z) (acc : list Z) (key : K) :
  numbered cls P m n acc ->
  m !! key = None ->
  numbered cls (P ++ [key]) (<[key := n]> m) (n + 1) (acc ++ [n]).
Proof.
  intros Hn Hm.
  pose proof (nb_length _ _ _ _ _ Hn) as Hlen.
  pose proof (nb_count _ _ _ _ _ Hn) as Hcount.
  pose proof (nb_coarse _ _ _ _ _ Hn) as Hcoarse.
  assert (Hfresh : forall a, P !! a <> Some key).
  { intros a Ha. destruct (lookup_lt_is_Some_2 acc a) as [i Hi].
    - rewrite Hlen. apply lookup_lt_Some in Ha. exact Ha.
    - assert (Hc : m !! key = Some i) by (apply (nb_map _ _ _ _ _ Hn); eauto).
      congruence. }
  assert (Hsize : (size (list_to_set (cls <$> P) ∪ {[cls key]} : gset nat)
                   <= S (size (list_to_set (cls <$> P) : gset nat)))%nat).
  { destruct (decide (cls key ∈ (list_to_set (cls <$> P) : gset nat))) as [Hin | Hout].
    - rewrite size_add_seen by exact Hin. lia.
    - rewrite size_add_new by exact Hout. lia. }
  constructor.
  - rewrite !length_app. simpl. lia.
  - intros a i Ha. apply lookup_snoc_Some in Ha. destruct Ha as [[_ Ha] | [_ <-]].
    + pose proof (nb_range _ _ _ _ _ Hn a i Ha). lia.
    + lia.
  - intros c Hc. destruct (decide (c = n)) as [-> | Hne].
    + exists (length acc). apply lookup_snoc_Some. right. split; reflexivity.
    + destruct (nb_onto _ _ _ _ _ Hn c ltac:(lia)) as [a Ha].
      exists a. apply lookup_app_l_Some. exact Ha.
  - intros key' i. destruct (decide (key = key')) as [<- | Hne].
    + rewrite lookup_insert_eq. split.
      * intros [= <-]. exists (length P).
        split; apply lookup_snoc_Some; right; split; congruence.
      * intros (a & Ha & Hi).
        apply lookup_snoc_Some in Ha. apply lookup_snoc_Some in Hi.
        destruct Ha as [[_ Ha] | [Ea _]]; [exfalso; eapply Hfresh; eassumption |].
        destruct Hi as [[Hlt _] | [_ <-]]; [lia | reflexivity].
    + rewrite lookup_insert_ne by exact Hne. rewrite (nb_map _ _ _ _ _ Hn). split.
      * intros (a & Ha & Hi). exists a. split; apply lookup_app_l_Some; assumption.
      * intros (a & Ha & Hi).
        apply lookup_snoc_Some in Ha. apply lookup_snoc_Some in Hi.
        destruct Ha as [[_ Ha] | [Ea E]]; [| congruence].
        destruct Hi as [[Hlt Hi] | [Ei _]]; [| apply lookup_lt_Some in Ha; lia].
        exists a. split; assumption.
  - intros a b i j ka kb Hi Hj Hka Hkb.
    apply lookup_snoc_Some in Hi, Hj, Hka, Hkb.
    destruct Hi as [[La Hi] | [Ea <-]]; destruct Hka as [[La' Hka] | [Ea' <-]]; try lia;
      destruct Hj as [[Lb Hj] | [Eb <-]]; destruct Hkb as [[Lb' Hkb] | [Eb' <-]]; try lia.
    + eapply nb_same; eassumption.
    + pose proof (nb_range _ _ _ _ _ Hn a i Hi). split; [lia |].
      intros ->. exfalso. eapply Hfresh; eassumption.
    + pose proof (nb_range _ _ _ _ _ Hn b j Hj). split; [lia |].
      intros <-. exfalso. eapply Hfresh; eassumption.
    + split; reflexivity.
  - intros a i c Hi Hc. apply lookup_snoc_Some in Hi.
    destruct Hi as [[La Hi] | [Ea <-]].
    + destruct (nb_first _ _ _ _ _ Hn a i c Hi Hc) as (b & Hb & Hbc).
      exists b. split; [exact Hb | apply lookup_app_l_Some; exact Hbc].
    + destruct (nb_onto _ _ _ _ _ Hn c Hc) as [b Hb].
      exists b. split; [apply lookup_lt_Some in Hb; lia | apply lookup_app_l_Some; exact Hb].
  - rewrite length_app. simpl. lia.
  - rewrite length_app. simpl. intros Hall a i Hi.
    apply lookup_snoc_Some in Hi. destruct Hi as [[La Hi] | [Ea <-]].
    + apply (nb_all _ _ _ _ _ Hn); [lia | exact Hi].
    + lia.
  - rewrite fmap_app, list_to_set_app_L.
    change (cls <$> [key]) with [cls key]. rewrite list_to_set_singleton_L.
    lia.
  - rewrite fmap_app, list_to_set_app_L.
    change (cls <$> [key]) with [cls key]. rewrite list_to_set_singleton_L.
    intros Hst.
    assert (Hout : cls key ∉ (list_to_set (cls <$> P) : gset nat)).
    { intros Hin. rewrite size_add_seen in Hst by exact Hin. lia. }
    rewrite size_add_new in Hst by exact Hout.
    assert (Hnot : forall a ka, P !! a = Some ka -> cls ka <> cls key).
    { intros a ka Hka E. apply Hout. apply elem_of_list_to_set, list_elem_of_fmap.
      exists ka. split; [symmetry; exact E |].
      apply list_elem_of_lookup. exists a. exact Hka. }
    intros a b ka kb Hka Hkb Hcl.
    apply lookup_snoc_Some in Hka, Hkb.
    destruct Hka as [[La Hka] | [Ea <-]]; destruct Hkb as [[Lb Hkb] | [Eb <-]].
    + eapply (nb_stable _ _ _ _ _ Hn); [lia | eassumption | eassumption | exact Hcl].
    + exfalso. eapply Hnot; eassumption.
    + exfalso. eapply Hnot; [eassumption | symmetry; exact Hcl].
    + reflexivity.
Qed.

Lemma number_keys_numbered :
  forall (keys P : list K) (m : gmap K Z) (n : Z) (acc : list Z),
    numbered cls P m n acc ->
    exists m', numbered cls (P ++ keys) m'
                 (number_keys keys m n acc).2 (number_keys keys m n acc).1.
Proof.
  induction keys as [|key keys IH]; intros P m n acc Hn.
  - exists m. rewrite app_nil_r. exact Hn.
  - cbn [number_keys]. unfold assign_id.
    replace (P ++ key :: keys) with ((P ++ [key]) ++ keys)
      by (rewrite <- app_assoc; reflexivity).
    destruct (m !! key) as [i0|] eqn:Hm.
    + apply IH. apply numbered_seen; assumption.
    + apply IH. apply numbered_new; assumption.
Qed.

End Numbering.

Lemma numbered_numbering {K : Type} `{Countable K} (cls : K -> nat)
    (P : list K) (m : gmap K Z) (k : Z) (ids : list Z) :
  numbered cls P m k ids -> numbering (length P) ids k.
Proof.
  intros Hn. constructor.
  - pose proof (nb_coarse _ _ _ _ _ Hn). lia.
  - eapply nb_length; eassumption.
  - eapply nb_range; eassumption.
  - eapply nb_onto; eassumption.
  - eapply nb_first; eassumption.
  - eapply nb_count; eassumption.
  - eapply nb_all; eassumption.
Qed.

Lemma refine_ids_number_keys (last : list Z) :
  forall (todo : list treestate) (id : Z) (m : gmap (list Z) Z) (n : Z) (acc : list Z),
    refine_ids last todo id m n acc = number_keys (state_hashes last todo id) m n acc.
Proof.
  induction todo as [|ts todo IH]; intros id m n acc; [reflexivity |].
  cbn [refine_ids state_hashes number_keys].
  destruct (assign_id (state_hash last id ts) m n) as [[m1 n1] i]. apply IH.
Qed.

Lemma state_hashes_lookup (last : list Z) :
  forall (todo : list treestate) (id : Z) (a : nat),
    state_hashes last todo id !! a
    = (fun ts => state_hash last (id + Z.of_nat a) ts) <$> todo !! a.
Proof.
  induction todo as [|ts todo IH]; intros id a; [reflexivity |].
  destruct a as [|a]; simpl.
  - rewrite Z.add_0_r. reflexivity.
  - rewrite IH. replace (id + Z.of_nat (S a)) with (id + 1 + Z.of_nat a) by lia.
    reflexivity.
Qed.

Lemma state_hashes_length (last : list Z) :
  forall (todo : list treestate) (id : Z),
    length (state_hashes last todo id) = length todo.
Proof.
  induction todo as [|ts todo IH]; intros id; [reflexivity |].
  simpl. rewrite IH. reflexivity.
Qed.

(** Renaming by one numbering decides renaming by another one that it
    refines on the children in question. *)
Lemma map_rename_transfer (f g : Z -> Z) :
  forall (l l' : list Z),
    map f l = map f l' ->
    (forall (e : nat) (r r' : Z),
       l !! e = Some r -> l' !! e = Some r' -> f r = f r' -> g r = g r') ->
    map g l = map g l'.
Proof.
  induction l as [|r l IH]; intros [|r' l'] Hmap Hpt; try discriminate; [reflexivity |].
  simpl in *. injection Hmap as Hr Hl. f_equal.
  - apply (Hpt O r r'); [reflexivity | reflexivity | exact Hr].
  - apply IH; [exact Hl |]. intros e x y Hx Hy. apply (Hpt (S e)); assumption.
Qed.

Lemma well_formed_child_range (tss : list treestate) :
  well_formed tss -> child_range tss.
Proof.
  intros Hwf a r Hr Hpos.
  destruct (decide (a < length tss)%nat) as [Ha | Ha].
  - destruct (Hwf a Ha) as [_ Hrules]. apply Hrules; assumption.
  - rewrite lookup_total_ge in Hr by lia. inversion Hr.
Qed.

Lemma numbering_vget (n : nat) (ids : list Z) (k : Z) (a : nat) :
  numbering n ids k -> (a < n)%nat ->
  ids !! a = Some (vget ids (Z.of_nat a)) /\ 0 <= vget ids (Z.of_nat a) < k.
Proof.
  intros Hn Ha. destruct (lookup_lt_is_Some_2 ids a) as [i Hi].
  - rewrite (ng_length _ _ _ Hn). exact Ha.
  - unfold vget. rewrite Nat2Z.id. rewrite (list_lookup_total_correct _ _ _ Hi).
    split; [exact Hi | eapply ng_range; eassumption].
Qed.

Lemma numbering_lookup_lt (n : nat) (ids : list Z) (k : Z) (a : nat) (i : Z) :
  numbering n ids k -> ids !! a = Some i -> (a < n)%nat.
Proof.
  intros Hn Hi. apply lookup_lt_Some in Hi. rewrite (ng_length _ _ _ Hn) in Hi. exact Hi.
Qed.

Section Round.

Variable tss : list treestate.
Hypothesis Hrange : child_range tss.

Variable f : list Z.
Variable kf : Z.
Hypothesis Hf : numbering (length tss) f kf.

Lemma hash_lookup (a : nat) :
  (a < length tss)%nat ->
  state_hashes f tss 0 !! a = Some (state_hash f (Z.of_nat a) (tss !!! a)).
Proof.
  intros Ha. rewrite state_hashes_lookup.
  rewrite (list_lookup_lookup_total_lt tss a Ha). reflexivity.
Qed.

Lemma hash_lookup_inv (a : nat) (h : list Z) :
  state_hashes f tss 0 !! a = Some h ->
  (a < length tss)%nat /\ h = state_hash f (Z.of_nat a) (tss !!! a).
Proof.
  intros Hh. assert (Ha : (a < length tss)%nat).
  { apply lookup_lt_Some in Hh. rewrite state_hashes_length in Hh. exact Hh. }
  split; [exact Ha |]. rewrite (hash_lookup a Ha) in Hh. congruence.
Qed.

Lemma hash_classes :
  (list_to_set (hash_class <$> state_hashes f tss 0) : gset nat)
  = set_seq 0 (Z.to_nat kf).
Proof.
  apply leibniz_equiv. intros x.
  rewrite elem_of_list_to_set, list_elem_of_fmap, elem_of_set_seq. split.
  - intros (h & -> & Hin). apply list_elem_of_lookup in Hin. destruct Hin as [a Ha].
    apply hash_lookup_inv in Ha. destruct Ha as [Ha ->].
    destruct (numbering_vget _ _ _ a Hf Ha) as [_ Hr].
    unfold hash_class, state_hash. simpl. lia.
  - intros [_ Hx].
    destruct (ng_onto _ _ _ Hf (Z.of_nat x)) as [a Ha]; [lia |].
    pose proof (numbering_lookup_lt _ _ _ _ _ Hf Ha) as Hlt.
    exists (state_hash f (Z.of_nat a) (tss !!! a)). split.
    + unfold hash_class, state_hash. simpl.
      destruct (numbering_vget _ _ _ a Hf Hlt) as [Hv _].
      rewrite Hv in Ha. injection Ha as ->. lia.
    + apply list_elem_of_lookup. exists a. apply hash_lookup. exact Hlt.
Qed.

Lemma refine_round :
  numbering (length tss) (refine_ids f tss 0 ∅ 0 []).1 (refine_ids f tss 0 ∅ 0 []).2 /\
  kf <= (refine_ids f tss 0 ∅ 0 []).2 /\
  (forall a b i,
     (refine_ids f tss 0 ∅ 0 []).1 !! a = Some i ->
     (refine_ids f tss 0 ∅ 0 []).1 !! b = Some i -> f !! a = f !! b) /\
  ((refine_ids f tss 0 ∅ 0 []).2 = kf \/
   (refine_ids f tss 0 ∅ 0 []).2 = Z.of_nat (length tss) ->
   congruent tss (refine_ids f tss 0 ∅ 0 []).1).
Proof.
  rewrite refine_ids_number_keys.
  destruct (number_keys_numbered hash_class (state_hashes f tss 0) [] ∅ 0 []
              (numbered_empty hash_class)) as [m' Hnb].
  rewrite app_nil_l in Hnb.
  set (g := (number_keys (state_hashes f tss 0) ∅ 0 []).1) in *.
  set (k := (number_keys (state_hashes f tss 0) ∅ 0 []).2) in *.
  pose proof (numbered_numbering _ _ _ _ _ Hnb) as Hg.
  rewrite state_hashes_length in Hg.
  pose proof (nb_coarse _ _ _ _ _ Hnb) as Hcoarse.
  rewrite hash_classes, size_set_seq in Hcoarse.
  pose proof (ng_nonneg _ _ _ Hf) as Hkf.
  assert (Hsame : forall a b i j,
            g !! a = Some i -> g !! b = Some j ->
            (i = j <-> state_hash f (Z.of_nat a) (tss !!! a)
                       = state_hash f (Z.of_nat b) (tss !!! b))).
  { intros a b i j Ha Hb.
    pose proof (numbering_lookup_lt _ _ _ _ _ Hg Ha) as La.
    pose proof (numbering_lookup_lt _ _ _ _ _ Hg Hb) as Lb.
    apply (nb_same _ _ _ _ _ Hnb a b); try assumption; apply hash_lookup; assumption. }
  split; [exact Hg |]. split; [lia |]. split.
  - intros a b i Ha Hb.
    pose proof (numbering_lookup_lt _ _ _ _ _ Hg Ha) as La.
    pose proof (numbering_lookup_lt _ _ _ _ _ Hg Hb) as Lb.
    pose proof (proj1 (Hsame a b i i Ha Hb) eq_refl) as Hh.
    unfold state_hash in Hh. injection Hh as Hhead _.
    destruct (numbering_vget _ _ _ a Hf La) as [-> _].
    destruct (numbering_vget _ _ _ b Hf Lb) as [-> _].
    rewrite Hhead. reflexivity.
  - intros [Hst | Hall].
    + (* no class was split *)
      assert (Hcl : forall r r' : nat,
                (r < length tss)%nat -> (r' < length tss)%nat ->
                vget f (Z.of_nat r) = vget f (Z.of_nat r') ->
                vget g (Z.of_nat r) = vget g (Z.of_nat r')).
      { intros r r' Lr Lr' Hv.
        destruct (numbering_vget _ _ _ r Hg Lr) as [Hgr _].
        destruct (numbering_vget _ _ _ r' Hg Lr') as [Hgr' _].
        apply (Hsame r r' _ _ Hgr Hgr').
        apply (nb_stable _ _ _ _ _ Hnb) with (a := r) (b := r').
        - rewrite hash_classes, size_set_seq. lia.
        - apply hash_lookup. exact Lr.
        - apply hash_lookup. exact Lr'.
        - unfold hash_class, state_hash. simpl. rewrite Hv. reflexivity. }
      intros a b i Ha Hb.
      pose proof (proj1 (Hsame a b i i Ha Hb) eq_refl) as Hh.
      unfold state_hash in Hh. injection Hh as _ Htail.
      apply (map_rename_transfer (rename f) (rename g)); [exact Htail |].
      intros e r r' Hr Hr' Hren. unfold rename in *.
      assert (Rr : 0 <= r -> r < Z.of_nat (length tss)).
      { intros Hp. apply (Hrange a); [| exact Hp].
        apply list_elem_of_lookup. exists e. exact Hr. }
      assert (Rr' : 0 <= r' -> r' < Z.of_nat (length tss)).
      { intros Hp. apply (Hrange b); [| exact Hp].
        apply list_elem_of_lookup. exists e. exact Hr'. }
      destruct (r >=? 0) eqn:Er; destruct (r' >=? 0) eqn:Er';
        rewrite Z.geb_leb in Er, Er';
        try apply Z.leb_le in Er; try apply Z.leb_le in Er';
        try apply Z.leb_gt in Er; try apply Z.leb_gt in Er'.
      * specialize (Rr Er). specialize (Rr' Er').
        rewrite <- (Z2Nat.id r) by exact Er. rewrite <- (Z2Nat.id r') by exact Er'.
        apply Hcl; [lia | lia |]. rewrite !Z2Nat.id by assumption. exact Hren.
      * specialize (Rr Er).
        destruct (numbering_vget _ _ _ (Z.to_nat r) Hf ltac:(lia)) as [_ Hv].
        rewrite Z2Nat.id in Hv by exact Er. lia.
      * specialize (Rr' Er').
        destruct (numbering_vget _ _ _ (Z.to_nat r') Hf ltac:(lia)) as [_ Hv].
        rewrite Z2Nat.id in Hv by exact Er'. lia.
      * exact Hren.
    + (* every state is a class of its own *)
      intros a b i Ha Hb.
      pose proof (ng_all _ _ _ Hg Hall a i Ha) as Ea.
      pose proof (ng_all _ _ _ Hg Hall b i Hb) as Eb.
      assert (a = b) by lia. subst b. reflexivity.
Qed.

End Round.

Lemma numbering_all_congruent (tss : list treestate) (ids : list Z) :
  numbering (length tss) ids (Z.of_nat (length tss)) -> congruent tss ids.
Proof.
  intros Hn a b i Ha Hb.
  pose proof (ng_all _ _ _ Hn eq_refl a i Ha) as Ea.
  pose proof (ng_all _ _ _ Hn eq_refl b i Hb) as Eb.
  assert (a = b) by lia. subst b. reflexivity.
Qed.

Lemma refine_loop_spec (tss : list treestate) :
  child_range tss ->
  forall (fuel : nat) (f : list Z) (kf last : Z),
    numbering (length tss) f kf ->
    (kf <= last -> congruent tss f) ->
    0 <= last ->
    (length tss - Z.to_nat last < fuel)%nat ->
    exists ids k,
      refine_loop fuel tss (Z.of_nat (length tss)) f kf last = Ok (ids, k) /\
      numbering (length tss) ids k /\
      congruent tss ids /\
      (forall a b i, ids !! a = Some i -> ids !! b = Some i -> f !! a = f !! b).
Proof.
  intros Hrange. induction fuel as [|fuel IH]; intros f kf last Hf Hpre Hlast Hfuel; [lia |].
  cbn [refine_loop].
  destruct ((kf >? last) && (kf <? Z.of_nat (length tss))) eqn:Hc.
  - apply andb_true_iff in Hc. destruct Hc as [Hgt Hlt].
    rewrite Z.gtb_ltb in Hgt. apply Z.ltb_lt in Hgt. apply Z.ltb_lt in Hlt.
    destruct (refine_round tss Hrange f kf Hf) as (Hg & Hle & Href & Hcong).
    destruct (refine_ids f tss 0 ∅ 0 []) as [g k]. cbn [fst snd] in *.
    destruct (IH g k kf Hg) as (ids & k' & Hrun & Hids & Hc' & Href');
      [intros Hk; apply Hcong; left; lia | lia | lia |].
    exists ids, k'. split; [exact Hrun |]. split; [exact Hids |]. split; [exact Hc' |].
    intros a b i Ha Hb.
    pose proof (Href' a b i Ha Hb) as Hgab.
    pose proof (numbering_lookup_lt _ _ _ _ _ Hids Ha) as La.
    destruct (numbering_vget _ _ _ a Hg La) as [Hga _].
    apply (Href a b (vget g (Z.of_nat a))); [exact Hga |].
    rewrite <- Hgab. exact Hga.
  - exists f, kf. split; [reflexivity |]. split; [exact Hf |]. split.
    + apply andb_false_iff in Hc. destruct Hc as [Hc | Hc].
      * rewrite Z.gtb_ltb in Hc. apply Z.ltb_ge in Hc. apply Hpre. exact Hc.
      * apply Z.ltb_ge in Hc. pose proof (ng_count _ _ _ Hf) as Hcount.
        assert (kf = Z.of_nat (length tss)) by lia. subst kf.
        apply numbering_all_congruent. exact Hf.
    + intros a b i Ha Hb. congruence.
Qed.

(** *** The representatives: [old_id] *)

Lemma first_occ_spec (ids : list Z) (c : Z) :
  forall p : nat,
    (first_occ ids c p = -1 /\ forall b : nat, (b < p)%nat -> vget ids (Z.of_nat b) <> c) \/
    (exists a : nat, (a < p)%nat /\ first_occ ids c p = Z.of_nat a /\
                     vget ids (Z.of_nat a) = c /\
                     forall b : nat, (b < a)%nat -> vget ids (Z.of_nat b) <> c).
Proof.
  induction p as [|p IH]; [left; split; [reflexivity | intros b Hb; lia] |].
  cbn [first_occ]. destruct IH as [[E Hno] | (a & Ha & E & Hc & Hmin)].
  - rewrite E. change (-1 =? -1) with true. cbv iota.
    destruct (vget ids (Z.of_nat p) =? c) eqn:Ep.
    + apply Z.eqb_eq in Ep. right. exists p.
      split; [lia |]. split; [reflexivity |]. split; [exact Ep | exact Hno].
    + apply Z.eqb_neq in Ep. left. split; [reflexivity |].
      intros b Hb. destruct (decide (b = p)) as [-> | Hne]; [exact Ep | apply Hno; lia].
  - rewrite E. destruct (Z.of_nat a =? -1) eqn:Ea; [apply Z.eqb_eq in Ea; lia |].
    right. exists a. split; [lia |]. split; [reflexivity |]. split; assumption.
Qed.

Lemma first_of_class_prefix (ids : list Z) (k : Z) :
  (forall a i, ids !! a = Some i -> 0 <= i < k) ->
  forall p : nat,
    (p <= length ids)%nat ->
    length (fold_left
              (fun old_id i =>
                 let c := vget ids (Z.of_nat i) in
                 if vget old_id c =? -1 then <[Z.to_nat c := Z.of_nat i]> old_id else old_id)
              (seq 0 p) (replicate (Z.to_nat k) (-1))) = Z.to_nat k /\
    forall c : nat, (c < Z.to_nat k)%nat ->
      fold_left
        (fun old_id i =>
           let c := vget ids (Z.of_nat i) in
           if vget old_id c =? -1 then <[Z.to_nat c := Z.of_nat i]> old_id else old_id)
        (seq 0 p) (replicate (Z.to_nat k) (-1)) !! c
      = Some (first_occ ids (Z.of_nat c) p).
Proof.
  intros Hr. induction p as [|p IH]; intros Hp.
  - simpl. split; [apply length_replicate |].
    intros c Hc. apply lookup_replicate. split; [reflexivity | exact Hc].
  - rewrite seq_S, fold_left_app. cbn [fold_left]. rewrite Nat.add_0_l. cbv zeta.
    destruct IH as [Hlen Hlook]; [lia |].
    set (old := fold_left _ (seq 0 p) _) in *.
    destruct (lookup_lt_is_Some_2 ids p) as [c0 Hc0]; [lia |].
    pose proof (Hr p c0 Hc0) as Hrange.
    assert (Hv : vget ids (Z.of_nat p) = c0).
    { unfold vget. rewrite Nat2Z.id. apply list_lookup_total_correct. exact Hc0. }
    rewrite Hv.
    assert (Ho : vget old c0 = first_occ ids c0 p).
    { unfold vget. erewrite list_lookup_total_correct; [| apply Hlook; lia].
      rewrite Z2Nat.id by lia. reflexivity. }
    rewrite Ho.
    assert (Hother : forall c : nat, Z.of_nat c <> c0 ->
              first_occ ids (Z.of_nat c) (S p) = first_occ ids (Z.of_nat c) p).
    { intros c Hne. cbn [first_occ]. rewrite Hv.
      destruct (first_occ ids (Z.of_nat c) p =? -1) eqn:E; [| reflexivity].
      apply Z.eqb_eq in E. rewrite E.
      destruct (c0 =? Z.of_nat c) eqn:E'; [apply Z.eqb_eq in E'; lia | reflexivity]. }
    destruct (first_occ ids c0 p =? -1) eqn:E.
    + split; [rewrite length_insert; exact Hlen |].
      intros c Hc. destruct (decide (Z.to_nat c0 = c)) as [<- | Hne].
      * rewrite list_lookup_insert_eq by lia.
        cbn [first_occ]. rewrite Z2Nat.id by lia. rewrite E, Hv, Z.eqb_refl. reflexivity.
      * rewrite list_lookup_insert_ne by exact Hne.
        rewrite Hother by lia. apply Hlook. exact Hc.
    + split; [exact Hlen |].
      intros c Hc. destruct (decide (Z.of_nat c = c0)) as [<- | Hne].
      * cbn [first_occ]. rewrite E. apply Hlook. exact Hc.
      * rewrite Hother by exact Hne. apply Hlook. exact Hc.
Qed.

Lemma first_of_class_spec (n : nat) (ids : list Z) (k : Z) :
  numbering n ids k ->
  length (first_of_class k ids) = Z.to_nat k /\
  forall c : nat, (c < Z.to_nat k)%nat ->
    exists a : nat,
      first_of_class k ids !! c = Some (Z.of_nat a) /\
      ids !! a = Some (Z.of_nat c) /\
      (forall b : nat, (b < a)%nat -> ids !! b <> Some (Z.of_nat c)) /\
      (c <= a)%nat.
Proof.
  intros Hn.
  destruct (first_of_class_prefix ids k (ng_range _ _ _ Hn) (length ids) (le_n _))
    as [Hlen Hlook].
  unfold first_of_class. split; [exact Hlen |].
  assert (Hfirst : forall c : nat, (c < Z.to_nat k)%nat ->
            exists a : nat,
              first_occ ids (Z.of_nat c) (length ids) = Z.of_nat a /\
              ids !! a = Some (Z.of_nat c) /\
              (forall b : nat, (b < a)%nat -> ids !! b <> Some (Z.of_nat c))).
  { intros c Hc.
    destruct (ng_onto _ _ _ Hn (Z.of_nat c)) as [a0 Ha0]; [lia |].
    pose proof (lookup_lt_Some _ _ _ Ha0) as La0.
    destruct (first_occ_spec ids (Z.of_nat c) (length ids))
      as [[_ Hno] | (a & La & E & Hc' & Hmin)].
    - exfalso. apply (Hno a0 La0). unfold vget. rewrite Nat2Z.id.
      apply list_lookup_total_correct. exact Ha0.
    - exists a. split; [exact E |]. split.
      + rewrite <- Hc'. unfold vget. rewrite Nat2Z.id.
        apply list_lookup_lookup_total_lt. exact La.
      + intros b Hb Hbc. apply (Hmin b Hb). unfold vget. rewrite Nat2Z.id.
        apply list_lookup_total_correct. exact Hbc. }
  assert (Hge : forall c : nat, (c < Z.to_nat k)%nat ->
            forall a : nat, ids !! a = Some (Z.of_nat c) -> (c <= a)%nat).
  { intros c0. induction c0 as [|c0 IHc]; intros Hc a Ha; [lia |].
    destruct (ng_first _ _ _ Hn a (Z.of_nat (S c0)) (Z.of_nat c0) Ha) as (b & Hb & Hbc); [lia |].
    pose proof (IHc ltac:(lia) b Hbc). lia. }
  intros c Hc. destruct (Hfirst c Hc) as (a & E & Ha & Hmin).
  exists a. split; [rewrite Hlook by exact Hc; rewrite E; reflexivity |].
  split; [exact Ha |]. split; [exact Hmin |]. apply (Hge c Hc a Ha).
Qed.

(** *** Moving the representatives in place *)

Lemma move_states_prefix (old : list Z) (tss : list treestate) (k : nat) :
  (forall c0 : nat, (c0 < k)%nat -> (c0 <= Z.to_nat (vget old (Z.of_nat c0)))%nat) ->
  forall p : nat,
    (p <= k)%nat -> (p <= length tss)%nat ->
    length (fold_left (fun tss i => <[i := vget tss (vget old (Z.of_nat i))]> tss)
              (seq 0 p) tss) = length tss /\
    (forall c0 : nat, (c0 < p)%nat ->
       fold_left (fun tss i => <[i := vget tss (vget old (Z.of_nat i))]> tss)
         (seq 0 p) tss !!! c0 = vget tss (vget old (Z.of_nat c0))) /\
    (forall c0 : nat, (p <= c0)%nat ->
       fold_left (fun tss i => <[i := vget tss (vget old (Z.of_nat i))]> tss)
         (seq 0 p) tss !!! c0 = tss !!! c0).
Proof.
  intros Hge. induction p as [|p IH]; intros Hpk Hpl.
  - simpl. split; [reflexivity |]. split; [intros c0 Hc; lia | reflexivity].
  - rewrite seq_S, fold_left_app. cbn [fold_left]. rewrite Nat.add_0_l.
    destruct IH as (Hlen & Hlow & Hhigh); [lia | lia |].
    set (cur := fold_left _ (seq 0 p) tss) in *.
    assert (Hread : vget cur (vget old (Z.of_nat p)) = vget tss (vget old (Z.of_nat p))).
    { unfold vget at 1 3. apply Hhigh. apply Hge. lia. }
    split; [rewrite length_insert; exact Hlen |]. split.
    + intros c0 Hc. destruct (decide (c0 = p)) as [-> | Hne].
      * rewrite list_lookup_total_insert_eq by lia. exact Hread.
      * rewrite list_lookup_total_insert_ne by lia. apply Hlow. lia.
    + intros c0 Hc. rewrite list_lookup_total_insert_ne by lia. apply Hhigh. lia.
Qed.

Lemma renumber_states_prefix (tss : list treestate) :
  forall p : nat,
    (p <= length tss)%nat ->
    length (fold_left (fun tss i => <[i := set_ts_id (tss !!! i) (Z.of_nat i)]> tss)
              (seq 0 p) tss) = length tss /\
    (forall c0 : nat, (c0 < p)%nat ->
       fold_left (fun tss i => <[i := set_ts_id (tss !!! i) (Z.of_nat i)]> tss)
         (seq 0 p) tss !!! c0 = set_ts_id (tss !!! c0) (Z.of_nat c0)) /\
    (forall c0 : nat, (p <= c0)%nat ->
       fold_left (fun tss i => <[i := set_ts_id (tss !!! i) (Z.of_nat i)]> tss)
         (seq 0 p) tss !!! c0 = tss !!! c0).
Proof.
  induction p as [|p IH]; intros Hpl.
  - simpl. split; [reflexivity |]. split; [intros c0 Hc; lia | reflexivity].
  - rewrite seq_S, fold_left_app. cbn [fold_left]. rewrite Nat.add_0_l.
    destruct IH as (Hlen & Hlow & Hhigh); [lia |].
    set (cur := fold_left _ (seq 0 p) tss) in *.
    split; [rewrite length_insert; exact Hlen |]. split.
    + intros c0 Hc. destruct (decide (c0 = p)) as [-> | Hne].
      * rewrite list_lookup_total_insert_eq by lia. rewrite Hhigh by lia. reflexivity.
      * rewrite list_lookup_total_insert_ne by lia. apply Hlow. lia.
    + intros c0 Hc. rewrite list_lookup_total_insert_ne by lia. apply Hhigh. lia.
Qed.

(** The table left by the last block of [minimize_rules]: one state per
    class, the copy of the first state of the class, with the class as its
    id and its rules renamed. *)
Lemma quotient_table (tss : list treestate) (ids : list Z) (k : Z) :
  numbering (length tss) ids k ->
  length (map (rename_rules ids)
            (take (Z.to_nat k)
               (renumber_states k (move_states k (first_of_class k ids) tss))))
  = Z.to_nat k /\
  forall c0 : nat, (c0 < Z.to_nat k)%nat ->
    exists a : nat,
      ids !! a = Some (Z.of_nat c0) /\
      (forall b : nat, (b < a)%nat -> ids !! b <> Some (Z.of_nat c0)) /\
      map (rename_rules ids)
        (take (Z.to_nat k)
           (renumber_states k (move_states k (first_of_class k ids) tss))) !!! c0
      = rename_rules ids (set_ts_id (tss !!! a) (Z.of_nat c0)).
Proof.
  intros Hn.
  destruct (first_of_class_spec _ _ _ Hn) as [Holen Hold].
  pose proof (ng_count _ _ _ Hn) as Hcount. pose proof (ng_nonneg _ _ _ Hn) as Hk.
  assert (Hge : forall c0 : nat, (c0 < Z.to_nat k)%nat ->
            (c0 <= Z.to_nat (vget (first_of_class k ids) (Z.of_nat c0)))%nat).
  { intros c0 Hc. destruct (Hold c0 Hc) as (a & Ha & _ & _ & Hle).
    unfold vget. rewrite Nat2Z.id, (list_lookup_total_correct _ _ _ Ha). lia. }
  destruct (move_states_prefix (first_of_class k ids) tss (Z.to_nat k) Hge
              (Z.to_nat k) (le_n _) ltac:(lia)) as (Hmlen & Hmlow & _).
  fold (move_states k (first_of_class k ids) tss) in Hmlen, Hmlow.
  destruct (renumber_states_prefix (move_states k (first_of_class k ids) tss)
              (Z.to_nat k) ltac:(lia)) as (Hrlen & Hrlow & _).
  fold (renumber_states k (move_states k (first_of_class k ids) tss)) in Hrlen, Hrlow.
  split; [rewrite length_map, length_take; lia |].
  intros c0 Hc. destruct (Hold c0 Hc) as (a & Ha & Hida & Hmin & _).
  exists a. split; [exact Hida |]. split; [exact Hmin |].
  apply list_lookup_total_correct.
  rewrite list_lookup_fmap, lookup_take_lt by exact Hc.
  rewrite (list_lookup_lookup_total_lt
             (renumber_states k (move_states k (first_of_class k ids) tss)) c0)
    by lia.
  simpl. rewrite Hrlow by exact Hc. rewrite Hmlow by exact Hc.
  unfold vget. rewrite Nat2Z.id, (list_lookup_total_correct _ _ _ Ha), Nat2Z.id.
  reflexivity.
Qed.

(** *** [minimize_rules] *)

Section MinimizeRules.

Context {su : Setup}.

Lemma get_aid_frame (fuel : nat) (g : gstate) (w : walker) (g' : gstate) (aid : aid_t) :
  get_aid fuel g w = Ok (g', aid) -> g' = with_tiles g (tiles g').
Proof.
  unfold get_aid, ufind_s. intros Hg.
  apply bind_Ok_inv in Hg. destruct Hg as ([g0 cw] & Hu & Hres).
  apply bind_Ok_inv in Hu. destruct Hu as ([h r] & _ & Hu).
  injection Hu as <- <-. injection Hres as <- _. reflexivity.
Qed.

Lemma aids_of_frame (fuel : nat) :
  forall (todo : list treestate) (g g1 : gstate) (aids : list aid_t),
    aids_of fuel todo g = Ok (g1, aids) ->
    g1 = with_tiles g (tiles g1) /\ length aids = length todo.
Proof.
  induction todo as [|ts todo IH]; intros g g1 aids Ha.
  - injection Ha as <- <-. split; [destruct g; reflexivity | reflexivity].
  - cbn [aids_of] in Ha. destruct (giver ts) as [w|]; [| discriminate].
    apply bind_Ok_inv in Ha. destruct Ha as ([g0 aid] & Hg & Ha).
    apply bind_Ok_inv in Ha. destruct Ha as ([g2 rest] & Hrest & Ha).
    injection Ha as <- <-.
    apply get_aid_frame in Hg. destruct (IH _ _ _ Hrest) as [Hf Hl].
    split; [| simpl; rewrite Hl; reflexivity].
    rewrite Hf, Hg. reflexivity.
Qed.

Lemma initial_ids_aids (fuel : nat) :
  forall (todo : list treestate) (g g1 : gstate) (aids : list aid_t)
         (m : gmap aid_t Z) (n : Z) (acc : list Z),
    aids_of fuel todo g = Ok (g1, aids) ->
    initial_ids fuel todo g m n acc
    = Ok (g1, (number_keys aids m n acc).1, (number_keys aids m n acc).2).
Proof.
  induction todo as [|ts todo IH]; intros g g1 aids m n acc Ha.
  - injection Ha as <- <-. reflexivity.
  - cbn [aids_of] in Ha. cbn [initial_ids].
    destruct (giver ts) as [w|]; [| discriminate].
    apply bind_Ok_inv in Ha. destruct Ha as ([g0 aid] & Hg & Ha).
    apply bind_Ok_inv in Ha. destruct Ha as ([g2 rest] & Hrest & Ha).
    injection Ha as <- <-.
    rewrite Hg. simpl. cbn [number_keys].
    destruct (assign_id aid m n) as [[m1 n1] i].
    apply IH. exact Hrest.
Qed.

(** X2.  [minimize_rules] on a table whose ids are the indices and whose
    child rules point into the table, when the analyzer ids [aids] of the
    givers can be computed: it returns (the refinement loop ends within as
    many rounds as there are states) and leaves the number of states it
    found in [states_premini].  There is a numbering [new_id] of the old
    states by the new ones, onto, a new state first used only after all
    smaller ones, such that
    - states with the same new id have givers with the same analyzer id;
    - the new state of an old state [a] has its id as [id] and the rules of
      [a] with every child replaced by its new id: the new table is a
      quotient of the old one;
    - every new state is the copy of the first old state numbered by it,
      but for [id] and the renamed rules;
    - the new table has its ids as indices and child rules within the table;
    - [code_to_id] is renamed by [new_id]; the tiles are those left by the
      path compression of [get_aid]. *)
Theorem minimize_rules_quotient :
  forall (fuel : nat) (g g1 : gstate) (aids : list aid_t),
    well_formed (treestates g) ->
    aids_of fuel (treestates g) g = Ok (g1, aids) ->
    (length (treestates g) < fuel)%nat ->
    exists (g' : gstate) (new_id : list Z),
      minimize_rules fuel g = Ok (g', Z.of_nat (length (treestates g))) /\
      numbering (length (treestates g)) new_id (Z.of_nat (length (treestates g'))) /\
      (forall a b i, new_id !! a = Some i -> new_id !! b = Some i ->
                     aids !! a = aids !! b) /\
      (forall a i, new_id !! a = Some i ->
         ts_id (treestates g' !!! Z.to_nat i) = i /\
         rules (treestates g' !!! Z.to_nat i)
         = map (rename new_id) (rules (treestates g !!! a))) /\
      (forall c0 : nat, (c0 < length (treestates g'))%nat ->
         exists a : nat,
           new_id !! a = Some (Z.of_nat c0) /\
           (forall b : nat, (b < a)%nat -> new_id !! b <> Some (Z.of_nat c0)) /\
           treestates g' !!! c0
           = rename_rules new_id (set_ts_id (treestates g !!! a) (Z.of_nat c0))) /\
      well_formed (treestates g') /\
      code_to_id g' = (fun v => vget new_id v) <$> code_to_id g /\
      tiles g' = tiles g1.
Proof.
  intros fuel g g1 aids Hwf Haids Hfuel.
  pose proof (well_formed_child_range _ Hwf) as Hrange.
  destruct (aids_of_frame _ _ _ _ _ Haids) as [Hg1 Hlen].
  assert (Htss : treestates g1 = treestates g) by (rewrite Hg1; reflexivity).
  assert (Hcode : code_to_id g1 = code_to_id g) by (rewrite Hg1; reflexivity).
  destruct (number_keys_numbered (fun _ : aid_t => O) aids [] ∅ 0 []
              (numbered_empty _)) as [m0 Hnb0].
  rewrite app_nil_l in Hnb0.
  pose proof (numbered_numbering _ _ _ _ _ Hnb0) as Hn0. rewrite Hlen in Hn0.
  destruct (refine_loop_spec (treestates g) Hrange fuel
              (number_keys aids ∅ 0 []).1 (number_keys aids ∅ 0 []).2 0 Hn0)
    as (ids & k & Hloop & Hids & Hcong & Href); [| lia | lia |].
  { intros Hk a b i Ha. pose proof (ng_range _ _ _ Hn0 a i Ha). lia. }
  destruct (quotient_table (treestates g) ids k Hids) as [Hqlen Hq].
  pose proof (ng_nonneg _ _ _ Hids) as Hk.
  unfold minimize_rules. rewrite (initial_ids_aids _ _ _ _ _ _ _ _ Haids). simpl.
  eexists _, ids. split; [rewrite Htss, Hloop; simpl; reflexivity |].
  simpl. rewrite Hqlen, Z2Nat.id by exact Hk.
  split; [exact Hids |]. split.
  { intros a b i Ha Hb.
    pose proof (numbering_lookup_lt _ _ _ _ _ Hids Ha) as La.
    pose proof (numbering_lookup_lt _ _ _ _ _ Hids Hb) as Lb.
    destruct (numbering_vget _ _ _ a Hn0 La) as [Ha0 _].
    destruct (numbering_vget _ _ _ b Hn0 Lb) as [Hb0 _].
    destruct (lookup_lt_is_Some_2 aids a ltac:(lia)) as [ka Hka].
    destruct (lookup_lt_is_Some_2 aids b ltac:(lia)) as [kb Hkb].
    rewrite Hka, Hkb. f_equal.
    apply (nb_same _ _ _ _ _ Hnb0 a b _ _ ka kb Ha0 Hb0 Hka Hkb).
    pose proof (Href a b i Ha Hb) as E. rewrite Ha0, Hb0 in E. congruence. }
  assert (Hstate : forall a i, ids !! a = Some i ->
            ts_id (map (rename_rules ids)
                     (take (Z.to_nat k)
                        (renumber_states k
                           (move_states k (first_of_class k ids) (treestates g))))
                   !!! Z.to_nat i) = i /\
            rules (map (rename_rules ids)
                     (take (Z.to_nat k)
                        (renumber_states k
                           (move_states k (first_of_class k ids) (treestates g))))
                   !!! Z.to_nat i)
            = map (rename ids) (rules (treestates g !!! a))).
  { intros a i Ha. pose proof (ng_range _ _ _ Hids a i Ha) as Hi.
    destruct (Hq (Z.to_nat i) ltac:(lia)) as (a' & Ha' & _ & ->).
    rewrite Z2Nat.id in * by lia.
    split; [reflexivity |]. simpl. apply (Hcong a' a i); assumption. }
  split; [exact Hstate |]. split.
  { intros c0 Hc. apply Hq. lia. }
  split; [| split; [rewrite Hcode; reflexivity | reflexivity]].
  intros c0 Hc. rewrite Hqlen in Hc.
  destruct (Hq c0 Hc) as (a & Ha & _ & ->).
  split; [reflexivity |]. simpl. intros r Hr Hpos. rewrite Hqlen.
  apply list_elem_of_fmap in Hr. destruct Hr as (r0 & -> & Hr0).
  destruct (r0 >=? 0) eqn:E.
  - rewrite Z.geb_leb in E. apply Z.leb_le in E.
    pose proof (Hrange a r0 Hr0 E) as Hlt.
    destruct (numbering_vget _ _ _ (Z.to_nat r0) Hids ltac:(lia)) as [_ Hv].
    rewrite Z2Nat.id in Hv by exact E. lia.
  - rewrite Z.geb_leb in E. apply Z.leb_gt in E. lia.
Qed.

End MinimizeRules.

Lemma mini_sample_well_formed : well_formed (treestates mini_sample).
Proof.
  intros i Hi. simpl in Hi.
  destruct i as [|[|[|[|i]]]]; [| | | | lia];
    (split; [reflexivity |]);
    intros r Hr Hpos;
    repeat (apply elem_of_cons in Hr;
            destruct Hr as [-> | Hr];
            [unfold DIR_PARENT, DIR_LEFT, DIR_RIGHT in *; simpl length; lia |]);
    inversion Hr.
Defined.

Lemma minimize_rules_quotient_witness :
  exists (g' : gstate) (new_id : list Z),
    minimize_rules (su := sample_setup) 5 mini_sample = Ok (g', 4) /\
    numbering 4 new_id (Z.of_nat (length (treestates g'))) /\
    well_formed (treestates g').
Proof.
  destruct (minimize_rules_quotient (su := sample_setup) 5 mini_sample mini_sample
              [(0, 1); (0, 0); (0, 0); (0, 0)]
              mini_sample_well_formed ltac:(vm_compute; reflexivity)
              ltac:(simpl; lia))
    as (g' & ids & Hrun & Hnum & _ & _ & _ & Hwf & _).
  exists g', ids. split; [exact Hrun |]. split; [exact Hnum | exact Hwf].
Defined.

(** On [mini_sample]: the givers' analyzer ids give the classes
    [0; 1; 1; 1]; the first round splits off state 3, the second round
    changes nothing; states 1 and 2 become one state. *)
Example minimize_rules_sample :
  (fun r => match r with
            | Ok (g', premini) =>
                Some (map (fun ts => (ts_id ts, rules ts)) (treestates g'), premini,
                      map_to_list (code_to_id g'))
            | _ => None
            end) (minimize_rules (su := sample_setup) 5 mini_sample)
  = Some ([ (0, [1; 1; 1; 1]);
            (1, [DIR_PARENT; 1; 1; DIR_LEFT]);
            (2, [DIR_PARENT; 2; 2; DIR_RIGHT]) ], 4,
          map_to_list
            (<[((0, 0), [C_CHILD; C_EQUAL]) := 2]> (<[((0, 0), [C_CHILD]) := 1]> ∅)
               : gmap code_t Z)).
Proof. vm_compute. reflexivity. Qed.

(** ** Forgetting parent directions *)

Lemma same_but_parent_forget (t : tcell) : same_but_parent t (forget_parent t).
Proof.
  unfold forget_parent. destruct (negb (parent_dir t =? 0));
    repeat split; reflexivity.
Qed.

Lemma same_but_parent_iter (k : nat) (t : tcell) :
  same_but_parent t (Nat.iter k forget_parent t).
Proof.
  induction k as [|k IH]; [repeat split; reflexivity |].
  rewrite Nat.iter_succ. destruct IH as (H1 & H2 & H3 & H4 & H5 & H6 & H7 & H8 & H9).
  destruct (same_but_parent_forget (Nat.iter k forget_parent t))
    as (G1 & G2 & G3 & G4 & G5 & G6 & G7 & G8 & G9).
  repeat split; congruence.
Qed.

Lemma forget_parent_reset (t : tcell) :
  parent_dir (forget_parent t) = MYSTERY /\ code (forget_parent t) = MYSTERY.
Proof. unfold forget_parent. destruct (negb (parent_dir t =? 0)); split; reflexivity. Qed.

Lemma forget_parent_old (t : tcell) :
  old_parent_dir (forget_parent t)
  = if parent_dir t =? 0 then old_parent_dir t else parent_dir t.
Proof. unfold forget_parent. destruct (parent_dir t =? 0); reflexivity. Qed.

Lemma iter_forget_reset (k : nat) (t : tcell) :
  (1 <= k)%nat ->
  parent_dir (Nat.iter k forget_parent t) = MYSTERY /\
  code (Nat.iter k forget_parent t) = MYSTERY.
Proof.
  destruct k as [|k]; [lia |]. intros _. rewrite Nat.iter_succ. apply forget_parent_reset.
Qed.

Lemma iter_forget_twice (k : nat) (t : tcell) :
  (2 <= k)%nat -> old_parent_dir (Nat.iter k forget_parent t) = MYSTERY.
Proof.
  destruct k as [|[|k]]; [lia | lia |]. intros _. rewrite Nat.iter_succ.
  rewrite forget_parent_old, Nat.iter_succ.
  destruct (forget_parent_reset (Nat.iter k forget_parent t)) as [-> _]. reflexivity.
Qed.

Lemma iter_forget_unset (k : nat) (t : tcell) :
  (1 <= k)%nat -> parent_dir t = MYSTERY ->
  old_parent_dir (Nat.iter k forget_parent t) = MYSTERY.
Proof.
  intros Hk Hp. destruct (decide (k = 1%nat)) as [-> | Hne].
  - change (Nat.iter 1 forget_parent t) with (forget_parent t).
    rewrite forget_parent_old, Hp. reflexivity.
  - apply iter_forget_twice. lia.
Qed.

Lemma move_same_c (t t' : tcell) (d : Z) : c t' = c t -> move t' d = move t d.
Proof. intros E. unfold move. rewrite E. reflexivity. Qed.

Lemma edge_touches_ext (h h' : heap) (c0 t : ptr) (l : list nat) :
  c (h' !!! c0) = c (h !!! c0) -> edge_touches h' c0 l t = edge_touches h c0 l t.
Proof.
  intros E. unfold edge_touches. induction l as [|i l IH]; [reflexivity |].
  rewrite !filter_cons, (move_same_c _ _ _ E).
  destruct (decide (fst <$> move (h !!! c0) (Z.of_nat i) = Some t)); simpl; rewrite IH;
    reflexivity.
Qed.

Lemma upd_forget_c (h : heap) (p q : ptr) :
  c (upd h p forget_parent !!! q) = c (h !!! q).
Proof.
  destruct (decide (p = q)) as [-> | Hne].
  - rewrite upd_same. apply same_but_parent_forget.
  - rewrite upd_other by exact Hne. reflexivity.
Qed.

Lemma upd_forget_lookup (h : heap) (p q : ptr) :
  upd h p forget_parent !!! q = if decide (q = p) then forget_parent (h !!! q) else h !!! q.
Proof.
  destruct (decide (q = p)) as [-> | Hne].
  - apply upd_same.
  - apply upd_other. congruence.
Qed.

Lemma remove_parentdir_edges (c0 t : ptr) :
  forall (l : list nat) (h : heap),
    fold_left
      (fun h i =>
         match move (h !!! c0) (Z.of_nat i) with
         | Some (c1, _) => upd h c1 forget_parent
         | None => h
         end) l h !!! t
    = Nat.iter (edge_touches h c0 l t) forget_parent (h !!! t).
Proof.
  induction l as [|i l IH]; intros h; [reflexivity |].
  cbn [fold_left]. rewrite IH. unfold edge_touches at 2. rewrite filter_cons.
  fold (edge_touches h c0 l t).
  destruct (move (h !!! c0) (Z.of_nat i)) as [[c1 s1]|] eqn:Hm; simpl.
  - rewrite (edge_touches_ext h) by apply upd_forget_c.
    rewrite upd_forget_lookup.
    destruct (decide (Some c1 = Some t)) as [E | Hne].
    + injection E as ->. rewrite decide_True by reflexivity.
      simpl. rewrite <- Nat.iter_succ_r. reflexivity.
    + rewrite decide_False by congruence. reflexivity.
  - reflexivity.
Qed.

Lemma remove_parentdir_lookup (h : heap) (c0 t : ptr) :
  remove_parentdir h c0 !!! t = Nat.iter (touch_count h c0 t) forget_parent (h !!! t).
Proof.
  unfold remove_parentdir, touch_count. rewrite remove_parentdir_edges.
  assert (Ht : type (upd h c0 forget_parent !!! c0) = type (h !!! c0)).
  { rewrite upd_same. apply same_but_parent_forget. }
  rewrite Ht. rewrite (edge_touches_ext h) by apply upd_forget_c.
  rewrite upd_forget_lookup.
  destruct (decide (t = c0)) as [-> | Hne]; [| reflexivity].
  rewrite <- Nat.iter_succ_r. reflexivity.
Qed.

Lemma edge_touches_pos (h : heap) (c0 t : ptr) (l : list nat) :
  (1 <= edge_touches h c0 l t)%nat <->
  exists i s, i ∈ l /\ move (h !!! c0) (Z.of_nat i) = Some (t, s).
Proof.
  unfold edge_touches. induction l as [|i l IH].
  - simpl. split; [lia |]. intros (i & s & Hi & _). inversion Hi.
  - rewrite filter_cons.
    destruct (decide (fst <$> move (h !!! c0) (Z.of_nat i) = Some t)) as [E | Hne].
    + simpl. split; [intros _ | lia].
      destruct (move (h !!! c0) (Z.of_nat i)) as [[c1 s1]|] eqn:Hm; [| discriminate].
      injection E as ->. exists i, s1. split; [left | exact Hm].
    + rewrite IH. split.
      * intros (i' & s & Hi & Hm). exists i', s. split; [right; exact Hi | exact Hm].
      * intros (i' & s & Hi & Hm). apply elem_of_cons in Hi. destruct Hi as [-> | Hi].
        -- exfalso. apply Hne. rewrite Hm. reflexivity.
        -- exists i', s. split; assumption.
Qed.

Lemma touch_count_pos (h : heap) (c0 t : ptr) :
  (1 <= touch_count h c0 t)%nat <->
  t = c0 \/ exists i s, 0 <= i < type (h !!! c0) /\ move (h !!! c0) i = Some (t, s).
Proof.
  unfold touch_count. split.
  - intros Hk. destruct (decide (t = c0)) as [-> | Hne]; [left; reflexivity |].
    right. simpl in Hk.
    destruct (proj1 (edge_touches_pos h c0 t _) Hk) as (i & s & Hi & Hm).
    apply elem_of_seq in Hi. exists (Z.of_nat i), s. split; [lia | exact Hm].
  - intros [-> | (i & s & Hi & Hm)].
    + rewrite decide_True by reflexivity. lia.
    + assert (1 <= edge_touches h c0 (seq 0 (Z.to_nat (type (h !!! c0)))) t)%nat; [| lia].
      apply edge_touches_pos. exists (Z.to_nat i), s.
      split; [apply elem_of_seq; lia |]. rewrite Z2Nat.id by lia. exact Hm.
Qed.

(** X3.  [remove_parentdir(c0)] writes [c0] and every tile across a
    materialized edge of [c0], once for every such edge: afterwards their
    [parent_dir] and [code] are unset.  No other field than [parent_dir],
    [old_parent_dir] and [code] of any tile changes, and a tile that is
    neither [c0] nor a neighbour of it is left as it was. *)
Theorem remove_parentdir_resets :
  forall (h : heap) (c0 t : ptr),
    remove_parentdir h c0 !!! t
      = Nat.iter (touch_count h c0 t) forget_parent (h !!! t) /\
    same_but_parent (h !!! t) (remove_parentdir h c0 !!! t) /\
    (t = c0 \/
     (exists i s, 0 <= i < type (h !!! c0) /\ move (h !!! c0) i = Some (t, s)) ->
     parent_dir (remove_parentdir h c0 !!! t) = MYSTERY /\
     code (remove_parentdir h c0 !!! t) = MYSTERY) /\
    (t <> c0 ->
     (forall i s, 0 <= i < type (h !!! c0) -> move (h !!! c0) i <> Some (t, s)) ->
     remove_parentdir h c0 !!! t = h !!! t).
Proof.
  intros h c0 t. rewrite remove_parentdir_lookup.
  split; [reflexivity |]. split; [apply same_but_parent_iter |]. split.
  - intros Ht. apply iter_forget_reset. apply touch_count_pos. exact Ht.
  - intros Hne Hno.
    assert (Hz : touch_count h c0 t = O).
    { destruct (touch_count h c0 t) as [|k] eqn:E; [reflexivity |].
      exfalso. destruct (proj1 (touch_count_pos h c0 t) ltac:(lia))
        as [-> | (i & s & Hi & Hm)]; [congruence | eapply Hno; eassumption]. }
    rewrite Hz. reflexivity.
Qed.

Lemma touch_count_again (h : heap) (c0 t : ptr) :
  touch_count (remove_parentdir h c0) c0 t = touch_count h c0 t.
Proof.
  destruct (same_but_parent_iter (touch_count h c0 c0) (h !!! c0))
    as (_ & _ & Ht & _ & _ & _ & _ & _ & Hc).
  rewrite <- remove_parentdir_lookup in Ht, Hc.
  unfold touch_count. rewrite Ht. rewrite (edge_touches_ext h) by exact Hc. reflexivity.
Qed.

(** X4.  What [remove_parentdir(c0)] remembers in [old_parent_dir] of a
    tile it writes (that is [c0] or a neighbour of it).  Written once, the
    tile remembers its parent direction unless that was 0, in which case
    [old_parent_dir] stays as it was; an unset parent direction is
    remembered as unset.  Written twice or more (a tile across two edges of
    [c0]), or on a second call of [remove_parentdir(c0)], the tile is left
    with [old_parent_dir] unset. *)
Theorem remove_parentdir_old_parent_dir :
  forall (h : heap) (c0 t : ptr),
    (1 <= touch_count h c0 t)%nat ->
    (touch_count h c0 t = 1%nat ->
     old_parent_dir (remove_parentdir h c0 !!! t)
     = if parent_dir (h !!! t) =? 0 then old_parent_dir (h !!! t)
       else parent_dir (h !!! t)) /\
    (parent_dir (h !!! t) = MYSTERY ->
     old_parent_dir (remove_parentdir h c0 !!! t) = MYSTERY) /\
    ((2 <= touch_count h c0 t)%nat ->
     old_parent_dir (remove_parentdir h c0 !!! t) = MYSTERY) /\
    old_parent_dir (remove_parentdir (remove_parentdir h c0) c0 !!! t) = MYSTERY.
Proof.
  intros h c0 t Hk. rewrite !remove_parentdir_lookup, touch_count_again.
  split; [| split; [| split]].
  - intros ->. change (Nat.iter 1 forget_parent (h !!! t)) with (forget_parent (h !!! t)).
    apply forget_parent_old.
  - intros Hp. apply iter_forget_unset; assumption.
  - intros H2. apply iter_forget_twice. exact H2.
  - apply iter_forget_unset; [exact Hk |].
    apply iter_forget_reset. exact Hk.
Qed.

Lemma remove_parentdir_old_parent_dir_witness :
  (touch_count (tiles near_pair) 1%nat 2%nat = 1%nat ->
   old_parent_dir (remove_parentdir (tiles near_pair) 1%nat !!! 2%nat)
   = if parent_dir (tiles near_pair !!! 2%nat) =? 0
     then old_parent_dir (tiles near_pair !!! 2%nat)
     else parent_dir (tiles near_pair !!! 2%nat)) /\
  old_parent_dir
    (remove_parentdir (remove_parentdir (tiles near_pair) 1%nat) 1%nat !!! 2%nat)
  = MYSTERY.
Proof.
  destruct (remove_parentdir_old_parent_dir (tiles near_pair) 1%nat 2%nat
              ltac:(vm_compute; lia)) as (Honce & _ & _ & Hagain).
  split; [exact Honce | exact Hagain].
Defined.

(** In [near_pair] both tiles have the parent direction 0 cached.
    [remove_parentdir] on tile 1 unsets both, and neither remembers the
    direction 0: [old_parent_dir] stays unset. *)
Example remove_parentdir_near_pair :
  parent_dir (tiles near_pair !!! 1%nat) = 0 /\
  parent_dir (tiles near_pair !!! 2%nat) = 0 /\
  map (fun t => (parent_dir (remove_parentdir (tiles near_pair) 1%nat !!! t),
                 old_parent_dir (remove_parentdir (tiles near_pair) 1%nat !!! t)))
    [1%nat; 2%nat]
  = [(MYSTERY, MYSTERY); (MYSTERY, MYSTERY)].
Proof. vm_compute. repeat split; reflexivity. Qed.

(** ** Merging distances *)

Lemma upd_tile_lookup (g : gstate) (p q : ptr) (f : tcell -> tcell) :
  tiles (upd_tile g p f) !!! q
  = if decide (q = p) then f (tiles g !!! q) else tiles g !!! q.
Proof.
  unfold upd_tile. simpl. destruct (decide (q = p)) as [-> | Hne].
  - apply upd_same.
  - apply upd_other. congruence.
Qed.

Section UnifyDistancesFacts.

Context {ca : Callees}.

(** X5.  [unify_distances(c1, c2, delta)].  When the two tiles have the
    same distance already, nothing is called, whatever the callees are:
    the two tiles get the disjunction of their marks [is_solid] and of their
    marks [distance_fixed], and nothing else changes.  In general, when the
    function returns, [c2] has the smaller of the two distances read at the
    start, and the two tiles agree on [is_solid] and on
    [distance_fixed]. *)
Theorem unify_distances_merges :
  forall (g : gstate) (c1 c2 : ptr) (delta : Z),
    (dist (tiles g !!! c1) = dist (tiles g !!! c2) ->
     exists g',
       Distances.unify_distances g c1 c2 delta = Ok g' /\
       g' = with_tiles g (tiles g') /\
       forall t,
         tiles g' !!! t
         = if decide (t = c1 \/ t = c2)
           then set_is_solid
                  (set_distance_fixed (tiles g !!! t)
                     (distance_fixed (tiles g !!! c1) || distance_fixed (tiles g !!! c2)))
                  (is_solid (tiles g !!! c1) || is_solid (tiles g !!! c2))
           else tiles g !!! t) /\
    (forall g',
       Distances.unify_distances g c1 c2 delta = Ok g' ->
       dist (tiles g' !!! c2)
         = Z.min (dist (tiles g !!! c1)) (dist (tiles g !!! c2)) /\
       is_solid (tiles g' !!! c1) = is_solid (tiles g' !!! c2) /\
       distance_fixed (tiles g' !!! c1) = distance_fixed (tiles g' !!! c2)).
Proof.
  intros g c1 c2 delta. split.
  - intros Hd. unfold Distances.unify_distances.
    rewrite <- Hd, Z.min_id, Z.eqb_refl.
    do 4 (cbn [mbind result_bind negb]; rewrite ?andb_false_r).
    eexists. split; [reflexivity |]. split; [reflexivity |].
    intros t. rewrite !upd_tile_lookup.
    destruct (decide (t = c1)) as [E1 | N1]; destruct (decide (t = c2)) as [E2 | N2];
      subst;
      repeat (rewrite ?decide_True by reflexivity; rewrite ?decide_False by congruence).
    + rewrite decide_True by (left; reflexivity).
      repeat match goal with
             | |- context [tiles g !!! ?x] => destruct (tiles g !!! x)
             end; simpl in Hd; subst; reflexivity.
    + rewrite decide_True by (left; reflexivity).
      repeat match goal with
             | |- context [tiles g !!! ?x] => destruct (tiles g !!! x)
             end; simpl in Hd; subst; reflexivity.
    + rewrite decide_True by (right; reflexivity).
      repeat match goal with
             | |- context [tiles g !!! ?x] => destruct (tiles g !!! x)
             end; simpl in Hd; subst; reflexivity.
    + rewrite decide_False by (intros [E | E]; congruence). reflexivity.
  - intros g' Hrun. unfold Distances.unify_distances in Hrun.
    apply bind_Ok_inv in Hrun. destruct Hrun as (g1 & _ & Hrun).
    apply bind_Ok_inv in Hrun. destruct Hrun as (g2 & _ & Hrun).
    apply bind_Ok_inv in Hrun. destruct Hrun as (g3 & _ & Hrun).
    apply bind_Ok_inv in Hrun. destruct Hrun as (g4 & _ & Hrun).
    injection Hrun as <-. rewrite !upd_tile_lookup.
    destruct (decide (c1 = c2)) as [<- | N];
      repeat (rewrite ?decide_True by reflexivity; rewrite ?decide_False by congruence);
      repeat split; reflexivity.
Qed.

End UnifyDistancesFacts.

(** On [near_pair], with callees that find nothing to do: tile 1 (solid, at
    distance 2) is merged with tile 2 (at distance 1).  One solid error is
    counted, tile 1 and its neighbour lose their parent directions, and both
    tiles end at distance 1. *)
Example unify_distances_near_pair :
  match Distances.unify_distances (ca := idle) near_pair 1%nat 2%nat 0 with
  | Ok g' =>
      dist (tiles g' !!! 1%nat) = 1 /\ dist (tiles g' !!! 2%nat) = 1 /\
      solid_errors g' = 1 /\
      parent_dir (tiles g' !!! 1%nat) = MYSTERY /\
      parent_dir (tiles g' !!! 2%nat) = MYSTERY
  | _ => False
  end.
Proof. vm_compute. repeat split; reflexivity. Qed.

(** ** Path compression flattens the chain *)

Lemma ufind_flattens (h : heap) p r n :
  denotes h p r n ->
  forall fuel, (n < fuel)%nat ->
  exists h',
    ufind fuel h p = Ok (h', r) /\
    (forall k, (k < n)%nat ->
       at' (unified_to (h' !!! link_end h (at' p) k)) = at' r) /\
    (forall t, (forall k, (k < n)%nat -> link_end h (at' p) k <> t) ->
       h' !!! t = h !!! t).
Proof.
  induction 1 as [p Hp | p r n Hp Hd IH]; intros fuel Hfuel;
    (destruct fuel as [|fuel]; [lia |]); simpl.
  - exists h. apply Nat.eqb_eq in Hp. rewrite Hp.
    split; [reflexivity |]. split; [intros k Hk; lia | reflexivity].
  - apply Nat.eqb_neq in Hp. rewrite Hp.
    destruct (IH fuel) as (h1 & E1 & Hflat & Hoff); [lia |].
    destruct (ufind_denotes _ _ _ _ Hd fuel ltac:(lia)) as (h1' & E1' & Hc1).
    assert (h1' = h1) by congruence. subst h1'.
    rewrite E1. simpl.
    set (h2 := upd h1 (at' p) (fun t => set_unified_to t r)).
    assert (Hc2 : compressed h h2).
    { intros t. destruct (decide (at' p = t)) as [<- | Hne].
      - unfold h2. rewrite upd_same. split.
        + destruct (Hc1 (at' p)) as [E _]. rewrite <- E.
          destruct (h1 !!! at' p); reflexivity.
        + right. split; [apply Nat.eqb_neq; exact Hp |].
          exists n. destruct (h1 !!! at' p); exact Hd.
      - unfold h2. rewrite upd_other by assumption. apply Hc1. }
    exists h2. split; [rewrite (compressed_wplus h h2 r (spin p) Hc2); reflexivity |].
    assert (Hlink : forall t, t = at' p \/ at' (unified_to (h1 !!! t)) = at' r ->
              at' (unified_to (h2 !!! t)) = at' r).
    { intros t Ht. destruct (decide (at' p = t)) as [<- | Hne].
      - unfold h2. rewrite upd_same. destruct (h1 !!! at' p); reflexivity.
      - unfold h2. rewrite upd_other by exact Hne.
        destruct Ht as [-> | Ht]; [contradiction | exact Ht]. }
    split.
    + intros k Hk. destruct k as [|k]; simpl.
      * apply Hlink. left. reflexivity.
      * apply Hlink. right. apply Hflat. lia.
    + intros t Hoffp. unfold h2. rewrite upd_other.
      * apply Hoff. intros k Hk. apply (Hoffp (S k)). lia.
      * apply (Hoffp O). lia.
Qed.

(** X6.  Path compression.  If the [unified_to] chain of [p]'s tile
    reaches the representative [rep] after [n] links, [ufind(p)] leaves
    every tile of the chain pointing directly at [rep], however long the
    chain was; the representative still points at itself; and a tile that
    is not on the chain is not written. *)
Theorem ufind_flattens_chain :
  forall (h : heap) (p : walker) (rep : ptr) (n fuel : nat),
    reaches h (at' p) rep n ->
    (n < fuel)%nat ->
    exists h' r,
      ufind fuel h p = Ok (h', r) /\
      (forall k, (k < n)%nat ->
         at' (unified_to (h' !!! link_end h (at' p) k)) = rep) /\
      is_rep h' rep /\
      (forall t, (forall k, (k < n)%nat -> link_end h (at' p) k <> t) ->
         h' !!! t = h !!! t).
Proof.
  intros h p rep n fuel Hreach Hfuel.
  destruct (reaches_denotes h n p rep Hreach) as (r & Hd & Hat).
  destruct (ufind_flattens h p r n Hd fuel Hfuel) as (h' & Hu & Hflat & Hoff).
  destruct (ufind_denotes h p r n Hd fuel Hfuel) as (h'' & Hu' & Hc).
  assert (h'' = h') by congruence. subst h''.
  exists h', r. split; [exact Hu |]. split; [| split; [| exact Hoff]].
  - intros k Hk. rewrite Hflat by exact Hk. exact Hat.
  - destruct Hreach as (_ & Hrep & _).
    destruct (Hc rep) as [_ [E | [Hn _]]]; [| contradiction].
    unfold is_rep. rewrite E. exact Hrep.
Qed.

Lemma ufind_flattens_chain_witness :
  exists h' r,
    ufind 3%nat uf_sample (twalker 2%nat 3) = Ok (h', r) /\
    (forall k, (k < 2)%nat ->
       at' (unified_to (h' !!! link_end uf_sample 2%nat k)) = 0%nat) /\
    is_rep h' 0%nat /\
    (forall t, (forall k, (k < 2)%nat -> link_end uf_sample 2%nat k <> t) ->
       h' !!! t = uf_sample !!! t).
Proof.
  apply (ufind_flattens_chain uf_sample (twalker 2%nat 3) 0%nat 2%nat 3%nat).
  - split; [vm_compute; reflexivity |].
    split; [vm_compute; reflexivity |].
    intros k Hk.
    destruct k as [|[|k]]; [| | lia]; intros Hr; vm_compute in Hr; discriminate.
  - lia.
Defined.

(** In [uf_sample] tile 2 points at tile 1, which points at tile 0.  After
    [ufind] from tile 2, tiles 2 and 1 both point at tile 0, with the
    rotations 3 and 1. *)
Example ufind_flattens_sample :
  match ufind 3%nat uf_sample (twalker 2%nat 0) with
  | Ok (h', _) =>
      unified_to (h' !!! 2%nat) = twalker 0%nat 3 /\
      unified_to (h' !!! 1%nat) = twalker 0%nat 1 /\
      unified_to (h' !!! 0%nat) = twalker 0%nat 0
  | _ => False
  end.
Proof. vm_compute. repeat split; reflexivity. Qed.

(** ** Analyzer ids *)

Section AnalyzerIds.

Context {su : Setup}.

Lemma get_aid_rep (fuel : nat) (g : gstate) (cw : walker) :
  is_rep (tiles g) (at' cw) ->
  get_aid (S fuel) g cw
  = Ok (g, (id (tiles g !!! at' cw),
            gmod (to_spin (tiles g) cw 0)
              (cycle_length (vget shapes (id (tiles g !!! at' cw)))))).
Proof.
  intros Hrep. unfold get_aid. rewrite (ufind_s_rep fuel g cw Hrep). reflexivity.
Qed.

(** X7.  On a tile that is its own representative, whose shape has a
    positive [cycle_length] dividing the number of edges: [get_aid] changes
    nothing; the analyzer id is the shape id with the spin class
    [(-spin) mod cycle_length], a number from 0 to [cycle_length - 1]; and
    two walkers on the tile get the same analyzer id exactly when the
    difference of their spins passes the divisibility test of [unify],
    [(s1 - s2) % cycle_length == 0]. *)
Theorem get_aid_spin_classes :
  forall (fuel : nat) (g : gstate) (t : ptr) (s1 s2 : Z),
    is_rep (tiles g) t ->
    0 < cycle_length (vget shapes (id (tiles g !!! t))) ->
    (cycle_length (vget shapes (id (tiles g !!! t))) | type (tiles g !!! t)) ->
    exists a1 a2 : aid_t,
      get_aid (S fuel) g (twalker t s1) = Ok (g, a1) /\
      get_aid (S fuel) g (twalker t s2) = Ok (g, a2) /\
      a1 = (id (tiles g !!! t),
            (- s1) mod cycle_length (vget shapes (id (tiles g !!! t)))) /\
      0 <= a1.2 < cycle_length (vget shapes (id (tiles g !!! t))) /\
      (a1 = a2 <->
       Z.rem (s1 - s2) (cycle_length (vget shapes (id (tiles g !!! t)))) = 0).
Proof.
  intros fuel g t s1 s2 Hrep Hpos Hdiv.
  set (cl := cycle_length (vget shapes (id (tiles g !!! t)))) in *.
  assert (Hcls : forall s, gmod (to_spin (tiles g) (twalker t s) 0) cl = (- s) mod cl).
  { intros s. unfold gmod, to_spin. simpl. rewrite Z.mod_mod_divide by exact Hdiv.
    f_equal. }
  eexists _, _.
  split; [apply (get_aid_rep fuel g (twalker t s1)); exact Hrep |].
  split; [apply (get_aid_rep fuel g (twalker t s2)); exact Hrep |].
  simpl. fold cl. rewrite !Hcls.
  split; [reflexivity |]. split; [apply Z.mod_pos_bound; exact Hpos |].
  rewrite Z.rem_mod_eq_0 by lia. rewrite <- Z.cong_iff_0. split.
  - intros E. injection E as E.
    apply Z.cong_iff_0. apply Z.cong_iff_0 in E.
    replace (s1 - s2) with (- (- s1 - - s2)) by lia.
    apply Z.mod_divide in E; [| lia]. apply Z.mod_divide; [lia |].
    apply Z.divide_opp_r. exact E.
  - intros E. f_equal.
    apply Z.cong_iff_0. apply Z.cong_iff_0 in E.
    replace (- s1 - - s2) with (- (s1 - s2)) by lia.
    apply Z.mod_divide in E; [| lia]. apply Z.mod_divide; [lia |].
    apply Z.divide_opp_r. exact E.
Qed.

End AnalyzerIds.

Lemma get_aid_spin_classes_witness :
  exists a1 a2 : aid_t,
    get_aid (su := sample_setup) 1 one_root (twalker 0%nat 1) = Ok (one_root, a1) /\
    get_aid (su := sample_setup) 1 one_root (twalker 0%nat 3) = Ok (one_root, a2) /\
    a1 = (0, (- 1) mod 2) /\
    0 <= a1.2 < 2 /\
    (a1 = a2 <-> Z.rem (1 - 3) 2 = 0).
Proof.
  apply (get_aid_spin_classes (su := sample_setup) 0 one_root 0%nat 1 3).
  - vm_compute. reflexivity.
  - vm_compute. reflexivity.
  - exists 2. vm_compute. reflexivity.
Defined.

(** ** The queue of deferred checks *)

Section FixQueueFacts.

Context {su : Setup} {ca : Callees}.

Lemma drain_queue_empty (pfq : gstate -> result gstate) :
  forall (steps fuel : nat) (g g' : gstate),
    FixQueue.drain_queue pfq steps fuel g = Ok g' -> fix_queue g' = [].
Proof.
  induction steps as [|steps IH]; intros fuel g g' Hd; [discriminate |].
  cbn [FixQueue.drain_queue] in Hd.
  destruct (fix_queue g) as [|r q] eqn:Hq.
  - injection Hd as <-. exact Hq.
  - apply bind_Ok_inv in Hd. destruct Hd as (g1 & _ & Hd).
    eapply IH. exact Hd.
Qed.

Lemma ufind_s_in_fixing (fuel : nat) (g : gstate) (p : walker) (g' : gstate) (r : walker) :
  ufind_s fuel g p = Ok (g', r) ->
  in_fixing g' = in_fixing g /\ fix_queue g' = fix_queue g.
Proof.
  unfold ufind_s. intros Hu. apply bind_Ok_inv in Hu.
  destruct Hu as ([h r'] & _ & Hres). injection Hres as <- _.
  split; reflexivity.
Qed.

(** X8.  [process_fix_queue] is guarded against re-entry: called while a
    drain is under way ([in_fixing] set) it returns at once and runs
    nothing.  Called otherwise, it returns only with an empty queue and
    [in_fixing] cleared; on an empty queue it changes nothing.  So
    [connect_and_check], when a closure of the queue calls it during a
    drain, connects the two edges and queues the two loop checks behind
    what is queued already, without running them. *)
Theorem process_fix_queue_guarded :
  forall (fuel : nat) (g : gstate),
    (in_fixing g = true -> FixQueue.process_fix_queue (S fuel) g = Ok g) /\
    (forall (n : nat) (g' : gstate),
       in_fixing g = false -> FixQueue.process_fix_queue n g = Ok g' ->
       fix_queue g' = [] /\ in_fixing g' = false) /\
    (in_fixing g = false -> fix_queue g = [] ->
     FixQueue.process_fix_queue (S (S fuel)) g = Ok g) /\
    (in_fixing g = true ->
     forall (p1 p2 : walker) (g1 g2 : gstate) (r1 r2 : walker),
       ufind_s (S fuel) g p1 = Ok (g1, r1) ->
       ufind_s (S fuel) g1 p2 = Ok (g2, r2) ->
       connect_and_check
         (ca := with_process_fix_queue ca (FixQueue.process_fix_queue (S fuel)))
         (S fuel) g p1 p2
       = Ok (with_fix_queue (with_tiles g2 (connect (tiles g2) r1 r2))
               (fix_queue g ++ [do_check_loops r1; do_check_loops r2]))).
Proof.
  intros fuel g. split; [| split; [| split]].
  - intros Hin. cbn [FixQueue.process_fix_queue]. rewrite Hin. reflexivity.
  - intros n g' Hin Hrun. destruct n as [|n]; [discriminate |].
    cbn [FixQueue.process_fix_queue] in Hrun. rewrite Hin in Hrun.
    apply bind_Ok_inv in Hrun. destruct Hrun as (g1 & Hd & Hres).
    injection Hres as <-. apply drain_queue_empty in Hd.
    split; [exact Hd | reflexivity].
  - intros Hin Hq. cbn [FixQueue.process_fix_queue]. rewrite Hin.
    cbn [FixQueue.drain_queue]. simpl. rewrite Hq. simpl.
    destruct g. simpl in *. subst. reflexivity.
  - intros Hin p1 p2 g1 g2 r1 r2 H1 H2.
    destruct (ufind_s_in_fixing _ _ _ _ _ H1) as [F1 Q1].
    destruct (ufind_s_in_fixing _ _ _ _ _ H2) as [F2 Q2].
    unfold connect_and_check. rewrite H1. simpl. rewrite H2. simpl.
    rewrite F2, F1, Hin, Q2, Q1, <- app_assoc. reflexivity.
Qed.

End FixQueueFacts.

(** A drain on [two_tiles] with the two loop checks that [tmove] queued:
    the vertices are open, each check finds nothing to do, and the queue is
    empty at the end. *)
Example process_fix_queue_sample :
  match FixQueue.process_fix_queue (su := sample_setup) (ca := unreached) 8
          (with_in_fixing
             (with_fix_queue two_tiles
                [do_check_loops (twalker 0%nat 0); do_check_loops (twalker 1%nat 0)])
             false) with
  | Ok g' => fix_queue g' = [] /\ in_fixing g' = false /\ tiles g' = tiles two_tiles
  | _ => False
  end.
Proof. vm_compute. repeat split; reflexivity. Qed.

(** ** Reading a table back *)

Lemma count_parents_from (rs : list Z) :
  forall (l : list nat) (q s : Z),
    fold_left
      (fun acc i =>
         if vget rs (Z.of_nat i) =? DIR_PARENT
         then (acc.1 + 1, acc.2 + Z.of_nat i) else acc)
      l (q, s)
    = (q + Z.of_nat (length (filter (fun i => vget rs (Z.of_nat i) = DIR_PARENT) l)),
       s + fold_right (fun i a => Z.of_nat i + a) 0
             (filter (fun i => vget rs (Z.of_nat i) = DIR_PARENT) l)).
Proof.
  induction l as [|i l IH]; intros q s.
  - simpl. f_equal; lia.
  - cbn [fold_left]. rewrite filter_cons.
    destruct (decide (vget rs (Z.of_nat i) = DIR_PARENT)) as [E | Hne].
    + rewrite E, Z.eqb_refl. cbn [fst snd]. rewrite IH. cbn [length fold_right].
      f_equal; lia.
    + apply Z.eqb_neq in Hne. rewrite Hne. apply IH.
Qed.

Lemma count_parents_positions (N : Z) (rs : list Z) :
  count_parents N rs
  = (Z.of_nat (length (parent_positions N rs)),
     fold_right (fun i a => Z.of_nat i + a) 0 (parent_positions N rs)).
Proof. unfold count_parents, parent_positions. rewrite count_parents_from. reflexivity. Qed.

Lemma rotate_left_lookup {A : Type} (l : list A) (p d : nat) :
  (p < length l)%nat -> (d < length l)%nat ->
  rotate_left (Z.of_nat p) l !! d
  = l !! Z.to_nat ((Z.of_nat d + Z.of_nat p) mod Z.of_nat (length l)).
Proof.
  intros Hp Hd. unfold rotate_left. rewrite Nat2Z.id.
  destruct (decide (d < length l - p)%nat) as [Hlt | Hge].
  - rewrite lookup_app_l by (rewrite length_drop; lia).
    rewrite lookup_drop. rewrite Z.mod_small by lia. f_equal. lia.
  - rewrite lookup_app_r by (rewrite length_drop; lia).
    rewrite length_drop. rewrite lookup_take_lt by lia.
    replace (Z.of_nat d + Z.of_nat p)
      with ((Z.of_nat d + Z.of_nat p - Z.of_nat (length l)) + 1 * Z.of_nat (length l))
      by lia.
    rewrite Z_mod_plus_full, Z.mod_small by lia. f_equal. lia.
Qed.

Lemma rotate_left_length {A : Type} (l : list A) (k : Z) :
  length (rotate_left k l) = length l.
Proof.
  unfold rotate_left. rewrite length_app, length_drop, length_take. lia.
Qed.

Lemma get_arb_dir_last (shapes : list shape) (old : list treestate) (ts : treestate)
    (dir : Z) :
  get_arb_dir shapes (old ++ [ts]) (Z.of_nat (length old)) dir
  = (dir + ts_parent_dir ts) mod shape_size (vget shapes (ts_sid ts)).
Proof.
  unfold get_arb_dir, gmod, vget at 1 2 3. rewrite Nat2Z.id.
  rewrite (list_lookup_total_middle old [] ts (length old) eq_refl). reflexivity.
Qed.

(** X9.  [parse_treestate] on a state of the persisted format with a valid
    shape id and one token per edge.
    - Without a [PARENT] among the rules the state is a root: parent
      direction 0, rules as read, and [get_arb_dir] is the identity on its
      directions.
    - With exactly one [PARENT], at edge [p], the state is stored with
      parent direction [p] and its rules rotated so that [PARENT] comes
      first; [get_arb_dir] undoes the rotation: the rule stored under the
      direction [dir] is the rule read for the edge
      [get_arb_dir(state, dir)].
    - With two or more the parser fails with "multiple parent".
    The state is appended with its index as id, to an emptied table when
    it is the first one of the tessellation. *)
Theorem parse_treestate_parent_first :
  forall (shapes : list shape) (have_tree : bool) (tss : list treestate)
         (rule_root sid : Z) (toks : list rule_token),
    correct_index sid (Z.of_nat (length shapes)) = true ->
    Z.of_nat (length toks) = shape_size (vget shapes sid) ->
    (parent_positions (shape_size (vget shapes sid)) (map token_rule toks) = [] ->
     exists old ts,
       parse_treestate shapes have_tree tss rule_root sid toks
         = inr (true, old ++ [ts], if have_tree then rule_root else 0) /\
       old = (if have_tree then tss else []) /\
       ts_id ts = Z.of_nat (length old) /\ ts_sid ts = sid /\
       is_root ts = true /\ ts_parent_dir ts = 0 /\
       rules ts = map token_rule toks /\
       forall dir, 0 <= dir < shape_size (vget shapes sid) ->
         get_arb_dir shapes (old ++ [ts]) (Z.of_nat (length old)) dir = dir) /\
    (forall p : nat,
     parent_positions (shape_size (vget shapes sid)) (map token_rule toks) = [p] ->
     exists old ts,
       parse_treestate shapes have_tree tss rule_root sid toks
         = inr (true, old ++ [ts], if have_tree then rule_root else 0) /\
       old = (if have_tree then tss else []) /\
       ts_id ts = Z.of_nat (length old) /\ ts_sid ts = sid /\
       is_root ts = false /\ ts_parent_dir ts = Z.of_nat p /\
       rules ts !! O = Some DIR_PARENT /\
       length (rules ts) = length toks /\
       forall dir : nat, (dir < length toks)%nat ->
         rules ts !! dir
         = map token_rule toks
             !! Z.to_nat (get_arb_dir shapes (old ++ [ts]) (Z.of_nat (length old))
                            (Z.of_nat dir))) /\
    ((2 <= length (parent_positions (shape_size (vget shapes sid))
                     (map token_rule toks)))%nat ->
     parse_treestate shapes have_tree tss rule_root sid toks
       = inl (hr_parse_exception "multiple parent")).
Proof.
  intros shapes have_tree tss rule_root sid toks Hidx Hlen.
  set (N := shape_size (vget shapes sid)) in *.
  set (rs := map token_rule toks) in *.
  assert (Hrs : length rs = length toks) by (unfold rs; apply length_map).
  assert (Hrun : forall q s,
            count_parents N rs = (q, s) ->
            parse_treestate shapes have_tree tss rule_root sid toks
            = if q >? 1 then inl (hr_parse_exception "multiple parent")
              else inr (true,
                        (if have_tree then tss else [])
                          ++ [if q =? 1
                              then mk_treestate
                                     (Z.of_nat (length (if have_tree then tss else [])))
                                     false (rotate_left s rs) None sid s None
                                     ((0, 0), []) false false (q =? 0) []
                              else mk_treestate
                                     (Z.of_nat (length (if have_tree then tss else [])))
                                     false rs None sid 0 None
                                     ((0, 0), []) false false (q =? 0) []],
                        if have_tree then rule_root else 0)).
  { intros q s Hc. unfold parse_treestate.
    destruct have_tree; cbn [negb]; rewrite Hidx; cbn [negb];
      cbn [set_rules rules]; fold N; fold rs; rewrite Hc;
      destruct (q >? 1); [reflexivity | | reflexivity |];
      destruct (q =? 1); reflexivity. }
  rewrite count_parents_positions in Hrun. split; [| split].
  - intros Hnone. rewrite Hnone in Hrun. rewrite (Hrun _ _ eq_refl). simpl.
    eexists _, _. split; [reflexivity |]. split; [reflexivity |].
    do 5 (split; [reflexivity |]).
    intros dir Hdir. rewrite get_arb_dir_last. simpl. fold N.
    rewrite Z.add_0_r. apply Z.mod_small. exact Hdir.
  - intros p Hone. rewrite Hone in Hrun. rewrite (Hrun _ _ eq_refl). simpl.
    assert (Hp : (p < Z.to_nat N)%nat /\ vget rs (Z.of_nat p) = DIR_PARENT).
    { assert (Hin : p ∈ parent_positions N rs) by (rewrite Hone; left).
      unfold parent_positions in Hin. apply list_elem_of_filter in Hin.
      destruct Hin as [Hv Hin]. apply elem_of_seq in Hin. split; [lia | exact Hv]. }
    destruct Hp as [Hp Hv]. rewrite Z.add_0_r.
    assert (Hpl : (p < length rs)%nat) by lia.
    eexists _, _. split; [reflexivity |]. split; [reflexivity |].
    do 4 (split; [reflexivity |]). simpl. split; [| split].
    + rewrite rotate_left_lookup by lia.
      replace ((Z.of_nat 0 + Z.of_nat p) mod Z.of_nat (length rs))
        with (Z.of_nat p) by (rewrite Z.mod_small; lia).
      rewrite Nat2Z.id. rewrite <- Hv. unfold vget. rewrite Nat2Z.id.
      apply list_lookup_lookup_total_lt. exact Hpl.
    + rewrite rotate_left_length. exact Hrs.
    + intros dir Hdir. rewrite get_arb_dir_last. simpl. fold N.
      rewrite rotate_left_lookup by lia.
      replace (Z.of_nat (length rs)) with N by lia. reflexivity.
  - intros Htwo. rewrite (Hrun _ _ eq_refl).
    destruct (Z.of_nat (length (parent_positions N rs)) >? 1) eqn:E; [reflexivity |].
    rewrite Z.gtb_ltb in E. apply Z.ltb_ge in E. lia.
Qed.

Lemma parse_treestate_parent_first_witness :
  correct_index 0 (Z.of_nat (length [triangle])) = true /\
  exists old ts,
    parse_treestate [triangle] false [] 7 0 [tok_number 1; tok_parent; tok_left]
    = inr (true, old ++ [ts], 0) /\
    ts_parent_dir ts = 1 /\
    rules ts !! O = Some DIR_PARENT.
Proof.
  split; [reflexivity |].
  destruct (parse_treestate_parent_first [triangle] false [] 7 0
              [tok_number 1; tok_parent; tok_left] eq_refl eq_refl)
    as (_ & Hone & _).
  destruct (Hone 1%nat eq_refl)
    as (old & ts & Hrun & _ & _ & _ & _ & Hdir & Hfirst & _).
  exists old, ts. split; [exact Hrun |]. split; [exact Hdir | exact Hfirst].
Defined.

(** The state [state(0, 1, PARENT, LEFT)] of a triangle is stored as
    [PARENT, LEFT, 1] with parent direction 1; a second [PARENT] is
    refused. *)
Example parse_treestate_sample :
  parse_treestate [triangle] false [] 7 0 [tok_number 1; tok_parent; tok_left]
  = inr (true,
         [mk_treestate 0 false [DIR_PARENT; DIR_LEFT; 1] None 0 1 None
            ((0, 0), []) false false false []], 0) /\
  parse_treestate [triangle] false [] 7 0 [tok_parent; tok_parent; tok_left]
  = inl (hr_parse_exception "multiple parent") /\
  parse_treestate [triangle] false [] 7 1 [tok_number 1; tok_parent; tok_left]
  = inl (hr_parse_exception "incorrect treestate index").
Proof. repeat split; vm_compute; reflexivity. Qed.

Lemma verify_rules_accepts (n : Z) (rs : list Z) :
  0 <= n ->
  verify_rules n rs = None <-> (forall r, r ∈ rs -> rule_accepted n r).
Proof.
  intros Hn. induction rs as [| r rs IH]; simpl.
  - split; [| reflexivity]. intros _ r Hin. inversion Hin.
  - unfold DIR_PARENT, DIR_LEFT, DIR_RIGHT.
    destruct (r <? 0) eqn:Eneg; destruct (r =? -6) eqn:Ep;
      destruct (r =? -4) eqn:El; destruct (r =? -5) eqn:Er;
      destruct (r >? n) eqn:Egt; cbn [orb andb negb];
      rewrite ?Z.ltb_lt, ?Z.ltb_ge, ?Z.eqb_eq, ?Z.eqb_neq in *;
      rewrite Z.gtb_ltb in Egt;
      rewrite ?Z.ltb_lt, ?Z.ltb_ge in Egt;
      try lia;
      try (split; [discriminate |]; intros Hall;
           specialize (Hall r ltac:(left));
           unfold rule_accepted, DIR_PARENT, DIR_LEFT, DIR_RIGHT in Hall; lia);
      (rewrite IH; split;
       [ intros Hall r' Hin; apply elem_of_cons in Hin;
         destruct Hin as [-> | Hin];
         [unfold rule_accepted, DIR_PARENT, DIR_LEFT, DIR_RIGHT; lia | exact (Hall r' Hin)]
       | intros Hall r' Hin; apply Hall; right; exact Hin ]).
Qed.

Lemma verify_states_accepts (n : Z) (todo : list treestate) :
  0 <= n ->
  verify_states n todo = None
  <-> (forall ts r, ts ∈ todo -> r ∈ rules ts -> rule_accepted n r).
Proof.
  intros Hn. induction todo as [| ts todo IH]; simpl.
  - split; [| reflexivity]. intros _ ts r Hin. inversion Hin.
  - destruct (verify_rules n (rules ts)) eqn:E.
    + split; [discriminate |]. intros Hall.
      assert (Hnone : verify_rules n (rules ts) = None).
      { apply verify_rules_accepts; [exact Hn |].
        intros r Hin. apply (Hall ts r); [left | exact Hin]. }
      congruence.
    + rewrite IH. pose proof (proj1 (verify_rules_accepts n (rules ts) Hn) E) as Hts.
      split.
      * intros Hall ts' r Hin Hr. apply elem_of_cons in Hin.
        destruct Hin as [-> | Hin]; [exact (Hts r Hr) | exact (Hall ts' r Hin Hr)].
      * intros Hall ts' r Hin Hr. apply (Hall ts' r); [right; exact Hin | exact Hr].
Qed.

(** X10.  [verify_parsed_treestates] accepts a parsed table (raises no
    parse exception) exactly when the root is an index of the table and
    every rule of every state is [PARENT], [LEFT], [RIGHT] or a number
    from 0 up to the number of states, that number included (the test is
    [r > isize(treestates)]).  A root out of range is reported before any
    rule is looked at.  On acceptance every shape gets its size as cycle
    length and the table is the one [find_possible_parents] leaves. *)
Theorem verify_parsed_treestates_accepts :
  forall (fuel : nat) (shapes : list shape) (tss : list treestate) (rule_root : Z),
    ((exists out, verify_parsed_treestates fuel shapes tss rule_root = inr out) <->
     (0 <= rule_root < Z.of_nat (length tss) /\
      forall ts r, ts ∈ tss -> r ∈ rules ts ->
                   rule_accepted (Z.of_nat (length tss)) r)) /\
    (forall out, verify_parsed_treestates fuel shapes tss rule_root = inr out ->
       out = (tss' ← find_possible_parents fuel tss;
              Ok (map (fun sh => set_cycle_length sh (shape_size sh)) shapes, tss'))) /\
    (rule_root < 0 \/ Z.of_nat (length tss) <= rule_root ->
     verify_parsed_treestates fuel shapes tss rule_root
     = inl (hr_parse_exception "undefined treestate as root")).
Proof.
  intros fuel shapes tss rule_root. unfold verify_parsed_treestates.
  pose proof (verify_states_accepts (Z.of_nat (length tss)) tss ltac:(lia)) as Hst.
  destruct (rule_root <? 0) eqn:Elo; destruct (rule_root >=? Z.of_nat (length tss)) eqn:Ehi;
    cbn [orb];
    rewrite ?Z.ltb_lt, ?Z.ltb_ge in Elo; rewrite Z.geb_leb in Ehi;
    rewrite ?Z.leb_le, ?Z.leb_gt in Ehi.
  1-3: split; [split; [intros [out Hout]; discriminate | intros [Hr _]; lia] |];
       split; [intros out Hout; discriminate | reflexivity].
  destruct (verify_states (Z.of_nat (length tss)) tss) eqn:E.
  - split; [split; [intros [out Hout]; discriminate |] |].
    + intros [_ Hall]. apply Hst in Hall. discriminate.
    + split; [intros out Hout; discriminate | lia].
  - split; [split |].
    + intros _. split; [lia |]. apply Hst. reflexivity.
    + intros _. eexists. reflexivity.
    + split; [| lia]. intros out Hout. injection Hout as <-. reflexivity.
Qed.

(** A rule naming the state one past the last is accepted; the next number
    is refused, like a [-1]. *)
Example verify_parsed_treestates_bound :
  (exists out,
     verify_parsed_treestates 5 [triangle]
       [mk_treestate 0 false [1; 1; 1] None 0 0 None ((0, 0), []) false false true []]
       0 = inr out) /\
  verify_parsed_treestates 5 [triangle]
    [mk_treestate 0 false [1; 2; 1] None 0 0 None ((0, 0), []) false false true []]
    0 = inl (hr_parse_exception "undefined treestate") /\
  verify_parsed_treestates 5 [triangle]
    [mk_treestate 0 false [0; DIR_UNKNOWN; 2] None 0 0 None ((0, 0), []) false false true []]
    0 = inl (hr_parse_exception "negative number in treestates").
Proof. split; [eexists; vm_compute; reflexivity | split; vm_compute; reflexivity]. Qed.

(** ** Relaxing distances *)

Lemma with_tiles_twice (g : gstate) (h1 h2 : heap) :
  with_tiles (with_tiles g h1) h2 = with_tiles g h2.
Proof. reflexivity. Qed.

Lemma same_links_refl (t : tcell) : same_links t t.
Proof. repeat split; reflexivity. Qed.

Lemma same_links_trans (t1 t2 t3 : tcell) :
  same_links t1 t2 -> same_links t2 t3 -> same_links t1 t3.
Proof.
  intros (H1 & H2 & H3 & H4 & H5 & H6) (G1 & G2 & G3 & G4 & G5 & G6).
  repeat split; congruence.
Qed.

Lemma lower_lookup (h : heap) (w : walker) (d : Z) (x : ptr) :
  same_links (h !!! x) (lower h w d !!! x) /\
  distance_fixed (lower h w d !!! x) = distance_fixed (h !!! x) /\
  dist (lower h w d !!! x) = (if decide (x = at' w) then d else dist (h !!! x)) /\
  any_nearer (lower h w d !!! x)
  = (if decide (x = at' w) then spin w else any_nearer (h !!! x)).
Proof.
  unfold lower. rewrite remove_parentdir_lookup.
  match goal with |- context [Nat.iter ?k forget_parent ?t] =>
    destruct (same_but_parent_iter k t) as (H1 & H2 & H3 & H4 & H5 & H6 & H7 & H8 & H9);
    generalize dependent (Nat.iter k forget_parent t)
  end.
  intros t' H1 H2 H3 H4 H5 H6 H7 H8 H9.
  destruct (decide (x = at' w)) as [-> | Hne].
  - rewrite !upd_same in *. simpl in *. repeat split; assumption.
  - rewrite !upd_other in * by congruence. repeat split; assumption.
Qed.

Lemma weight_le (m : Z) (ks : list ptr) (h h' : heap) :
  (forall k, dist (h' !!! k) <= dist (h !!! k)) ->
  (weight m ks h' <= weight m ks h)%nat.
Proof.
  intros Hle. unfold weight. induction ks as [| k ks IH]; simpl; [lia |].
  specialize (Hle k). unfold fmap in IH. lia.
Qed.

Lemma weight_lower (m : Z) (ks : list ptr) (h h' : heap) (t : ptr) :
  (forall k, dist (h' !!! k) <= dist (h !!! k)) ->
  t ∈ ks -> m <= dist (h' !!! t) -> dist (h' !!! t) < dist (h !!! t) ->
  (weight m ks h' < weight m ks h)%nat.
Proof.
  intros Hle Hin Hm Hlt. induction ks as [| k ks IH]; [inversion Hin |].
  pose proof (weight_le m ks h h' Hle) as Hrest.
  unfold weight in *. simpl. unfold fmap in *.
  apply elem_of_cons in Hin. destruct Hin as [<- | Hin].
  - lia.
  - specialize (IH Hin). specialize (Hle k). lia.
Qed.

Lemma same_links_linked (hb h : heap) :
  (forall t, same_links (hb !!! t) (h !!! t)) -> linked hb -> linked h.
Proof.
  intros Hsame Hl t i n s Hi Hm.
  destruct (Hsame t) as (_ & _ & Ht & _ & _ & Hc).
  destruct (Hsame n) as (_ & _ & Hnt & _ & _ & Hnc).
  rewrite Ht in Hi. rewrite (move_same_c _ _ _ Hc) in Hm.
  destruct (Hl t i n s Hi Hm) as [Hs Hback].
  rewrite Hnt, (move_same_c _ _ _ Hnc). split; assumption.
Qed.

Section Settling.

Variables (hb : heap) (m : Z) (ks : list ptr) (cinit : ptr).

Hypothesis Hlinked : linked hb.
Hypothesis Hunsolid : forall t, is_solid (hb !!! t) = false.
Hypothesis Hreps : forall t, 0 < type (hb !!! t) -> is_rep hb t.
Hypothesis Hks : forall t, 0 < type (hb !!! t) -> t ∈ ks.

Lemma relaxing_linked h q qi c0 i : relaxing hb m cinit h q qi c0 i -> linked h.
Proof. intros R. exact (same_links_linked hb h (rx_links _ _ _ _ _ _ _ _ R) Hlinked). Qed.

Lemma relaxing_plain h q qi c0 i (t : ptr) :
  relaxing hb m cinit h q qi c0 i -> 0 < type (h !!! t) ->
  is_solid (h !!! t) = false /\ is_rep h t /\ t ∈ ks.
Proof.
  intros R Ht. destruct (rx_links _ _ _ _ _ _ _ _ R t) as (_ & _ & Hty & Hso & Hun & _).
  rewrite Hty in Ht. split; [rewrite Hso; apply Hunsolid |].
  split; [| apply Hks; exact Ht].
  unfold is_rep. rewrite Hun. apply Hreps. exact Ht.
Qed.

Lemma relaxing_next_edge h q qi c0 i :
  relaxing hb m cinit h q qi c0 i ->
  (forall n s, move (h !!! c0) i = Some (n, s) ->
     dist (h !!! c0) <= dist (h !!! n) + 1 /\ dist (h !!! n) <= dist (h !!! c0) + 1) ->
  relaxing hb m cinit h q qi c0 (i + 1).
Proof.
  intros R Hedge. pose proof (relaxing_linked _ _ _ _ _ R) as Hl.
  destruct R as [Hlinks Hfixed Hfloor Hkept Hnearer Hindex Hcover].
  constructor; try assumption.
  intros t j n s Hj Hmv Hjump.
  destruct (Hcover t j n s Hj Hmv Hjump) as [Hin | [Hin | [[-> Hij] | [-> His]]]].
  - left. exact Hin.
  - right. left. exact Hin.
  - right. right. left. split; [reflexivity |].
    destruct (decide (j = i)) as [-> | Hne]; [| lia].
    destruct (Hedge n s Hmv) as [Hle _]. lia.
  - right. right. right. split; [reflexivity |].
    destruct (decide (s = i)) as [-> | Hne]; [| lia].
    destruct (Hl t j c0 i Hj Hmv) as [_ Hback].
    destruct (Hedge t j Hback) as [_ Hle]. lia.
Qed.

Lemma relaxing_restart h q qi c0 i n s :
  relaxing hb m cinit h q qi c0 i ->
  0 <= i < type (h !!! c0) -> move (h !!! c0) i = Some (n, s) ->
  dist (h !!! n) + 1 < dist (h !!! c0) ->
  relaxing hb m cinit (lower h (twalker c0 i) (dist (h !!! n) + 1)) q qi c0 0.
Proof.
  intros R Hi Hmv Hlt. pose proof (relaxing_linked _ _ _ _ _ R) as Hl.
  destruct R as [Hlinks Hfixed Hfloor Hkept Hnearer Hindex Hcover].
  set (d := dist (h !!! n) + 1) in *.
  set (h' := lower h (twalker c0 i) d).
  assert (L : forall x,
             same_links (h !!! x) (h' !!! x) /\
             distance_fixed (h' !!! x) = distance_fixed (h !!! x) /\
             dist (h' !!! x) = (if decide (x = c0) then d else dist (h !!! x)) /\
             any_nearer (h' !!! x) = (if decide (x = c0) then i else any_nearer (h !!! x))).
  { intros x. exact (lower_lookup h (twalker c0 i) d x). }
  assert (Hn : n <> c0) by (intros ->; unfold d in Hlt; lia).
  assert (Hmove : forall x y, move (h' !!! x) y = move (h !!! x) y).
  { intros x y. apply move_same_c. apply (L x). }
  assert (Htype : forall x, type (h' !!! x) = type (h !!! x)) by (intros x; apply (L x)).
  assert (Hdist : forall x, dist (h' !!! x) <= dist (h !!! x)).
  { intros x. destruct (L x) as (_ & _ & -> & _).
    destruct (decide (x = c0)) as [-> | _]; unfold d; lia. }
  constructor.
  - intros t. exact (same_links_trans _ _ _ (Hlinks t) (proj1 (L t))).
  - destruct (L cinit) as (_ & -> & _). exact Hfixed.
  - intros t. destruct (L t) as (_ & _ & -> & _).
    pose proof (Hfloor t) as Ht. pose proof (Hfloor n) as Hfn.
    destruct (decide (t = c0)) as [-> | _]; unfold d; lia.
  - intros t. destruct (L t) as (_ & _ & -> & ->).
    pose proof (Hfloor t) as Ht.
    destruct (decide (t = c0)) as [-> | _]; [unfold d; lia | apply Hkept].
  - intros t Ht. rewrite Htype. destruct (L t) as (_ & _ & Hd & Ha). rewrite Ha, Hd.
    rewrite Hd in Ht. destruct (decide (t = c0)) as [-> | Hne].
    + split; [exact Hi |]. exists n, s. rewrite Hmove. split; [exact Hmv |].
      destruct (L n) as (_ & _ & -> & _). rewrite decide_False by exact Hn.
      unfold d. lia.
    + destruct (Hnearer t Ht) as [Hrange (n1 & s1 & Hm1 & Hd1)].
      split; [exact Hrange |]. exists n1, s1. rewrite Hmove. split; [exact Hm1 |].
      pose proof (Hdist n1). lia.
  - exact Hindex.
  - intros t j n' s' Hj Hm' Hjump. rewrite Htype in Hj. rewrite Hmove in Hm'.
    destruct (decide (t = c0)) as [-> | Ht].
    { right. right. left. split; [reflexivity | lia]. }
    destruct (decide (n' = c0)) as [-> | Hn'].
    { right. right. right. split; [reflexivity |].
      destruct (Hl t j c0 s' Hj Hm') as [Hs' _]. lia. }
    destruct (L t) as (_ & _ & Hdt & _). destruct (L n') as (_ & _ & Hdn & _).
    rewrite Hdt, Hdn in Hjump. rewrite !decide_False in Hjump by assumption.
    destruct (Hcover t j n' s' Hj Hm' Hjump) as [Hin | [Hin | [[-> _] | [-> _]]]];
      [left; exact Hin | right; left; exact Hin | congruence | congruence].
Qed.

Lemma relaxing_push h q qi c0 i n s :
  relaxing hb m cinit h q qi c0 i ->
  0 <= i < type (h !!! c0) -> move (h !!! c0) i = Some (n, s) ->
  dist (h !!! c0) + 1 < dist (h !!! n) ->
  relaxing hb m cinit (lower h (twalker n s) (dist (h !!! c0) + 1)) (q ++ [n]) qi c0 (i + 1).
Proof.
  intros R Hi Hmv Hlt. pose proof (relaxing_linked _ _ _ _ _ R) as Hl.
  destruct R as [Hlinks Hfixed Hfloor Hkept Hnearer Hindex Hcover].
  set (d := dist (h !!! c0) + 1) in *.
  set (h' := lower h (twalker n s) d).
  assert (L : forall x,
             same_links (h !!! x) (h' !!! x) /\
             distance_fixed (h' !!! x) = distance_fixed (h !!! x) /\
             dist (h' !!! x) = (if decide (x = n) then d else dist (h !!! x)) /\
             any_nearer (h' !!! x) = (if decide (x = n) then s else any_nearer (h !!! x))).
  { intros x. exact (lower_lookup h (twalker n s) d x). }
  assert (Hn : c0 <> n) by (intros ->; unfold d in Hlt; lia).
  destruct (Hl c0 i n s Hi Hmv) as [Hs Hback].
  assert (Hmove : forall x y, move (h' !!! x) y = move (h !!! x) y).
  { intros x y. apply move_same_c. apply (L x). }
  assert (Htype : forall x, type (h' !!! x) = type (h !!! x)) by (intros x; apply (L x)).
  assert (Hdist : forall x, dist (h' !!! x) <= dist (h !!! x)).
  { intros x. destruct (L x) as (_ & _ & -> & _).
    destruct (decide (x = n)) as [-> | _]; unfold d; lia. }
  assert (Hdrop : drop (S qi) (q ++ [n]) = drop (S qi) q ++ [n]).
  { apply drop_app_le. lia. }
  constructor.
  - intros t. exact (same_links_trans _ _ _ (Hlinks t) (proj1 (L t))).
  - destruct (L cinit) as (_ & -> & _). exact Hfixed.
  - intros t. destruct (L t) as (_ & _ & -> & _).
    pose proof (Hfloor t) as Ht. pose proof (Hfloor c0) as Hfc.
    destruct (decide (t = n)) as [-> | _]; unfold d; lia.
  - intros t. destruct (L t) as (_ & _ & -> & ->).
    pose proof (Hfloor t) as Ht.
    destruct (decide (t = n)) as [-> | _]; [unfold d; lia | apply Hkept].
  - intros t Ht. rewrite Htype. destruct (L t) as (_ & _ & Hd & Ha). rewrite Ha, Hd.
    rewrite Hd in Ht. destruct (decide (t = n)) as [-> | Hne].
    + split; [exact Hs |]. exists c0, i. rewrite Hmove. split; [exact Hback |].
      destruct (L c0) as (_ & _ & -> & _). rewrite decide_False by exact Hn.
      unfold d. lia.
    + destruct (Hnearer t Ht) as [Hrange (n1 & s1 & Hm1 & Hd1)].
      split; [exact Hrange |]. exists n1, s1. rewrite Hmove. split; [exact Hm1 |].
      pose proof (Hdist n1). lia.
  - rewrite length_app. simpl. lia.
  - intros t j n' s' Hj Hm' Hjump. rewrite Htype in Hj. rewrite Hmove in Hm'.
    rewrite Hdrop.
    destruct (decide (t = n)) as [-> | Ht].
    { left. apply elem_of_app. right. left. }
    destruct (decide (n' = n)) as [-> | Hn'].
    { right. left. apply elem_of_app. right. left. }
    destruct (L t) as (_ & _ & Hdt & _). destruct (L n') as (_ & _ & Hdn & _).
    rewrite Hdt, Hdn in Hjump. rewrite !decide_False in Hjump by assumption.
    destruct (Hcover t j n' s' Hj Hm' Hjump) as [Hin | [Hin | [[-> Hij] | [-> His]]]].
    + left. apply elem_of_app. left. exact Hin.
    + right. left. apply elem_of_app. left. exact Hin.
    + right. right. left. split; [reflexivity |].
      destruct (decide (j = i)) as [-> | Hne]; [| lia]. congruence.
    + right. right. right. split; [reflexivity |].
      destruct (decide (s' = i)) as [-> | Hne]; [| lia].
      destruct (Hl t j c0 i Hj Hm') as [_ Hb]. congruence.
Qed.

Lemma relaxing_next_tile h q qi c0 i c1 :
  relaxing hb m cinit h q qi c0 i -> type (h !!! c0) <= i ->
  q !! S qi = Some c1 ->
  relaxing hb m cinit h q (S qi) c1 0.
Proof.
  intros R Hi Hq. pose proof (relaxing_linked _ _ _ _ _ R) as Hl.
  destruct R as [Hlinks Hfixed Hfloor Hkept Hnearer Hindex Hcover].
  constructor; try assumption.
  - apply lookup_lt_Some in Hq. exact Hq.
  - intros t j n s Hj Hmv Hjump.
    destruct (Hl t j n s Hj Hmv) as [Hs _].
    rewrite (drop_S _ _ _ Hq) in Hcover.
    destruct (Hcover t j n s Hj Hmv Hjump) as [Hin | [Hin | [[-> Hij] | [-> His]]]];
      [| | lia | lia].
    + apply elem_of_cons in Hin. destruct Hin as [-> | Hin].
      * right. right. left. split; [reflexivity | lia].
      * left. exact Hin.
    + apply elem_of_cons in Hin. destruct Hin as [-> | Hin].
      * right. right. right. split; [reflexivity | lia].
      * right. left. exact Hin.
Qed.

Lemma relaxing_done h q qi c0 i :
  relaxing hb m cinit h q qi c0 i -> type (h !!! c0) <= i ->
  q !! S qi = None ->
  relaxed hb cinit h.
Proof.
  intros R Hi Hq. pose proof (relaxing_linked _ _ _ _ _ R) as Hl.
  destruct R as [Hlinks Hfixed Hfloor Hkept Hnearer Hindex Hcover].
  constructor; try assumption.
  - intros t. apply Hfloor.
  - intros t j n s Hj Hmv.
    destruct (Z_le_gt_dec (dist (h !!! t)) (dist (h !!! n) + 1)) as [Hle | Hgt];
      [exact Hle |].
    destruct (Hl t j n s Hj Hmv) as [Hs _].
    apply lookup_ge_None in Hq. rewrite (drop_ge _ _ Hq) in Hcover.
    destruct (Hcover t j n s Hj Hmv ltac:(lia)) as [Hin | [Hin | [[-> Hij] | [-> His]]]];
      [inversion Hin | inversion Hin | lia | lia].
Qed.

End Settling.

Lemma ends_with_step {A : Type} (run run' : nat -> result A) (a : A) :
  (forall fuel, run (S fuel) = run' fuel) -> ends_with run' a -> ends_with run a.
Proof.
  intros Hstep [n Hn]. exists (S n). intros [| fuel] Hle; [lia |].
  rewrite Hstep. apply Hn. lia.
Qed.

Section Running.

Context {su : Setup} {ca : Callees}.

Lemma ufindc_rep (fuel : nat) (g : gstate) (c0 : ptr) :
  is_rep (tiles g) c0 -> ufindc (S fuel) g c0 = Ok (g, c0).
Proof.
  intros Hr. unfold ufindc. rewrite (ufind_s_rep fuel g (twalker c0 0)) by exact Hr.
  reflexivity.
Qed.

Lemma tmove_known (g : gstate) (c0 : ptr) (i : Z) (n : ptr) (s : Z) :
  0 <= i < type (tiles g !!! c0) -> move (tiles g !!! c0) i = Some (n, s) ->
  tmove g c0 i = Ok (g, n).
Proof.
  intros Hi Hmv. unfold tmove.
  destruct (i <? 0) eqn:E1; [apply Z.ltb_lt in E1; lia |].
  destruct (i >=? type (tiles g !!! c0)) eqn:E2;
    [rewrite Z.geb_leb in E2; apply Z.leb_le in E2; lia |].
  simpl. rewrite Hmv. reflexivity.
Qed.

Lemma process_edge_keeps (fuel : nat) (g : gstate) (tw sw : walker) :
  dist (tiles g !!! at' tw) <= dist (tiles g !!! at' sw) + 1 ->
  Relaxation.process_edge fuel g tw sw = Ok (g, false).
Proof.
  intros Hle. unfold Relaxation.process_edge.
  destruct (dist (tiles g !!! at' tw) >? dist (tiles g !!! at' sw) + 1) eqn:E;
    [| reflexivity].
  rewrite Z.gtb_ltb in E. apply Z.ltb_lt in E. lia.
Qed.

Lemma process_edge_lowers (fuel : nat) (g : gstate) (tw sw : walker) :
  dist (tiles g !!! at' sw) + 1 < dist (tiles g !!! at' tw) ->
  is_solid (tiles g !!! at' tw) = false ->
  is_rep (tiles g) (at' tw) ->
  Relaxation.process_edge (S fuel) g tw sw
  = Ok (with_tiles g (lower (tiles g) tw (dist (tiles g !!! at' sw) + 1)), true).
Proof.
  intros Hlt Hsolid Hrep. unfold Relaxation.process_edge.
  destruct (dist (tiles g !!! at' tw) >? dist (tiles g !!! at' sw) + 1) eqn:E.
  - rewrite Hsolid. cbn [mbind result_bind].
    rewrite (ufind_s_rep fuel g tw Hrep). reflexivity.
  - rewrite Z.gtb_ltb in E. apply Z.ltb_ge in E. lia.
Qed.

Lemma relax_step_skip (fuel : nat) (g : gstate) (q : list ptr) (qi : nat) (c0 : ptr)
    (i : Z) :
  i < type (tiles g !!! c0) -> move (tiles g !!! c0) i = None ->
  Relaxation.relax_loop (S fuel) g q qi c0 i
  = Relaxation.relax_loop fuel g q qi c0 (i + 1).
Proof.
  intros Hi Hmv. cbn [Relaxation.relax_loop].
  apply Z.ltb_lt in Hi. rewrite Hi, Hmv. reflexivity.
Qed.

Lemma relax_step_exit (fuel : nat) (g : gstate) (q : list ptr) (qi : nat) (c0 : ptr)
    (i : Z) :
  type (tiles g !!! c0) <= i ->
  Relaxation.relax_loop (S fuel) g q qi c0 i
  = match q !! S qi with
    | Some c1 => Relaxation.relax_loop fuel g q (S qi) c1 0
    | None => Ok g
    end.
Proof.
  intros Hi. cbn [Relaxation.relax_loop].
  apply Z.ltb_ge in Hi. rewrite Hi. reflexivity.
Qed.

Lemma relax_step_edge (fuel : nat) (g : gstate) (q : list ptr) (qi : nat) (c0 : ptr)
    (i : Z) (n : ptr) (s : Z) :
  0 <= i < type (tiles g !!! c0) -> move (tiles g !!! c0) i = Some (n, s) ->
  is_rep (tiles g) c0 ->
  Relaxation.relax_loop (S fuel) g q qi c0 i
  = ('(g1, lowered) ← Relaxation.process_edge (S fuel) g (twalker c0 i) (twalker n s);
     if (lowered : bool) then Relaxation.relax_loop fuel g1 q qi c0 0
     else
       '(g2, lowered) ← Relaxation.process_edge (S fuel) g1 (twalker n s) (twalker c0 i);
       Relaxation.relax_loop fuel g2 (if (lowered : bool) then q ++ [n] else q) qi c0
         (i + 1)).
Proof.
  intros Hi Hmv Hrep. cbn [Relaxation.relax_loop].
  destruct (i <? type (tiles g !!! c0)) eqn:E; [| apply Z.ltb_ge in E; lia].
  rewrite Hmv. rewrite (ufindc_rep fuel g c0 Hrep). cbn [mbind result_bind].
  rewrite (tmove_known g c0 i n s Hi Hmv). cbn [mbind result_bind].
  rewrite Hmv. reflexivity.
Qed.

Variables (hb : heap) (m : Z) (ks : list ptr) (cinit : ptr).

Hypothesis Hlinked : linked hb.
Hypothesis Hunsolid : forall t, is_solid (hb !!! t) = false.
Hypothesis Hreps : forall t, 0 < type (hb !!! t) -> is_rep hb t.
Hypothesis Hks : forall t, 0 < type (hb !!! t) -> t ∈ ks.

Section Step.

Variable N : nat.

Hypothesis IHN :
  forall g q qi c0 i,
    0 <= i -> relaxing hb m cinit (tiles g) q qi c0 i ->
    (weight m ks (tiles g) < N)%nat ->
    exists g',
      ends_with (fun fuel => Relaxation.relax_loop fuel g q qi c0 i) g' /\
      g' = with_tiles g (tiles g') /\ relaxed hb cinit (tiles g').

Lemma edges_phase (g : gstate) (q : list ptr) (qi : nat) (c0 : ptr) :
  (forall i, type (tiles g !!! c0) <= i ->
     relaxing hb m cinit (tiles g) q qi c0 i ->
     exists g',
       ends_with (fun fuel => Relaxation.relax_loop fuel g q qi c0 i) g' /\
       g' = with_tiles g (tiles g') /\ relaxed hb cinit (tiles g')) ->
  forall (K : nat) (i : Z),
    0 <= i -> Z.to_nat (type (tiles g !!! c0) - i) = K ->
    relaxing hb m cinit (tiles g) q qi c0 i ->
    (weight m ks (tiles g) < S N)%nat ->
    exists g',
      ends_with (fun fuel => Relaxation.relax_loop fuel g q qi c0 i) g' /\
      g' = with_tiles g (tiles g') /\ relaxed hb cinit (tiles g').
Proof.
  intros Hexit. induction K as [| K IHK]; intros i Hi HK R Hw.
  - apply Hexit; [lia | exact R].
  - assert (Hrange : 0 <= i < type (tiles g !!! c0)) by lia.
    destruct (relaxing_plain hb m ks cinit Hunsolid Hreps Hks _ _ _ _ _ c0 R ltac:(lia))
      as (Hsolid0 & Hrep0 & Hin0).
    pose proof (relaxing_linked hb m cinit Hlinked _ _ _ _ _ R) as Hl.
    destruct (move (tiles g !!! c0) i) as [[n s] |] eqn:Hmv.
    + destruct (Hl c0 i n s Hrange Hmv) as [Hs Hback].
      destruct (relaxing_plain hb m ks cinit Hunsolid Hreps Hks _ _ _ _ _ n R ltac:(lia))
        as (Hsolidn & Hrepn & Hinn).
      pose proof (rx_floor _ _ _ _ _ _ _ _ R) as Hfloor.
      destruct (Z_lt_le_dec (dist (tiles g !!! n) + 1) (dist (tiles g !!! c0)))
        as [Hlow | Hok].
      * set (h1 := lower (tiles g) (twalker c0 i) (dist (tiles g !!! n) + 1)).
        pose proof (relaxing_restart hb m cinit Hlinked _ _ _ _ _ n s R Hrange Hmv Hlow)
          as R1.
        destruct (IHN (with_tiles g h1) q qi c0 0 ltac:(lia) R1) as (g' & Hend & Hg' & Hrel).
        { simpl. apply Nat.lt_le_trans with (m := weight m ks (tiles g)); [| lia].
          apply (weight_lower m ks (tiles g) h1 c0).
          - intros k.
            destruct (lower_lookup (tiles g) (twalker c0 i) (dist (tiles g !!! n) + 1) k)
              as (_ & _ & Hd & _).
            fold h1 in Hd. rewrite Hd. simpl.
            destruct (decide (k = c0)) as [-> | _]; lia.
          - exact Hin0.
          - apply (rx_floor _ _ _ _ _ _ _ _ R1).
          - destruct (lower_lookup (tiles g) (twalker c0 i) (dist (tiles g !!! n) + 1) c0)
              as (_ & _ & Hd & _).
            fold h1 in Hd. rewrite Hd. simpl. rewrite decide_True by reflexivity. lia. }
        exists g'. split; [| split; [| exact Hrel]].
        -- revert Hend. apply ends_with_step. intros fuel.
           rewrite (relax_step_edge fuel g q qi c0 i n s Hrange Hmv Hrep0).
           rewrite (process_edge_lowers fuel g (twalker c0 i) (twalker n s) Hlow Hsolid0 Hrep0).
           reflexivity.
        -- rewrite Hg'. reflexivity.
      * destruct (Z_lt_le_dec (dist (tiles g !!! c0) + 1) (dist (tiles g !!! n)))
          as [Hlow2 | Hok2].
        -- set (h2 := lower (tiles g) (twalker n s) (dist (tiles g !!! c0) + 1)).
           pose proof (relaxing_push hb m cinit Hlinked _ _ _ _ _ n s R Hrange Hmv Hlow2)
             as R2.
           destruct (IHN (with_tiles g h2) (q ++ [n]) qi c0 (i + 1) ltac:(lia) R2)
             as (g' & Hend & Hg' & Hrel).
           { simpl. apply Nat.lt_le_trans with (m := weight m ks (tiles g)); [| lia].
             apply (weight_lower m ks (tiles g) h2 n).
             - intros k.
               destruct (lower_lookup (tiles g) (twalker n s) (dist (tiles g !!! c0) + 1) k)
                 as (_ & _ & Hd & _).
               fold h2 in Hd. rewrite Hd. simpl.
               destruct (decide (k = n)) as [-> | _]; lia.
             - exact Hinn.
             - apply (rx_floor _ _ _ _ _ _ _ _ R2).
             - destruct (lower_lookup (tiles g) (twalker n s) (dist (tiles g !!! c0) + 1) n)
                 as (_ & _ & Hd & _).
               fold h2 in Hd. rewrite Hd. simpl. rewrite decide_True by reflexivity. lia. }
           exists g'. split; [| split; [| exact Hrel]].
           ++ revert Hend. apply ends_with_step. intros fuel.
              rewrite (relax_step_edge fuel g q qi c0 i n s Hrange Hmv Hrep0).
              rewrite (process_edge_keeps (S fuel) g (twalker c0 i) (twalker n s))
                by (simpl; lia).
              cbn [mbind result_bind].
              rewrite (process_edge_lowers fuel g (twalker n s) (twalker c0 i)
                         Hlow2 Hsolidn Hrepn).
              reflexivity.
           ++ rewrite Hg'. reflexivity.
        -- destruct (IHK (i + 1) ltac:(lia) ltac:(lia)) as (g' & Hend & Hg' & Hrel);
             [| exact Hw |].
           { apply (relaxing_next_edge hb m cinit Hlinked _ _ _ _ _ R).
             intros n' s' Hmv'. rewrite Hmv in Hmv'. injection Hmv' as <- <-. lia. }
           exists g'. split; [| split; assumption].
           revert Hend. apply ends_with_step. intros fuel.
           rewrite (relax_step_edge fuel g q qi c0 i n s Hrange Hmv Hrep0).
           rewrite (process_edge_keeps (S fuel) g (twalker c0 i) (twalker n s))
             by (simpl; lia).
           cbn [mbind result_bind].
           rewrite (process_edge_keeps (S fuel) g (twalker n s) (twalker c0 i))
             by (simpl; lia).
           reflexivity.
    + destruct (IHK (i + 1) ltac:(lia) ltac:(lia)) as (g' & Hend & Hg' & Hrel);
        [| exact Hw |].
      { apply (relaxing_next_edge hb m cinit Hlinked _ _ _ _ _ R).
        intros n' s' Hmv'. rewrite Hmv in Hmv'. discriminate. }
      exists g'. split; [| split; assumption].
      revert Hend. apply ends_with_step. intros fuel.
      apply relax_step_skip; [lia | exact Hmv].
Qed.

Lemma queue_phase (g : gstate) (q : list ptr) :
  forall (R : nat) (qi : nat) (c0 : ptr) (i : Z),
    (length q - S qi <= R)%nat -> 0 <= i ->
    relaxing hb m cinit (tiles g) q qi c0 i ->
    (weight m ks (tiles g) < S N)%nat ->
    exists g',
      ends_with (fun fuel => Relaxation.relax_loop fuel g q qi c0 i) g' /\
      g' = with_tiles g (tiles g') /\ relaxed hb cinit (tiles g').
Proof.
  induction R as [| R IHR]; intros qi c0 i HR Hi Rx Hw.
  - apply (edges_phase g q qi c0) with (K := Z.to_nat (type (tiles g !!! c0) - i));
      try assumption; [| reflexivity].
    intros i' Hi' Rx'. destruct (q !! S qi) as [c1 |] eqn:Hq.
    + apply lookup_lt_Some in Hq. lia.
    + exists g. split; [| split].
      * exists 1%nat. intros [| fuel] Hle; [lia |].
        rewrite (relax_step_exit fuel g q qi c0 i' Hi'), Hq. reflexivity.
      * symmetry. apply with_tiles_id.
      * exact (relaxing_done hb m cinit Hlinked _ _ _ _ _ Rx' Hi' Hq).
  - apply (edges_phase g q qi c0) with (K := Z.to_nat (type (tiles g !!! c0) - i));
      try assumption; [| reflexivity].
    intros i' Hi' Rx'. destruct (q !! S qi) as [c1 |] eqn:Hq.
    + pose proof (lookup_lt_Some _ _ _ Hq) as Hlen.
      destruct (IHR (S qi) c1 0 ltac:(lia) ltac:(lia)
                  (relaxing_next_tile hb m cinit Hlinked _ _ _ _ _ c1 Rx' Hi' Hq) Hw)
        as (g' & Hend & Hg' & Hrel).
      exists g'. split; [| split; assumption].
      revert Hend. apply ends_with_step. intros fuel.
      rewrite (relax_step_exit fuel g q qi c0 i' Hi'), Hq. reflexivity.
    + exists g. split; [| split].
      * exists 1%nat. intros [| fuel] Hle; [lia |].
        rewrite (relax_step_exit fuel g q qi c0 i' Hi'), Hq. reflexivity.
      * symmetry. apply with_tiles_id.
      * exact (relaxing_done hb m cinit Hlinked _ _ _ _ _ Rx' Hi' Hq).
Qed.

End Step.

Lemma relax_loop_settles :
  forall (N : nat) g q qi c0 i,
    0 <= i -> relaxing hb m cinit (tiles g) q qi c0 i ->
    (weight m ks (tiles g) < N)%nat ->
    exists g',
      ends_with (fun fuel => Relaxation.relax_loop fuel g q qi c0 i) g' /\
      g' = with_tiles g (tiles g') /\ relaxed hb cinit (tiles g').
Proof.
  induction N as [| N IHN]; intros g q qi c0 i Hi Rx Hw; [lia |].
  exact (queue_phase N IHN g q (length q - S qi) qi c0 i (le_n _) Hi Rx Hw).
Qed.

End Running.

Lemma tile_present_or_default (h : heap) (t : ptr) :
  h !!! t = inhabitant \/ t ∈ map fst (map_to_list h).
Proof.
  destruct (h !! t) as [x |] eqn:E.
  - right. apply list_elem_of_In, in_map_iff. exists (t, x). split; [reflexivity |].
    apply list_elem_of_In, elem_of_map_to_list. exact E.
  - left. rewrite lookup_total_alt, E. reflexivity.
Qed.

Lemma plain_heap_spec (h : heap) :
  plain_heap h = true ->
  linked h /\ (forall t, is_solid (h !!! t) = false) /\
  (forall t, 0 < type (h !!! t) -> is_rep h t).
Proof.
  intros Hp. unfold plain_heap in Hp. rewrite forallb_forall in Hp.
  assert (Hcase : forall t, h !!! t = inhabitant \/ plain_tile h t = true).
  { intros t. destruct (tile_present_or_default h t) as [Hd | Hin]; [left; exact Hd |].
    right. apply Hp. apply list_elem_of_In. exact Hin. }
  split; [| split].
  - intros t i n s Hi Hm. destruct (Hcase t) as [Hd | Hpt].
    + rewrite Hd in Hi. simpl in Hi. lia.
    + unfold plain_tile in Hpt. apply andb_true_iff in Hpt. destruct Hpt as [Hpt _].
      apply andb_true_iff in Hpt. destruct Hpt as [Hedges _].
      rewrite forallb_forall in Hedges.
      assert (Hin : In (Z.to_nat i) (seq 0 (Z.to_nat (type (h !!! t))))).
      { apply in_seq. lia. }
      specialize (Hedges _ Hin). unfold edge_linked in Hedges.
      rewrite Z2Nat.id in Hedges by lia. rewrite Hm in Hedges.
      apply andb_true_iff in Hedges. destruct Hedges as [Hs Hback].
      apply andb_true_iff in Hs. destruct Hs as [Hs1 Hs2].
      apply Z.leb_le in Hs1. apply Z.ltb_lt in Hs2.
      apply bool_decide_eq_true in Hback. split; [lia | exact Hback].
  - intros t. destruct (Hcase t) as [Hd | Hpt]; [rewrite Hd; reflexivity |].
    unfold plain_tile in Hpt. apply andb_true_iff in Hpt. destruct Hpt as [Hpt _].
    apply andb_true_iff in Hpt. destruct Hpt as [_ Hs].
    apply negb_true_iff in Hs. exact Hs.
  - intros t Ht. destruct (Hcase t) as [Hd | Hpt].
    + rewrite Hd in Ht. simpl in Ht. lia.
    + unfold plain_tile in Hpt. apply andb_true_iff in Hpt. destruct Hpt as [_ Hr].
      apply Nat.eqb_eq in Hr. exact Hr.
Qed.

Lemma jumps_at_spec (h : heap) (c0 : ptr) :
  jumps_at h c0 = true ->
  forall t j n s,
    0 <= j < type (h !!! t) -> move (h !!! t) j = Some (n, s) ->
    dist (h !!! n) + 1 < dist (h !!! t) -> t = c0 \/ n = c0.
Proof.
  intros Hj t j n s Hrange Hm Hjump. unfold jumps_at in Hj.
  rewrite forallb_forall in Hj.
  destruct (tile_present_or_default h t) as [Hd | Hin].
  { rewrite Hd in Hrange. simpl in Hrange. lia. }
  apply list_elem_of_In in Hin. specialize (Hj _ Hin).
  rewrite forallb_forall in Hj.
  assert (Hinj : In (Z.to_nat j) (seq 0 (Z.to_nat (type (h !!! t))))).
  { apply in_seq. lia. }
  specialize (Hj _ Hinj). rewrite Z2Nat.id in Hj by lia.
  unfold too_far in Hj. rewrite Z2Nat.id in Hj by lia. rewrite Hm in Hj.
  apply Z.ltb_lt in Hjump. rewrite Hjump in Hj. simpl in Hj.
  apply orb_true_iff in Hj. destruct Hj as [Ht | Hn].
  - left. apply bool_decide_eq_true in Ht. exact Ht.
  - right. apply bool_decide_eq_true in Hn. congruence.
Qed.

Lemma least_dist_le (h : heap) (t : ptr) : least_dist h <= dist (h !!! t).
Proof.
  unfold least_dist.
  assert (Hall : forall l : list (ptr * tcell),
            foldr (fun (kt : ptr * tcell) m => Z.min (dist kt.2) m) MYSTERY l <= MYSTERY /\
            forall kt, kt ∈ l ->
              foldr (fun (kt : ptr * tcell) m => Z.min (dist kt.2) m) MYSTERY l
              <= dist kt.2).
  { induction l as [| kt l [IH1 IH2]]; simpl.
    - split; [lia |]. intros kt Hin. inversion Hin.
    - split; [lia |]. intros kt' Hin. apply elem_of_cons in Hin.
      destruct Hin as [-> | Hin]; [lia |]. specialize (IH2 kt' Hin). lia. }
  destruct (Hall (map_to_list h)) as [Htop Hin].
  destruct (h !! t) as [x |] eqn:E.
  - rewrite (lookup_total_correct _ _ _ E).
    apply (Hin (t, x)). apply elem_of_map_to_list. exact E.
  - rewrite lookup_total_alt, E. exact Htop.
Qed.

Lemma relaxing_start (h : heap) (c0 : ptr) :
  linked h -> jumps_at h c0 = true ->
  relaxing h (least_dist h) c0 (upd h c0 (fun t => set_distance_fixed t true))
    [c0] 0 c0 0.
Proof.
  intros Hl Hj.
  set (h0 := upd h c0 (fun t => set_distance_fixed t true)).
  assert (L : forall x,
             same_links (h !!! x) (h0 !!! x) /\ dist (h0 !!! x) = dist (h !!! x) /\
             any_nearer (h0 !!! x) = any_nearer (h !!! x)).
  { intros x. unfold h0. destruct (decide (x = c0)) as [-> | Hne].
    - rewrite upd_same. repeat split; reflexivity.
    - rewrite upd_other by congruence. repeat split; reflexivity. }
  pose proof (same_links_linked h h0 (fun t => proj1 (L t)) Hl) as Hl0.
  constructor.
  - intros t. apply (L t).
  - unfold h0. rewrite upd_same. reflexivity.
  - intros t. destruct (L t) as (_ & -> & _). pose proof (least_dist_le h t). lia.
  - intros t _. apply (L t).
  - intros t Ht. destruct (L t) as (_ & Hd & _). lia.
  - simpl. lia.
  - intros t j n s Hrange Hm Hjump.
    destruct (Hl0 t j n s Hrange Hm) as [Hs _].
    destruct (L t) as ((_ & _ & Hty & _ & _ & Hc) & Hdt & _).
    destruct (L n) as (_ & Hdn & _).
    rewrite Hty in Hrange. rewrite (move_same_c _ _ _ Hc) in Hm.
    rewrite Hdt, Hdn in Hjump.
    destruct (jumps_at_spec h c0 Hj t j n s Hrange Hm Hjump) as [-> | ->].
    + right. right. left. split; [reflexivity | lia].
    + right. right. right. split; [reflexivity | lia].
Qed.

Section FixDistancesFacts.

Context {su : Setup} {ca : Callees}.

(** X11.  [fix_distances(c)] without the flags [w_bfs] and
    [w_known_distances], on an arena of tiles that are not solid and are
    their own representatives, whose edges are linked in both directions,
    when every edge on which the distances jump by more than one touches
    [c]: the relaxation ends, whatever the callees are, and marks
    [distance_fixed] of [c]; afterwards the distances of two tiles that share an edge
    differ by at most one everywhere.  No distance has grown, links,
    shapes and marks are as before, a tile whose distance is unchanged
    keeps its [any_nearer], and [any_nearer] of a tile whose distance was
    lowered is an edge to a tile exactly one step nearer. *)
Theorem fix_distances_relaxes :
  forall (g : gstate) (bfs_queue : list ptr) (c0 : ptr),
    has_flag flags w_bfs = false ->
    has_flag flags w_known_distances = false ->
    plain_heap (tiles g) = true ->
    jumps_at (tiles g) c0 = true ->
    exists g',
      ends_with (fun fuel => Relaxation.fix_distances fuel g bfs_queue c0)
        (g', bfs_queue) /\
      g' = with_tiles g (tiles g') /\
      distance_fixed (tiles g' !!! c0) = true /\
      (forall t i n s,
         0 <= i < type (tiles g' !!! t) -> move (tiles g' !!! t) i = Some (n, s) ->
         dist (tiles g' !!! n) - 1 <= dist (tiles g' !!! t) <= dist (tiles g' !!! n) + 1) /\
      (forall t, same_links (tiles g !!! t) (tiles g' !!! t) /\
                 dist (tiles g' !!! t) <= dist (tiles g !!! t)) /\
      (forall t, dist (tiles g' !!! t) = dist (tiles g !!! t) ->
                 any_nearer (tiles g' !!! t) = any_nearer (tiles g !!! t)) /\
      (forall t, dist (tiles g' !!! t) < dist (tiles g !!! t) ->
         exists n s,
           move (tiles g' !!! t) (any_nearer (tiles g' !!! t)) = Some (n, s) /\
           dist (tiles g' !!! n) + 1 = dist (tiles g' !!! t)).
Proof.
  intros g bfs_queue c0 Hbfs Hknown Hplain Hjumps.
  destruct (plain_heap_spec _ Hplain) as (Hl & Hsolid & Hreps).
  set (g0 := upd_tile g c0 (fun t => set_distance_fixed t true)).
  assert (Hks : forall t, 0 < type (tiles g !!! t) -> t ∈ map fst (map_to_list (tiles g))).
  { intros t Ht. destruct (tile_present_or_default (tiles g) t) as [Hd | Hin];
      [| exact Hin]. rewrite Hd in Ht. simpl in Ht. lia. }
  destruct (relax_loop_settles (tiles g) (least_dist (tiles g))
              (map fst (map_to_list (tiles g))) c0 Hl Hsolid Hreps Hks
              (S (weight (least_dist (tiles g)) (map fst (map_to_list (tiles g)))
                    (tiles g0)))
              g0 [c0] 0%nat c0 0 ltac:(lia)
              (relaxing_start (tiles g) c0 Hl Hjumps) ltac:(lia))
    as (g' & [n Hend] & Hg' & Hrel).
  destruct Hrel as [Hlinks Hfixed Hfloor Hkept Hnearer Hsmooth].
  pose proof (same_links_linked _ _ Hlinks Hl) as Hl'.
  exists g'. split; [| split; [| split; [| split; [| split; [| split]]]]].
  - exists n. intros fuel Hle. unfold Relaxation.fix_distances.
    rewrite Hbfs, Hknown. fold g0. rewrite (Hend fuel Hle). reflexivity.
  - rewrite Hg'. reflexivity.
  - exact Hfixed.
  - intros t i n' s Hi Hm. split.
    + destruct (Hl' t i n' s Hi Hm) as [Hs Hback].
      pose proof (Hsmooth n' s t i Hs Hback). lia.
    + exact (Hsmooth t i n' s Hi Hm).
  - intros t. split; [apply Hlinks | apply Hfloor].
  - exact Hkept.
  - intros t Ht. destruct (Hnearer t Ht) as [Hrange (n' & s & Hm & Hd)].
    exists n', s. split; [exact Hm |].
    pose proof (Hsmooth t _ n' s Hrange Hm). lia.
Qed.

End FixDistancesFacts.

Lemma fix_distances_relaxes_witness :
  exists g',
    ends_with
      (fun fuel =>
         Relaxation.fix_distances (su := sample_setup) (ca := unreached) fuel
           row_of_three [] 1%nat)
      (g', []) /\
    distance_fixed (tiles g' !!! 1%nat) = true.
Proof.
  destruct (fix_distances_relaxes (su := sample_setup) (ca := unreached)
              row_of_three [] 1%nat eq_refl eq_refl eq_refl eq_refl)
    as (g' & Hend & _ & Hfixed & _).
  exists g'. split; [exact Hend | exact Hfixed].
Defined.

(** The row of three squares: the two unknown distances become 1 and 2,
    each tile pointing back along the row. *)
Example fix_distances_row :
  exists g',
    Relaxation.fix_distances (su := sample_setup) (ca := unreached) 20
      row_of_three [] 1%nat = Ok (g', []) /\
    (fun t => dist (tiles g' !!! t)) <$> [1%nat; 2%nat; 3%nat] = [0; 1; 2] /\
    (fun t => any_nearer (tiles g' !!! t)) <$> [2%nat; 3%nat] = [2; 2].
Proof. eexists. split; [vm_compute; reflexivity |]. split; vm_compute; reflexivity. Qed.

(** ** Analyzers *)

Lemma at_index_Ok {A : Type} (v : list A) (i : Z) (x : A) :
  at_index v i = Ok x -> 0 <= i < Z.of_nat (length v) /\ v !! Z.to_nat i = Some x.
Proof.
  unfold at_index. destruct (i <? 0) eqn:E; [discriminate |].
  apply Z.ltb_ge in E. destruct (v !! Z.to_nat i) as [y |] eqn:Hv; [| discriminate].
  intros Hx. injection Hx as <-. apply lookup_lt_Some in Hv as Hlt.
  split; [lia | reflexivity].
Qed.

Lemma at_index_lookup {A : Type} (v : list A) (n : nat) (x : A) :
  v !! n = Some x -> at_index v (Z.of_nat n) = Ok x.
Proof.
  intros Hv. unfold at_index.
  destruct (Z.of_nat n <? 0) eqn:E; [apply Z.ltb_lt in E; lia |].
  rewrite Nat2Z.id, Hv. reflexivity.
Qed.

Lemma at_index_first {A : Type} (v : list A) (x : A) :
  v !! 0%nat = Some x -> at_index v 0 = Ok x.
Proof. exact (at_index_lookup v 0%nat x). Qed.

Lemma grown_refl (a : analyzer) : grown a a.
Proof. repeat split; reflexivity. Qed.

Lemma grown_trans (a1 a2 a3 : analyzer) : grown a1 a2 -> grown a2 a3 -> grown a1 a3.
Proof.
  intros (H1 & H2 & H3) (G1 & G2 & G3).
  repeat split; etrans; eassumption.
Qed.

Lemma grown_push (a : analyzer) (cw : walker) (pid s : Z) :
  grown a (mk_analyzer (a_spread a ++ [cw]) (a_parent_id a ++ [pid]) (a_spin a ++ [s])).
Proof. repeat split; simpl; apply prefix_app_r; reflexivity. Qed.

Lemma grown_length (a a' : analyzer) :
  grown a a' -> (length (a_spread a) <= length (a_spread a'))%nat.
Proof. intros (H & _). apply prefix_length. exact H. Qed.

Lemma rooted_push (a : analyzer) (cw : walker) (pid s : Z) :
  rooted a ->
  (if decide (length (a_spread a) = 0%nat) then pid = -1
   else 0 <= pid < Z.of_nat (length (a_spread a))) ->
  rooted (mk_analyzer (a_spread a ++ [cw]) (a_parent_id a ++ [pid]) (a_spin a ++ [s])).
Proof.
  intros (Hp & Hs & Htree) Hpid. unfold rooted. simpl.
  rewrite !length_app. simpl. split; [lia |]. split; [lia |].
  intros i p Hi. apply lookup_snoc_Some in Hi.
  destruct Hi as [[Hlt Hi] | [Hlen Hi]].
  - exact (Htree i p Hi).
  - subst p i. rewrite Hp. exact Hpid.
Qed.

Lemma rooted_no_analyzer : rooted no_analyzer.
Proof. repeat split. intros i pid Hi. destruct i; discriminate. Qed.

Section AnalyzerFacts.

Context {su : Setup} {ca : Callees}.

Lemma add_step_spec (fuel : nat) (g g' : gstate) (a a' : analyzer) (pid s : Z) :
  Analyzers.add_step fuel g a pid s = Ok (g', a') ->
  0 <= pid < Z.of_nat (length (a_spread a)) /\
  exists cw,
    a' = mk_analyzer (a_spread a ++ [cw]) (a_parent_id a ++ [pid]) (a_spin a ++ [s]).
Proof.
  unfold Analyzers.add_step. intros H.
  apply bind_Ok_inv in H. destruct H as (cw0 & Hcw & H).
  apply at_index_Ok in Hcw. destruct Hcw as [Hpid _].
  apply bind_Ok_inv in H. destruct H as ([g1 cw1] & _ & H).
  apply bind_Ok_inv in H. destruct H as ([g2 cw2] & _ & H).
  injection H as <- <-. split; [exact Hpid |]. exists cw2. reflexivity.
Qed.

Lemma add_step_rooted (fuel : nat) (g g' : gstate) (a a' : analyzer) (pid s : Z) :
  Analyzers.add_step fuel g a pid s = Ok (g', a') ->
  rooted a ->
  rooted a' /\ grown a a' /\ length (a_spread a') = S (length (a_spread a)).
Proof.
  intros H Hr. apply add_step_spec in H. destruct H as [Hpid [cw ->]].
  split; [| split].
  - apply rooted_push; [exact Hr |].
    destruct (decide (length (a_spread a) = 0%nat)); lia.
  - apply grown_push.
  - simpl. rewrite length_app. simpl. lia.
Qed.

Lemma first_steps_spec (fuel : nat) :
  forall (g g' : gstate) (a a' : analyzer) (cw : walker) (j : nat),
    Analyzers.first_steps fuel g a cw (Z.of_nat j) = Ok (g', a') ->
    rooted a ->
    rooted a' /\ grown a a' /\
    exists n : nat,
      length (a_spread a') = (length (a_spread a) + n)%nat /\
      a_parent_id a' = a_parent_id a ++ replicate n 0 /\
      a_spin a' = a_spin a ++ (Z.of_nat <$> seq j n) /\
      type (tiles g' !!! at' cw) <= Z.of_nat (j + n).
Proof.
  induction fuel as [| fuel IH]; intros g g' a a' cw j H Hr; [discriminate |].
  cbn [Analyzers.first_steps] in H.
  destruct (Z.of_nat j <? type (tiles g !!! at' cw)) eqn:E.
  - apply bind_Ok_inv in H. destruct H as ([g1 a1] & Hstep & H).
    destruct (add_step_rooted _ _ _ _ _ _ _ Hstep Hr) as (Hr1 & Hg1 & Hlen1).
    apply add_step_spec in Hstep. destruct Hstep as [_ [cw1 Ha1]].
    replace (Z.of_nat j + 1) with (Z.of_nat (S j)) in H by lia.
    destruct (IH _ _ _ _ _ _ H Hr1) as (Hr' & Hg' & n & Hlen & Hp & Hs & Hty).
    split; [exact Hr' |]. split; [exact (grown_trans _ _ _ Hg1 Hg') |].
    exists (S n). rewrite Hlen, Hlen1, Hp, Hs, Ha1. simpl.
    rewrite <- !app_assoc. simpl.
    split; [lia |]. split; [reflexivity |]. split; [reflexivity |]. lia.
  - injection H as <- <-. apply Z.ltb_ge in E.
    split; [exact Hr |]. split; [apply grown_refl |].
    exists 0%nat. simpl. rewrite !app_nil_r. repeat split; lia.
Qed.

Lemma lookup_total_rooted (az : gmap aid_t analyzer) (k : aid_t) :
  (forall k0 a, az !! k0 = Some a -> rooted a) -> rooted (az !!! k).
Proof.
  intros Hall. rewrite lookup_total_alt.
  destruct (az !! k) as [a |] eqn:E; simpl; [exact (Hall k a E) | apply rooted_no_analyzer].
Qed.

Lemma lookup_total_present (az : gmap aid_t analyzer) (k : aid_t) :
  a_spread (az !!! k) <> [] -> az !! k = Some (az !!! k).
Proof.
  rewrite lookup_total_alt. destruct (az !! k) as [a |] eqn:E; simpl; [reflexivity |].
  intros H. contradiction H. reflexivity.
Qed.

Lemma get_analyzer_cases (fuel : nat) (g g' : gstate) (az az' : gmap aid_t analyzer)
    (cw : walker) (k : aid_t) :
  Analyzers.get_analyzer fuel g az cw = Ok (g', az', k) ->
  exists g1,
    get_aid fuel g cw = Ok (g1, k) /\
    ((a_spread (az !!! k) <> [] /\ az' = az /\ g' = g1) \/
     (a_spread (az !!! k) = [] /\
      exists a',
        Analyzers.first_steps fuel g1
          (mk_analyzer [cw] (a_parent_id (az !!! k) ++ [-1]) (a_spin (az !!! k) ++ [-1]))
          cw (Z.of_nat 0) = Ok (g', a') /\
        az' = <[k := a']> az)).
Proof.
  unfold Analyzers.get_analyzer. intros H.
  apply bind_Ok_inv in H. destruct H as ([g1 aid] & Haid & H).
  destruct (a_spread (az !!! aid)) as [| w ws] eqn:Hsp.
  - apply bind_Ok_inv in H. destruct H as ([g2 a2] & Hfirst & H).
    injection H as <- <- <-. exists g1. split; [exact Haid |]. right.
    split; [exact Hsp |]. exists a2. split; [exact Hfirst | reflexivity].
  - injection H as <- <- <-. exists g1. split; [exact Haid |]. left.
    rewrite Hsp. repeat split. discriminate.
Qed.

Lemma rooted_empty (a : analyzer) :
  rooted a -> a_spread a = [] -> a_parent_id a = [] /\ a_spin a = [].
Proof.
  intros (Hp & Hs & _) Hsp. rewrite Hsp in Hp, Hs. simpl in Hp, Hs.
  split; apply nil_length_inv; assumption.
Qed.

(** X12.  [get_analyzer(cw)], when it returns, on a map of rooted
    analyzers: the key is the analyzer id of [cw]; an analyzer that is in
    the map already (with a spread that is not empty) is returned as it is,
    and the map is not changed; otherwise the analyzer is built with [cw]
    as entry 0 (parent -1, spin -1) and one entry per edge of the tile,
    each with parent 0 and the edge as spin, in order, and it is stored
    under the key.  No other key of the map is touched, and every analyzer
    of the map is rooted afterwards. *)
Theorem get_analyzer_rooted :
  forall (fuel : nat) (g g' : gstate) (az az' : gmap aid_t analyzer) (cw : walker)
         (k : aid_t),
    (forall k0 a, az !! k0 = Some a -> rooted a) ->
    Analyzers.get_analyzer fuel g az cw = Ok (g', az', k) ->
    (exists g1, get_aid fuel g cw = Ok (g1, k)) /\
    (forall k0 a, az' !! k0 = Some a -> rooted a) /\
    (forall k0, k0 <> k -> az' !! k0 = az !! k0) /\
    (exists a, az' !! k = Some a /\ a_spread a <> []) /\
    (a_spread (az !!! k) <> [] -> az' = az) /\
    (a_spread (az !!! k) = [] ->
     exists n : nat,
       a_spread (az' !!! k) !! 0%nat = Some cw /\
       length (a_spread (az' !!! k)) = S n /\
       a_parent_id (az' !!! k) = -1 :: replicate n 0 /\
       a_spin (az' !!! k) = -1 :: (Z.of_nat <$> seq 0 n) /\
       type (tiles g' !!! at' cw) <= Z.of_nat n).
Proof.
  intros fuel g g' az az' cw k Hall H.
  apply get_analyzer_cases in H. destruct H as (g1 & Haid & Hcase).
  split; [exists g1; exact Haid |].
  destruct Hcase as [(Hsp & -> & ->) | (Hsp & a' & Hfirst & ->)].
  - split; [exact Hall |]. split; [reflexivity |].
    split; [exists (az !!! k); split; [apply lookup_total_present |]; exact Hsp |].
    split; [reflexivity |]. intros E. contradiction.
  - pose proof (lookup_total_rooted az k Hall) as Hrk.
    destruct (rooted_empty _ Hrk Hsp) as [Hp0 Hs0]. rewrite Hp0, Hs0 in Hfirst.
    simpl in Hfirst.
    assert (Hr0 : rooted (mk_analyzer [cw] [-1] [-1])).
    { apply (rooted_push no_analyzer cw (-1) (-1) rooted_no_analyzer). reflexivity. }
    destruct (first_steps_spec fuel _ _ _ _ _ 0%nat Hfirst Hr0)
      as (Hr' & Hg' & n & Hlen & Hp & Hs & Hty).
    simpl in Hlen, Hp, Hs, Hty.
    split; [| split; [| split; [| split]]].
    + intros k0 a Hk0. apply lookup_insert_Some in Hk0.
      destruct Hk0 as [[_ <-] | [_ Hk0]]; [exact Hr' | exact (Hall k0 a Hk0)].
    + intros k0 Hne. apply lookup_insert_ne. congruence.
    + exists a'. split; [apply lookup_insert_eq |].
      intros E. rewrite E in Hlen. discriminate.
    + intros E. contradiction.
    + intros _. exists n. rewrite lookup_total_insert_eq.
      split; [| split; [exact Hlen | split; [exact Hp | split; [exact Hs | exact Hty]]]].
      destruct Hg' as (Hpre & _). simpl in Hpre.
      apply (prefix_lookup_Some _ _ 0%nat cw) in Hpre; [exact Hpre | reflexivity].
Qed.

Lemma get_analyzer_keeps (fuel : nat) (g g' : gstate) (az az' : gmap aid_t analyzer)
    (cw : walker) (k : aid_t) :
  (forall k0 a, az !! k0 = Some a -> rooted a) ->
  Analyzers.get_analyzer fuel g az cw = Ok (g', az', k) ->
  (forall k0 a, az' !! k0 = Some a -> rooted a) /\
  (forall k0 a, az !! k0 = Some a -> exists a', az' !! k0 = Some a' /\ grown a a').
Proof.
  intros Hall H.
  apply get_analyzer_cases in H. destruct H as (g1 & Haid & Hcase).
  destruct Hcase as [(Hsp & -> & ->) | (Hsp & a' & Hfirst & ->)].
  - split; [exact Hall |]. intros k0 a Hk0. exists a. split; [exact Hk0 | apply grown_refl].
  - pose proof (lookup_total_rooted az k Hall) as Hrk.
    destruct (rooted_empty _ Hrk Hsp) as [Hp0 Hs0]. rewrite Hp0, Hs0 in Hfirst.
    simpl in Hfirst.
    assert (Hr0 : rooted (mk_analyzer [cw] [-1] [-1])).
    { apply (rooted_push no_analyzer cw (-1) (-1) rooted_no_analyzer). reflexivity. }
    destruct (first_steps_spec fuel _ _ _ _ _ 0%nat Hfirst Hr0) as (Hr' & Hg' & _).
    split.
    + intros k0 a Hk0. apply lookup_insert_Some in Hk0.
      destruct Hk0 as [[_ <-] | [_ Hk0]]; [exact Hr' | exact (Hall k0 a Hk0)].
    + intros k0 a Hk0. destruct (decide (k0 = k)) as [-> | Hne].
      * exists a'. split; [apply lookup_insert_eq |].
        rewrite (lookup_total_correct _ _ _ Hk0) in Hsp, Hp0, Hs0.
        unfold grown. rewrite Hsp, Hp0, Hs0. repeat split; apply prefix_nil.
      * exists a. split; [| apply grown_refl].
        rewrite lookup_insert_ne by congruence. exact Hk0.
Qed.

Lemma extend_path_spec (fuel : nat) :
  forall (ids : list Z) (g g' : gstate) (a a' : analyzer) (gid : Z) (added added' : bool),
    Analyzers.extend_path ids fuel g a gid added = Ok (g', a', added') ->
    rooted a ->
    rooted a' /\ grown a a' /\
    (added' = true ->
     added = true \/ (length (a_spread a) < length (a_spread a'))%nat).
Proof.
  induction ids as [| s ids IH]; intros g g' a a' gid added added' H Hr.
  - injection H as <- <- <-. split; [exact Hr |]. split; [apply grown_refl |].
    intros E. left. exact E.
  - cbn [Analyzers.extend_path] in H.
    apply bind_Ok_inv in H. destruct H as (next & _ & H).
    destruct (next =? -1).
    + apply bind_Ok_inv in H. destruct H as ([g1 a1] & Hstep & H).
      destruct (add_step_rooted _ _ _ _ _ _ _ Hstep Hr) as (Hr1 & Hg1 & Hlen1).
      destruct (IH _ _ _ _ _ _ _ H Hr1) as (Hr' & Hg' & _).
      split; [exact Hr' |]. split; [exact (grown_trans _ _ _ Hg1 Hg') |].
      intros _. right. pose proof (grown_length _ _ Hg'). lia.
    + exact (IH _ _ _ _ _ _ _ H Hr).
Qed.

(** X13.  [extend_analyzer], when it returns, on a map of rooted
    analyzers: every analyzer of the map is rooted afterwards; an analyzer
    that was in the map is still there, with its old entries at their old
    indices and new entries added behind them only.  With [target] the key
    [get_analyzer] gives for the representative of [cw_target] and [az5]
    the map after the two calls of [get_analyzer]: the map returned is
    [az5] with the analyzer under [target] replaced by one grown from it,
    and a call with [mism == 0] returns only if that analyzer has more
    entries than it had in [az5], that is, only if the extension loop has
    added an entry to the target analyzer (otherwise it throws
    "no extension"). *)
Theorem extend_analyzer_grows :
  forall (fuel : nat) (g g' : gstate) (az az' : gmap aid_t analyzer)
         (cw_target : walker) (dir id0 mism : Z) (rg : walker),
    (forall k a, az !! k = Some a -> rooted a) ->
    Analyzers.extend_analyzer fuel g az cw_target dir id0 mism rg = Ok (g', az') ->
    (forall k a, az' !! k = Some a -> rooted a) /\
    (forall k a, az !! k = Some a -> exists a', az' !! k = Some a' /\ grown a a') /\
    (exists (g1 g2 g3 g4 g5 : gstate) (cw1 rg1 cw_conflict : walker)
            (az4 az5 : gmap aid_t analyzer) (target conflict : aid_t) (a' : analyzer),
       ufind_s fuel g cw_target = Ok (g1, cw1) /\
       ufind_s fuel g1 rg = Ok (g2, rg1) /\
       wstep g2 (wplus (tiles g2) cw1 dir) = Ok (g3, cw_conflict) /\
       Analyzers.get_analyzer fuel g3 az cw1 = Ok (g4, az4, target) /\
       Analyzers.get_analyzer fuel g4 az4 cw_conflict = Ok (g5, az5, conflict) /\
       az' = <[target := a']> az5 /\
       grown (az5 !!! target) a' /\
       (mism = 0 ->
        (length (a_spread (az5 !!! target)) < length (a_spread a'))%nat /\
        (length (a_parent_id (az5 !!! target)) < length (a_parent_id a'))%nat /\
        (length (a_spin (az5 !!! target)) < length (a_spin a'))%nat)).
Proof.
  intros fuel g g' az az' cw_target dir id0 mism rg Hall H.
  unfold Analyzers.extend_analyzer in H.
  apply bind_Ok_inv in H. destruct H as ([g1 cw1] & Hu1 & H).
  apply bind_Ok_inv in H. destruct H as ([g2 rg2] & Hu2 & H).
  apply bind_Ok_inv in H. destruct H as ([g3 cwc] & Hws & H).
  apply bind_Ok_inv in H. destruct H as ([[g4 az4] target] & Hget1 & H).
  apply bind_Ok_inv in H. destruct H as ([[g5 az5] conflict] & Hget2 & H).
  apply bind_Ok_inv in H. destruct H as (ids & _ & H).
  apply bind_Ok_inv in H. destruct H as ([[g6 a6] added] & Hpath & H).
  destruct (get_analyzer_keeps _ _ _ _ _ _ _ Hall Hget1) as [Hall4 Hgrow4].
  destruct (get_analyzer_keeps _ _ _ _ _ _ _ Hall4 Hget2) as [Hall5 Hgrow5].
  destruct (extend_path_spec _ _ _ _ _ _ _ _ _ Hpath (lookup_total_rooted az5 target Hall5))
    as (Hr6 & Hg6 & Hadded).
  assert (Hgrow : forall k a, az !! k = Some a ->
            exists a', az5 !! k = Some a' /\ grown a a').
  { intros k a Hk. destruct (Hgrow4 k a Hk) as (a4 & Hk4 & Hg4).
    destruct (Hgrow5 k a4 Hk4) as (a5 & Hk5 & Hg5).
    exists a5. split; [exact Hk5 | exact (grown_trans _ _ _ Hg4 Hg5)]. }
  destruct ((mism =? 0) && negb added) eqn:Hthrow; [discriminate |].
  injection H as <- <-.
  split; [| split].
  - intros k a Hk. apply lookup_insert_Some in Hk.
    destruct Hk as [[_ <-] | [_ Hk]]; [exact Hr6 | exact (Hall5 k a Hk)].
  - intros k a Hk. destruct (Hgrow k a Hk) as (a5 & Hk5 & Hg5).
    destruct (decide (k = target)) as [-> | Hne].
    + exists a6. split; [apply lookup_insert_eq |].
      rewrite (lookup_total_correct _ _ _ Hk5) in Hg6.
      exact (grown_trans _ _ _ Hg5 Hg6).
    + exists a5. split; [| exact Hg5]. rewrite lookup_insert_ne by congruence. exact Hk5.
  - exists g1, g2, g3, g4, g5, cw1, rg2, cwc, az4, az5, target, conflict, a6.
    split; [exact Hu1 |]. split; [exact Hu2 |]. split; [exact Hws |].
    split; [exact Hget1 |]. split; [exact Hget2 |]. split; [reflexivity |].
    split; [exact Hg6 |].
    intros Hm. apply Z.eqb_eq in Hm. rewrite Hm in Hthrow. simpl in Hthrow.
    apply negb_false_iff in Hthrow.
    destruct (Hadded Hthrow) as [Hf | Hlt]; [discriminate |].
    pose proof (lookup_total_rooted az5 target Hall5) as (Hp5 & Hs5 & _).
    destruct Hr6 as (Hp6 & Hs6 & _).
    split; [exact Hlt |]. split; lia.
Qed.

End AnalyzerFacts.

Lemma get_analyzer_rooted_witness :
  exists g' az' k,
    Analyzers.get_analyzer (su := sample_setup) (ca := unreached) 10 torus_tile ∅
      (twalker 0%nat 0) = Ok (g', az', k) /\
    (forall k0 a, az' !! k0 = Some a -> rooted a) /\
    exists a, az' !! k = Some a /\ a_spread a <> [].
Proof.
  assert (Hrun : { r | Analyzers.get_analyzer (su := sample_setup) (ca := unreached) 10
                         torus_tile ∅ (twalker 0%nat 0) = Ok r }).
  { eexists. vm_compute. reflexivity. }
  destruct Hrun as [[[g' az'] k] Hrun].
  assert (Hall : forall (k0 : aid_t) (a : analyzer),
            (∅ : gmap aid_t analyzer) !! k0 = Some a -> rooted a).
  { intros k0 a Hk0. rewrite lookup_empty in Hk0. discriminate. }
  destruct (get_analyzer_rooted (su := sample_setup) (ca := unreached)
              10 torus_tile g' ∅ az' (twalker 0%nat 0) k Hall Hrun)
    as (_ & Hrooted & _ & Hthere & _).
  exists g', az', k. split; [exact Hrun |]. split; [exact Hrooted | exact Hthere].
Defined.

(** On the square glued to itself the analyzer of the walker [(0, 0)] has
    the key [(0, 0)] and five entries: the walker and, for each edge, the
    walker across it. *)
Example get_analyzer_torus :
  exists g' az',
    Analyzers.get_analyzer (su := sample_setup) (ca := unreached) 10 torus_tile ∅
      (twalker 0%nat 0) = Ok (g', az', (0, 0)) /\
    az' !!! (0, 0)
    = mk_analyzer
        [twalker 0%nat 0; twalker 0%nat 2; twalker 0%nat 3; twalker 0%nat 0;
         twalker 0%nat 1]
        [-1; 0; 0; 0; 0] [-1; 0; 1; 2; 3].
Proof. eexists _, _. split; vm_compute; reflexivity. Qed.

Lemma torus_analyzers_rooted :
  forall (k : aid_t) (a : analyzer), torus_analyzers !! k = Some a -> rooted a.
Proof.
  intros k a Hk. unfold torus_analyzers in Hk.
  apply lookup_singleton_Some in Hk. destruct Hk as [_ <-].
  split; [reflexivity |]. split; [reflexivity |].
  intros i pid Hi. cbn [a_parent_id] in Hi.
  do 5 (destruct i as [| i]; [injection Hi as <-; simpl; lia |]).
  discriminate.
Qed.

Lemma extend_analyzer_grows_witness :
  exists g' az',
    Analyzers.extend_analyzer (su := sample_setup) (ca := unreached) 10 torus_tile
      torus_analyzers (twalker 0%nat 0) 0 1 0 (twalker 0%nat 0) = Ok (g', az') /\
    (forall k a, az' !! k = Some a -> rooted a) /\
    exists (az5 : gmap aid_t analyzer) (target : aid_t) (a' : analyzer),
      az' = <[target := a']> az5 /\
      grown (az5 !!! target) a' /\
      (length (a_spread (az5 !!! target)) < length (a_spread a'))%nat.
Proof.
  assert (Hrun : { r | Analyzers.extend_analyzer (su := sample_setup) (ca := unreached) 10
                         torus_tile torus_analyzers (twalker 0%nat 0) 0 1 0
                         (twalker 0%nat 0) = Ok r }).
  { eexists. vm_compute. reflexivity. }
  destruct Hrun as [[g' az'] Hrun].
  destruct (extend_analyzer_grows (su := sample_setup) (ca := unreached)
              10 torus_tile g' torus_analyzers az' (twalker 0%nat 0) 0 1 0
              (twalker 0%nat 0) torus_analyzers_rooted Hrun)
    as (Hrooted & _ & Hadded).
  exists g', az'. split; [exact Hrun |]. split; [exact Hrooted |].
  destruct Hadded as (_ & _ & _ & _ & _ & _ & _ & _ & _ & az5 & target & _ & a'
                      & _ & _ & _ & _ & _ & Haz & Hgrown & Hmore).
  exists az5, target, a'. split; [exact Haz |]. split; [exact Hgrown |].
  exact (proj1 (Hmore eq_refl)).
Defined.

(** Extending the analyzer of [(0, 0)] by the path to entry 1 of the
    analyzer across edge 0 (the same analyzer) adds one entry, below
    entry 1; a second call finds the path and throws. *)
Example extend_analyzer_torus :
  (p ← Analyzers.extend_analyzer (su := sample_setup) (ca := unreached) 10 torus_tile ∅
         (twalker 0%nat 0) 0 1 0 (twalker 0%nat 0);
   Ok (a_parent_id (p.2 !!! (0, 0)), a_spin (p.2 !!! (0, 0))))
  = Ok ([-1; 0; 0; 0; 0; 1], [-1; 0; 1; 2; 3; 0]) /\
  (p ← Analyzers.extend_analyzer (su := sample_setup) (ca := unreached) 10 torus_tile ∅
         (twalker 0%nat 0) 0 1 0 (twalker 0%nat 0);
   Analyzers.extend_analyzer (su := sample_setup) (ca := unreached) 10 p.1 p.2
     (twalker 0%nat 0) 0 1 0 (twalker 0%nat 0))
  = Throw (rulegen_retry "no extension") /\
  (p ← Analyzers.extend_analyzer (su := sample_setup) (ca := unreached) 10 torus_tile
         torus_analyzers (twalker 0%nat 0) 0 1 0 (twalker 0%nat 0);
   Ok (a_parent_id (p.2 !!! (0, 0)), a_spin (p.2 !!! (0, 0))))
  = Ok ([-1; 0; 0; 0; 0; 1], [-1; 0; 1; 2; 3; 0]).
Proof. split; [| split]; vm_compute; reflexivity. Qed.

Lemma edges_known_spec (h : heap) (t : ptr) (i : Z) :
  edges_known h t = true -> 0 <= i < type (h !!! t) ->
  exists n s, move (h !!! t) i = Some (n, s).
Proof.
  intros Hk Hi. unfold edges_known in Hk. rewrite forallb_forall in Hk.
  assert (Hin : In (Z.to_nat i) (seq 0 (Z.to_nat (type (h !!! t))))).
  { apply in_seq. lia. }
  specialize (Hk _ Hin). apply bool_decide_eq_true in Hk.
  rewrite Z2Nat.id in Hk by lia. destruct Hk as [[n s] Hk]. exists n, s. exact Hk.
Qed.

Section StarFacts.

Context {su : Setup} {ca : Callees}.

Variables (g : gstate) (cw : walker).

Hypothesis Hrep : is_rep (tiles g) (at' cw).
Hypothesis Hknown : edges_known (tiles g) (at' cw) = true.

Lemma step_across (fuel : nat) (i : Z) :
  0 <= i < type (tiles g !!! at' cw) ->
  exists w,
    ufind_s (S fuel) g (wplus (tiles g) cw i) = Ok (g, w) /\
    w = wplus (tiles g) cw i /\
    wstep g w = Ok (g, across (tiles g) w).
Proof.
  intros Hi. exists (wplus (tiles g) cw i).
  split; [apply ufind_s_rep; exact Hrep |]. split; [reflexivity |].
  assert (Hs : 0 <= spin (wplus (tiles g) cw i) < type (tiles g !!! at' cw)).
  { simpl. apply Z.mod_pos_bound. lia. }
  destruct (edges_known_spec _ _ _ Hknown Hs) as (n & s & Hm).
  unfold wstep. change (at' (wplus (tiles g) cw i)) with (at' cw).
  rewrite (tmove_known g (at' cw) _ n s Hs Hm). cbn [mbind result_bind].
  unfold across, peek. change (at' (wplus (tiles g) cw i)) with (at' cw).
  rewrite Hm. reflexivity.
Qed.

Lemma add_step_across (fuel : nat) (a : analyzer) (i : Z) :
  a_spread a !! 0%nat = Some cw -> 0 <= i < type (tiles g !!! at' cw) ->
  Analyzers.add_step (S fuel) g a 0 i
  = Ok (g, mk_analyzer (a_spread a ++ [across (tiles g) (wplus (tiles g) cw i)])
             (a_parent_id a ++ [0]) (a_spin a ++ [i])).
Proof.
  intros H0 Hi. unfold Analyzers.add_step.
  rewrite (at_index_first (a_spread a) cw H0). cbn [mbind result_bind].
  destruct (step_across fuel i Hi) as (w & Hu & -> & Hw).
  rewrite Hu. cbn [mbind result_bind]. rewrite Hw. reflexivity.
Qed.

Lemma first_steps_star :
  forall (m j fuel : nat) (a : analyzer),
    Z.of_nat (j + m) = type (tiles g !!! at' cw) ->
    (m < fuel)%nat ->
    a_spread a !! 0%nat = Some cw ->
    Analyzers.first_steps fuel g a cw (Z.of_nat j)
    = Ok (g, mk_analyzer
               (a_spread a
                ++ ((fun i => across (tiles g) (wplus (tiles g) cw (Z.of_nat i)))
                      <$> seq j m))
               (a_parent_id a ++ replicate m 0)
               (a_spin a ++ (Z.of_nat <$> seq j m))).
Proof.
  induction m as [| m IH]; intros j fuel a HT Hfuel H0;
    (destruct fuel as [| fuel]; [lia |]); cbn [Analyzers.first_steps].
  - destruct (Z.of_nat j <? type (tiles g !!! at' cw)) eqn:E;
      [apply Z.ltb_lt in E; lia |].
    simpl. rewrite !app_nil_r. destruct a; reflexivity.
  - destruct (Z.of_nat j <? type (tiles g !!! at' cw)) eqn:E;
      [| apply Z.ltb_ge in E; lia].
    rewrite (add_step_across fuel a (Z.of_nat j) H0) by lia.
    cbn [mbind result_bind].
    replace (Z.of_nat j + 1) with (Z.of_nat (S j)) by lia.
    rewrite (IH (S j) fuel) by
      first [lia
            | simpl; rewrite lookup_app_l;
              [exact H0 | apply lookup_lt_Some in H0; exact H0]].
    simpl. rewrite <- !app_assoc. reflexivity.
Qed.

Lemma spread_loop_star (fuel : nat) :
  forall (m j : nat) (res : list walker),
    Z.of_nat (j + m) = type (tiles g !!! at' cw) ->
    res !! 0%nat = Some cw ->
    Analyzers.spread_loop (seq (S j) m) (S fuel) g (star (tiles g) cw) res
    = Ok (g, res ++ ((fun i => across (tiles g) (wplus (tiles g) cw (Z.of_nat i)))
                       <$> seq j m)).
Proof.
  induction m as [| m IH]; intros j res HT H0.
  - simpl. rewrite app_nil_r. reflexivity.
  - cbn [seq Analyzers.spread_loop].
    assert (Hj : (j < Z.to_nat (type (tiles g !!! at' cw)))%nat) by lia.
    assert (Hp : at_index (a_parent_id (star (tiles g) cw)) (Z.of_nat (S j)) = Ok 0).
    { apply at_index_lookup. simpl. apply lookup_replicate_2. exact Hj. }
    assert (Hs : at_index (a_spin (star (tiles g) cw)) (Z.of_nat (S j)) = Ok (Z.of_nat j)).
    { apply at_index_lookup. simpl.
      rewrite list_lookup_fmap, lookup_seq_lt by exact Hj. reflexivity. }
    rewrite Hp. cbn [mbind result_bind].
    rewrite (at_index_first res cw H0). cbn [mbind result_bind].
    rewrite (ufind_s_rep fuel g cw Hrep). cbn [mbind result_bind].
    rewrite Hs. cbn [mbind result_bind].
    destruct (step_across fuel (Z.of_nat j) ltac:(lia)) as (w & Hu & -> & Hw).
    rewrite Hu. cbn [mbind result_bind]. rewrite Hw. cbn [mbind result_bind].
    change (Z.to_nat 0) with 0%nat.
    rewrite (list_insert_id res 0%nat cw H0).
    rewrite (IH (S j)) by
      first [lia
            | rewrite lookup_app_l; [exact H0 | apply lookup_lt_Some in H0; exact H0]].
    rewrite <- app_assoc. reflexivity.
Qed.

(** X14.  On a tile that is its own representative and has all its edges
    materialized, [get_analyzer(cw)] for an analyzer id not yet in the map
    returns without changing the arena, and stores the star of [cw]: [cw]
    itself, then for each edge, counted from the one [cw] looks along, the
    walker one step across it.  [spread] of that analyzer from [cw] gives
    its spread vector back. *)
Theorem get_analyzer_star :
  forall (fuel : nat) (az : gmap aid_t analyzer),
    (Z.to_nat (type (tiles g !!! at' cw)) < fuel)%nat ->
    az !! aid_of (tiles g) shapes cw = None ->
    Analyzers.get_analyzer fuel g az cw
    = Ok (g, <[aid_of (tiles g) shapes cw := star (tiles g) cw]> az,
          aid_of (tiles g) shapes cw) /\
    Analyzers.spread fuel g (star (tiles g) cw) cw
    = Ok (g, a_spread (star (tiles g) cw)).
Proof.
  intros fuel az Hfuel Hnone. destruct fuel as [| fuel]; [lia |].
  assert (HT : 0 <= type (tiles g !!! at' cw) \/ type (tiles g !!! at' cw) < 0) by lia.
  split.
  - unfold Analyzers.get_analyzer. rewrite (get_aid_rep fuel g cw Hrep).
    cbn [mbind result_bind]. fold (aid_of (tiles g) shapes cw).
    rewrite (lookup_total_alt az), Hnone.
    change (default inhabitant None) with no_analyzer.
    cbn [a_spread a_parent_id a_spin no_analyzer app].
    destruct HT as [HT | HT].
    + pose proof (first_steps_star (Z.to_nat (type (tiles g !!! at' cw))) 0 (S fuel)
                    (mk_analyzer [cw] [-1] [-1]) ltac:(lia) ltac:(lia) eq_refl) as Hf.
      change (Z.of_nat 0) with 0 in Hf. rewrite Hf. reflexivity.
    + cbn [Analyzers.first_steps].
      destruct (0 <? type (tiles g !!! at' cw)) eqn:E; [apply Z.ltb_lt in E; lia |].
      unfold star. replace (Z.to_nat (type (tiles g !!! at' cw))) with 0%nat by lia.
      reflexivity.
  - unfold Analyzers.spread. unfold star at 1. simpl.
    rewrite length_fmap, length_seq. rewrite Nat.sub_0_r.
    destruct HT as [HT | HT].
    + rewrite (spread_loop_star fuel (Z.to_nat (type (tiles g !!! at' cw))) 0 [cw])
        by first [lia | reflexivity].
      reflexivity.
    + replace (Z.to_nat (type (tiles g !!! at' cw))) with 0%nat by lia. reflexivity.
Qed.

End StarFacts.

Lemma get_analyzer_star_witness :
  Analyzers.spread (ca := unreached) 5 torus_tile
    (star (tiles torus_tile) (twalker 0%nat 1)) (twalker 0%nat 1)
  = Ok (torus_tile, a_spread (star (tiles torus_tile) (twalker 0%nat 1))).
Proof.
  exact (proj2 (get_analyzer_star (su := sample_setup) (ca := unreached)
                  torus_tile (twalker 0%nat 1) eq_refl eq_refl 5 ∅
                  ltac:(vm_compute; lia) eq_refl)).
Defined.

(** ** The table of codes *)

Lemma same_codes_refl (g : gstate) : same_codes g g.
Proof. split; reflexivity. Qed.

Lemma same_codes_trans (g1 g2 g3 : gstate) :
  same_codes g1 g2 -> same_codes g2 g3 -> same_codes g1 g3.
Proof. intros [H1 H2] [G1 G2]. split; congruence. Qed.

Lemma same_codes_tiles (g : gstate) (h : heap) : same_codes g (with_tiles g h).
Proof. split; reflexivity. Qed.

Lemma same_codes_upd_tile (g : gstate) (p : ptr) (f : tcell -> tcell) :
  same_codes g (upd_tile g p f).
Proof. split; reflexivity. Qed.

(** Reading a successful run backwards: every bind gave a value, every
    branch taken ended in [Ok]. *)
Ltac run_inv :=
  repeat match goal with
         | H : (_ ≫= _) = Ok _ |- _ =>
             apply bind_Ok_inv in H; destruct H as (? & ? & H)
         | x : (_ * _)%type |- _ => destruct x
         | H : Ok _ = Ok _ |- _ => injection H; clear H; intros; subst
         | H : Throw _ = Ok _ |- _ => discriminate H
         | H : Diverge = Ok _ |- _ => discriminate H
         | H : (if ?b then _ else _) = Ok _ |- _ => destruct b eqn:?
         | H : match ?m with Some _ => _ | None => _ end = Ok _ |- _ => destruct m eqn:?
         end.

(** The goal follows from the equalities collected. *)
Ltac codes_done :=
  unfold same_codes in *;
  repeat match goal with H : _ /\ _ |- _ => destruct H end;
  cbn [treestates code_to_id upd_tile with_tiles with_hard_parents with_parent_updates
       with_solid_errors with_fix_queue with_try_count with_tunified] in *;
  split; congruence.

Section TableFacts.

Context {su : Setup} {ca : Callees}.

Hypothesis Hkept : codes_kept ca.

Lemma ufind_s_codes (fuel : nat) (g g' : gstate) (p r : walker) :
  ufind_s fuel g p = Ok (g', r) -> same_codes g g'.
Proof.
  unfold ufind_s. intros H. apply bind_Ok_inv in H. destruct H as ([h r'] & _ & H).
  injection H as <- _. apply same_codes_tiles.
Qed.

Lemma ufindc_codes (fuel : nat) (g g' : gstate) (c0 c1 : ptr) :
  ufindc fuel g c0 = Ok (g', c1) -> same_codes g g'.
Proof.
  unfold ufindc. intros H. apply bind_Ok_inv in H. destruct H as ([g1 r] & Hu & H).
  injection H as <- _. exact (ufind_s_codes _ _ _ _ _ Hu).
Qed.

Lemma calc_distances_codes (g g' : gstate) (c0 : ptr) :
  calc_distances g c0 = Ok g' -> same_codes g g'.
Proof.
  unfold calc_distances. destruct (negb (dist (tiles g !!! c0) =? MYSTERY)).
  - intros H. injection H as <-. apply same_codes_refl.
  - apply (ck_fix_distances _ Hkept).
Qed.

Lemma look_for_shortcuts_codes (g g' : gstate) (c0 : ptr) :
  look_for_shortcuts g c0 = Ok g' -> same_codes g g'.
Proof.
  unfold look_for_shortcuts. destruct (dist (tiles g !!! c0) >? 0).
  - apply (ck_look_for_shortcuts_in _ Hkept).
  - intros H. injection H as <-. apply same_codes_refl.
Qed.

Lemma be_solid_codes (fuel : nat) :
  forall (g g' : gstate) (c0 : ptr), be_solid fuel g c0 = Ok g' -> same_codes g g'.
Proof.
  induction fuel as [| fuel IH]; intros g g' c0 H; [discriminate |].
  cbn [be_solid] in H. run_inv;
    repeat match goal with
           | H : ufindc _ _ _ = Ok _ |- _ => apply ufindc_codes in H
           | H : calc_distances _ _ = Ok _ |- _ => apply calc_distances_codes in H
           | H : look_for_shortcuts _ _ = Ok _ |- _ => apply look_for_shortcuts_codes in H
           | H : be_solid fuel _ _ = Ok _ |- _ => apply IH in H
           end;
    codes_done.
Qed.

Lemma tmove_codes (g g' : gstate) (c0 c1 : ptr) (d : Z) :
  tmove g c0 d = Ok (g', c1) -> same_codes g g'.
Proof.
  unfold tmove. intros H.
  destruct ((d <? 0) || (d >=? type (tiles g !!! c0))); [discriminate |].
  destruct (move (tiles g !!! c0) d) as [[c2 s2] |].
  - injection H as <- _. apply same_codes_refl.
  - exact (ck_tmove_new _ Hkept _ _ _ _ _ H).
Qed.

Lemma wstep_codes (g g' : gstate) (w w' : walker) :
  wstep g w = Ok (g', w') -> same_codes g g'.
Proof.
  unfold wstep. intros H. run_inv.
  match goal with H : tmove _ _ _ = Ok _ |- _ => apply tmove_codes in H end.
  codes_done.
Qed.

Lemma ensure_shorter_codes (g g' : gstate) (cw : walker) :
  ensure_shorter g cw = Ok g' -> same_codes g g'.
Proof.
  unfold ensure_shorter. destruct (has_flag flags w_known_distances).
  - apply (ck_ensure_shorter_known _ Hkept).
  - intros H. injection H as <-. apply same_codes_refl.
Qed.

Lemma handle_distance_errors_codes (g g' : gstate) :
  handle_distance_errors g = Ok g' -> same_codes g g'.
Proof. unfold handle_distance_errors. intros H. run_inv; codes_done. Qed.

(** What is known of the runs met so far. *)
Ltac learn_codes :=
  repeat match goal with
         | H : ufind_s _ _ _ = Ok _ |- _ => apply ufind_s_codes in H
         | H : ufindc _ _ _ = Ok _ |- _ => apply ufindc_codes in H
         | H : be_solid _ _ _ = Ok _ |- _ => apply be_solid_codes in H
         | H : tmove _ _ _ = Ok _ |- _ => apply tmove_codes in H
         | H : wstep _ _ = Ok _ |- _ => apply wstep_codes in H
         | H : ensure_shorter _ _ = Ok _ |- _ => apply ensure_shorter_codes in H
         | H : handle_distance_errors _ = Ok _ |- _ =>
             apply handle_distance_errors_codes in H
         | H : fix_distances _ _ = Ok _ |- _ => apply (ck_fix_distances _ Hkept) in H
         | H : find_new_shortcuts _ _ _ _ _ _ = Ok _ |- _ =>
             apply (ck_find_new_shortcuts _ Hkept) in H
         | H : get_side _ _ = Ok _ |- _ => apply (ck_get_side _ Hkept) in H
         | H : analyze _ _ = Ok _ |- _ => apply (ck_analyze _ Hkept) in H
         end.

Lemma collect_nearer_codes (fuel : nat) :
  forall (todo : nat) (i : Z) (g g' : gstate) (cw cw' : walker) (oc : ptr) (d : Z)
         (nearer : list Z) (out : option (list Z)),
    collect_nearer todo fuel i g cw oc d nearer = Ok (g', cw', out) ->
    same_codes g g'.
Proof.
  induction todo as [| todo IH]; intros i g g' cw cw' oc d nearer out H.
  - injection H as <- _ _. apply same_codes_refl.
  - cbn [collect_nearer] in H. run_inv; learn_codes;
      try match goal with
          | H : collect_nearer todo _ _ _ _ _ _ _ = Ok _ |- _ => apply IH in H
          end;
      codes_done.
Qed.

Lemma set_parent_codes (g g' : gstate) (cw cw' cd : walker) (oc : ptr) (bestd : Z) :
  set_parent g cw oc bestd = Ok (g', cw', cd) -> same_codes g g'.
Proof. unfold set_parent. intros H. run_inv; learn_codes; codes_done. Qed.

Section Exhaustive.

Variable gpd : gstate -> walker -> gpd_result.

Hypothesis Hgpd : forall g g' cw cw' cd, gpd g cw = Ok (g', cw', cd) -> same_codes g g'.

Lemma beats_exhaustive_with_codes (fuel : nat) :
  forall (g g' : gstate) (w1 w2 : walker) (b : bool),
    beats_exhaustive_with gpd fuel g w1 w2 = Ok (g', b) -> same_codes g g'.
Proof.
  induction fuel as [| fuel IH]; intros g g' w1 w2 b H; [discriminate |].
  cbn [beats_exhaustive_with] in H. run_inv; learn_codes;
    repeat match goal with
           | H : gpd _ _ = Ok _ |- _ => apply Hgpd in H
           | H : beats_exhaustive_with gpd fuel _ _ _ = Ok _ |- _ => apply IH in H
           end;
    codes_done.
Qed.

End Exhaustive.

Lemma resolve_loop_codes (be : gstate -> walker -> walker -> result (gstate * bool)) :
  (forall g g' w1 w2 b, be g w1 w2 = Ok (g', b) -> same_codes g g') ->
  forall (l : list Z) (c0 : ptr) (g g' : gstate) (bestd bestd' : Z),
    resolve_loop be c0 l g bestd = Ok (g', bestd') -> same_codes g g'.
Proof.
  intros Hbe. induction l as [| ne l IH]; intros c0 g g' bestd bestd' H.
  - injection H as <- _. apply same_codes_refl.
  - cbn [resolve_loop] in H. run_inv;
      repeat match goal with
             | H : be _ _ _ = Ok _ |- _ => apply Hbe in H
             | H : resolve_loop be _ l _ _ = Ok _ |- _ => apply IH in H
             end;
      codes_done.
Qed.

Lemma get_parent_dir_codes (fuel : nat) :
  forall (g g' : gstate) (cw cw' cd : walker),
    get_parent_dir fuel g cw = Ok (g', cw', cd) -> same_codes g g'.
Proof.
  induction fuel as [| fuel IH]; intros g g' cw cw' cd H; [discriminate |].
  cbn [get_parent_dir] in H.
  assert (Hbe : forall g g' w1 w2 b,
            beats_exhaustive_with (get_parent_dir fuel) fuel g w1 w2 = Ok (g', b) ->
            same_codes g g').
  { intros g0 g0' w1 w2 b. apply beats_exhaustive_with_codes. exact IH. }
  pose proof (resolve_loop_codes _ Hbe) as Hres.
  run_inv; learn_codes;
    repeat match goal with
           | H : collect_nearer _ _ _ _ _ _ _ _ = Ok _ |- _ =>
               apply collect_nearer_codes in H
           | H : set_parent _ _ _ _ = Ok _ |- _ => apply set_parent_codes in H
           | H : get_parent_dir fuel _ _ = Ok _ |- _ => apply IH in H
           | H : resolve_loop _ _ _ _ _ = Ok _ |- _ => apply Hres in H
           end;
    codes_done.
Qed.

Lemma classify_entry_codes (fuel : nat) (g g' : gstate) (cs : walker) (x : Z) :
  classify_entry fuel g cs = Ok (g', x) -> same_codes g g'.
Proof.
  unfold classify_entry. intros H. run_inv; learn_codes;
    repeat match goal with
           | H : get_parent_dir _ _ _ = Ok _ |- _ => apply get_parent_dir_codes in H
           end;
    codes_done.
Qed.

Lemma id_at_spin_loop_codes (fuel : nat) (parent_id : list Z) :
  forall (sprawl : list walker) (i : Z) (g g' : gstate) (cw : walker) (res res' : list Z),
    id_at_spin_loop fuel parent_id sprawl i g cw res = Ok (g', res') ->
    same_codes g g'.
Proof.
  induction sprawl as [| cs sprawl IH]; intros i g g' cw res res' H.
  - injection H as <- _. apply same_codes_refl.
  - cbn [id_at_spin_loop] in H. run_inv; learn_codes;
      repeat match goal with
             | H : classify_entry _ _ _ = Ok _ |- _ => apply classify_entry_codes in H
             | H : id_at_spin_loop _ _ sprawl _ _ _ _ = Ok _ |- _ => apply IH in H
             end;
      codes_done.
Qed.

Lemma get_aid_codes (fuel : nat) (g g' : gstate) (cw : walker) (aid : aid_t) :
  get_aid fuel g cw = Ok (g', aid) -> same_codes g g'.
Proof. unfold get_aid. intros H. run_inv; learn_codes; codes_done. Qed.

Lemma id_at_spin_codes (fuel : nat) (g g' : gstate) (cw : walker) (v : code_t) :
  id_at_spin fuel g cw = Ok (g', v) -> same_codes g g'.
Proof.
  unfold id_at_spin. intros H. run_inv; learn_codes;
    repeat match goal with
           | H : get_aid _ _ _ = Ok _ |- _ => apply get_aid_codes in H
           | H : id_at_spin_loop _ _ _ _ _ _ _ = Ok _ |- _ =>
               apply id_at_spin_loop_codes in H
           end;
    codes_done.
Qed.

(** The two ways in which [get_code] returns: from the cache of the tile,
    or with the id of the code that [id_at_spin] computes for the parent
    walker [cd], a known id or a new one. *)
Lemma get_code_cases (fuel : nat) (g g' : gstate) (cw cw' : walker) (d n : Z) :
  get_code fuel g cw = Ok (g', cw', (d, n)) ->
  (code (tiles g !!! at' cw) <> MYSTERY /\ parent_dir (tiles g !!! at' cw) <> MYSTERY /\
   g' = g /\ cw' = cw /\ n = code (tiles g !!! at' cw)) \/
  ((code (tiles g !!! at' cw) = MYSTERY \/ parent_dir (tiles g !!! at' cw) = MYSTERY) /\
   exists (g3 g4 : gstate) (cd : walker) (v : code_t),
     same_codes g g3 /\ id_at_spin fuel g3 cd = Ok (g4, v) /\ d = spin cd /\
     ((code_to_id g4 !! v = Some n /\
       g' = upd_tile g4 (at' cd) (fun t => set_code t n)) \/
      (code_to_id g4 !! v = None /\ n = Z.of_nat (length (treestates g4)) /\
       treestates g' = treestates g4
                       ++ [mk_treestate n false [] None 0 0 (Some cw') v true false false []] /\
       code_to_id g' = <[v := n]> (code_to_id g4)))).
Proof.
  unfold get_code. intros H.
  destruct (code (tiles g !!! at' cw) =? MYSTERY) eqn:Ec;
    destruct (parent_dir (tiles g !!! at' cw) =? MYSTERY) eqn:Ep;
    cbn [negb andb] in H;
    try (apply Z.eqb_neq in Ec; apply Z.eqb_neq in Ep; injection H as <- <- _ <-;
         left; repeat split; assumption).
  all: right; split;
    [first [left; apply Z.eqb_eq; exact Ec | right; apply Z.eqb_eq; exact Ep] |].
  all: apply bind_Ok_inv in H; destruct H as (g1 & H1 & H);
    apply bind_Ok_inv in H; destruct H as ([[g2 cw2] cd] & H2 & H);
    apply bind_Ok_inv in H; destruct H as ([g3 cw3] & H3 & H);
    apply bind_Ok_inv in H; destruct H as ([g4 v] & H4 & H);
    assert (S3 : same_codes g g3) by
      (apply be_solid_codes in H1;
       assert (S2 : same_codes g1 g2) by
         (destruct (dist (tiles g1 !!! at' cw) =? 0);
          [injection H2 as <- _ _; apply same_codes_refl
          | exact (get_parent_dir_codes _ _ _ _ _ _ H2)]);
       assert (S23 : same_codes g2 g3) by
         (destruct (negb (at' cd =? at' cw)%nat);
          [exact (ufind_s_codes _ _ _ _ _ H3)
          | injection H3 as <- _; apply same_codes_refl]);
       exact (same_codes_trans _ _ _ H1 (same_codes_trans _ _ _ S2 S23)));
    exists g3, g4, cd, v; split; [exact S3 |]; split; [exact H4 |];
    destruct (code_to_id g4 !! v) as [n0 |] eqn:Hv;
    [ injection H as <- <- <- <-; split; [reflexivity |]; left; split; reflexivity
    | match type of H with
      | (if ?b then _ else _) = _ => destruct b; [discriminate |]
      end;
      injection H as <- <- <- <-; split; [reflexivity |]; right;
      repeat split; reflexivity ].
Qed.

Lemma same_codes_grown (g g' : gstate) : same_codes g g' -> codes_grown g g'.
Proof.
  intros [Ht Hc]. unfold codes_grown, code_table. rewrite Ht, Hc.
  split; [reflexivity |]. split; [reflexivity |]. intros H. exact H.
Qed.

Lemma codes_grown_refl (g : gstate) : codes_grown g g.
Proof. apply same_codes_grown, same_codes_refl. Qed.

Lemma codes_grown_trans (g1 g2 g3 : gstate) :
  codes_grown g1 g2 -> codes_grown g2 g3 -> codes_grown g1 g3.
Proof.
  intros (H1 & H2 & H3) (G1 & G2 & G3).
  split; [etrans; eassumption |]. split; [etrans; eassumption |]. auto.
Qed.

Lemma code_table_new (g : gstate) (v : code_t) (nts : treestate) :
  code_table g -> code_to_id g !! v = None ->
  ts_id nts = Z.of_nat (length (treestates g)) -> ts_code nts = v ->
  forall g', treestates g' = treestates g ++ [nts] ->
             code_to_id g' = <[v := Z.of_nat (length (treestates g))]> (code_to_id g) ->
             code_table g'.
Proof.
  intros Htab Hnone Hid Hcode g' Ht Hc v' n' Hv'. rewrite Hc in Hv'. rewrite Ht.
  apply lookup_insert_Some in Hv'. destruct Hv' as [[<- <-] | [Hne Hv']].
  - split; [lia |]. exists nts. rewrite Nat2Z.id.
    rewrite lookup_app_r by lia. rewrite Nat.sub_diag. repeat split; assumption.
  - destruct (Htab v' n' Hv') as (Hn & ts & Hts & Hi & Hcd).
    split; [exact Hn |]. exists ts. split; [| split; assumption].
    apply lookup_app_l_Some. exact Hts.
Qed.

Lemma get_code_grown (fuel : nat) (g g' : gstate) (cw cw' : walker) (co : Z * Z) :
  get_code fuel g cw = Ok (g', cw', co) -> codes_grown g g'.
Proof.
  destruct co as [d n]. intros H. apply get_code_cases in H.
  destruct H as [(_ & _ & -> & _) | (_ & g3 & g4 & cd & v & S3 & Hid & _ & Hcase)].
  - apply codes_grown_refl.
  - apply id_at_spin_codes in Hid.
    pose proof (same_codes_trans _ _ _ S3 Hid) as S4.
    apply (codes_grown_trans _ g4); [apply same_codes_grown; exact S4 |].
    destruct Hcase as [(_ & ->) | (Hnone & Hn & Ht & Hc)].
    + apply same_codes_grown, same_codes_upd_tile.
    + split; [rewrite Ht; apply prefix_app_r; reflexivity |].
      split; [rewrite Hc; apply insert_subseteq; exact Hnone |].
      intros Htab. subst n.
      exact (code_table_new g4 v
               (mk_treestate (Z.of_nat (length (treestates g4))) false [] None 0 0
                  (Some cw') v true false false [])
               Htab Hnone eq_refl eq_refl g' Ht Hc).
Qed.

Lemma gen_rule_edges_grown (fuel : nat) :
  forall (todo : nat) (a : Z) (g g' : gstate) (cwmain : walker) (cids cids' : list Z),
    gen_rule_edges todo fuel a g cwmain cids = Ok (g', cids') -> codes_grown g g'.
Proof.
  induction todo as [| todo IH]; intros a g g' cwmain cids cids' H.
  - injection H as <- _. apply codes_grown_refl.
  - cbn [gen_rule_edges] in H.
    apply bind_Ok_inv in H. destruct H as ([g1 c1] & H1 & H).
    apply bind_Ok_inv in H. destruct H as (g2 & H2 & H).
    apply wstep_codes in H1. apply be_solid_codes in H2.
    pose proof (same_codes_grown _ _ (same_codes_trans _ _ _ H1 H2)) as G2.
    apply (codes_grown_trans _ g2); [exact G2 |].
    destruct ((a =? 0) && negb (dist (tiles g2 !!! at' cwmain) =? 0));
      [exact (IH _ _ _ _ _ _ H) |].
    destruct (dist (tiles g2 !!! at' c1) <=? dist (tiles g2 !!! at' cwmain));
      [exact (IH _ _ _ _ _ _ H) |].
    apply bind_Ok_inv in H. destruct H as ([[g3 c3] co] & H3 & H).
    apply bind_Ok_inv in H. destruct H as ([g4 back] & H4 & H).
    apply get_code_grown in H3. apply tmove_codes in H4.
    apply (codes_grown_trans _ g3); [exact H3 |].
    apply (codes_grown_trans _ g4); [apply same_codes_grown; exact H4 |].
    match type of H with
    | (if ?b then _ else _) = _ => destruct b
    end; exact (IH _ _ _ _ _ _ H).
Qed.

Lemma gen_rule_grown (fuel : nat) (g g' : gstate) (cwmain : walker) (n : Z)
    (cids : list Z) :
  gen_rule fuel g cwmain n = Ok (g', cids) -> codes_grown g g'.
Proof.
  unfold gen_rule. intros H.
  apply bind_Ok_inv in H. destruct H as ([g1 cids1] & H1 & H).
  apply bind_Ok_inv in H. destruct H as (cids2 & _ & H).
  injection H as <- _. exact (gen_rule_edges_grown _ _ _ _ _ _ _ _ H1).
Qed.

(** X15.  [get_code], when it returns, with callees that leave the table
    alone: the table of codes stays consistent (a code that has an id has
    the id of a state carrying that id and that code), no coded id is lost
    or changed, and the table of states is either unchanged or has gained
    exactly one state at its end, for a code that had no id: not known,
    live, seen at [cw], with the next free index as id.  Unless the answer
    came from the cache of the tile, the id returned is the id of a
    code of the table. *)
Theorem get_code_table :
  forall (fuel : nat) (g g' : gstate) (cw cw' : walker) (d n : Z),
    code_table g ->
    get_code fuel g cw = Ok (g', cw', (d, n)) ->
    code_table g' /\
    code_to_id g ⊆ code_to_id g' /\
    (treestates g' = treestates g \/
     exists v,
       code_to_id g !! v = None /\
       code_to_id g' = <[v := n]> (code_to_id g) /\
       n = Z.of_nat (length (treestates g)) /\
       treestates g'
       = treestates g
         ++ [mk_treestate n false [] None 0 0 (Some cw') v true false false []]) /\
    (code (tiles g !!! at' cw) = MYSTERY \/ parent_dir (tiles g !!! at' cw) = MYSTERY ->
     exists v ts,
       code_to_id g' !! v = Some n /\
       treestates g' !! Z.to_nat n = Some ts /\ ts_code ts = v).
Proof.
  intros fuel g g' cw cw' d n Htab H.
  destruct (get_code_grown _ _ _ _ _ _ H) as (_ & Hsub & Htab').
  specialize (Htab' Htab).
  split; [exact Htab' |]. split; [exact Hsub |].
  apply get_code_cases in H.
  destruct H as [(Hc & Hp & -> & _) | (_ & g3 & g4 & cd & v & S3 & Hid & _ & Hcase)].
  - split; [left; reflexivity |]. intros [E | E]; contradiction.
  - apply id_at_spin_codes in Hid.
    destruct (same_codes_trans _ _ _ S3 Hid) as [Ht4 Hc4].
    assert (Hfound : code_to_id g' !! v = Some n).
    { destruct Hcase as [(Hv & ->) | (_ & _ & _ & ->)];
        [exact Hv | apply lookup_insert_eq]. }
    split.
    + destruct Hcase as [(_ & ->) | (Hnone & Hn & Ht & Hc)].
      * left. simpl. exact Ht4.
      * right. exists v. rewrite <- Ht4, <- Hc4.
        split; [exact Hnone |]. split; [exact Hc |]. split; [exact Hn | exact Ht].
    + intros _. destruct (Htab' v n Hfound) as (_ & ts & Hts & _ & Hcd).
      exists v, ts. split; [exact Hfound |]. split; [exact Hts | exact Hcd].
Qed.

Lemma compare_never_returns (fuel : nat) (g : gstate) (az : gmap aid_t analyzer)
    (cwmain : walker) (n : Z) (r cids : list Z) (out : gstate * walker) :
  (g ← handle_distance_errors g;
   '(g, az, mismatches) ← RulesFor.compare_rules (seq 0 (length cids)) fuel g az cwmain n
                            r cids 0;
   if negb (mismatches =? 0) then Throw (rulegen_retry "mismatch error")
   else Throw (rulegen_failure "no mismatches?!")) <> Ok out.
Proof.
  intros H.
  apply bind_Ok_inv in H. destruct H as (g1 & _ & H).
  apply bind_Ok_inv in H. destruct H as ([[g2 az2] mism] & _ & H).
  destruct (negb (mism =? 0)); discriminate.
Qed.

(** A known state whose rules differ from the ones [gen_rule] computes:
    [rules_iteration_for] ends in an exception or does not end. *)
Lemma rules_iteration_for_differs (fuel : nat) (g : gstate) (az : gmap aid_t analyzer)
    (cw cw1 cw2 cwmain : walker) (g1 g2 g3 g4 : gstate) (d n : Z) (cids : list Z)
    (ts : treestate) (out : gstate * walker) :
  ufind_s fuel g cw = Ok (g1, cw1) ->
  get_code fuel g1 cw1 = Ok (g2, cw2, (d, n)) ->
  ufind_s fuel g2 (twalker (at' cw2) d) = Ok (g3, cwmain) ->
  gen_rule fuel g3 cwmain n = Ok (g4, cids) ->
  0 <= n ->
  treestates g4 !! Z.to_nat n = Some ts ->
  known ts = true ->
  rules ts <> cids ->
  RulesFor.rules_iteration_for fuel g az cw <> Ok out.
Proof.
  intros H1 H2 H3 H4 Hn Hts Hknown Hdiff H.
  unfold RulesFor.rules_iteration_for in H.
  apply bind_Ok_inv in H. destruct H as ([g1' cw1'] & E1 & H).
  rewrite H1 in E1. injection E1 as <- <-.
  apply bind_Ok_inv in H. destruct H as ([[g2' cw2'] [d' n']] & E2 & H).
  rewrite H2 in E2. injection E2 as <- <- <- <-.
  apply bind_Ok_inv in H. destruct H as ([g3' cwmain'] & E3 & H).
  cbn [fst snd] in *. rewrite H3 in E3. injection E3 as <- <-.
  apply bind_Ok_inv in H. destruct H as ([g4' cids'] & E4 & H).
  rewrite H4 in E4. injection E4 as <- <-.
  apply bind_Ok_inv in H. destruct H as (ts' & E5 & H).
  apply at_index_Ok in E5. destruct E5 as [_ E5].
  rewrite Hts in E5. injection E5 as <-.
  rewrite Hknown in H. cbn [negb] in H.
  rewrite bool_decide_eq_false_2 in H by exact Hdiff. cbn [negb] in H.
  exact (compare_never_returns _ _ _ _ _ _ _ _ H).
Qed.

(** X16.  [rules_iteration_for(cw)], when it returns, with callees that
    leave the table alone.  Let [n] be the id [get_code] gives for the
    representative of [cw], [cwmain] the representative of the walker
    turned to the parent direction [get_code] gives, and [cids] the rules
    [gen_rule] computes for [cwmain] and [n], in the state [g4].  Then:
    the table of codes stays consistent and the table of states does not
    shrink; a state that was known keeps all its fields; every state
    keeps its [id] and [code]; the state [n] is known on return and its
    rules are [cids]; if it was known in [g4] its rules already were
    [cids] and nothing is written; if it was not, it is the old state
    with [known], [rules], [giver], [sid], [parent_dir] and [is_root]
    filled in, and nothing else is written.  For a known state whose
    rules differ from [cids] the function never returns. *)
Theorem rules_iteration_for_known :
  forall (fuel : nat) (g g' : gstate) (az : gmap aid_t analyzer) (cw cw' : walker),
    code_table g ->
    RulesFor.rules_iteration_for fuel g az cw = Ok (g', cw') ->
    code_table g' /\
    (length (treestates g) <= length (treestates g'))%nat /\
    (forall j ts, treestates g !! j = Some ts -> known ts = true ->
                  treestates g' !! j = Some ts) /\
    (forall j ts, treestates g !! j = Some ts ->
       exists ts', treestates g' !! j = Some ts' /\
                   ts_id ts' = ts_id ts /\ ts_code ts' = ts_code ts) /\
    (exists (g1 g2 g3 g4 : gstate) (cw1 cwmain : walker) (d n : Z) (cids : list Z)
            (ts4 ts' : treestate),
       ufind_s fuel g cw = Ok (g1, cw1) /\
       get_code fuel g1 cw1 = Ok (g2, cw', (d, n)) /\
       ufind_s fuel g2 (twalker (at' cw') d) = Ok (g3, cwmain) /\
       gen_rule fuel g3 cwmain n = Ok (g4, cids) /\
       0 <= n /\
       treestates g4 !! Z.to_nat n = Some ts4 /\
       treestates g' !! Z.to_nat n = Some ts' /\
       known ts' = true /\
       rules ts' = cids /\
       (known ts4 = true -> rules ts4 = cids /\ ts' = ts4 /\ g' = g4) /\
       (known ts4 = false ->
          ts' = mk_treestate (ts_id ts4) true cids (Some cwmain)
                  (id (tiles g4 !!! at' cwmain)) (spin cwmain) (where_seen ts4)
                  (ts_code ts4) (is_live ts4) (is_possible_parent ts4)
                  (dist (tiles g4 !!! at' cw') =? 0) (possible_parents ts4) /\
          g' = with_treestates g4 (<[Z.to_nat n := ts']> (treestates g4)))) /\
    (forall (g1 g2 g3 g4 : gstate) (cw1 cw2 cwmain : walker) (d n : Z) (cids : list Z)
            (ts4 : treestate) (az0 : gmap aid_t analyzer) (out : gstate * walker),
       ufind_s fuel g cw = Ok (g1, cw1) ->
       get_code fuel g1 cw1 = Ok (g2, cw2, (d, n)) ->
       ufind_s fuel g2 (twalker (at' cw2) d) = Ok (g3, cwmain) ->
       gen_rule fuel g3 cwmain n = Ok (g4, cids) ->
       0 <= n ->
       treestates g4 !! Z.to_nat n = Some ts4 ->
       known ts4 = true ->
       rules ts4 <> cids ->
       RulesFor.rules_iteration_for fuel g az0 cw <> Ok out).
Proof.
  intros fuel g g' az cw cw' Htab H.
  assert (Hdiffers :
    forall (g1 g2 g3 g4 : gstate) (cw1 cw2 cwmain : walker) (d n : Z) (cids : list Z)
           (ts4 : treestate) (az0 : gmap aid_t analyzer) (out : gstate * walker),
      ufind_s fuel g cw = Ok (g1, cw1) ->
      get_code fuel g1 cw1 = Ok (g2, cw2, (d, n)) ->
      ufind_s fuel g2 (twalker (at' cw2) d) = Ok (g3, cwmain) ->
      gen_rule fuel g3 cwmain n = Ok (g4, cids) ->
      0 <= n ->
      treestates g4 !! Z.to_nat n = Some ts4 ->
      known ts4 = true ->
      rules ts4 <> cids ->
      RulesFor.rules_iteration_for fuel g az0 cw <> Ok out).
  { intros. eapply rules_iteration_for_differs; eassumption. }
  unfold RulesFor.rules_iteration_for in H.
  apply bind_Ok_inv in H. destruct H as ([g1 cw1] & H1 & H).
  apply bind_Ok_inv in H. destruct H as ([[g2 cw2] [d n]] & H2 & H).
  apply bind_Ok_inv in H. destruct H as ([g3 cwmain] & H3 & H).
  apply bind_Ok_inv in H. destruct H as ([g4 cids] & H4 & H).
  apply bind_Ok_inv in H. destruct H as (ts & H5 & H).
  cbn [fst snd] in *.
  apply at_index_Ok in H5. destruct H5 as [Hn Hts].
  assert (G : codes_grown g g4).
  { apply (codes_grown_trans _ g1);
      [apply same_codes_grown; exact (ufind_s_codes _ _ _ _ _ H1) |].
    apply (codes_grown_trans _ g2); [exact (get_code_grown _ _ _ _ _ _ H2) |].
    apply (codes_grown_trans _ g3);
      [apply same_codes_grown; exact (ufind_s_codes _ _ _ _ _ H3) |].
    exact (gen_rule_grown _ _ _ _ _ _ H4). }
  destruct G as (Hpre & _ & Htab4). specialize (Htab4 Htab).
  destruct (known ts) eqn:Hknown; cbn [negb] in H.
  - destruct (bool_decide (rules ts = cids)) eqn:Hsame; cbn [negb] in H.
    + injection H as <- <-. apply bool_decide_eq_true in Hsame.
      split; [exact Htab4 |]. split; [apply prefix_length; exact Hpre |].
      split; [intros j tsj Hj _; exact (prefix_lookup_Some _ _ _ _ Hj Hpre) |].
      split.
      * intros j tsj Hj. exists tsj.
        split; [exact (prefix_lookup_Some _ _ _ _ Hj Hpre) |]. split; reflexivity.
      * split; [| exact Hdiffers].
        exists g1, g2, g3, g4, cw1, cwmain, d, n, cids, ts, ts.
        split; [exact H1 |]. split; [exact H2 |]. split; [exact H3 |].
        split; [exact H4 |]. split; [lia |]. split; [exact Hts |].
        split; [exact Hts |]. split; [exact Hknown |]. split; [exact Hsame |].
        split; [intros _; repeat split; [exact Hsame] | congruence].
    + exfalso. exact (compare_never_returns _ _ _ _ _ _ _ _ H).
  - injection H as <- <-. cbn [treestates with_treestates].
    set (ts' := set_is_root _ _).
    assert (Hid' : ts_id ts' = ts_id ts /\ ts_code ts' = ts_code ts /\
                   known ts' = true /\ rules ts' = cids) by (repeat split; reflexivity).
    destruct Hid' as (Hid' & Hcode' & Hknown' & Hrules').
    assert (Hlt : (Z.to_nat n < length (treestates g4))%nat)
      by (apply lookup_lt_Some in Hts; exact Hts).
    split; [| split; [| split; [| split]]].
    + intros v m Hv. cbn [treestates code_to_id with_treestates] in Hv |- *.
      destruct (Htab4 v m Hv) as (Hm & tsm & Htsm & Hi & Hc).
      split; [exact Hm |].
      destruct (decide (Z.to_nat n = Z.to_nat m)) as [E | E].
      * exists ts'. rewrite <- E. rewrite list_lookup_insert_eq by exact Hlt.
        rewrite <- E, Hts in Htsm. injection Htsm as <-.
        split; [reflexivity |]. split; [rewrite Hid'; exact Hi | rewrite Hcode'; exact Hc].
      * exists tsm. rewrite list_lookup_insert_ne by exact E. repeat split; assumption.
    + rewrite length_insert. apply prefix_length. exact Hpre.
    + intros j tsj Hj Hkj. pose proof (prefix_lookup_Some _ _ _ _ Hj Hpre) as Hj4.
      destruct (decide (Z.to_nat n = j)) as [E | E].
      * subst j. rewrite Hts in Hj4. injection Hj4 as <-. congruence.
      * rewrite list_lookup_insert_ne by exact E. exact Hj4.
    + intros j tsj Hj. pose proof (prefix_lookup_Some _ _ _ _ Hj Hpre) as Hj4.
      destruct (decide (Z.to_nat n = j)) as [E | E].
      * subst j. rewrite Hts in Hj4. injection Hj4 as <-. exists ts'.
        rewrite list_lookup_insert_eq by exact Hlt. repeat split; assumption.
      * exists tsj. rewrite list_lookup_insert_ne by exact E. repeat split; assumption.
    + split; [| exact Hdiffers].
      exists g1, g2, g3, g4, cw1, cwmain, d, n, cids, ts, ts'.
      split; [exact H1 |]. split; [exact H2 |]. split; [exact H3 |].
      split; [exact H4 |]. split; [lia |]. split; [exact Hts |].
      split; [apply list_lookup_insert_eq; exact Hlt |]. split; [exact Hknown' |].
      split; [exact Hrules' |].
      split; [congruence |]. intros _. split; reflexivity.
Qed.

End TableFacts.

Lemma settled_codes_kept : codes_kept settled.
Proof.
  constructor; simpl; intros; try discriminate;
    match goal with H : Ok _ = Ok _ |- _ => injection H; intros; subst end;
    apply same_codes_refl.
Qed.

Lemma torus_code_table : code_table torus_tile.
Proof. intros v n Hv. simpl in Hv. rewrite lookup_empty in Hv. discriminate. Qed.

Lemma get_code_table_witness :
  exists g' cw' d n,
    get_code (su := sample_setup) (ca := settled) 10 torus_tile (twalker 0%nat 0)
    = Ok (g', cw', (d, n)) /\
    code_table g' /\ n = 0 /\ length (treestates g') = 1%nat.
Proof.
  assert (Hrun : { r | get_code (su := sample_setup) (ca := settled) 10 torus_tile
                         (twalker 0%nat 0) = Ok r }).
  { eexists. vm_compute. reflexivity. }
  destruct Hrun as [[[g' cw'] [d n]] Hrun].
  destruct (get_code_table (su := sample_setup) (ca := settled) settled_codes_kept
              10 torus_tile g' (twalker 0%nat 0) cw' d n torus_code_table Hrun)
    as (Htab & _ & Hgrow & _).
  exists g', cw', d, n. split; [exact Hrun |]. split; [exact Htab |].
  destruct Hgrow as [Hsame | (v & _ & _ & Hn & Ht)].
  - exfalso. revert Hrun. vm_compute. intros Hrun. injection Hrun as <- _ _ _.
    vm_compute in Hsame. discriminate.
  - split; [exact Hn |]. rewrite Ht. reflexivity.
Defined.

(** On the square glued to itself [rules_iteration_for] finds the first
    state: its code has the root and four equal neighbours, and every edge
    gets the rule [LEFT]. *)
Example rules_iteration_for_torus :
  (p ← RulesFor.rules_iteration_for (su := sample_setup) (ca := settled) 10 torus_tile ∅
         (twalker 0%nat 0);
   Ok (treestates p.1))
  = Ok [mk_treestate 0 true [DIR_LEFT; DIR_LEFT; DIR_LEFT; DIR_LEFT]
          (Some (twalker 0%nat 0)) 0 0 (Some (twalker 0%nat 0))
          ((0, 0), [C_CHILD; C_EQUAL; C_EQUAL; C_EQUAL; C_EQUAL]) true false true []].
Proof. vm_compute. reflexivity. Qed.

Lemma rules_iteration_for_known_witness :
  exists g' cw',
    RulesFor.rules_iteration_for (su := sample_setup) (ca := settled) 10 torus_tile ∅
      (twalker 0%nat 0) = Ok (g', cw') /\
    code_table g' /\
    exists (g1 g2 : gstate) (cw1 : walker) (d n : Z) (ts' : treestate),
      ufind_s 10 torus_tile (twalker 0%nat 0) = Ok (g1, cw1) /\
      get_code (su := sample_setup) (ca := settled) 10 g1 cw1 = Ok (g2, cw', (d, n)) /\
      treestates g' !! Z.to_nat n = Some ts' /\ known ts' = true.
Proof.
  assert (Hrun : { r | RulesFor.rules_iteration_for (su := sample_setup) (ca := settled)
                         10 torus_tile ∅ (twalker 0%nat 0) = Ok r }).
  { eexists. vm_compute. reflexivity. }
  destruct Hrun as [[g' cw'] Hrun].
  destruct (rules_iteration_for_known (su := sample_setup) (ca := settled)
              settled_codes_kept 10 torus_tile g' ∅ (twalker 0%nat 0) cw'
              torus_code_table Hrun)
    as (Htab & _ & _ & _ & Hstate & _).
  exists g', cw'. split; [exact Hrun |]. split; [exact Htab |].
  destruct Hstate as (g1 & g2 & g3 & g4 & cw1 & cwmain & d & n & cids & ts4 & ts'
                      & H1 & H2 & _ & _ & _ & _ & Hts & Hknown & _).
  exists g1, g2, cw1, d, n, ts'.
  split; [exact H1 |]. split; [exact H2 |]. split; [exact Hts | exact Hknown].
Defined.

(** ** The list of tiles *)

Lemma chain_ext (h h' : heap) :
  forall (l : list ptr) (c0 : option ptr),
    (forall p, p ∈ l -> is_Some (h !! p) ->
               is_Some (h' !! p) /\ next (h' !!! p) = next (h !!! p)) ->
    chain h c0 l -> chain h' c0 l.
Proof.
  induction l as [| p l IH]; intros c0 Hsame Hc; [exact Hc |].
  destruct Hc as (-> & Hp & Hrest).
  destruct (Hsame p ltac:(left) Hp) as [Hp' Hnext].
  split; [reflexivity |]. split; [exact Hp' |]. rewrite Hnext.
  apply IH; [| exact Hrest].
  intros q Hq. apply Hsame. right. exact Hq.
Qed.

Lemma each_tcell_spec (f : tcell -> tcell) :
  (forall t, next (f t) = next t) ->
  forall (l : list ptr) (h : heap) (c0 : option ptr) (fuel : nat),
    chain h c0 l -> NoDup l -> (length l < fuel)%nat ->
    exists h',
      Arena.each_tcell fuel f h c0 = Ok h' /\
      forall p, h' !! p = if decide (p ∈ l) then f <$> h !! p else h !! p.
Proof.
  intros Hnext. induction l as [| p l IH]; intros h c0 fuel Hc Hnd Hfuel.
  - simpl in Hc. subst c0. exists h. destruct fuel; (split; [reflexivity |]);
      intros p; rewrite decide_False by (intros Hin; inversion Hin); reflexivity.
  - destruct Hc as (-> & [t Ht] & Hrest). apply NoDup_cons in Hnd.
    destruct Hnd as [Hnotin Hnd]. destruct fuel as [| fuel]; [simpl in Hfuel; lia |].
    cbn [Arena.each_tcell]. rewrite upd_same, Hnext.
    assert (Hc1 : chain (upd h p f) (next (h !!! p)) l).
    { apply (chain_ext h); [| exact Hrest]. intros q Hq Hsq.
      assert (Hne : p <> q) by (intros ->; contradiction).
      unfold upd. rewrite lookup_insert_ne by exact Hne.
      rewrite lookup_total_insert_ne by exact Hne. split; [exact Hsq | reflexivity]. }
    destruct (IH (upd h p f) _ fuel Hc1 Hnd ltac:(simpl in Hfuel; lia)) as (h' & Hrun & Hh').
    exists h'. split; [exact Hrun |]. intros q. rewrite Hh'.
    destruct (decide (q = p)) as [-> | Hne].
    + rewrite decide_False by exact Hnotin. rewrite decide_True by left.
      unfold upd. rewrite lookup_insert_eq, Ht.
      rewrite (lookup_total_correct _ _ _ Ht). reflexivity.
    + unfold upd. rewrite lookup_insert_ne by congruence.
      destruct (decide (q ∈ l)) as [Hin | Hout].
      * rewrite decide_True by (right; exact Hin). reflexivity.
      * rewrite decide_False; [reflexivity |].
        intros Hin. apply elem_of_cons in Hin. destruct Hin; contradiction.
Qed.

Lemma delete_tcells_spec :
  forall (l : list ptr) (h : heap) (c0 : option ptr) (fuel : nat),
    chain h c0 l -> NoDup l -> (length l < fuel)%nat ->
    exists h',
      Arena.delete_tcells fuel h c0 = Ok h' /\
      forall p, h' !! p = if decide (p ∈ l) then None else h !! p.
Proof.
  induction l as [| p l IH]; intros h c0 fuel Hc Hnd Hfuel.
  - simpl in Hc. subst c0. exists h. destruct fuel; (split; [reflexivity |]);
      intros p; rewrite decide_False by (intros Hin; inversion Hin); reflexivity.
  - destruct Hc as (-> & [t Ht] & Hrest). apply NoDup_cons in Hnd.
    destruct Hnd as [Hnotin Hnd]. destruct fuel as [| fuel]; [simpl in Hfuel; lia |].
    cbn [Arena.delete_tcells].
    assert (Hc1 : chain (delete p h) (next (h !!! p)) l).
    { apply (chain_ext h); [| exact Hrest]. intros q Hq Hsq.
      assert (Hne : p <> q) by (intros ->; contradiction).
      rewrite lookup_delete_ne by exact Hne.
      rewrite lookup_total_delete_ne by exact Hne. split; [exact Hsq | reflexivity]. }
    destruct (IH (delete p h) _ fuel Hc1 Hnd ltac:(simpl in Hfuel; lia)) as (h' & Hrun & Hh').
    exists h'. split; [exact Hrun |]. intros q. rewrite Hh'.
    destruct (decide (q = p)) as [-> | Hne].
    + rewrite decide_False by exact Hnotin. rewrite decide_True by left.
      apply lookup_delete_eq.
    + rewrite lookup_delete_ne by congruence.
      destruct (decide (q ∈ l)) as [Hin | Hout].
      * rewrite decide_True by (right; exact Hin). reflexivity.
      * rewrite decide_False; [reflexivity |].
        intros Hin. apply elem_of_cons in Hin. destruct Hin; contradiction.
Qed.

Lemma listed_lookup (h : heap) (l : list ptr) (p : ptr) :
  dom h = list_to_set l -> p ∉ l -> h !! p = None.
Proof.
  intros Hdom Hout. apply not_elem_of_dom. rewrite Hdom.
  rewrite elem_of_list_to_set. exact Hout.
Qed.

Section ArenaFacts.

Context {su : Setup}.

(** X17.  The list of tiles headed by [first_tcell] is complete, and the
    loops over it reach every tile.  If the list runs through the tiles
    [l] without repetition and these are all the tiles of the arena, then
    - after [gen_tcell], with a new address, the list runs through the new
      tile and then [l], and these are again all the tiles;
    - [clear_tcell_data] ends and leaves every tile of the arena with
      [is_solid] and [distance_fixed] cleared and [parent_dir] and [code]
      unset, the queue empty and [in_fixing] cleared;
    - [clear_codes] ends and leaves every tile with [code] unset, and the
      two tables empty;
    - [delete_tmap] ends and leaves no tile, an empty list and the two
      counters at 0. *)
Theorem tcell_list_complete :
  forall (g : gstate) (first_tcell : option ptr) (l : list ptr),
    chain (tiles g) first_tcell l -> NoDup l -> dom (tiles g) = list_to_set l ->
    (forall (a : ptr) (sid : Z),
       tiles g !! a = None ->
       exists g',
         Arena.gen_tcell a g first_tcell sid = (g', Some a, a) /\
         chain (tiles g') (Some a) (a :: l) /\ NoDup (a :: l) /\
         dom (tiles g') = list_to_set (a :: l) /\
         tcellcount g' = tcellcount g + 1) /\
    (exists g',
       ends_with (fun fuel => Arena.clear_tcell_data fuel g first_tcell) g' /\
       (forall p, tiles g' !! p = Arena.clear_tcell <$> tiles g !! p) /\
       in_fixing g' = false /\ fix_queue g' = []) /\
    (exists g',
       ends_with (fun fuel => Arena.clear_codes fuel g first_tcell) g' /\
       (forall p, tiles g' !! p = (fun t => set_code t MYSTERY) <$> tiles g !! p) /\
       treestates g' = [] /\ code_to_id g' = ∅) /\
    (exists g',
       ends_with (fun fuel => Arena.delete_tmap fuel g first_tcell) (g', None) /\
       tiles g' = ∅ /\ tcellcount g' = 0 /\ tunified g' = 0).
Proof.
  intros g first_tcell l Hc Hnd Hdom.
  assert (Hall : forall (f : tcell -> tcell), (forall t, next (f t) = next t) ->
            forall h, h = tiles g ->
            exists h', ends_with (fun fuel => Arena.each_tcell fuel f h first_tcell) h' /\
                       forall p, h' !! p = f <$> tiles g !! p).
  { intros f Hf h ->.
    destruct (each_tcell_spec f Hf l (tiles g) first_tcell (S (length l)) Hc Hnd
                ltac:(lia)) as (h' & _ & Hh').
    exists h'. split.
    - exists (S (length l)). intros fuel Hfuel.
      destruct (each_tcell_spec f Hf l (tiles g) first_tcell fuel Hc Hnd ltac:(lia))
        as (h2 & Hrun & Hh2).
      rewrite Hrun. f_equal. apply map_eq. intros p. rewrite Hh', Hh2. reflexivity.
    - intros p. rewrite Hh'. destruct (decide (p ∈ l)) as [_ | Hout]; [reflexivity |].
      rewrite (listed_lookup _ _ _ Hdom Hout). reflexivity. }
  split; [| split; [| split]].
  - intros a sid Ha. eexists. split; [reflexivity |].
    cbn [tiles with_tiles with_tcellcount tcellcount].
    assert (Hout : a ∉ l).
    { intros Hin. assert (Hd : a ∈ dom (tiles g)).
      { rewrite Hdom. apply elem_of_list_to_set. exact Hin. }
      apply elem_of_dom in Hd. rewrite Ha in Hd. destruct Hd; discriminate. }
    split; [| split; [| split]].
    + split; [reflexivity |]. split; [rewrite lookup_insert_eq; eauto |].
      rewrite lookup_total_insert_eq. cbn [next new_tcell].
      apply (chain_ext (tiles g)); [| exact Hc]. intros q Hq Hsq.
      assert (Hne : a <> q) by (intros ->; contradiction).
      rewrite lookup_insert_ne by exact Hne.
      rewrite lookup_total_insert_ne by exact Hne. split; [exact Hsq | reflexivity].
    + apply NoDup_cons. split; assumption.
    + rewrite dom_insert_L, Hdom. reflexivity.
    + reflexivity.
  - destruct (Hall Arena.clear_tcell ltac:(intros t; reflexivity) (tiles g) eq_refl)
      as (h' & [n Hend] & Hh').
    eexists. split; [| split; [| split]].
    + exists n. intros fuel Hfuel. unfold Arena.clear_tcell_data.
      rewrite (Hend fuel Hfuel). reflexivity.
    + exact Hh'.
    + reflexivity.
    + reflexivity.
  - destruct (Hall (fun t => set_code t MYSTERY) ltac:(intros t; reflexivity)
                (tiles g) eq_refl) as (h' & [n Hend] & Hh').
    eexists. split; [| split; [| split]].
    + exists n. intros fuel Hfuel. unfold Arena.clear_codes.
      cbn [tiles with_treestates with_code_to_id].
      rewrite (Hend fuel Hfuel). reflexivity.
    + exact Hh'.
    + reflexivity.
    + reflexivity.
  - eexists. split; [| split; [| split]].
    + exists (S (length l)). intros fuel Hfuel. unfold Arena.delete_tmap.
      destruct (delete_tcells_spec l (tiles g) first_tcell fuel Hc Hnd ltac:(lia))
        as (h' & Hrun & Hh').
      rewrite Hrun. cbn [mbind result_bind].
      assert (Hempty : h' = ∅).
      { apply map_eq. intros p. rewrite Hh', lookup_empty.
        destruct (decide (p ∈ l)) as [_ | Hout]; [reflexivity |].
        exact (listed_lookup _ _ _ Hdom Hout). }
      rewrite Hempty. reflexivity.
    + reflexivity.
    + reflexivity.
    + reflexivity.
Qed.

End ArenaFacts.

Lemma tcell_list_complete_witness :
  exists g',
    ends_with (fun fuel => Arena.clear_tcell_data fuel three_tiles (Some 2%nat)) g' /\
    forall p, tiles g' !! p = Arena.clear_tcell <$> tiles three_tiles !! p.
Proof.
  assert (Hc : chain (tiles three_tiles) (Some 2%nat) [2%nat; 1%nat; 0%nat]).
  { repeat split; vm_compute; eauto. }
  assert (Hnd : NoDup [2%nat; 1%nat; 0%nat]).
  { refine (bool_decide_unpack _ _). vm_compute. exact I. }
  assert (Hdom : dom (tiles three_tiles) = list_to_set [2%nat; 1%nat; 0%nat]).
  { refine (bool_decide_unpack _ _). vm_compute. exact I. }
  destruct (tcell_list_complete (su := sample_setup) three_tiles (Some 2%nat)
              [2%nat; 1%nat; 0%nat] Hc Hnd Hdom)
    as (_ & (g' & Hend & Hall & _) & _).
  exists g'. split; [exact Hend | exact Hall].
Defined.

(** Three tiles made one after the other are all reached by
    [clear_tcell_data], and all deleted by [delete_tmap]. *)
Example tcell_list_sample :
  (g ← Arena.clear_tcell_data 4 (Arena.gen_tcell (su := sample_setup) 3%nat three_tiles
                                  (Some 2%nat) 0).1.1 (Some 3%nat);
   Ok ((fun p => code (tiles g !!! p)) <$> [0%nat; 1%nat; 2%nat; 3%nat]))
  = Ok [MYSTERY; MYSTERY; MYSTERY; MYSTERY] /\
  (p ← Arena.delete_tmap 4 three_tiles (Some 2%nat); Ok (map_to_list (tiles p.1)))
  = Ok [].
Proof. split; vm_compute; reflexivity. Qed.
